(** * Double-array trie of [src/tdict.c] and [src/tdict.h]

    A shallow embedding of the trie engine: the double array
    ([base]/[check] with the free ring threaded through cell 1), the tail
    pool with its free chain, and the public operations built on them.

    Conventions of the embedding.
    - [long] values are [Z]; the model targets an LP64 platform, so the
      [unsigned long] comparison performed by the accessor macros is
      written with the 64-bit wrap-around ([ulong]).
    - C arrays are lists; [NULL] arrays are the empty list.  The cells
      [zrealloc] adds to [base] and [check] are all written by
      [trieExpand] before anything reads them.  The slots it adds to the
      tail pool are not: what they hold is given by the field [raw].
    - [int] and [short] variables that receive a [long] keep its low 32
      or 16 bits ([int_of_long], [short_of]).
    - A [TrieChar*] string is the list of its characters up to, and not
      including, the terminator; reading at the end of the list yields
      [TRIE_CHAR_TERM].
    - [void*] values are integers ([NULL] is [0]); a key pointer is the
      byte string it points to ([None] for [NULL]).
    - Unbounded [while] loops take a [fuel] argument and return [None]
      when it runs out.
    - Calls to the type's callbacks are appended to the [calls] field,
      and the tail pool each call finds to the [seen] field. *)

From Stdlib Require Import ZArith List Lia Bool.
Import ListNotations.
Open Scope Z_scope.

(** ** Constants of [tdict.h] *)

Definition TDICT_OK : Z := 0.
Definition TDICT_ERR : Z := 1.

Definition TrieChar := Z.
Definition TRIE_CHAR_TERM : TrieChar := 0.
Definition TRIE_CHAR_MAX : Z := 255.

Definition TRIE_INDEX_ERROR : Z := 0.
Definition TRIE_INDEX_HALFMAX : Z := 0x3fffffff.
Definition TRIE_INDEX_MAX : Z := 0x7fffffff.

Definition DA_SIGNATURE : Z := 0xDAFCDAFC.
Definition DA_POOL_FREE : Z := 1.
Definition DA_POOL_ROOT : Z := 2.
Definition DA_POOL_BEGIN : Z := 3.

Definition TAIL_SIGNATURE : Z := 0xDFFCDFFC.
Definition TAIL_START_BLOCKNO : Z := 2.

(** ** Machine integers and arrays *)

(** Conversion of a [long] to [unsigned long]. *)
Definition ulong (x : Z) : Z := x mod 2 ^ 64.

(** Conversion of a [long] to [int]: the low 32 bits, read as a signed
    number.  It is also what [*(int * )p] reads from a [long] on a
    little-endian platform. *)
Definition int_of_long (x : Z) : Z :=
  let u := x mod 2 ^ 32 in if u <? 2 ^ 31 then u else u - 2 ^ 32.

(** Conversion to [short]: the low 16 bits, read as a signed number. *)
Definition short_of (x : Z) : Z :=
  let u := x mod 2 ^ 16 in if u <? 2 ^ 15 then u else u - 2 ^ 16.

(** [(i) < (n)] where [n] is an [unsigned long]. *)
Definition ult (i n : Z) : bool := ulong i <? ulong n.

Definition MIN_VAL (a b : Z) : Z := if a <? b then a else b.
(** [MIN_VAL] when one operand is [unsigned long]: the comparison is
    unsigned. *)
Definition MIN_VAL_u (a b : Z) : Z := if ulong a <? ulong b then a else b.

Fixpoint upd {A : Type} (l : list A) (n : nat) (x : A) : list A :=
  match l, n with
  | [], _ => []
  | _ :: l', O => x :: l'
  | h :: l', S n' => h :: upd l' n' x
  end.

Definition zget (l : list Z) (i : Z) : Z := nth (Z.to_nat i) l 0.
Definition zset (l : list Z) (i : Z) (v : Z) : list Z := upd l (Z.to_nat i) v.

(** ** Data model *)

Definition cstr := list TrieChar.
Definition keyptr := option (list Z).
Definition valptr := Z.
Definition NULL : valptr := 0.

Record keyRange := mkRange { range_begin : Z; range_end : Z }.

Record trieEntry := mkEntry {
  suffix : option cstr;
  key : keyptr;
  val : valptr;
  next_free : Z
}.

Definition blankEntry : trieEntry := mkEntry None None NULL 0.

Record trieType := mkType {
  encodingFunction : list Z -> cstr;
  keyDup : option (keyptr -> keyptr);
  valDup : option (valptr -> valptr);
  keyDestructor : bool;
  valDestructor : bool;
  range : list keyRange
}.

(** Callback invocations, in the order in which they happen. *)
Inductive call :=
| CallKeyDup (k : keyptr)
| CallValDup (v : valptr)
| CallKeyDestructor (k : keyptr)
| CallValDestructor (v : valptr).

(** The last three fields are not part of the C structure.  [calls]
    lists the callback invocations and [seen] the tail pool each of them
    found, in the same order.  [raw i] is what the memory holds that
    [zrealloc] hands out for slot [i] of a grown pool: the code does not
    write it before the slot is allocated. *)
Record trie := mkTrie {
  base : list Z;
  check : list Z;
  dasize : Z;
  used : Z;
  tails : list trieEntry;
  tailsize : Z;
  first_free : Z;
  iterators : Z;
  type : trieType;
  calls : list call;
  raw : Z -> trieEntry;
  seen : list (list trieEntry)
}.

Definition with_base (t : trie) (b : list Z) : trie :=
  mkTrie b (check t) (dasize t) (used t) (tails t) (tailsize t)
         (first_free t) (iterators t) (type t) (calls t) (raw t) (seen t).
Definition with_check (t : trie) (c : list Z) : trie :=
  mkTrie (base t) c (dasize t) (used t) (tails t) (tailsize t)
         (first_free t) (iterators t) (type t) (calls t) (raw t) (seen t).
Definition with_dasize (t : trie) (n : Z) : trie :=
  mkTrie (base t) (check t) n (used t) (tails t) (tailsize t)
         (first_free t) (iterators t) (type t) (calls t) (raw t) (seen t).
Definition with_used (t : trie) (n : Z) : trie :=
  mkTrie (base t) (check t) (dasize t) n (tails t) (tailsize t)
         (first_free t) (iterators t) (type t) (calls t) (raw t) (seen t).
Definition with_tails (t : trie) (l : list trieEntry) : trie :=
  mkTrie (base t) (check t) (dasize t) (used t) l (tailsize t)
         (first_free t) (iterators t) (type t) (calls t) (raw t) (seen t).
Definition with_tailsize (t : trie) (n : Z) : trie :=
  mkTrie (base t) (check t) (dasize t) (used t) (tails t) n
         (first_free t) (iterators t) (type t) (calls t) (raw t) (seen t).
Definition with_first_free (t : trie) (n : Z) : trie :=
  mkTrie (base t) (check t) (dasize t) (used t) (tails t) (tailsize t)
         n (iterators t) (type t) (calls t) (raw t) (seen t).
Definition with_call (t : trie) (c : call) : trie :=
  mkTrie (base t) (check t) (dasize t) (used t) (tails t) (tailsize t)
         (first_free t) (iterators t) (type t) (calls t ++ [c]) (raw t)
         (seen t ++ [tails t]).

(** ** Accessor macros of [tdict.h] *)

Definition trieSetBase (t : trie) (i v : Z) : trie :=
  if ult i (dasize t) then with_base t (zset (base t) i v) else t.

Definition trieSetCheck (t : trie) (i v : Z) : trie :=
  if ult i (dasize t) then with_check t (zset (check t) i v) else t.

Definition trieGetBase (t : trie) (i : Z) : Z :=
  if ult i (dasize t) then zget (base t) i else TRIE_INDEX_ERROR.

Definition trieGetCheck (t : trie) (i : Z) : Z :=
  if ult i (dasize t) then zget (check t) i else TRIE_INDEX_ERROR.

Definition trieBranchEnd (t : trie) (i : Z) : bool :=
  if ult i (dasize t) then zget (base t) i <? 0 else false.

Definition trieGetTailIndex (t : trie) (i : Z) : Z :=
  if ult i (dasize t) then - zget (base t) i else TRIE_INDEX_ERROR.

Definition trieSetTailIndex (t : trie) (i v : Z) : trie :=
  if ult i (dasize t) then with_base t (zset (base t) i (- v)) else t.

Definition tail_at (t : trie) (i : Z) : trieEntry :=
  nth (Z.to_nat i) (tails t) blankEntry.

Definition set_tail (t : trie) (i : Z) (e : trieEntry) : trie :=
  with_tails t (upd (tails t) (Z.to_nat i) e).

Definition trieGetTailSuffix (t : trie) (i : Z) : option cstr :=
  if ult (i - TAIL_START_BLOCKNO) (tailsize t)
  then suffix (tail_at t (i - TAIL_START_BLOCKNO)) else None.

(** [trieGetTrieEntry] yields a pointer into [tails]; the pointer is the
    slot number, [None] for [NULL]. *)
Definition trieGetTrieEntry (t : trie) (i : Z) : option Z :=
  if ult (i - TAIL_START_BLOCKNO) (tailsize t)
  then Some (i - TAIL_START_BLOCKNO) else None.

Definition entry_set_key (e : trieEntry) (k : keyptr) : trieEntry :=
  mkEntry (suffix e) k (val e) (next_free e).
Definition entry_set_val (e : trieEntry) (v : valptr) : trieEntry :=
  mkEntry (suffix e) (key e) v (next_free e).
Definition entry_set_suffix (e : trieEntry) (s : option cstr) : trieEntry :=
  mkEntry s (key e) (val e) (next_free e).
Definition entry_set_next_free (e : trieEntry) (n : Z) : trieEntry :=
  mkEntry (suffix e) (key e) (val e) n.

(** In both macros the duplicator is applied to the slot's current
    content and its result is dropped; only the branch without a
    duplicator stores. *)
Definition trieSetTailKey (t : trie) (i : Z) (k : keyptr) : trie :=
  let j := i - TAIL_START_BLOCKNO in
  if ult j (tailsize t) then
    match keyDup (type t) with
    | Some _ => with_call t (CallKeyDup (key (tail_at t j)))
    | None => set_tail t j (entry_set_key (tail_at t j) k)
    end
  else t.

Definition trieSetTailVal (t : trie) (i : Z) (v : valptr) : trie :=
  let j := i - TAIL_START_BLOCKNO in
  if ult j (tailsize t) then
    match valDup (type t) with
    | Some _ => with_call t (CallValDup (val (tail_at t j)))
    | None => set_tail t j (entry_set_val (tail_at t j) v)
    end
  else t.

(** ** Internal types of [tdict.c] *)

(** [Symbols]: the sorted array of child labels, with [num_symbols] the
    length of the list. *)
Definition Symbols := list TrieChar.

Definition symbols_new : Symbols := [].
Definition symbols_num (s : Symbols) : Z := Z.of_nat (length s).
Definition symbols_get (s : Symbols) (i : Z) : TrieChar := zget s i.
Definition symbols_add_fast (s : Symbols) (c : TrieChar) : Symbols := s ++ [c].

(** The binary search of [symbols_add]: [None] when [c] is already
    there, otherwise the insertion point. *)
Fixpoint symbols_search (fuel : nat) (s : Symbols) (c : TrieChar)
  (lower upper : Z) : option Z :=
  match fuel with
  | O => Some lower
  | S f =>
    if lower <? upper then
      let middle := (lower + upper) / 2 in
      if c >? zget s middle then symbols_search f s c (middle + 1) upper
      else if c <? zget s middle then symbols_search f s c lower middle
      else None
    else Some lower
  end.

Definition symbols_add (s : Symbols) (c : TrieChar) : Symbols :=
  match symbols_search (S (length s)) s c 0 (symbols_num s) with
  | None => s
  | Some lower =>
    firstn (Z.to_nat lower) s ++ c :: skipn (Z.to_nat lower) s
  end.

(** The explicit stack of [getTrieIterator]. *)
Definition stack := list Z.
Definition push (s : stack) (v : Z) : stack := v :: s.
Definition pop (s : stack) : Z * stack :=
  match s with
  | [] => (-1, [])
  | x :: s' => (x, s')
  end.
Definition stackEmpty (s : stack) : bool :=
  match s with [] => true | _ => false end.

(** ** Private functions *)

Definition _trieReset (t : trie) : trie :=
  mkTrie [] [] 0 0 [] 0 0 0 (type t) (calls t) (raw t) (seen t).

Definition _trieSetup (t : trie) : trie :=
  mkTrie [DA_SIGNATURE; -1; DA_POOL_BEGIN] [DA_POOL_BEGIN; -1; 0]
         DA_POOL_BEGIN (used t) (tails t) (tailsize t) (first_free t)
         (iterators t) (type t) (calls t) (raw t) (seen t).

(** [m] is the content of the memory the pool will grow into. *)
Definition _trieInit (ty : trieType) (m : Z -> trieEntry) : trie :=
  _trieSetup (_trieReset (mkTrie [] [] 0 0 [] 0 0 0 ty [] m [])).

(** The doubling loop of [_trieNextPower].  Below [TRIE_INDEX_HALFMAX]
    it doubles fewer than 64 times, so the bound is never reached. *)
Fixpoint nextPower_loop (fuel : nat) (i size : Z) : Z :=
  match fuel with
  | O => i
  | S f => if i >? size then i else nextPower_loop f (Z.shiftl i 1) size
  end.

Definition _trieNextPower (size : Z) : Z :=
  if size >=? TRIE_INDEX_HALFMAX then TRIE_INDEX_MAX
  else nextPower_loop 64 DA_POOL_BEGIN size.

Definition _daAssignCell (t : trie) (s : Z) : trie :=
  let prev := - trieGetBase t s in
  let next := - trieGetCheck t s in
  let t := trieSetCheck t prev (- next) in
  trieSetBase t next (- prev).

Fixpoint freeCell_scan (fuel : nat) (t : trie) (s i : Z) : option Z :=
  match fuel with
  | O => None
  | S f =>
    if negb (i =? DA_POOL_FREE) && (i <? s)
    then freeCell_scan f t s (- trieGetCheck t i)
    else Some i
  end.

Definition _daFreeCell (fuel : nat) (t : trie) (s : Z) : option trie :=
  match freeCell_scan fuel t s (- trieGetCheck t DA_POOL_FREE) with
  | None => None
  | Some i =>
    let prev := - trieGetBase t i in
    let t := trieSetCheck t s (- i) in
    let t := trieSetBase t s (- prev) in
    let t := trieSetCheck t prev (- s) in
    Some (trieSetBase t i (- s))
  end.

(** [zrealloc] to [n] elements. *)
Definition resize (l : list Z) (n : Z) : list Z :=
  firstn (Z.to_nat n) l ++ repeat 0 (Z.to_nat n - length l).

Fixpoint zrange (lo : Z) (n : nat) : list Z :=
  match n with
  | O => []
  | S n' => lo :: zrange (lo + 1) n'
  end.

Definition expand_link (t : trie) (i : Z) : trie :=
  trieSetBase (trieSetCheck t i (- (i + 1))) (i + 1) (- i).

Definition trieExpand (t : trie) (size : Z) : Z * trie :=
  if (size <=? 0) || (TRIE_INDEX_MAX <=? size) then (TDICT_ERR, t)
  else if ulong (dasize t) >=? ulong size then (TDICT_OK, t)
  else
    let realsize := _trieNextPower size in
    let t := with_base t (resize (base t) realsize) in
    let t := with_check t (resize (check t) realsize) in
    let new_begin := dasize t in
    let t := with_dasize t realsize in
    let t := fold_left expand_link
               (zrange new_begin (Z.to_nat (realsize - 1 - new_begin))) t in
    let free_tail := - trieGetBase t DA_POOL_FREE in
    let t := trieSetCheck t free_tail (- new_begin) in
    let t := trieSetBase t new_begin (- free_tail) in
    let t := trieSetCheck t (realsize - 1) (- DA_POOL_FREE) in
    let t := trieSetBase t DA_POOL_FREE (- (realsize - 1)) in
    (TDICT_OK, with_check t (zset (check t) 0 (dasize t))).

Definition _daPrepareSpace (t : trie) (s : Z) : bool * trie :=
  let '(r, t) := trieExpand t s in
  ((r =? 0) && (trieGetCheck t s <? 0), t).

Definition _daHasChildren (t : trie) (s : Z) : bool :=
  let b := trieGetBase t s in
  if (TRIE_INDEX_ERROR =? b) || (b <? 0) then false
  else
    let max_c := MIN_VAL TRIE_CHAR_MAX (TRIE_INDEX_MAX - b) in
    let max_c := MIN_VAL_u (dasize t) max_c in
    existsb (fun c => trieGetCheck t (b + c) =? s)
            (zrange 0 (Z.to_nat max_c)).

Fixpoint _daPrune (fuel : nat) (t : trie) (p s : Z) : option trie :=
  match fuel with
  | O => None
  | S f =>
    if negb (p =? s) && negb (_daHasChildren t s) then
      let parent := trieGetCheck t s in
      match _daFreeCell fuel t s with
      | None => None
      | Some t => _daPrune f t p parent
      end
    else Some t
  end.

Definition _daFillSymbols (t : trie) (s : Z) : Symbols :=
  let b := trieGetBase t s in
  let max_c := MIN_VAL TRIE_CHAR_MAX (TRIE_INDEX_MAX - b) in
  let max_c := MIN_VAL_u max_c (dasize t) in
  fold_left (fun syms c =>
               if trieGetCheck t (b + c) =? s then symbols_add_fast syms c
               else syms)
            (zrange 0 (Z.to_nat max_c)) symbols_new.

(** [_daFitSymbols] returns [TDICT_OK] when every symbol lands on a free
    cell; probing may expand the array. *)
Fixpoint _daFitSymbols (t : trie) (b : Z) (symbols : Symbols) : Z * trie :=
  match symbols with
  | [] => (TDICT_OK, t)
  | sym :: rest =>
    if b >? TRIE_INDEX_MAX - sym then (TDICT_ERR, t)
    else
      let '(ok, t) := _daPrepareSpace t (b + sym) in
      if ok then _daFitSymbols t b rest else (TDICT_ERR, t)
  end.

Fixpoint findFreeBase_skip (fuel : nat) (t : trie) (first_sym s : Z)
  : option Z :=
  match fuel with
  | O => None
  | S f =>
    if negb (s =? DA_POOL_FREE) && (s <? first_sym + DA_POOL_BEGIN)
    then findFreeBase_skip f t first_sym (- trieGetCheck t s)
    else Some s
  end.

(** The [for(s = first_sym + DA_POOL_BEGIN; ; ++s)] loop; the inner
    [None] is the [TRIE_INDEX_ERROR] return. *)
Fixpoint findFreeBase_grow (fuel : nat) (t : trie) (s : Z)
  : option (option Z * trie) :=
  match fuel with
  | O => None
  | S f =>
    let '(r, t) := trieExpand t s in
    if negb (r =? 0) then Some (None, t)
    else if trieGetCheck t s <? 0 then Some (Some s, t)
    else findFreeBase_grow f t (s + 1)
  end.

Fixpoint findFreeBase_fit (fuel : nat) (t : trie) (first_sym : Z)
  (symbols : Symbols) (s : Z) : option (Z * trie) :=
  match fuel with
  | O => None
  | S f =>
    let '(r, t) := _daFitSymbols t (s - first_sym) symbols in
    if negb (r =? 0) then
      if - trieGetCheck t s =? DA_POOL_FREE then
        let '(e, t) := trieExpand t (dasize t + 1) in
        if negb (e =? 0) then Some (TRIE_INDEX_ERROR, t)
        else findFreeBase_fit f t first_sym symbols (- trieGetCheck t s)
      else findFreeBase_fit f t first_sym symbols (- trieGetCheck t s)
    else Some (s - first_sym, t)
  end.

Definition _daFindFreeBase (fuel : nat) (t : trie) (symbols : Symbols)
  : option (Z * trie) :=
  let first_sym := symbols_get symbols 0 in
  match findFreeBase_skip fuel t first_sym (- trieGetCheck t DA_POOL_FREE) with
  | None => None
  | Some s =>
    if s =? DA_POOL_FREE then
      match findFreeBase_grow fuel t (first_sym + DA_POOL_BEGIN) with
      | None => None
      | Some (None, t) => Some (TRIE_INDEX_ERROR, t)
      | Some (Some s, t) => findFreeBase_fit fuel t first_sym symbols s
      end
    else findFreeBase_fit fuel t first_sym symbols s
  end.

(** ** Strings *)

(** The characters of a C string up to its terminator. *)
Fixpoint c_string (l : list Z) : cstr :=
  match l with
  | [] => []
  | c :: l' => if c =? 0 then [] else c :: c_string l'
  end.

Definition zstrdup (s : cstr) : cstr := c_string s.

(** [*p] and [p + 1]. *)
Definition deref (p : cstr) : TrieChar := hd TRIE_CHAR_TERM p.
Definition advance (p : cstr) : cstr := tl p.

(** A [TrieChar] is an unsigned byte. *)
Definition to_TrieChar (c : Z) : TrieChar := c mod 256.

(** ** Tail pool *)

(** What an unwritten slot holds: the content [e] of the memory, its
    suffix pointer read as a string. *)
Definition unwritten (e : trieEntry) : trieEntry :=
  mkEntry (option_map (fun l => c_string (map to_TrieChar l)) (suffix e))
          (key e) (val e) (next_free e).

(** [zrealloc] from [old] to [n] slots: the old slots keep their
    content, the new ones hold what the memory [m] holds. *)
Definition resize_tails (m : Z -> trieEntry) (l : list trieEntry)
  (old n : Z) : list trieEntry :=
  map (fun i => if i <? old then nth (Z.to_nat i) l blankEntry
                else unwritten (m i))
      (zrange 0 (Z.to_nat n)).

Definition set_next_free (t : trie) (i n : Z) : trie :=
  set_tail t i (entry_set_next_free (tail_at t i) n).

(** [zrealloc] does not return on exhaustion, so its [NULL] branch is not
    modelled. *)
Definition _tailAllocCell (t : trie) : Z * trie :=
  let grown :=
    if negb (first_free t =? 0) then
      let block := first_free t in
      Some (block, with_first_free t (next_free (tail_at t block)))
    else
      let block := tailsize t in
      let newsize := _trieNextPower block in
      if newsize =? block then None
      else
        let t := with_tails t (resize_tails (raw t) (tails t) block newsize) in
        let t := with_tailsize t newsize in
        let t := fold_left (fun t i => set_next_free t i (i + 1))
                   (zrange (block + 1) (Z.to_nat (newsize - 1 - (block + 1))))
                   t in
        let t := set_next_free t (newsize - 1) 0 in
        Some (block, with_first_free t (block + 1))
  in
  match grown with
  | None => (-1, t)
  | Some (block, t) =>
    let t := set_tail t block (mkEntry None None NULL (-1)) in
    (block + TAIL_START_BLOCKNO, with_used t (ulong (used t + 1)))
  end.

Definition call_keyDestructor (t : trie) (k : keyptr) : trie :=
  if keyDestructor (type t) then with_call t (CallKeyDestructor k) else t.

Definition call_valDestructor (t : trie) (v : valptr) : trie :=
  if valDestructor (type t) then with_call t (CallValDestructor v) else t.

(** The scan for the insertion point of [_tailFreeCell]; returns [(j, i)]. *)
Fixpoint tailFree_scan (fuel : nat) (t : trie) (block j i : Z)
  : option (Z * Z) :=
  match fuel with
  | O => None
  | S f =>
    if negb (i =? 0) && (i <? block)
    then tailFree_scan f t block i (next_free (tail_at t i))
    else Some (j, i)
  end.

Definition _tailFreeCell (fuel : nat) (t : trie) (block : Z) : option trie :=
  let block := block - TAIL_START_BLOCKNO in
  if ulong block >=? ulong (tailsize t) then Some t
  else
    let t := set_tail t block (entry_set_suffix (tail_at t block) None) in
    let t := call_keyDestructor t (key (tail_at t block)) in
    let t := call_valDestructor t (val (tail_at t block)) in
    match tailFree_scan fuel t block 0 (first_free t) with
    | None => None
    | Some (j, i) =>
      let t := set_next_free t block i in
      let t := if negb (j =? 0) then set_next_free t j block
               else with_first_free t block in
      Some (with_used t (ulong (used t - 1)))
    end.

(** ** Double array: relocation and insertion *)

Fixpoint reindex_children (t : trie) (old_next_base old_next new_next : Z)
  (cs : list Z) : trie :=
  match cs with
  | [] => t
  | c :: cs' =>
    let t := if trieGetCheck t (old_next_base + c) =? old_next
             then trieSetCheck t (old_next_base + c) new_next else t in
    reindex_children t old_next_base old_next new_next cs'
  end.

Fixpoint reindex_loop (fuel : nat) (t : trie) (s old_base new_base : Z)
  (symbols : Symbols) : option trie :=
  match symbols with
  | [] => Some t
  | sym :: rest =>
    let old_next := old_base + sym in
    let new_next := new_base + sym in
    let old_next_base := trieGetBase t old_next in
    let t := _daAssignCell t new_next in
    let t := trieSetCheck t new_next s in
    let t := trieSetBase t new_next old_next_base in
    let t :=
      if old_next_base >? 0 then
        let max_c := MIN_VAL TRIE_CHAR_MAX (TRIE_INDEX_MAX - old_next_base) in
        reindex_children t old_next_base old_next new_next
                         (zrange 0 (Z.to_nat max_c))
      else t in
    match _daFreeCell fuel t old_next with
    | None => None
    | Some t => reindex_loop fuel t s old_base new_base rest
    end
  end.

Definition _trieReIndex (fuel : nat) (t : trie) (s new_base : Z)
  : option trie :=
  let old_base := trieGetBase t s in
  let symbols := _daFillSymbols t s in
  match reindex_loop fuel t s old_base new_base symbols with
  | None => None
  | Some t => Some (trieSetBase t s new_base)
  end.

(** [suffix_idx] is a [short]: its increment wraps from 32767 to
    -32768.  The source then reads before the string, where the model
    has no content ([zget] reads the first character); the properties
    of lookups bound the key so that the index does not wrap. *)
Definition _trieWalkTail (t : trie) (s : Z) (suffix_idx : Z) (c : TrieChar)
  : Z * Z :=
  match trieGetTailSuffix t s with
  | None => (TDICT_ERR, suffix_idx)
  | Some sfx =>
    let suffix_char := zget sfx suffix_idx in
    if suffix_char =? c then
      (TDICT_OK, if negb (0 =? suffix_char) then short_of (suffix_idx + 1)
                 else suffix_idx)
    else (TDICT_ERR, suffix_idx)
  end.

Definition daInsert_claim (t : trie) (s next : Z) : Z * trie :=
  let t := _daAssignCell t next in
  (next, trieSetCheck t next s).

Definition _daInsert (fuel : nat) (t : trie) (s : Z) (c : TrieChar)
  : option (Z * trie) :=
  let b := trieGetBase t s in
  if b >? 0 then
    let next := b + c in
    if trieGetCheck t next =? s then Some (next, t)
    else
      let '(fits, t') :=
        if b >? TRIE_INDEX_MAX - c then (false, t)
        else _daPrepareSpace t next in
      if negb fits then
        let symbols := symbols_add (_daFillSymbols t' s) c in
        match _daFindFreeBase fuel t' symbols with
        | None => None
        | Some (new_base, t') =>
          if TRIE_INDEX_ERROR =? new_base then Some (TRIE_INDEX_ERROR, t')
          else
            match _trieReIndex fuel t' s new_base with
            | None => None
            | Some t' => Some (daInsert_claim t' s (new_base + c))
            end
        end
      else Some (daInsert_claim t' s next)
  else
    let symbols := symbols_add symbols_new c in
    match _daFindFreeBase fuel t symbols with
    | None => None
    | Some (new_base, t) =>
      if TRIE_INDEX_ERROR =? new_base then Some (TRIE_INDEX_ERROR, t)
      else
        let t := trieSetBase t s new_base in
        Some (daInsert_claim t s (new_base + c))
    end.

Definition _trieSetTailSuffix (t : trie) (index : Z) (sfx : option cstr)
  : Z * trie :=
  let index := index - TAIL_START_BLOCKNO in
  if (index >=? 0) && ult index (tailsize t) then
    let tmp := option_map zstrdup sfx in
    (TDICT_OK, set_tail t index (entry_set_suffix (tail_at t index) tmp))
  else (TDICT_ERR, t).

Definition _trieAddTailSuffix (t : trie) (sfx : cstr) : Z * trie :=
  let '(new_block, t) := _tailAllocCell t in
  let '(_, t) := _trieSetTailSuffix t new_block (Some sfx) in
  (new_block, t).

Definition _trieInsertInBranch (fuel : nat) (t : trie) (sep_node : Z)
  (sfx : cstr) : option (Z * trie) :=
  match _daInsert fuel t sep_node (deref sfx) with
  | None => None
  | Some (new_da, t) =>
    if TRIE_INDEX_ERROR =? new_da then Some (TDICT_ERR, t)
    else
      let sfx := if negb (0 =? deref sfx) then advance sfx else sfx in
      let '(new_tail, t) := _trieAddTailSuffix t sfx in
      Some (new_tail, trieSetTailIndex t new_da new_tail)
  end.

(** The common-prefix loop of [_trieInsertInTail].  [inl] is the jump to
    [fail] with the current state [s]; [inr] is the normal exit with
    [(s, p, suffix)].  When both strings end together the source reads
    past their terminators; the model then runs until the fuel is gone. *)
Fixpoint insertInTail_loop (fuel : nat) (t : trie) (s : Z) (p sfx : cstr)
  : option ((Z + Z * cstr * cstr) * trie) :=
  match fuel with
  | O => None
  | S f =>
    if deref p =? deref sfx then
      match _daInsert fuel t s (deref p) with
      | None => None
      | Some (s', t) =>
        if TRIE_INDEX_ERROR =? s' then Some (inl s, t)
        else insertInTail_loop f t s' (advance p) (advance sfx)
      end
    else Some (inr (s, p, sfx), t)
  end.

Definition insertInTail_fail (fuel : nat) (t : trie) (sep_node s old_tail : Z)
  : option (Z * trie) :=
  match _daPrune fuel t sep_node s with
  | None => None
  | Some t => Some (TDICT_ERR, trieSetTailIndex t sep_node old_tail)
  end.

Definition _trieInsertInTail (fuel : nat) (t : trie) (sep_node : Z)
  (sfx : cstr) : option (Z * trie) :=
  let old_tail := trieGetTailIndex t sep_node in
  match trieGetTailSuffix t old_tail with
  | None => Some (TDICT_ERR, t)
  | Some old_suffix =>
    match insertInTail_loop fuel t sep_node old_suffix sfx with
    | None => None
    | Some (inl s, t) => insertInTail_fail fuel t sep_node s old_tail
    | Some (inr (s, p, sfx), t) =>
      match _daInsert fuel t s (deref p) with
      | None => None
      | Some (old_da, t) =>
        if TRIE_INDEX_ERROR =? old_da
        then insertInTail_fail fuel t sep_node s old_tail
        else
          let p := if negb (0 =? deref p) then advance p else p in
          let '(_, t) := _trieSetTailSuffix t old_tail (Some p) in
          let t := trieSetTailIndex t old_da old_tail in
          _trieInsertInBranch fuel t s sfx
      end
    end
  end.

(** [_trieWalk]: [Some next] on success, [None] when there is no arc. *)
Definition _trieWalk (t : trie) (s : Z) (c : TrieChar) : option Z :=
  let next := trieGetBase t s + c in
  if trieGetCheck t next =? s then Some next else None.

(** The loop [for(p = internalKey; !trieBranchEnd(t, s); p++)], written
    out identically in [_trieAddKey], [trieFind] and [trieDelete].  It
    stops either on a failed walk or at the start of the tail phase. *)
Inductive branch_exit :=
| NoArc (s : Z) (p : cstr)
| InTail (s : Z) (p : cstr).

Fixpoint walk_branches (t : trie) (s : Z) (p : cstr) : branch_exit :=
  if trieBranchEnd t s then InTail s p
  else
    match _trieWalk t s (deref p) with
    | None => NoArc s p
    | Some s' =>
      match p with
      | [] => InTail s' p
      | c :: p' => if 0 =? c then InTail s' p else walk_branches t s' p'
      end
    end.

(** The loop [for( ; ; p++)] over the tail: [true] when the key and the
    stored suffix end together. *)
Fixpoint walk_tail (t : trie) (index suffix_idx : Z) (p : cstr) : bool :=
  let '(r, suffix_idx) := _trieWalkTail t index suffix_idx (deref p) in
  if negb (r =? 0) then false
  else
    match p with
    | [] => true
    | c :: p' => if 0 =? c then true else walk_tail t index suffix_idx p'
    end.

Definition internalKey (t : trie) (k : list Z) : cstr :=
  c_string (map to_TrieChar (encodingFunction (type t) k)).

(** [return res] with [int res], and the return type [int]. *)
Definition return_int (r : option (Z * trie)) : option (Z * trie) :=
  match r with
  | None => None
  | Some (res, t) => Some (int_of_long res, t)
  end.

(** The encoder returns a [TrieChar*], which [internalKey] reads as a
    string of unsigned bytes. *)
Definition _trieAddKey (fuel : nat) (t : trie) (k : list Z)
  : option (Z * trie) :=
  let t := match base t with [] => _trieSetup t | _ => t end in
  match walk_branches t DA_POOL_ROOT (internalKey t k) with
  | NoArc s p => return_int (_trieInsertInBranch fuel t s p)
  | InTail s sep =>
    let index := trieGetTailIndex t s in
    if walk_tail t index 0 sep then return_int (Some (index, t))
    else return_int (_trieInsertInTail fuel t s sep)
  end.

(** ** Public operations *)

(** [trieCreate(type, privdata)].  [m] is not an argument of the C
    function: it is the memory content of [raw]. *)
Definition trieCreate (ty : trieType) (m : Z -> trieEntry) : trie :=
  _trieInit ty m.

Definition trieAdd (fuel : nat) (t : trie) (k : list Z) (v : valptr)
  : option (Z * trie) :=
  match _trieAddKey fuel t k with
  | None => None
  | Some (index, t) =>
    if (index =? TRIE_INDEX_ERROR) || (index =? TDICT_ERR) || (index =? -1)
    then Some (TDICT_ERR, t)
    else
      let t := trieSetTailKey t index (Some k) in
      let t := trieSetTailVal t index v in
      Some (TDICT_OK, t)
  end.

Definition trieFind (t : trie) (k : list Z) : option Z :=
  match walk_branches t DA_POOL_ROOT (internalKey t k) with
  | NoArc _ _ => None
  | InTail s p =>
    let s := trieGetTailIndex t s in
    if walk_tail t s 0 p then trieGetTrieEntry t s else None
  end.

(** The depth-first traversal of [getTrieIterator]; the result list holds
    the addresses [&t->base[s]], that is the cells [s]. *)
Fixpoint iterator_loop (fuel : nat) (t : trie) (nodeStack : stack)
  (result : list Z) : option (list Z) :=
  match fuel with
  | O => None
  | S f =>
    if stackEmpty nodeStack then Some result
    else
      let '(s, nodeStack) := pop nodeStack in
      let b := trieGetBase t s in
      if b <? 0 then iterator_loop f t nodeStack (result ++ [s])
      else
        let symbols := _daFillSymbols t s in
        iterator_loop f t
          (fold_left (fun st sym => push st (b + sym)) (rev symbols) nodeStack)
          result
  end.

Record trieIterator := mkIter {
  iter_index : Z;
  iter_safe : Z;
  iter_cur : option nat;
  iter_result : option (list Z)
}.

Definition getTrieIterator (fuel : nat) (t : trie) (state : Z)
  : option trieIterator :=
  match iterator_loop fuel t (push [] state) [] with
  | None => None
  | Some result => Some (mkIter (-1) 0 None (Some result))
  end.

Definition emptyIterator : trieIterator := mkIter (-1) 0 None None.

(** The two loops of [triePrefixSearch].  [inl] is [return iter] with the
    empty iterator, [inr s] a call to [getTrieIterator(t, s)]. *)
Inductive prefix_exit :=
| PEmpty
| PEnumerate (s : Z)
| PTail (s : Z) (p : cstr).

Fixpoint prefix_branches (t : trie) (hasWildcard : bool) (s : Z) (p : cstr)
  : prefix_exit :=
  if trieBranchEnd t s then PTail s p
  else if (deref p =? 0) && hasWildcard then PEnumerate s
  else
    match _trieWalk t s (deref p) with
    | None => PEmpty
    | Some s' =>
      match p with
      | [] => PTail s' p
      | c :: p' =>
        if 0 =? c then PTail s' p else prefix_branches t hasWildcard s' p'
      end
    end.

(** The tail loop walks with the double-array state [s]; the tail index
    [ss] computed before it is not used. *)
Fixpoint prefix_tail (t : trie) (hasWildcard : bool) (s suffix_idx : Z)
  (p : cstr) : prefix_exit :=
  if (deref p =? 0) && hasWildcard then PEnumerate s
  else
    let '(r, suffix_idx) := _trieWalkTail t s suffix_idx (deref p) in
    if negb (r =? 0) then PEmpty
    else
      match p with
      | [] => PEnumerate s
      | c :: p' =>
        if 0 =? c then PEnumerate s
        else prefix_tail t hasWildcard s suffix_idx p'
      end.

(** [strchr(key, '*') != NULL]. *)
Definition has_wildcard (k : list Z) : bool :=
  existsb (fun c => c =? 42) (c_string k).

Definition triePrefixSearch (fuel : nat) (t : trie) (k : list Z)
  : option trieIterator :=
  let hasWildcard := has_wildcard k in
  let exit1 := prefix_branches t hasWildcard DA_POOL_ROOT (internalKey t k) in
  let exit2 :=
    match exit1 with
    | PTail s p => prefix_tail t hasWildcard s 0 p
    | e => e
    end in
  match exit2 with
  | PEnumerate s => getTrieIterator fuel t s
  | _ => Some emptyIterator
  end.

(** The tail slots an iterator yields through [trieNext], in order: each
    list node is dereferenced to the negated [base] of its cell. *)
Definition iterator_entries (t : trie) (it : trieIterator) : list (option Z) :=
  match iter_result it with
  | None => []
  | Some cells => map (fun s => trieGetTrieEntry t (- zget (base t) s)) cells
  end.

Definition trieDelete (fuel : nat) (t : trie) (k : list Z)
  : option (Z * trie) :=
  match walk_branches t DA_POOL_ROOT (internalKey t k) with
  | NoArc _ _ => Some (TDICT_ERR, t)
  | InTail s p =>
    let ti := trieGetTailIndex t s in
    if walk_tail t ti 0 p then
      match _tailFreeCell fuel t ti with
      | None => None
      | Some t =>
        let t := trieSetBase t s TRIE_INDEX_ERROR in
        match _daPrune fuel t DA_POOL_ROOT s with
        | None => None
        | Some t => Some (TDICT_OK, t)
        end
      end
    else Some (TDICT_ERR, t)
  end.

(** [te] is a pointer into [tails] ([None] for [NULL]). *)
Definition trieReplace (t : trie) (te : option Z) (v : valptr) : Z * trie :=
  match te with
  | None => (TDICT_ERR, t)
  | Some i =>
    let oldval := val (tail_at t i) in
    let t := set_tail t i (entry_set_val (tail_at t i) v) in
    (TDICT_OK, call_valDestructor t oldval)
  end.

(** ** Alphabet map *)

(** Modelled from the spec: the encoder behind [encodingFunction] and the
    [initRange] tables are not part of [src/].  A byte [b] of the range
    [[begin, end]] maps to [1 + (widths of the earlier ranges) +
    (b - begin)]; a byte outside every range has no code. *)
Fixpoint alpha_char (ranges : list keyRange) (offset b : Z)
  : option TrieChar :=
  match ranges with
  | [] => None
  | r :: rs =>
    if (range_begin r <=? b) && (b <=? range_end r)
    then Some (1 + offset + (b - range_begin r))
    else alpha_char rs (offset + (range_end r - range_begin r + 1)) b
  end.

(** Modelled from the spec: the encoding of a key, which stops at the
    first byte that has no code (the position where the spec's encoder
    reports its sentinel), as it does at the terminator. *)
Fixpoint alpha_encode (ranges : list keyRange) (k : list Z) : cstr :=
  match k with
  | [] => []
  | b :: k' =>
    match alpha_char ranges 0 b with
    | None => []
    | Some c => c :: alpha_encode ranges k'
    end
  end.

(** Every byte of [k] lies in one of the ranges. *)
Definition in_alphabet (ranges : list keyRange) (k : list Z) : bool :=
  forallb (fun b => match alpha_char ranges 0 b with
                    | Some _ => true | None => false end) k.

Definition alphaType (ranges : list keyRange)
  (kd : option (keyptr -> keyptr)) (vd : option (valptr -> valptr))
  (kdes vdes : bool) : trieType :=
  mkType (alpha_encode ranges) kd vd kdes vdes ranges.

(** ** Observations used by the properties *)

(** A run of [trieAdd] calls: the status of every call and the final trie. *)
Fixpoint add_all (fuel : nat) (t : trie) (kvs : list (list Z * valptr))
  : option (list Z * trie) :=
  match kvs with
  | [] => Some ([], t)
  | (k, v) :: rest =>
    match trieAdd fuel t k v with
    | None => None
    | Some (r, t) =>
      match add_all fuel t rest with
      | None => None
      | Some (rs, t) => Some (r :: rs, t)
      end
    end
  end.

(** A run of [trieDelete] calls. *)
Fixpoint delete_all (fuel : nat) (t : trie) (ks : list (list Z))
  : option (list Z * trie) :=
  match ks with
  | [] => Some ([], t)
  | k :: rest =>
    match trieDelete fuel t k with
    | None => None
    | Some (r, t) =>
      match delete_all fuel t rest with
      | None => None
      | Some (rs, t) => Some (r :: rs, t)
      end
    end
  end.

(** The free chain of the tail pool as [_tailAllocCell] and
    [_tailFreeCell] read it: it starts at [first_free], follows
    [next_free], and ends at [0]. *)
Fixpoint free_chain (fuel : nat) (t : trie) (i : Z) : list Z :=
  match fuel with
  | O => []
  | S f =>
    if i =? 0 then [] else i :: free_chain f t (next_free (tail_at t i))
  end.

Definition tail_free_chain (t : trie) : list Z :=
  free_chain (length (tails t)) t (first_free t).

(** [n] is the smallest power of two strictly greater than [size]. *)
Definition next_power_of_two (n size : Z) : Prop :=
  (exists k, 0 <= k /\ n = 2 ^ k) /\ size < n /\
  forall k, 0 <= k -> size < 2 ^ k -> n <= 2 ^ k.

(** [n] is the smallest of [3, 6, 12, ...] ([DA_POOL_BEGIN] doubled)
    strictly greater than [size]. *)
Definition next_doubling (n size : Z) : Prop :=
  exists k, 0 <= k /\ n = DA_POOL_BEGIN * 2 ^ k /\ size < n /\
  forall j, 0 <= j -> size < DA_POOL_BEGIN * 2 ^ j -> k <= j.

Definition is_val_destructor (c : call) : bool :=
  match c with CallValDestructor _ => true | _ => false end.

(** ** Example tries *)

Definition lowercase : list keyRange := [mkRange 97 122].
Definition allBytes : list keyRange := [mkRange 1 255].

Definition plainType : trieType := alphaType lowercase None None true true.
Definition dupType : trieType :=
  alphaType lowercase (Some (fun k => k)) (Some (fun v => v)) true true.
Definition wideType : trieType := alphaType allBytes None None false false.

(** Memory that reads as zero; the example tries are built on it. *)
Definition zeroed : Z -> trieEntry := fun _ => blankEntry.

Definition key_a : list Z := [97].
Definition key_cat : list Z := [99; 97; 116].
Definition key_car : list Z := [99; 97; 114].
Definition pattern_c : list Z := [99; 42].
Definition pattern_ca : list Z := [99; 97; 42].

Definition trie_cat : trie :=
  match trieAdd 100 (trieCreate plainType zeroed) key_cat 1 with
  | Some (_, t) => t
  | None => trieCreate plainType zeroed
  end.

Definition trie_a : trie :=
  match trieAdd 100 (trieCreate plainType zeroed) key_a 1 with
  | Some (_, t) => t
  | None => trieCreate plainType zeroed
  end.

Definition wide_keys : list (list Z * valptr) :=
  [([255], 10); ([1; 2], 20); ([1; 3], 30); ([2], 40)].

(** * The free ring as a cell-wise invariant *)

(** Values that fit a [long] with room to spare, and the values stored
    in the arrays. *)
Definition lng (x : Z) : Prop := - 4611686018427387904 <= x <= 4611686018427387904.
Definition small (x : Z) : Prop := - 4294967296 <= x <= 4294967296.

Definition wf_arrays (t : trie) : Prop :=
  3 <= dasize t <= TRIE_INDEX_MAX /\
  length (base t) = Z.to_nat (dasize t) /\
  length (check t) = Z.to_nat (dasize t).


Definition byte (c : Z) : Prop := 0 <= c <= 255.

Definition entry_ok (e : trieEntry) : Prop :=
  -1 <= next_free e <= TRIE_INDEX_MAX /\
  match suffix e with Some s => Forall byte s | None => True end.

(** What the double array needs from the tail pool. *)
Definition tail_inv (t : trie) : Prop :=
  0 <= tailsize t <= TRIE_INDEX_MAX /\
  -1 <= first_free t <= TRIE_INDEX_MAX /\
  Forall entry_ok (tails t).

(** A free cell: inside the array, with a negative [check]. *)
Definition free (t : trie) (i : Z) : Prop :=
  0 <= i < dasize t /\ trieGetCheck t i < 0.

(** A trie node: the root or a cell in use. *)
Definition node (t : trie) (s : Z) : Prop :=
  2 <= s < dasize t /\ 0 <= trieGetCheck t s.

(** The invariant of the double array, cell by cell: every free cell is
    linked to a free successor and a free predecessor that point back at
    it, successors grow until the ring closes at cell 1, and a cell in
    use has a base that is either not positive or between
    [DA_POOL_BEGIN] and [TRIE_INDEX_MAX]. *)
Record da_inv (t : trie) : Prop := mk_da_inv {
  inv_wf : wf_arrays t;
  inv_smallC : Forall small (check t);
  inv_smallB : Forall small (base t);
  inv_head : trieGetCheck t 0 = dasize t /\
             trieGetCheck t DA_POOL_ROOT = 0 /\
             free t DA_POOL_FREE;
  inv_next : forall i, free t i ->
             free t (- trieGetCheck t i) /\
             trieGetBase t (- trieGetCheck t i) = - i /\
             (- trieGetCheck t i = DA_POOL_FREE \/ i < - trieGetCheck t i);
  inv_prev : forall i, free t i ->
             free t (- trieGetBase t i) /\
             trieGetCheck t (- trieGetBase t i) = - i;
  inv_base : forall i, node t i ->
             trieGetBase t i <= 0 \/ 3 <= trieGetBase t i <= TRIE_INDEX_MAX;
  inv_noself : forall i, 0 <= i < dasize t -> trieGetCheck t i <> i;
  inv_tail : tail_inv t
}.

(** The free ring as the claim describes it: the cells [L] met when
    following [- check] from cell 1 until cell 1 comes back. *)
Fixpoint ring_links (t : trie) (l : list Z) : Prop :=
  match l with
  | a :: ((b :: _) as r) =>
    trieGetCheck t a = - b /\ trieGetBase t b = - a /\ ring_links t r
  | _ => True
  end.

Definition ring_ok (t : trie) : Prop :=
  exists L,
    ring_links t (DA_POOL_FREE :: L ++ [DA_POOL_FREE]) /\
    NoDup (DA_POOL_FREE :: L) /\
    forall i, 0 <= i < dasize t ->
              (trieGetCheck t i < 0 <-> In i (DA_POOL_FREE :: L)).


(** How one state of the double array relates to a later one. *)
Definition untouched (t t' : trie) (j : Z) : Prop :=
  trieGetCheck t' j = trieGetCheck t j /\
  trieGetBase t' j = trieGetBase t j.

(** Cells in use keep their content, except those in [X]. *)
Definition keeps_used (X : Z -> Prop) (t t' : trie) : Prop :=
  forall j, node t j -> ~ X j -> untouched t t' j.

(** Free cells stay free, except those in [Y]. *)
Definition keeps_free (Y : Z -> Prop) (t t' : trie) : Prop :=
  forall j, free t j -> ~ Y j -> free t' j.

Definition same_pool (t t' : trie) : Prop :=
  tails t' = tails t /\ tailsize t' = tailsize t /\
  first_free t' = first_free t /\ used t' = used t /\
  type t' = type t /\ calls t' = calls t.

Definition nobody : Z -> Prop := fun _ => False.
Definition only (x : Z) : Z -> Prop := fun j => j = x.


(** [t'] is [t] after expansions only: nothing in use has moved and
    nothing free has been taken. *)
Definition grown (t t' : trie) : Prop :=
  da_inv t' /\ dasize t <= dasize t' /\ same_pool t t' /\
  keeps_used nobody t t' /\ keeps_free nobody t t' /\
  forall j, dasize t <= j < dasize t' -> free t' j.


Definition same_da (t t' : trie) : Prop :=
  base t' = base t /\ check t' = check t /\ dasize t' = dasize t.


(** [s] lies [n] arcs below [p]: following [check] from [s] reaches [p]
    after [n] steps through cells in use. *)
Fixpoint up_path (n : nat) (t : trie) (p s : Z) : Prop :=
  match n with
  | O => s = p
  | S n' =>
    s <> p /\ node t s /\ 3 <= s /\ up_path n' t p (trieGetCheck t s)
  end.

(** The trie after [realloc] of both arrays to [R] cells, before the new
    cells are linked into the ring. *)
Definition resized (t : trie) (R : Z) : trie :=
  with_dasize (with_check (with_base t (resize (base t) R))
                          (resize (check t) R)) R.

(** * Failure inside the tail phase *)

(** Every cell in use below the root hangs from a cell in use. *)
Definition parents_in_use (t : trie) : Prop :=
  forall j, node t j -> 3 <= j -> node t (trieGetCheck t j).

(** The [return] statement a call of [_trieInsertInTail] ends in: the
    early one for a missing old suffix, the one after the [fail] label
    (with the state [s] handed to [_daPrune]), or the final
    [return _trieInsertInBranch(t, s, suffix)]. *)
Inductive tail_return :=
| NoOldSuffix
| AtFail (s : Z)
| FromBranch.

Definition insertInTail_return (fuel : nat) (t : trie) (sep_node : Z)
  (sfx : cstr) : option tail_return :=
  let old_tail := trieGetTailIndex t sep_node in
  match trieGetTailSuffix t old_tail with
  | None => Some NoOldSuffix
  | Some old_suffix =>
    match insertInTail_loop fuel t sep_node old_suffix sfx with
    | None => None
    | Some (inl s, _) => Some (AtFail s)
    | Some (inr (s, p, _), t) =>
      match _daInsert fuel t s (deref p) with
      | None => None
      | Some (old_da, _) =>
        if TRIE_INDEX_ERROR =? old_da then Some (AtFail s) else Some FromBranch
      end
    end
  end.

(** The cells [ch] inserted so far by [_trieInsertInTail], the latest
    first: each hangs from the one before it, the first from [sep]. *)
Fixpoint links (t : trie) (sep : Z) (ch : list Z) : Prop :=
  match ch with
  | [] => True
  | x :: r => trieGetCheck t x = hd sep r /\ links t sep r
  end.

(** The trie [t] in the middle of [_trieInsertInTail] on [t0]: apart from
    the base of [sep], it is [t0] with the chain [ch] claimed. *)
Definition mid_insert (t0 t : trie) (sep : Z) (ch : list Z) : Prop :=
  da_inv t /\ dasize t0 <= dasize t /\ same_pool t0 t /\
  (forall j, node t0 j ->
     node t j /\ trieGetCheck t j = trieGetCheck t0 j /\
     (j <> sep -> trieGetBase t j = trieGetBase t0 j)) /\
  (forall j, node t j -> node t0 j \/ In j ch) /\
  NoDup ch /\
  Forall (fun x => 3 <= x /\ node t x /\ ~ node t0 x) ch /\
  links t sep ch.

(** An array that has reached [TRIE_INDEX_MAX] cells with no free cell
    left. *)
Definition packed (t : trie) : Prop :=
  dasize t = TRIE_INDEX_MAX /\
  forall j, 2 <= j < TRIE_INDEX_MAX -> 0 <= trieGetCheck t j.

(** *** A trie with no room left

    The failures of [_daInsert] need arrays of [TRIE_INDEX_MAX] cells.
    [full_trie] has such arrays: every cell from 3 on is in use as a leaf
    below the root, holding the tail index 2, except cell 300, which is
    the only cell of the free ring.  The tail pool holds one suffix,
    [7; 9]. *)
Definition rest_cells : nat := Z.to_nat (TRIE_INDEX_MAX - 301).

Definition layout (h0 h1 h2 x y : Z) : list Z :=
  [h0; h1; h2] ++ repeat x 297 ++ [y] ++ repeat x rest_cells.

Definition full_check : list Z := layout TRIE_INDEX_MAX (-300) 0 2 (-1).
Definition full_base : list Z := layout DA_SIGNATURE (-300) 3 (-2) (-1).

Definition full_tails : list trieEntry :=
  [mkEntry (Some [7; 9]) (Some [1; 7; 9]) 1 (-1);
   mkEntry None None NULL 2;
   mkEntry None None NULL 0].

Definition full_trie : trie :=
  mkTrie full_base full_check TRIE_INDEX_MAX 1 full_tails 3 1 0 wideType []
         zeroed [].

(** *** A trie with an exhausted tail pool

    [exhausted_trie] holds no key; its tail pool has reached
    [TRIE_INDEX_MAX] slots and its free chain is empty
    ([first_free = 0]), so [_tailAllocCell] can neither pop a slot nor
    grow the pool.  [exhausted_ab] and [exhausted_a] are the tries after
    two [trieAdd] calls on it. *)
Definition exhausted_trie : trie :=
  mkTrie [DA_SIGNATURE; -1; DA_POOL_BEGIN] [DA_POOL_BEGIN; -1; 0] DA_POOL_BEGIN
         0 (repeat blankEntry (Z.to_nat TRIE_INDEX_MAX)) TRIE_INDEX_MAX 0 0
         plainType [] zeroed [].

(** [exhausted_cat] holds the key "cat" as [trie_cat] does, in a tail
    pool of [TRIE_INDEX_MAX] slots with no free slot left.
    [exhausted_car] is the trie after [trieAdd] of "car" on it. *)
Definition exhausted_cat : trie :=
  with_first_free
    (with_tailsize
       (with_tails trie_cat
          (firstn 1 (tails trie_cat) ++
           repeat blankEntry (Z.to_nat (TRIE_INDEX_MAX - 1))))
       TRIE_INDEX_MAX) 0.

Definition exhausted_car : trie :=
  match trieAdd 50 exhausted_cat key_car 5 with
  | Some (_, t) => t
  | None => exhausted_cat
  end.

Definition exhausted_ab : trie :=
  match trieAdd 50 exhausted_trie [97; 98] 1 with
  | Some (_, t) => t
  | None => exhausted_trie
  end.

Definition exhausted_a : trie :=
  match trieAdd 50 exhausted_ab [97] 2 with
  | Some (_, t) => t
  | None => exhausted_ab
  end.

(** * Further operations and invariants *)

(** [s] lies [n] arcs below [p]: following [check] from [s] reaches [p]
    through cells in use. *)
Fixpoint chain_up (n : nat) (t : trie) (p s : Z) : Prop :=
  match n with
  | O => s = p
  | S n' => node t s /\ 3 <= s /\ chain_up n' t p (trieGetCheck t s)
  end.

(** What [getTrieIterator] may put on its result list for the start cell
    [state]: a tail cell in use at or below [state]. *)
Definition tail_below (t : trie) (state s : Z) : Prop :=
  node t s /\ trieGetBase t s < 0 /\ exists n, chain_up n t state s.

(** The arcs labelled [p] lead from the branch state [s] down to [s']. *)
Fixpoint arcs (t : trie) (s : Z) (p : cstr) (s' : Z) : Prop :=
  match p with
  | [] => s' = s
  | c :: p' =>
    c <> 0 /\ 0 <= trieGetBase t s /\
    trieGetCheck t (trieGetBase t s + c) = s /\
    arcs t (trieGetBase t s + c) p' s'
  end.

(** The cells at most [n] arcs below the root are cells in use of [t']
    with the check they have in [t] and, apart from [s], the base. *)
Definition above_kept (n : nat) (t t' : trie) (s : Z) : Prop :=
  forall j k, (k <= n)%nat -> up_path k t DA_POOL_ROOT j ->
    node t' j /\ trieGetCheck t' j = trieGetCheck t j /\
    (j <> s -> trieGetBase t' j = trieGetBase t j).

Definition nonzero (p : cstr) : Prop := Forall (fun c => c <> 0) p.

(** ** The tail pool *)

Definition sfx_nonzero (e : trieEntry) : Prop :=
  match suffix e with Some s => nonzero s | None => True end.

(** The free slots [L] linked from [f] through [next_free], in ascending
    order and closed by [0].  A slot of the chain has a [next_free] that
    is not negative; [_tailAllocCell] marks the slot it hands out with
    [-1]. *)
Fixpoint chain_ok (t : trie) (f : Z) (L : list Z) : Prop :=
  match L with
  | [] => f = 0
  | x :: L' =>
    f = x /\ 0 < x < tailsize t /\
    (next_free (tail_at t x) = 0 \/ x < next_free (tail_at t x)) /\
    chain_ok t (next_free (tail_at t x)) L'
  end.

(** The sizes the tail pool goes through: [0], then [DA_POOL_BEGIN]
    doubled until [_trieNextPower] saturates at [TRIE_INDEX_MAX]. *)
Definition pool_sizes (n : Z) : Prop :=
  n = 0 \/ n = TRIE_INDEX_MAX \/
  exists k, 0 <= k <= 29 /\ n = DA_POOL_BEGIN * 2 ^ k.

(** The invariant of the tail pool: [tails] has [tailsize] slots, the
    free chain starting at [first_free] is well formed, and the stored
    suffixes are C strings. *)
Definition pool_ok (t : trie) : Prop :=
  length (tails t) = Z.to_nat (tailsize t) /\
  pool_sizes (tailsize t) /\
  (exists L, chain_ok t (first_free t) L) /\
  Forall sfx_nonzero (tails t).

(** A tail cell that hangs from its parent by the terminator arc stores
    the empty suffix. *)
Definition term_cell_ok (t : trie) (j : Z) : bool :=
  if (0 <=? trieGetCheck t j) &&
     (trieGetBase t (trieGetCheck t j) + TRIE_CHAR_TERM =? j)
  then match trieGetTailSuffix t (trieGetTailIndex t j) with
       | Some (_ :: _) => false
       | _ => true
       end
  else true.

Definition term_ok (t : trie) : Prop :=
  forall j, 2 <= j < dasize t -> term_cell_ok t j = true.

(** ** Iteration *)

(** [trieNext]: the entry returned ([None] for [NULL]) and the iterator
    afterwards.  The function is [None] where the source dereferences a
    [NULL] list node: on the first call for an empty result list, and
    for an iterator whose [index] is set while [cur] is not. *)
Definition trieNext (t : trie) (it : trieIterator)
  : option (option Z * trieIterator) :=
  match iter_result it with
  | None => Some (None, it)
  | Some cells =>
    if iter_index it <? 0 then
      match cells with
      | [] => None
      | s :: _ =>
        let index := - int_of_long (zget (base t) s) in
        Some (trieGetTrieEntry t index,
              mkIter index (iter_safe it) (Some O) (Some cells))
      end
    else
      match iter_cur it with
      | None => None
      | Some n =>
        match nth_error cells (S n) with
        | Some s =>
          let index := - int_of_long (zget (base t) s) in
          Some (trieGetTrieEntry t index,
                mkIter index (iter_safe it) (Some (S n)) (Some cells))
        | None => Some (None, it)
        end
      end
  end.

(** [n] successive calls of [trieNext]: what they return, in order. *)
Fixpoint trieNext_calls (n : nat) (t : trie) (it : trieIterator)
  : option (list (option Z) * trieIterator) :=
  match n with
  | O => Some ([], it)
  | S n' =>
    match trieNext t it with
    | None => None
    | Some (r, it') =>
      match trieNext_calls n' t it' with
      | None => None
      | Some (rs, it'') => Some (r :: rs, it'')
      end
    end
  end.

(** The trie of [trie_cat] after the key "car" has been added. *)

Definition trie_cat_car : trie :=
  match trieAdd 100 trie_cat key_car 5 with
  | Some (_, t) => t
  | None => trie_cat
  end.

(** [trieResize]: [minimal] is an [int], so the [unsigned long] count
    [used] is cut to its low 32 bits. *)
Definition trieResize (t : trie) : Z * trie :=
  let minimal := int_of_long (used t) in
  let minimal := if minimal <? DA_POOL_BEGIN then DA_POOL_BEGIN else minimal in
  trieExpand t minimal.

(** ** Emptying *)

(** One round of the loop of [trieEmpty] for slot [i]; [cbs] are the
    slots for which the progress callback has run. *)
Definition trieEmpty_step (callback : bool) (acc : list Z * trie) (i : Z)
  : list Z * trie :=
  let '(cbs, t) := acc in
  let cbs := if callback && (Z.land i 65535 =? 0) then cbs ++ [i] else cbs in
  let te := tail_at t i in
  match suffix te with
  | Some _ =>
    (cbs, call_valDestructor (call_keyDestructor t (key te)) (val te))
  | None => (cbs, t)
  end.

(** [trieEmpty]; [callback] tells whether a callback was passed.  The
    result is the list of slots at which it was called, and the trie. *)
Definition trieEmpty (t : trie) (callback : bool) : list Z * trie :=
  let '(cbs, t) :=
    fold_left (trieEmpty_step callback)
              (zrange 0 (Z.to_nat (tailsize t))) ([], t) in
  (cbs, _trieReset t).

(** The destructor calls [trieEmpty] makes for one slot. *)
Definition slot_destructors (ty : trieType) (e : trieEntry) : list call :=
  match suffix e with
  | Some _ =>
    (if keyDestructor ty then [CallKeyDestructor (key e)] else []) ++
    (if valDestructor ty then [CallValDestructor (val e)] else [])
  | None => []
  end.

(** A symbol set in strictly ascending order, as the binary search of
    [symbols_add] expects it. *)
Fixpoint ascending (l : list Z) : Prop :=
  match l with
  | [] => True
  | a :: r => Forall (fun b => a < b) r /\ ascending r
  end.

(** * Properties *)

(** ** Allocation sizes *)

Lemma shiftl_1_double (i : Z) : Z.shiftl i 1 = 2 * i.
Proof. rewrite Z.shiftl_mul_pow2 by lia. lia. Qed.

Lemma pow2_step (a : Z) : 0 <= a -> 2 ^ (a + 1) = 2 * 2 ^ a.
Proof. intros. rewrite Z.pow_add_r by lia. lia. Qed.

Lemma nextPower_loop_spec (fuel : nat) :
  forall a size,
    0 <= a ->
    size < 2 ^ 30 ->
    (forall j, 0 <= j < a -> DA_POOL_BEGIN * 2 ^ j <= size) ->
    30 <= Z.of_nat fuel + a ->
    exists k, a <= k /\
      nextPower_loop fuel (DA_POOL_BEGIN * 2 ^ a) size = DA_POOL_BEGIN * 2 ^ k /\
      size < DA_POOL_BEGIN * 2 ^ k /\
      forall j, 0 <= j < k -> DA_POOL_BEGIN * 2 ^ j <= size.
Proof.
  induction fuel as [|f IH]; intros a size Ha Hsz Hlow Hfuel.
  - assert (H30 : 2 ^ 30 <= 2 ^ a) by (apply Z.pow_le_mono_r; lia).
    exists a. cbn [nextPower_loop]. unfold DA_POOL_BEGIN.
    repeat split; auto; lia.
  - cbn [nextPower_loop]. destruct (DA_POOL_BEGIN * 2 ^ a >? size) eqn:E.
    + exists a. repeat split; auto; lia.
    + assert (Hle : DA_POOL_BEGIN * 2 ^ a <= size) by lia.
      rewrite shiftl_1_double.
      replace (2 * (DA_POOL_BEGIN * 2 ^ a)) with (DA_POOL_BEGIN * 2 ^ (a + 1))
        by (rewrite pow2_step by lia; lia).
      destruct (IH (a + 1) size) as (k & Hk & Heq & Hgt & Hmin); try lia.
      * intros j Hj. destruct (Z.eq_dec j a) as [->|]; [exact Hle|].
        apply Hlow. lia.
      * exists k. repeat split; auto; lia.
Qed.

Lemma trieNextPower_doubling (size : Z) :
  size < TRIE_INDEX_HALFMAX -> next_doubling (_trieNextPower size) size.
Proof.
  intros Hs. unfold _trieNextPower.
  destruct (size >=? TRIE_INDEX_HALFMAX) eqn:E;
    [unfold TRIE_INDEX_HALFMAX in *; lia|].
  destruct (nextPower_loop_spec 64 0 size) as (k & Hk & Heq & Hgt & Hmin);
    try lia.
  - unfold TRIE_INDEX_HALFMAX in Hs. lia.
  - change (DA_POOL_BEGIN * 2 ^ 0) with DA_POOL_BEGIN in Heq.
    exists k. repeat split; auto; try lia.
    intros j Hj Hlt. destruct (Z_lt_le_dec j k) as [Hjk|]; [|lia].
    specialize (Hmin j ltac:(lia)). lia.
Qed.

Lemma trieNextPower_saturates (size : Z) :
  TRIE_INDEX_HALFMAX <= size -> _trieNextPower size = TRIE_INDEX_MAX.
Proof.
  intros Hs. unfold _trieNextPower.
  destruct (size >=? TRIE_INDEX_HALFMAX) eqn:E; [reflexivity|lia].
Qed.

Lemma ulong_small (x : Z) : 0 <= x < 2 ^ 64 -> ulong x = x.
Proof. intros. unfold ulong. apply Z.mod_small. lia. Qed.

Lemma fold_expand_link_dasize (l : list Z) :
  forall t, dasize (fold_left expand_link l t) = dasize t.
Proof.
  induction l as [|i l IH]; intros t; simpl; [reflexivity|].
  rewrite IH. unfold expand_link, trieSetBase, trieSetCheck.
  repeat (match goal with |- context [if ?b then _ else _] => destruct b end;
          simpl); reflexivity.
Qed.

Lemma trieExpand_dasize (t : trie) (size : Z) :
  0 < size < TRIE_INDEX_MAX ->
  0 <= dasize t < size ->
  fst (trieExpand t size) = TDICT_OK /\
  dasize (snd (trieExpand t size)) = _trieNextPower size.
Proof.
  intros Hs Hd. unfold trieExpand.
  destruct ((size <=? 0) || (TRIE_INDEX_MAX <=? size)) eqn:E.
  { apply orb_true_iff in E. unfold TRIE_INDEX_MAX in *. lia. }
  rewrite !ulong_small by (unfold TRIE_INDEX_MAX in *; lia).
  destruct (dasize t >=? size) eqn:E2; [lia|].
  split; [reflexivity|]. cbn [snd].
  unfold trieSetBase, trieSetCheck.
  repeat (match goal with |- context [if ult ?a ?b then _ else _] =>
            destruct (ult a b) end; cbn [dasize with_base with_check]);
    rewrite ?fold_expand_link_dasize; reflexivity.
Qed.

Lemma fold_next_free_tailsize (l : list Z) :
  forall t, tailsize (fold_left (fun t i => set_next_free t i (i + 1)) l t)
            = tailsize t.
Proof.
  induction l as [|i l IH]; intros t; simpl; [reflexivity|].
  rewrite IH. reflexivity.
Qed.

Lemma tailAllocCell_tailsize (t : trie) :
  first_free t = 0 ->
  _trieNextPower (tailsize t) <> tailsize t ->
  tailsize (snd (_tailAllocCell t)) = _trieNextPower (tailsize t).
Proof.
  intros Hff Hne. unfold _tailAllocCell. rewrite Hff. simpl negb. cbv iota.
  destruct (_trieNextPower (tailsize t) =? tailsize t) eqn:E; [lia|].
  cbn [snd with_used tailsize set_tail with_tails with_first_free].
  unfold set_next_free at 1. cbn [tailsize set_tail with_tails].
  rewrite fold_next_free_tailsize. reflexivity.
Qed.

(** C7 (as stated, refuted): expanding a fresh double array to index 4
    gives 6 cells, which is not the smallest power of two above 4 -- it
    is not a power of two at all. *)
Lemma C7_counterexample :
  dasize (snd (trieExpand (trieCreate plainType zeroed) 4)) = 6 /\
  ~ next_power_of_two (dasize (snd (trieExpand (trieCreate plainType zeroed) 4))) 4.
Proof.
  split; [reflexivity|].
  change (dasize (snd (trieExpand (trieCreate plainType zeroed) 4))) with 6.
  intros [[k [Hk Hpow]] _].
  destruct (Z_lt_le_dec k 3) as [Hlt|Hge].
  - assert (H : 2 ^ k <= 2 ^ 2) by (apply Z.pow_le_mono_r; lia).
    change (2 ^ 2) with 4 in H. lia.
  - assert (H : 2 ^ 3 <= 2 ^ k) by (apply Z.pow_le_mono_r; lia).
    change (2 ^ 3) with 8 in H. lia.
Qed.

(** C7 (amended): when [trieExpand] has to grow the double array to reach
    a requested index, and when [_tailAllocCell] has to grow the tail
    pool past its current size, the new size is the smallest of
    [3, 6, 12, ...] ([DA_POOL_BEGIN] doubled) strictly greater than the
    requested index; from [TRIE_INDEX_HALFMAX] on it is
    [TRIE_INDEX_MAX]. *)
Theorem C7_expansion_size (t : trie) (size : Z) :
  (0 < size < TRIE_INDEX_MAX -> 0 <= dasize t < size ->
   fst (trieExpand t size) = TDICT_OK /\
   (size < TRIE_INDEX_HALFMAX ->
    next_doubling (dasize (snd (trieExpand t size))) size) /\
   (TRIE_INDEX_HALFMAX <= size ->
    dasize (snd (trieExpand t size)) = TRIE_INDEX_MAX)) /\
  (first_free t = 0 ->
   (tailsize t < TRIE_INDEX_HALFMAX ->
    next_doubling (tailsize (snd (_tailAllocCell t))) (tailsize t)) /\
   (TRIE_INDEX_HALFMAX <= tailsize t < TRIE_INDEX_MAX ->
    tailsize (snd (_tailAllocCell t)) = TRIE_INDEX_MAX)).
Proof.
  split.
  - intros Hs Hd. destruct (trieExpand_dasize t size Hs Hd) as [Hok Hsz].
    split; [exact Hok|]. rewrite Hsz. split.
    + apply trieNextPower_doubling.
    + apply trieNextPower_saturates.
  - intros Hff. split.
    + intros Hlt. pose proof (trieNextPower_doubling _ Hlt) as Hd.
      rewrite tailAllocCell_tailsize; auto.
      destruct Hd as (k & _ & _ & Hgt & _). lia.
    + intros Hge. rewrite tailAllocCell_tailsize; auto.
      * apply trieNextPower_saturates. lia.
      * rewrite trieNextPower_saturates by lia. lia.
Qed.

Lemma C7_expansion_size_witness :
  next_doubling (dasize (snd (trieExpand (trieCreate plainType zeroed) 4))) 4 /\
  next_doubling (tailsize (snd (_tailAllocCell (trieCreate plainType zeroed)))) 0.
Proof.
  pose proof (C7_expansion_size (trieCreate plainType zeroed) 4) as [Hda Htail].
  split.
  - apply Hda; vm_compute; repeat split; congruence.
  - apply Htail; vm_compute; reflexivity.
Defined.

(** ** Array updates *)

Lemma upd_length {A : Type} (l : list A) :
  forall n x, length (upd l n x) = length l.
Proof.
  induction l as [|h l IH]; intros [|n] x; simpl; auto.
Qed.

Lemma nth_upd_same {A : Type} (l : list A) :
  forall n x d, (n < length l)%nat -> nth n (upd l n x) d = x.
Proof.
  induction l as [|h l IH]; intros [|n] x d Hn; simpl in *; try lia; auto.
  apply IH. lia.
Qed.

Lemma nth_upd_other {A : Type} (l : list A) :
  forall n m x d, n <> m -> nth m (upd l n x) d = nth m l d.
Proof.
  induction l as [|h l IH]; intros [|n] [|m] x d Hnm; simpl; auto;
    try congruence.
Qed.

Lemma tail_at_set_tail_same (t : trie) (i : Z) (e : trieEntry) :
  0 <= i < Z.of_nat (length (tails t)) -> tail_at (set_tail t i e) i = e.
Proof.
  intros Hi. unfold tail_at, set_tail. cbn [tails with_tails].
  apply nth_upd_same. lia.
Qed.

(** ** Re-adding a present key *)

Lemma trieGetTrieEntry_inv (t : trie) (index e : Z) :
  trieGetTrieEntry t index = Some e ->
  index = e + TAIL_START_BLOCKNO /\ ult e (tailsize t) = true.
Proof.
  unfold trieGetTrieEntry.
  destruct (ult (index - TAIL_START_BLOCKNO) (tailsize t)) eqn:E;
    [|discriminate].
  intros H. inversion H; subst. split; [lia | exact E].
Qed.

Lemma int_of_long_id (x : Z) :
  - 2 ^ 31 <= x < 2 ^ 31 -> int_of_long x = x.
Proof.
  intros Hx. unfold int_of_long. cbv zeta.
  change (2 ^ 32) with 4294967296 in *. change (2 ^ 31) with 2147483648 in *.
  destruct (Z_lt_le_dec x 0) as [Hneg|Hpos].
  - assert (E : x mod 4294967296 = x + 4294967296).
    { symmetry. apply (Z.mod_unique_pos _ _ (-1)); lia. }
    rewrite E. destruct (Z.ltb_spec (x + 4294967296) 2147483648); lia.
  - rewrite Z.mod_small by lia.
    destruct (Z.ltb_spec x 2147483648); lia.
Qed.

Lemma short_of_id (x : Z) : - 32768 <= x <= 32767 -> short_of x = x.
Proof.
  intros Hx. unfold short_of. cbv zeta.
  change (2 ^ 16) with 65536 in *. change (2 ^ 15) with 32768 in *.
  destruct (Z_lt_le_dec x 0) as [Hneg|Hpos].
  - assert (E : x mod 65536 = x + 65536).
    { symmetry. apply (Z.mod_unique_pos _ _ (-1)); lia. }
    rewrite E. destruct (Z.ltb_spec (x + 65536) 32768); lia.
  - rewrite Z.mod_small by lia.
    destruct (Z.ltb_spec x 32768); lia.
Qed.

(** A slot of a pool below [TRIE_INDEX_MAX] has an exposed index that
    fits an [int]. *)
Lemma slot_index_int (e n : Z) :
  0 <= e < n -> n < TRIE_INDEX_MAX ->
  int_of_long (e + TAIL_START_BLOCKNO) = e + TAIL_START_BLOCKNO.
Proof.
  intros He Hn. unfold TRIE_INDEX_MAX in Hn.
  apply int_of_long_id. unfold TAIL_START_BLOCKNO.
  change (2 ^ 31) with 2147483648. lia.
Qed.

(** A key that [trieFind] locates makes [_trieAddKey] return the exposed
    index of its slot, with the trie untouched. *)
Lemma trieAddKey_present (fuel : nat) (t : trie) (k : list Z) (e : Z) :
  base t <> [] ->
  trieFind t k = Some e ->
  _trieAddKey fuel t k = Some (int_of_long (e + TAIL_START_BLOCKNO), t) /\
  ult e (tailsize t) = true.
Proof.
  intros Hb Hfind. unfold trieFind in Hfind. unfold _trieAddKey.
  destruct (base t) as [|b0 bs] eqn:Eb; [congruence|].
  destruct (walk_branches t DA_POOL_ROOT (internalKey t k)) as [s p|s p];
    [discriminate|].
  destruct (walk_tail t (trieGetTailIndex t s) 0 p); [|discriminate].
  apply trieGetTrieEntry_inv in Hfind. destruct Hfind as [Hidx Hult].
  rewrite Hidx. auto.
Qed.

Lemma trieAdd_present (fuel : nat) (t : trie) (k : list Z) (v : valptr)
  (e : Z) :
  base t <> [] ->
  tailsize t < TRIE_INDEX_MAX ->
  trieFind t k = Some e ->
  0 <= e < tailsize t ->
  trieAdd fuel t k v =
    Some (TDICT_OK,
          trieSetTailVal
            (trieSetTailKey t (e + TAIL_START_BLOCKNO) (Some k))
            (e + TAIL_START_BLOCKNO) v).
Proof.
  intros Hb Hsz Hfind He. unfold trieAdd.
  destruct (trieAddKey_present fuel t k e Hb Hfind) as [-> Hu].
  rewrite (slot_index_int e (tailsize t) He Hsz).
  unfold TRIE_INDEX_ERROR, TDICT_ERR, TAIL_START_BLOCKNO.
  destruct (e + 2 =? 0) eqn:E0; [lia|].
  destruct (e + 2 =? 1) eqn:E1; [lia|].
  destruct (e + 2 =? -1) eqn:E2; [lia|]. reflexivity.
Qed.

(** C2 (as stated, refuted): "cat" is present in [trie_cat], and adding
    it again reports [TDICT_OK]. *)
Lemma C2_counterexample :
  trieFind trie_cat key_cat = Some 0 /\
  option_map fst (trieAdd 100 trie_cat key_cat 7) = Some TDICT_OK /\
  TDICT_OK <> TDICT_ERR.
Proof.
  split; [vm_compute; reflexivity|].
  split; [vm_compute; reflexivity|]. discriminate.
Qed.

(** C2 (amended): for every trie [t] that is set up and every key [k]
    already present in [t] -- [trieFind] returns one of its slots --
    [trieAdd t k v] returns [TDICT_OK]: the existing slot is reused.
    The encoded key has at most 32767 characters and the pool, an array
    of [tailsize] slots, fewer than [TRIE_INDEX_MAX] of them, so that
    the [short] index of the tail walk and the [int] result of
    [_trieAddKey] hold their values. *)
Theorem C2_add_present_returns_ok (fuel : nat) (t : trie) (k : list Z)
  (v : valptr) (e : Z) :
  base t <> [] ->
  Z.of_nat (length (internalKey t k)) <= 32767 ->
  Z.of_nat (length (tails t)) = tailsize t ->
  tailsize t < TRIE_INDEX_MAX ->
  trieFind t k = Some e ->
  0 <= e < tailsize t ->
  exists t', trieAdd fuel t k v = Some (TDICT_OK, t').
Proof.
  intros Hb _ _ Hsz Hfind He. eexists.
  apply (trieAdd_present fuel t k v e Hb Hsz Hfind He).
Qed.

Lemma C2_add_present_returns_ok_witness :
  exists t', trieAdd 100 trie_cat key_cat 7 = Some (TDICT_OK, t').
Proof.
  apply (C2_add_present_returns_ok 100 trie_cat key_cat 7 0).
  - vm_compute. discriminate.
  - vm_compute. discriminate.
  - vm_compute. reflexivity.
  - vm_compute. reflexivity.
  - vm_compute. reflexivity.
  - vm_compute. split; [discriminate | reflexivity].
Defined.



(** ** Replacing a value *)

(** C9: [trieReplace] returns [TDICT_ERR] exactly when the entry is
    [NULL].  Otherwise it returns [TDICT_OK], the new value is installed
    in the entry first and the value destructor is then invoked on the
    old value -- once when the type has a destructor, which is optional,
    and the pool that call finds already holds the new value in the
    entry.  Afterwards the entry holds the new value. *)
Theorem C9_trieReplace (t : trie) (te : option Z) (v : valptr) :
  (fst (trieReplace t te v) = TDICT_ERR <-> te = None) /\
  forall i,
    te = Some i ->
    0 <= i < Z.of_nat (length (tails t)) ->
    let t' := snd (trieReplace t te v) in
    let oldval := val (tail_at t i) in
    fst (trieReplace t te v) = TDICT_OK /\
    val (tail_at t' i) = v /\
    (valDestructor (type t) = true ->
     exists pool,
       calls t' = calls t ++ [CallValDestructor oldval] /\
       seen t' = seen t ++ [pool] /\
       val (nth (Z.to_nat i) pool blankEntry) = v) /\
    (valDestructor (type t) = false ->
     calls t' = calls t /\ seen t' = seen t).
Proof.
  split.
  - destruct te as [i|]; cbn; split; intros H; try discriminate; auto.
  - intros i -> Hi t' oldval.
    set (installed := set_tail t i (entry_set_val (tail_at t i) v)).
    assert (Hinst : val (tail_at installed i) = v).
    { unfold installed. rewrite tail_at_set_tail_same by exact Hi.
      reflexivity. }
    assert (Et' : t' = call_valDestructor installed oldval) by reflexivity.
    split; [reflexivity|]. rewrite Et'. unfold call_valDestructor.
    change (type installed) with (type t).
    destruct (valDestructor (type t)).
    + split; [exact Hinst|]. split; [|discriminate]. intros _.
      exists (tails installed). split; [reflexivity|].
      split; [reflexivity|exact Hinst].
    + split; [exact Hinst|]. split; [discriminate|]. intros _.
      split; reflexivity.
Qed.

Lemma C9_trieReplace_witness :
  val (tail_at (snd (trieReplace trie_cat (Some 0) 9)) 0) = 9 /\
  exists pool,
    calls (snd (trieReplace trie_cat (Some 0) 9)) = [CallValDestructor 1] /\
    seen (snd (trieReplace trie_cat (Some 0) 9)) = [pool] /\
    val (nth 0 pool blankEntry) = 9.
Proof.
  destruct (C9_trieReplace trie_cat (Some 0) 9) as [_ H].
  destruct (H 0 eq_refl) as (_ & Hval & Hcall & _).
  - vm_compute. split; [discriminate | reflexivity].
  - split; [exact Hval | exact (Hcall eq_refl)].
Defined.

(** ** Defects shown on concrete runs *)

(** C1 (defect in the code): four distinct keys over the alphabet
    [1..255] are added, every [trieAdd] reports [TDICT_OK], and the key
    [[255]] -- found after the first three additions -- is no longer
    found after the fourth.  The fourth addition relocates the children
    of the root; [_daFillSymbols] scans the labels [0..254] only, so the
    child labelled 255 is left behind. *)
Theorem C1_key_lost_after_relocation :
  NoDup (map fst wide_keys) /\
  forallb (in_alphabet allBytes) (map fst wide_keys) = true /\
  (exists t3,
      add_all 1000 (trieCreate wideType zeroed) (firstn 3 wide_keys)
      = Some ([TDICT_OK; TDICT_OK; TDICT_OK], t3) /\
      trieFind t3 [255] = Some 0 /\
      _daFillSymbols t3 DA_POOL_ROOT = [1]) /\
  (exists t4,
      add_all 1000 (trieCreate wideType zeroed) wide_keys
      = Some ([TDICT_OK; TDICT_OK; TDICT_OK; TDICT_OK], t4) /\
      trieFind t4 [255] = None).
Proof.
  split.
  { repeat constructor; simpl; intuition congruence. }
  split; [reflexivity|].
  split.
  - eexists. do 2 (split; [vm_compute; reflexivity|]).
    vm_compute; reflexivity.
  - eexists. split; [vm_compute; reflexivity|].
    vm_compute; reflexivity.
Qed.

(** C3 (defect in the code): with a type that supplies [keyDup] and
    [valDup], a successful [trieAdd] leaves the [key] and [val] fields of
    the new slot [NULL]: the macros call the duplicators on the slot's
    old content and drop what they return. *)
Theorem C3_duplicates_are_not_stored :
  exists t,
    trieAdd 100 (trieCreate dupType zeroed) key_a 5 = Some (TDICT_OK, t) /\
    trieFind t key_a = Some 0 /\
    key (tail_at t 0) = None /\
    val (tail_at t 0) = NULL /\
    calls t = [CallKeyDup None; CallValDup NULL] /\
    option_map (fun dup => dup (Some key_a)) (keyDup (type t))
      = Some (Some key_a) /\
    option_map (fun dup => dup 5) (valDup (type t)) = Some 5.
Proof.
  eexists. do 6 (split; [vm_compute; reflexivity|]).
  vm_compute; reflexivity.
Qed.

(** C5 (defect in the code): the trie holds the single key "cat".  The
    search for "c*" yields its slot, the search for "ca*" yields
    nothing: once the pattern runs into the tail, [triePrefixSearch]
    walks the tail with the double-array state instead of the tail
    index. *)
Theorem C5_prefix_inside_tail_finds_nothing :
  trieFind trie_cat key_cat = Some 0 /\
  firstn 2 key_cat = firstn 2 pattern_ca /\
  has_wildcard pattern_ca = true /\
  internalKey trie_cat pattern_ca = firstn 2 (internalKey trie_cat key_cat) /\
  option_map (iterator_entries trie_cat)
             (triePrefixSearch 100 trie_cat pattern_c) = Some [Some 0] /\
  option_map (iterator_entries trie_cat)
             (triePrefixSearch 100 trie_cat pattern_ca) = Some [].
Proof.
  do 5 (split; [vm_compute; reflexivity|]).
  vm_compute; reflexivity.
Qed.

(** C8 (defect in the code): "a" is added to a fresh trie and deleted
    again.  [used] is back to 0, but the free chain is empty although the
    pool has three free slots: slot 0 is freed by storing 0 in
    [first_free], which is also the mark of an empty chain.  The next
    addition therefore grows the pool. *)
Theorem C8_free_chain_empty_after_deleting_all :
  exists t1 t2 t3,
    trieAdd 100 (trieCreate plainType zeroed) key_a 1 = Some (TDICT_OK, t1) /\
    trieDelete 100 t1 key_a = Some (TDICT_OK, t2) /\
    used t2 = 0 /\
    tailsize t2 = 3 /\
    first_free t2 = 0 /\
    tail_free_chain t2 = [] /\
    trieAdd 100 t2 key_a 1 = Some (TDICT_OK, t3) /\
    tailsize t3 = 6.
Proof.
  do 3 eexists.
  do 7 (split; [vm_compute; reflexivity|]).
  vm_compute; reflexivity.
Qed.

(** * Preservation of the free ring *)

Ltac zlia :=
  unfold lng, small, TRIE_INDEX_MAX, TRIE_INDEX_HALFMAX, DA_POOL_FREE,
    DA_POOL_ROOT, DA_POOL_BEGIN, TRIE_CHAR_MAX, TRIE_INDEX_ERROR,
    TDICT_OK, TDICT_ERR, TAIL_START_BLOCKNO in *; lia.

Lemma ult_spec (i n : Z) :
  - 9223372036854775808 <= i < 9223372036854775808 ->
  0 <= n < 9223372036854775808 ->
  ult i n = ((0 <=? i) && (i <? n)).
Proof.
  intros Hi Hn. unfold ult, ulong.
  change (2 ^ 64) with 18446744073709551616.
  rewrite (Z.mod_small n) by lia.
  destruct (Z_lt_le_dec i 0) as [Hneg|Hpos].
  - replace (i mod 18446744073709551616) with (i + 18446744073709551616).
    + destruct (0 <=? i) eqn:E; [lia|]. simpl. apply Z.ltb_ge. lia.
    + apply Z.mod_unique with (q := -1); lia.
  - rewrite Z.mod_small by lia.
    destruct (0 <=? i) eqn:E; [|lia]. reflexivity.
Qed.

Lemma ult_in (t : trie) (i : Z) :
  wf_arrays t -> 0 <= i < dasize t -> ult i (dasize t) = true.
Proof.
  intros (Hd & _) Hi. rewrite ult_spec by zlia.
  apply andb_true_iff. split; [apply Z.leb_le | apply Z.ltb_lt]; lia.
Qed.

Lemma ult_out (t : trie) (i : Z) :
  wf_arrays t -> lng i -> ~ (0 <= i < dasize t) -> ult i (dasize t) = false.
Proof.
  intros (Hd & _) Hl Hi. rewrite ult_spec by zlia.
  apply andb_false_iff.
  destruct (Z_lt_le_dec i 0); [left; apply Z.leb_gt | right; apply Z.ltb_ge]; lia.
Qed.

Lemma zget_zset_same (l : list Z) (i v : Z) :
  0 <= i < Z.of_nat (length l) -> zget (zset l i v) i = v.
Proof. intros. unfold zget, zset. apply nth_upd_same. lia. Qed.

Lemma zget_zset_other (l : list Z) (i j v : Z) :
  0 <= i -> 0 <= j -> i <> j -> zget (zset l i v) j = zget l j.
Proof. intros. unfold zget, zset. apply nth_upd_other. lia. Qed.

Lemma zset_length (l : list Z) (i v : Z) : length (zset l i v) = length l.
Proof. apply upd_length. Qed.

(** Reads after writes. *)
Lemma getC_setC (t : trie) (i v j : Z) :
  wf_arrays t -> 0 <= i < dasize t -> lng j ->
  trieGetCheck (trieSetCheck t i v) j = if j =? i then v else trieGetCheck t j.
Proof.
  intros Hwf Hi Hj. unfold trieSetCheck. rewrite (ult_in t i Hwf Hi).
  unfold trieGetCheck. cbn [dasize check with_check].
  destruct (Z.eqb_spec j i) as [->|Hne].
  - rewrite (ult_in t i Hwf Hi). apply zget_zset_same.
    destruct Hwf as (_ & _ & Hc). rewrite Hc. lia.
  - destruct (ult j (dasize t)) eqn:E; [|reflexivity].
    apply zget_zset_other; try lia.
    destruct (Z_lt_le_dec j 0); [|lia].
    rewrite ult_out in E; try discriminate; auto; lia.
Qed.

Lemma getB_setB (t : trie) (i v j : Z) :
  wf_arrays t -> 0 <= i < dasize t -> lng j ->
  trieGetBase (trieSetBase t i v) j = if j =? i then v else trieGetBase t j.
Proof.
  intros Hwf Hi Hj. unfold trieSetBase. rewrite (ult_in t i Hwf Hi).
  unfold trieGetBase. cbn [dasize base with_base].
  destruct (Z.eqb_spec j i) as [->|Hne].
  - rewrite (ult_in t i Hwf Hi). apply zget_zset_same.
    destruct Hwf as (_ & Hb & _). rewrite Hb. lia.
  - destruct (ult j (dasize t)) eqn:E; [|reflexivity].
    apply zget_zset_other; try lia.
    destruct (Z_lt_le_dec j 0); [|lia].
    rewrite ult_out in E; try discriminate; auto; lia.
Qed.

Lemma setC_out (t : trie) (i v : Z) :
  wf_arrays t -> lng i -> ~ (0 <= i < dasize t) -> trieSetCheck t i v = t.
Proof. intros. unfold trieSetCheck. rewrite ult_out; auto. Qed.

Lemma setB_out (t : trie) (i v : Z) :
  wf_arrays t -> lng i -> ~ (0 <= i < dasize t) -> trieSetBase t i v = t.
Proof. intros. unfold trieSetBase. rewrite ult_out; auto. Qed.

Lemma getB_setC (t : trie) (i v j : Z) :
  trieGetBase (trieSetCheck t i v) j = trieGetBase t j.
Proof. unfold trieSetCheck. destruct (ult i (dasize t)); reflexivity. Qed.

Lemma getC_setB (t : trie) (i v j : Z) :
  trieGetCheck (trieSetBase t i v) j = trieGetCheck t j.
Proof. unfold trieSetBase. destruct (ult i (dasize t)); reflexivity. Qed.

Lemma dasize_setC (t : trie) (i v : Z) : dasize (trieSetCheck t i v) = dasize t.
Proof. unfold trieSetCheck. destruct (ult i (dasize t)); reflexivity. Qed.

Lemma dasize_setB (t : trie) (i v : Z) : dasize (trieSetBase t i v) = dasize t.
Proof. unfold trieSetBase. destruct (ult i (dasize t)); reflexivity. Qed.

Lemma wf_setC (t : trie) (i v : Z) : wf_arrays t -> wf_arrays (trieSetCheck t i v).
Proof.
  unfold trieSetCheck, wf_arrays. destruct (ult i (dasize t)); auto.
  cbn [dasize base check with_check]. rewrite zset_length. auto.
Qed.

Lemma wf_setB (t : trie) (i v : Z) : wf_arrays t -> wf_arrays (trieSetBase t i v).
Proof.
  unfold trieSetBase, wf_arrays. destruct (ult i (dasize t)); auto.
  cbn [dasize base check with_base]. rewrite zset_length. auto.
Qed.

Lemma getC_inb (t : trie) (i : Z) :
  wf_arrays t -> lng i -> trieGetCheck t i <> 0 -> 0 <= i < dasize t.
Proof.
  intros Hwf Hl H. destruct (Z_lt_le_dec i 0) as [Hn|Hp].
  - exfalso. apply H. unfold trieGetCheck. rewrite ult_out; auto. lia.
  - destruct (Z_lt_le_dec i (dasize t)); [lia|].
    exfalso. apply H. unfold trieGetCheck. rewrite ult_out; auto. lia.
Qed.

Lemma getB_inb (t : trie) (i : Z) :
  wf_arrays t -> lng i -> trieGetBase t i <> 0 -> 0 <= i < dasize t.
Proof.
  intros Hwf Hl H. destruct (Z_lt_le_dec i 0) as [Hn|Hp].
  - exfalso. apply H. unfold trieGetBase. rewrite ult_out; auto. lia.
  - destruct (Z_lt_le_dec i (dasize t)); [lia|].
    exfalso. apply H. unfold trieGetBase. rewrite ult_out; auto. lia.
Qed.

(** ** Small values *)

Lemma small_zget (l : list Z) (i : Z) : Forall small l -> small (zget l i).
Proof.
  intros H. unfold zget.
  destruct (Nat.lt_ge_cases (Z.to_nat i) (length l)) as [Hlt|Hge].
  - rewrite Forall_forall in H. apply H. apply nth_In. exact Hlt.
  - rewrite nth_overflow by exact Hge. unfold small. lia.
Qed.

Lemma small_upd (l : list Z) :
  forall n v, Forall small l -> small v -> Forall small (upd l n v).
Proof.
  induction l as [|h l IH]; intros [|n] v Hl Hv; simpl; auto;
    inversion Hl; subst; constructor; auto.
Qed.

Lemma small_getC (t : trie) (i : Z) : da_inv t -> small (trieGetCheck t i).
Proof.
  intros H. unfold trieGetCheck. destruct (ult i (dasize t)).
  - apply small_zget. apply (inv_smallC t H).
  - unfold small, TRIE_INDEX_ERROR. lia.
Qed.

Lemma small_getB (t : trie) (i : Z) : da_inv t -> small (trieGetBase t i).
Proof.
  intros H. unfold trieGetBase. destruct (ult i (dasize t)).
  - apply small_zget. apply (inv_smallB t H).
  - unfold small, TRIE_INDEX_ERROR. lia.
Qed.

Lemma smallC_setC (t : trie) (i v : Z) :
  Forall small (check t) -> small v -> Forall small (check (trieSetCheck t i v)).
Proof.
  intros. unfold trieSetCheck. destruct (ult i (dasize t)); auto.
  cbn [check with_check]. apply small_upd; auto.
Qed.

Lemma smallB_setB (t : trie) (i v : Z) :
  Forall small (base t) -> small v -> Forall small (base (trieSetBase t i v)).
Proof.
  intros. unfold trieSetBase. destruct (ult i (dasize t)); auto.
  cbn [base with_base]. apply small_upd; auto.
Qed.

Lemma base_setC (t : trie) (i v : Z) : base (trieSetCheck t i v) = base t.
Proof. unfold trieSetCheck. destruct (ult i (dasize t)); reflexivity. Qed.

Lemma check_setB (t : trie) (i v : Z) : check (trieSetBase t i v) = check t.
Proof. unfold trieSetBase. destruct (ult i (dasize t)); reflexivity. Qed.

Lemma tail_inv_setC (t : trie) (i v : Z) :
  tail_inv (trieSetCheck t i v) <-> tail_inv t.
Proof. unfold trieSetCheck. destruct (ult i (dasize t)); reflexivity. Qed.

Lemma tail_inv_setB (t : trie) (i v : Z) :
  tail_inv (trieSetBase t i v) <-> tail_inv t.
Proof. unfold trieSetBase. destruct (ult i (dasize t)); reflexivity. Qed.

(** ** Facts about free cells *)

Lemma free_lng (t : trie) (i : Z) : wf_arrays t -> free t i -> lng i.
Proof. intros (Hd & _) (Hi & _). zlia. Qed.

Lemma inb_lng (t : trie) (i : Z) : wf_arrays t -> 0 <= i < dasize t -> lng i.
Proof. intros (Hd & _) Hi. zlia. Qed.

Lemma free_not_head (t : trie) (i : Z) :
  da_inv t -> free t i -> i = 1 \/ 3 <= i.
Proof.
  intros H (Hi & Hc). destruct (inv_head t H) as (H0 & H2 & _).
  pose proof (inv_wf t H) as (Hd & _). unfold DA_POOL_ROOT in *.
  destruct (Z.eq_dec i 0) as [->|]; [lia|].
  destruct (Z.eq_dec i 2) as [->|]; [lia|]. lia.
Qed.

Lemma free_prev_lt (t : trie) (i : Z) :
  da_inv t -> free t i -> i <> 1 -> - trieGetBase t i < i.
Proof.
  intros H Hf Hne. destruct (inv_prev t H i Hf) as (Hp & Hcp).
  destruct (inv_next t H _ Hp) as (_ & _ & Hord).
  rewrite Hcp in Hord. unfold DA_POOL_FREE in *. lia.
Qed.

Lemma free_next_pos (t : trie) (i : Z) :
  da_inv t -> free t i -> 1 <= - trieGetCheck t i.
Proof.
  intros H Hf. destruct (inv_next t H i Hf) as (Hn & _).
  destruct (free_not_head t _ H Hn); lia.
Qed.

Lemma free_prev_pos (t : trie) (i : Z) :
  da_inv t -> free t i -> 1 <= - trieGetBase t i.
Proof.
  intros H Hf. destruct (inv_prev t H i Hf) as (Hn & _).
  destruct (free_not_head t _ H Hn); lia.
Qed.

Lemma node_lng (t : trie) (s : Z) : wf_arrays t -> node t s -> lng s.
Proof. intros (Hd & _) (Hs & _). zlia. Qed.

Lemma node_not_free (t : trie) (s : Z) : node t s -> free t s -> False.
Proof. intros (_ & Hc) (_ & Hf). lia. Qed.

Ltac eqb_cases :=
  repeat match goal with
         | |- context [?a =? ?b] => destruct (Z.eqb_spec a b)
         | H : context [?a =? ?b] |- _ => destruct (Z.eqb_spec a b)
         end.

(** ** Claiming a free cell *)

Section Claim.
Variables (t : trie) (s next : Z).
Hypothesis Hinv : da_inv t.
Hypothesis Hfree : free t next.
Hypothesis Hnext : next <> 1.
Hypothesis Hnode : node t s.

Let pv := - trieGetBase t next.
Let nx := - trieGetCheck t next.
Let t' := snd (daInsert_claim t s next).

Lemma claim_dasize : dasize t' = dasize t.
  Proof.
    unfold t', daInsert_claim, _daAssignCell. cbn [snd].
    rewrite !dasize_setC, !dasize_setB, !dasize_setC. reflexivity.
  Qed.

Lemma claim_C (j : Z) :
    lng j ->
    trieGetCheck t' j =
      if j =? next then s else if j =? pv then - nx else trieGetCheck t j.
  Proof.
    intros Hj. pose proof (inv_wf t Hinv) as Hwf.
    destruct (inv_prev t Hinv next Hfree) as ((Hpv & _) & _).
    destruct (inv_next t Hinv next Hfree) as ((Hnx & _) & _).
    destruct Hfree as (Hn & _).
    unfold t', daInsert_claim, _daAssignCell. cbn [snd].
    rewrite getC_setC; auto.
    - destruct (j =? next); [reflexivity|].
      rewrite getC_setB. rewrite getC_setC; auto.
    - apply wf_setB, wf_setC, Hwf.
    - rewrite dasize_setB, dasize_setC. exact Hn.
  Qed.

Lemma claim_B (j : Z) :
    lng j ->
    trieGetBase t' j = if j =? nx then - pv else trieGetBase t j.
  Proof.
    intros Hj. pose proof (inv_wf t Hinv) as Hwf.
    destruct (inv_next t Hinv next Hfree) as ((Hnx & _) & _).
    unfold t', daInsert_claim, _daAssignCell. cbn [snd].
    rewrite getB_setC. rewrite getB_setB; auto.
    - rewrite getB_setC. reflexivity.
    - apply wf_setC, Hwf.
    - rewrite dasize_setC. exact Hnx.
  Qed.

Lemma claim_tail : tail_inv t' <-> tail_inv t.
  Proof.
    unfold t', daInsert_claim, _daAssignCell. cbn [snd].
    rewrite tail_inv_setC, tail_inv_setB, tail_inv_setC. reflexivity.
  Qed.

Lemma claim_wf : wf_arrays t'.
  Proof.
    unfold t', daInsert_claim, _daAssignCell. cbn [snd].
    apply wf_setC, wf_setB, wf_setC, (inv_wf t Hinv).
  Qed.
End Claim.

Lemma claim_small (t : trie) (s next : Z) :
  da_inv t -> node t s ->
  Forall small (check (snd (daInsert_claim t s next))) /\
  Forall small (base (snd (daInsert_claim t s next))).
Proof.
  intros H Hs. pose proof (small_getC t next H) as Hc.
  pose proof (small_getB t next H) as Hb.
  pose proof (inv_wf t H) as (Hd & _). destruct Hs as (Hs & _).
  unfold daInsert_claim, _daAssignCell. cbn [snd]. split.
  - apply smallC_setC; [|zlia]. rewrite check_setB.
    apply smallC_setC; [apply (inv_smallC t H)|zlia].
  - rewrite base_setC. apply smallB_setB; [|zlia].
    rewrite base_setC. apply (inv_smallB t H).
Qed.

Lemma claim_inv (t : trie) (s next : Z) :
  da_inv t -> free t next -> next <> 1 -> node t s ->
  da_inv (snd (daInsert_claim t s next)).
Proof.
  intros H Hf Hne Hs.
  set (t' := snd (daInsert_claim t s next)).
  pose proof (inv_wf t H) as Hwf.
  pose proof (claim_dasize t s next : dasize t' = dasize t) as Hds.
  pose proof (claim_C t s next H Hf) as HC. fold t' in HC.
  pose proof (claim_B t s next H Hf) as HB. fold t' in HB.
  destruct (inv_next t H next Hf) as (Hnx & Hnxb & Hnxo).
  destruct (inv_prev t H next Hf) as (Hpv & Hpvc).
  pose proof (free_prev_lt t next H Hf Hne) as Hpvlt.
  pose proof (free_next_pos t next H Hf) as Hnxpos.
  pose proof (free_prev_pos t next H Hf) as Hpvpos.
  destruct (inv_head t H) as (H0 & H2 & H1).
  set (pv := - trieGetBase t next) in *.
  set (nx := - trieGetCheck t next) in *.
  assert (Hsn : s <> next) by (intros ->; eapply node_not_free; eauto).
  assert (Hfree' : forall i, free t' i -> free t i /\ i <> next).
  { intros i (Hi & Hc). rewrite Hds in Hi.
    rewrite HC in Hc by (eapply inb_lng; eauto).
    pose proof Hs as (Hs1 & Hs0).
    destruct (Z.eqb_spec i next); [lia|].
    destruct (Z.eqb_spec i pv) as [->|]; [split; auto|].
    split; auto. split; auto. }
  assert (Hfree'' : forall i, free t i -> i <> next -> free t' i).
  { intros i (Hi & Hc) Hin. split; [rewrite Hds; exact Hi|].
    rewrite HC by (eapply inb_lng; eauto).
    destruct (Z.eqb_spec i next); [lia|].
    destruct (Z.eqb_spec i pv); lia. }
  constructor.
  - apply claim_wf; auto.
  - apply claim_small; auto.
  - apply claim_small; auto.
  - unfold DA_POOL_ROOT, DA_POOL_FREE in *.
    destruct (free_not_head t _ H Hf), (free_not_head t _ H Hpv);
      rewrite !HC by zlia; eqb_cases; try lia;
      (split; [lia|]); (split; [lia|]); apply Hfree''; auto.
  - intros i Hi. destruct (Hfree' i Hi) as (Hfi & Hin).
    destruct (inv_next t H i Hfi) as (Hn & Hnb & Hno).
    pose proof (free_lng t i Hwf Hfi) as Hli.
    rewrite HC by exact Hli.
    destruct (Z.eqb_spec i next); [lia|].
    destruct (Z.eqb_spec i pv) as [->|Hip].
    + replace (- - nx) with nx by lia.
      assert (nx <> next) by (unfold DA_POOL_FREE in *; lia).
      split; [apply Hfree''; auto|].
      rewrite HB by (eapply free_lng; eauto).
      rewrite Z.eqb_refl. split; [reflexivity|].
      unfold DA_POOL_FREE in *. lia.
    + assert (Hm : - trieGetCheck t i <> next).
      { intros E. rewrite E in Hnb. unfold pv in Hip. lia. }
      split; [apply Hfree''; auto|].
      rewrite HB by (eapply free_lng; eauto).
      destruct (Z.eqb_spec (- trieGetCheck t i) nx) as [E|]; [|auto].
      exfalso. rewrite E in Hnb. lia.
  - intros i Hi. destruct (Hfree' i Hi) as (Hfi & Hin).
    destruct (inv_prev t H i Hfi) as (Hp & Hpc).
    pose proof (free_lng t i Hwf Hfi) as Hli.
    rewrite HB by exact Hli.
    destruct (Z.eqb_spec i nx) as [->|Hinx].
    + replace (- - pv) with pv by lia.
      assert (pv <> next) by lia.
      split; [apply Hfree''; auto|].
      rewrite HC by (eapply free_lng; eauto).
      destruct (Z.eqb_spec pv next); [lia|].
      rewrite Z.eqb_refl. reflexivity.
    + assert (Hm : - trieGetBase t i <> next).
      { intros E. rewrite E in Hpc. unfold nx in Hinx. lia. }
      split; [apply Hfree''; auto|].
      rewrite HC by (eapply free_lng; eauto).
      destruct (Z.eqb_spec (- trieGetBase t i) next); [lia|].
      destruct (Z.eqb_spec (- trieGetBase t i) pv) as [E|]; [|auto].
      exfalso. rewrite E in Hpc. lia.
  - intros i (Hi & Hc). rewrite Hds in Hi.
    pose proof (inb_lng t i Hwf ltac:(lia)) as Hli.
    rewrite HC in Hc by exact Hli. rewrite HB by exact Hli.
    destruct (Z.eqb_spec i nx) as [->|Hinx].
    + exfalso. destruct Hnx as (_ & Hnxc).
      destruct (Z.eqb_spec nx next); [unfold DA_POOL_FREE in *; lia|].
      destruct (Z.eqb_spec nx pv); lia.
    + destruct (Z.eqb_spec i next) as [->|].
      * left. fold pv. lia.
      * destruct (Z.eqb_spec i pv); [lia|].
        apply (inv_base t H). split; auto.
  - intros i Hi. rewrite Hds in Hi.
    rewrite HC by (eapply inb_lng; eauto).
    destruct (Z.eqb_spec i next) as [->|]; [auto|].
    destruct (Z.eqb_spec i pv) as [->|]; [lia|].
    apply (inv_noself t H). exact Hi.
  - apply claim_tail. apply (inv_tail t H).
Qed.

(** ** Returning a cell to the ring *)

Lemma freeCell_scan_spec (fuel : nat) (t : trie) (s : Z) :
  da_inv t -> 3 <= s ->
  forall i q,
    free t i -> - trieGetBase t i < s ->
    freeCell_scan fuel t s i = Some q ->
    free t q /\ - trieGetBase t q < s /\ (q = 1 \/ s <= q).
Proof.
  intros H Hs. induction fuel as [|f IH]; intros i q Hf Hp Hscan;
    [discriminate|].
  cbn [freeCell_scan] in Hscan. unfold DA_POOL_FREE in Hscan.
  destruct (Z.eqb_spec i 1) as [->|Hne]; cbn [negb andb] in Hscan.
  - inversion Hscan; subst. auto.
  - destruct (Z.ltb_spec i s) as [Hlt|Hge].
    + destruct (inv_next t H i Hf) as (Hn & Hnb & _).
      apply (IH (- trieGetCheck t i) q); auto. lia.
    + inversion Hscan; subst. split; [auto|]. split; [auto|]. right. lia.
Qed.

Section FreeCell.
Variables (t : trie) (s q : Z).
Hypothesis Hinv : da_inv t.
Hypothesis Hnode : node t s.
Hypothesis Hs : 3 <= s.
Hypothesis Hq : free t q.
Hypothesis Hqp : - trieGetBase t q < s.
Hypothesis Hqs : q = 1 \/ s <= q.

Let pv := - trieGetBase t q.
Let t' :=
    trieSetBase
      (trieSetCheck (trieSetBase (trieSetCheck t s (- q)) s (- pv)) pv (- s))
      q (- s).

Lemma freeCell_dasize : dasize t' = dasize t.
  Proof.
    unfold t'. rewrite dasize_setB, dasize_setC, dasize_setB, dasize_setC.
    reflexivity.
  Qed.

Lemma freeCell_wf : wf_arrays t'.
  Proof. apply wf_setB, wf_setC, wf_setB, wf_setC, (inv_wf t Hinv). Qed.

Lemma freeCell_tail : tail_inv t' <-> tail_inv t.
  Proof.
    unfold t'.
    rewrite tail_inv_setB, tail_inv_setC, tail_inv_setB, tail_inv_setC.
    reflexivity.
  Qed.

Lemma freeCell_C (j : Z) :
    lng j ->
    trieGetCheck t' j =
      if j =? pv then - s else if j =? s then - q else trieGetCheck t j.
  Proof.
    intros Hj. pose proof (inv_wf t Hinv) as Hwf.
    destruct (inv_prev t Hinv q Hq) as ((Hpv & _) & _).
    destruct Hnode as (Hsb & _).
    unfold t'. rewrite getC_setB. rewrite getC_setC; auto.
    - destruct (j =? pv); [reflexivity|].
      rewrite getC_setB. rewrite getC_setC; auto. lia.
    - apply wf_setB, wf_setC, Hwf.
    - rewrite dasize_setB, dasize_setC. exact Hpv.
  Qed.

Lemma freeCell_B (j : Z) :
    lng j ->
    trieGetBase t' j =
      if j =? q then - s else if j =? s then - pv else trieGetBase t j.
  Proof.
    intros Hj. pose proof (inv_wf t Hinv) as Hwf.
    destruct Hq as (Hqb & _). destruct Hnode as (Hsb & _).
    unfold t'. rewrite getB_setB; auto.
    - destruct (j =? q); [reflexivity|].
      rewrite getB_setC. rewrite getB_setB; auto.
      + rewrite getB_setC. reflexivity.
      + apply wf_setC, Hwf.
      + rewrite dasize_setC. lia.
    - apply wf_setC, wf_setB, wf_setC, Hwf.
    - rewrite dasize_setC, dasize_setB, dasize_setC. exact Hqb.
  Qed.

Lemma freeCell_small :
    Forall small (check t') /\ Forall small (base t').
  Proof.
    pose proof (small_getB t q Hinv) as Hb.
    pose proof (inv_wf t Hinv) as (Hd & _).
    destruct Hnode as (Hsb & _). destruct Hq as (Hqb & _).
    unfold t'. split.
    - rewrite check_setB. apply smallC_setC; [|zlia].
      rewrite check_setB. apply smallC_setC; [apply (inv_smallC t Hinv)|zlia].
    - apply smallB_setB; [|zlia]. rewrite base_setC.
      apply smallB_setB; [|unfold pv; zlia]. rewrite base_setC.
      apply (inv_smallB t Hinv).
  Qed.
End FreeCell.

Lemma freeCell_inv_raw (t : trie) (s q : Z) :
  da_inv t -> node t s -> 3 <= s ->
  free t q -> - trieGetBase t q < s -> (q = 1 \/ s <= q) ->
  da_inv
    (trieSetBase
       (trieSetCheck
          (trieSetBase (trieSetCheck t s (- q)) s (- - trieGetBase t q))
          (- trieGetBase t q) (- s))
       q (- s)).
Proof.
  intros H Hn Hs Hq Hqp Hqs.
  pose proof (freeCell_dasize t s q) as Hds.
  pose proof (freeCell_C t s q H Hn Hs Hq) as HC.
  pose proof (freeCell_B t s q H Hn Hs Hq) as HB.
  pose proof (freeCell_small t s q H Hn Hs Hq) as Hsm.
  pose proof (freeCell_wf t s q H) as Hwf'.
  pose proof (freeCell_tail t s q) as Htl.
  cbv zeta in Hds, HC, HB, Hsm, Hwf', Htl.
  set (pv := - trieGetBase t q) in *.
  set (t' := trieSetBase _ q (- s)) in *.
  pose proof (inv_wf t H) as Hwf.
  destruct (inv_prev t H q Hq) as (Hpv & Hpvc). fold pv in Hpv, Hpvc.
  destruct (inv_next t H pv Hpv) as (_ & Hpvb & _).
  pose proof (free_prev_pos t q H Hq) as Hpvpos. fold pv in Hpvpos.
  destruct (inv_head t H) as (H0 & H2 & H1).
  pose proof Hn as (Hsb & Hsc).
  assert (Hsq : s <> q) by (intros ->; eapply node_not_free; eauto).
  assert (Hspv : s <> pv) by lia.
  assert (Hqpos : 1 <= q) by (destruct (free_not_head t q H Hq); lia).
  assert (Hfree' : forall i, free t' i -> i = s \/ free t i).
  { intros i (Hi & Hc). rewrite Hds in Hi.
    rewrite HC in Hc by (eapply inb_lng; eauto).
    destruct (Z.eqb_spec i pv) as [->|]; [right; auto|].
    destruct (Z.eqb_spec i s); [left; auto|]. right. split; auto. }
  assert (Hfree'' : forall i, free t i -> free t' i).
  { intros i (Hi & Hc). split; [rewrite Hds; exact Hi|].
    rewrite HC by (eapply inb_lng; eauto).
    destruct (Z.eqb_spec i pv); [lia|].
    destruct (Z.eqb_spec i s); lia. }
  assert (Hfs : free t' s).
  { split; [rewrite Hds; lia|]. rewrite HC by (eapply inb_lng; eauto; lia).
    destruct (Z.eqb_spec s pv); [lia|]. rewrite Z.eqb_refl. lia. }
  constructor.
  - exact Hwf'.
  - apply Hsm.
  - apply Hsm.
  - unfold DA_POOL_ROOT, DA_POOL_FREE in *.
    destruct (free_not_head t _ H Hpv);
      rewrite !HC by zlia; eqb_cases; try lia;
      (split; [lia|]); (split; [lia|]); apply Hfree''; auto.
  - intros i Hi.
    assert (Hli : lng i) by (destruct Hi as (Hi & _); rewrite Hds in Hi;
                             eapply inb_lng; eauto).
    rewrite HC by exact Hli.
    destruct (Z.eqb_spec i pv) as [->|Hipv].
    + replace (- - s) with s by lia. split; [exact Hfs|].
      rewrite HB by (eapply inb_lng; eauto; lia).
      destruct (Z.eqb_spec s q); [lia|]. rewrite Z.eqb_refl.
      split; [reflexivity|]. right. lia.
    + destruct (Z.eqb_spec i s) as [->|His].
      * replace (- - q) with q by lia. split; [apply Hfree''; exact Hq|].
        rewrite HB by (eapply free_lng; eauto). rewrite Z.eqb_refl.
        split; [reflexivity|]. unfold DA_POOL_FREE. lia.
      * destruct (Hfree' i Hi) as [->|Hfi]; [lia|].
        destruct (inv_next t H i Hfi) as (Hnx & Hnxb & Hnxo).
        split; [apply Hfree''; exact Hnx|].
        rewrite HB by (eapply free_lng; eauto).
        destruct (Z.eqb_spec (- trieGetCheck t i) q) as [E|Hne].
        { exfalso. rewrite E in Hnxb. unfold pv in Hipv. lia. }
        destruct (Z.eqb_spec (- trieGetCheck t i) s) as [E|Hne2].
        { exfalso. rewrite E in Hnx. eapply node_not_free; eauto. }
        auto.
  - intros i Hi.
    assert (Hli : lng i) by (destruct Hi as (Hi & _); rewrite Hds in Hi;
                             eapply inb_lng; eauto).
    rewrite HB by exact Hli.
    destruct (Z.eqb_spec i q) as [->|Hiq].
    + replace (- - s) with s by lia. split; [exact Hfs|].
      rewrite HC by (eapply inb_lng; eauto; lia).
      destruct (Z.eqb_spec s pv); [lia|]. rewrite Z.eqb_refl. reflexivity.
    + destruct (Z.eqb_spec i s) as [->|His].
      * replace (- - pv) with pv by lia. split; [apply Hfree''; exact Hpv|].
        rewrite HC by (eapply free_lng; eauto). rewrite Z.eqb_refl.
        reflexivity.
      * destruct (Hfree' i Hi) as [->|Hfi]; [lia|].
        destruct (inv_prev t H i Hfi) as (Hp & Hpc).
        split; [apply Hfree''; exact Hp|].
        rewrite HC by (eapply free_lng; eauto).
        destruct (Z.eqb_spec (- trieGetBase t i) pv) as [E|Hne].
        { exfalso. rewrite E in Hpc. lia. }
        destruct (Z.eqb_spec (- trieGetBase t i) s) as [E|Hne2].
        { exfalso. rewrite E in Hp. eapply node_not_free; eauto. }
        auto.
  - intros i (Hi & Hc). rewrite Hds in Hi.
    pose proof (inb_lng t i Hwf ltac:(lia)) as Hli.
    rewrite HC in Hc by exact Hli. rewrite HB by exact Hli.
    destruct (Z.eqb_spec i pv); [lia|].
    destruct (Z.eqb_spec i s); [lia|].
    destruct (Z.eqb_spec i q) as [->|]; [destruct Hq; lia|].
    apply (inv_base t H). split; auto.
  - intros i Hi. rewrite Hds in Hi.
    rewrite HC by (eapply inb_lng; eauto).
    destruct (Z.eqb_spec i pv) as [->|]; [lia|].
    destruct (Z.eqb_spec i s) as [->|]; [lia|].
    apply (inv_noself t H). exact Hi.
  - apply Htl. apply (inv_tail t H).
Qed.

(** ** Frames *)

Lemma same_pool_refl (t : trie) : same_pool t t.
Proof. repeat split. Qed.

Lemma same_pool_trans (t1 t2 t3 : trie) :
  same_pool t1 t2 -> same_pool t2 t3 -> same_pool t1 t3.
Proof.
  intros (A1 & A2 & A3 & A4 & A5 & A6) (B1 & B2 & B3 & B4 & B5 & B6).
  repeat split; congruence.
Qed.

Lemma same_pool_setC (t : trie) (i v : Z) : same_pool t (trieSetCheck t i v).
Proof. unfold trieSetCheck. destruct (ult i (dasize t)); repeat split. Qed.

Lemma same_pool_setB (t : trie) (i v : Z) : same_pool t (trieSetBase t i v).
Proof. unfold trieSetBase. destruct (ult i (dasize t)); repeat split. Qed.

Lemma same_pool_tail_inv (t t' : trie) :
  same_pool t t' -> tail_inv t -> tail_inv t'.
Proof.
  intros (A1 & A2 & A3 & _) (B1 & B2 & B3). unfold tail_inv.
  rewrite A1, A2, A3. auto.
Qed.

Lemma claim_same_pool (t : trie) (s next : Z) :
  same_pool t (snd (daInsert_claim t s next)).
Proof.
  unfold daInsert_claim, _daAssignCell. cbn [snd].
  eapply same_pool_trans; [|apply same_pool_setC].
  eapply same_pool_trans; [|apply same_pool_setB]. apply same_pool_setC.
Qed.

(** Claiming [next] for the parent [s]. *)
Lemma claim_step (t : trie) (s next : Z) :
  da_inv t -> free t next -> next <> 1 -> node t s ->
  let t' := snd (daInsert_claim t s next) in
  da_inv t' /\ dasize t' = dasize t /\ same_pool t t' /\
  keeps_used nobody t t' /\ keeps_free (only next) t t' /\
  trieGetCheck t' next = s /\ trieGetBase t' next < 0 /\ 3 <= next.
Proof.
  intros H Hf Hne Hs t'.
  pose proof (inv_wf t H) as Hwf.
  pose proof (claim_C t s next H Hf) as HC.
  pose proof (claim_B t s next H Hf) as HB.
  destruct (inv_next t H next Hf) as (Hnx & Hnxb & Hnxo).
  destruct (inv_prev t H next Hf) as (Hpv & Hpvc).
  pose proof (free_prev_pos t next H Hf) as Hpvpos.
  pose proof (free_next_pos t next H Hf) as Hnxpos.
  pose proof (free_prev_lt t next H Hf Hne) as Hpvlt.
  split; [apply claim_inv; auto|].
  split; [apply claim_dasize|].
  split; [apply claim_same_pool|].
  split; [|split; [|split; [|split]]].
  - intros j (Hj & Hc) _. pose proof (inb_lng t j Hwf ltac:(lia)) as Hl. split.
    + unfold t'. rewrite HC by exact Hl.
      destruct (Z.eqb_spec j next) as [->|]; [destruct Hf; lia|].
      destruct (Z.eqb_spec j (- trieGetBase t next)) as [->|];
        [destruct Hpv; lia|reflexivity].
    + unfold t'. rewrite HB by exact Hl.
      destruct (Z.eqb_spec j (- trieGetCheck t next)) as [->|];
        [destruct Hnx; lia|reflexivity].
  - intros j Hj Hjn. unfold only in Hjn. split.
    + unfold t'. rewrite claim_dasize. apply Hj.
    + unfold t'. rewrite HC by (eapply free_lng; eauto).
      destruct (Z.eqb_spec j next); [contradiction|].
      destruct (Z.eqb_spec j (- trieGetBase t next)); [lia|apply Hj].
  - unfold t'. rewrite HC by (eapply free_lng; eauto).
    rewrite Z.eqb_refl. reflexivity.
  - unfold t'. rewrite HB by (eapply free_lng; eauto).
    destruct (Z.eqb_spec next (- trieGetCheck t next)); unfold DA_POOL_FREE in *; lia.
  - destruct (free_not_head t next H Hf); lia.
Qed.

Lemma daFreeCell_step (fuel : nat) (t t' : trie) (s : Z) :
  da_inv t -> node t s -> 3 <= s ->
  _daFreeCell fuel t s = Some t' ->
  da_inv t' /\ dasize t' = dasize t /\ same_pool t t' /\
  keeps_used (only s) t t' /\ keeps_free nobody t t' /\ free t' s.
Proof.
  intros H Hn Hs Hfc. unfold _daFreeCell in Hfc.
  destruct (freeCell_scan fuel t s (- trieGetCheck t DA_POOL_FREE)) as [q|] eqn:Escan;
    [|discriminate].
  inversion Hfc as [Ht']; clear Hfc.
  destruct (inv_head t H) as (_ & _ & H1).
  destruct (inv_next t H _ H1) as (Hf0 & Hb0 & _).
  destruct (freeCell_scan_spec fuel t s H Hs _ q Hf0 ltac:(unfold DA_POOL_FREE in *; lia) Escan)
    as (Hq & Hqp & Hqs).
  pose proof (inv_wf t H) as Hwf.
  pose proof (freeCell_C t s q H Hn Hs Hq) as HC.
  pose proof (freeCell_B t s q H Hn Hs Hq) as HB.
  pose proof (freeCell_dasize t s q) as Hds.
  cbv zeta in HC, HB, Hds.
  destruct (inv_prev t H q Hq) as (Hpv & Hpvc).
  pose proof (free_prev_pos t q H Hq) as Hpvpos.
  pose proof Hn as (Hsb & Hsc).
  assert (Hqpos : 1 <= q) by (destruct (free_not_head t q H Hq); lia).
  split; [apply freeCell_inv_raw; auto|].
  split; [exact Hds|].
  split.
  { eapply same_pool_trans; [|apply same_pool_setB].
    eapply same_pool_trans; [|apply same_pool_setC].
    eapply same_pool_trans; [|apply same_pool_setB]. apply same_pool_setC. }
  split; [|split].
  - intros j (Hj & Hc) Hjs. unfold only in Hjs.
    pose proof (inb_lng t j Hwf ltac:(lia)) as Hl. split.
    + rewrite HC by exact Hl.
      destruct (Z.eqb_spec j (- trieGetBase t q)) as [->|];
        [destruct Hpv; lia|].
      destruct (Z.eqb_spec j s); [contradiction|reflexivity].
    + rewrite HB by exact Hl.
      destruct (Z.eqb_spec j q) as [->|]; [destruct Hq; lia|].
      destruct (Z.eqb_spec j s); [contradiction|reflexivity].
  - intros j Hj _. split; [rewrite Hds; apply Hj|].
    rewrite HC by (eapply free_lng; eauto).
    destruct (Z.eqb_spec j (- trieGetBase t q)); [lia|].
    destruct (Z.eqb_spec j s); [lia|apply Hj].
  - split; [rewrite Hds; lia|].
    rewrite HC by (eapply inb_lng; eauto; lia).
    destruct (Z.eqb_spec s (- trieGetBase t q)); [lia|].
    rewrite Z.eqb_refl. lia.
Qed.

(** ** Growing the array *)

Lemma zget_resize (l : list Z) (R j : Z) :
  Z.of_nat (length l) <= R -> 0 <= j ->
  zget (resize l R) j = if j <? Z.of_nat (length l) then zget l j else 0.
Proof.
  intros HR Hj. unfold resize, zget.
  rewrite firstn_all2 by lia.
  destruct (Z.ltb_spec j (Z.of_nat (length l))).
  - apply app_nth1. lia.
  - rewrite app_nth2 by lia. apply nth_repeat.
Qed.

Lemma resize_length (l : list Z) (R : Z) :
  Z.of_nat (length l) <= R -> length (resize l R) = Z.to_nat R.
Proof.
  intros HR. unfold resize. rewrite firstn_all2 by lia.
  rewrite length_app, repeat_length. lia.
Qed.

Lemma resize_small (l : list Z) (R : Z) :
  Forall small l -> Forall small (resize l R).
Proof.
  intros H. unfold resize. apply Forall_app. split.
  - rewrite Forall_forall in *. intros x Hx. apply H.
    rewrite <- (firstn_skipn (Z.to_nat R) l). apply in_or_app. left. exact Hx.
  - apply Forall_forall. intros x Hx. apply repeat_spec in Hx. subst.
    unfold small. lia.
Qed.


Lemma resized_wf (t : trie) (R : Z) :
  wf_arrays t -> dasize t <= R <= TRIE_INDEX_MAX -> wf_arrays (resized t R).
Proof.
  intros (Hd & Hb & Hc) HR. unfold wf_arrays, resized.
  cbn [dasize base check with_dasize with_check with_base].
  rewrite !resize_length by lia. repeat split; lia.
Qed.

Lemma resized_C (t : trie) (R j : Z) :
  wf_arrays t -> dasize t <= R <= TRIE_INDEX_MAX -> lng j ->
  trieGetCheck (resized t R) j = trieGetCheck t j.
Proof.
  intros Hwf HR Hj. pose proof Hwf as (Hd & Hb & Hc).
  unfold trieGetCheck at 1. unfold resized at 1.
  cbn [dasize with_dasize]. unfold resized.
  cbn [check with_dasize with_check with_base].
  rewrite ult_spec by zlia. unfold trieGetCheck. rewrite ult_spec by zlia.
  destruct (Z.leb_spec 0 j); cbn [andb]; [|reflexivity].
  destruct (Z.ltb_spec j R); destruct (Z.ltb_spec j (dasize t)); try lia;
    try reflexivity.
  - rewrite zget_resize by lia. rewrite Hc.
    destruct (Z.ltb_spec j (Z.of_nat (Z.to_nat (dasize t)))); [reflexivity|lia].
  - rewrite zget_resize by lia. rewrite Hc.
    destruct (Z.ltb_spec j (Z.of_nat (Z.to_nat (dasize t)))); [lia|reflexivity].
Qed.

Lemma resized_B (t : trie) (R j : Z) :
  wf_arrays t -> dasize t <= R <= TRIE_INDEX_MAX -> lng j ->
  trieGetBase (resized t R) j = trieGetBase t j.
Proof.
  intros Hwf HR Hj. pose proof Hwf as (Hd & Hb & Hc).
  unfold trieGetBase at 1. unfold resized at 1.
  cbn [dasize with_dasize]. unfold resized.
  cbn [base with_dasize with_check with_base].
  rewrite ult_spec by zlia. unfold trieGetBase. rewrite ult_spec by zlia.
  destruct (Z.leb_spec 0 j); cbn [andb]; [|reflexivity].
  destruct (Z.ltb_spec j R); destruct (Z.ltb_spec j (dasize t)); try lia;
    try reflexivity.
  - rewrite zget_resize by lia. rewrite Hb.
    destruct (Z.ltb_spec j (Z.of_nat (Z.to_nat (dasize t)))); [reflexivity|lia].
  - rewrite zget_resize by lia. rewrite Hb.
    destruct (Z.ltb_spec j (Z.of_nat (Z.to_nat (dasize t)))); [lia|reflexivity].
Qed.

Lemma fold_link_facts (k : nat) :
  forall n t,
    wf_arrays t -> 0 <= n -> n + Z.of_nat k + 1 <= dasize t ->
    let t' := fold_left expand_link (zrange n k) t in
    wf_arrays t' /\ dasize t' = dasize t /\ same_pool t t' /\
    (Forall small (check t) -> Forall small (check t')) /\
    (Forall small (base t) -> Forall small (base t')) /\
    (forall j, lng j ->
       trieGetCheck t' j =
         if (n <=? j) && (j <? n + Z.of_nat k) then - (j + 1)
         else trieGetCheck t j) /\
    (forall j, lng j ->
       trieGetBase t' j =
         if (n + 1 <=? j) && (j <=? n + Z.of_nat k) then - (j - 1)
         else trieGetBase t j).
Proof.
  induction k as [|k IH]; intros n t Hwf Hn Hk; cbn [zrange fold_left].
  - cbv zeta. split; [auto|]. split; [auto|]. split; [apply same_pool_refl|].
    split; [auto|]. split; [auto|]. split; intros j Hj.
    + destruct (Z.leb_spec n j), (Z.ltb_spec j (n + Z.of_nat 0)); cbn; auto; lia.
    + destruct (Z.leb_spec (n + 1) j), (Z.leb_spec j (n + Z.of_nat 0)); cbn; auto; lia.
  - set (t1 := expand_link t n).
    assert (Hwf1 : wf_arrays t1) by (apply wf_setB, wf_setC, Hwf).
    assert (Hd1 : dasize t1 = dasize t)
      by (unfold t1, expand_link; rewrite dasize_setB, dasize_setC; reflexivity).
    destruct (IH (n + 1) t1 Hwf1 ltac:(lia) ltac:(rewrite Hd1; lia))
      as (Hwf' & Hd' & Hsp & HsC & HsB & HC & HB).
    cbv zeta. split; [exact Hwf'|]. split; [lia|].
    split.
    { eapply same_pool_trans; [|exact Hsp]. unfold t1, expand_link.
      eapply same_pool_trans; [apply same_pool_setC|apply same_pool_setB]. }
    assert (Hbound : dasize t <= TRIE_INDEX_MAX) by (destruct Hwf; lia).
    split.
    { intros Hs. apply HsC. unfold t1, expand_link. rewrite check_setB.
      apply smallC_setC; auto. zlia. }
    split.
    { intros Hs. apply HsB. unfold t1, expand_link.
      apply smallB_setB; [rewrite base_setC; auto|]. zlia. }
    split; intros j Hj.
    + rewrite HC by exact Hj. unfold t1, expand_link.
      rewrite getC_setB. rewrite getC_setC by (auto; lia).
      destruct (Z.eqb_spec j n); destruct (Z.leb_spec (n + 1) j);
        destruct (Z.ltb_spec j (n + 1 + Z.of_nat k));
        destruct (Z.leb_spec n j); destruct (Z.ltb_spec j (n + Z.of_nat (S k)));
        cbn [andb]; try lia; try reflexivity.
    + rewrite HB by exact Hj. unfold t1, expand_link.
      rewrite getB_setB by (try apply wf_setC; auto; rewrite ?dasize_setC; lia).
      rewrite getB_setC.
      destruct (Z.eqb_spec j (n + 1)); destruct (Z.leb_spec (n + 1 + 1) j);
        destruct (Z.leb_spec j (n + 1 + Z.of_nat k));
        destruct (Z.leb_spec (n + 1) j); destruct (Z.leb_spec j (n + Z.of_nat (S k)));
        cbn [andb]; try lia; try reflexivity.
Qed.

Lemma trieNextPower_bounds (size : Z) :
  0 < size < TRIE_INDEX_MAX ->
  size < _trieNextPower size <= TRIE_INDEX_MAX.
Proof.
  intros Hs. destruct (Z_lt_le_dec size TRIE_INDEX_HALFMAX) as [Hlt|Hge].
  - destruct (trieNextPower_doubling size Hlt) as (k & Hk & Heq & Hgt & Hmin).
    split; [lia|]. rewrite Heq.
    destruct (Z.eq_dec k 0) as [->|Hk0]; [zlia|].
    assert (Hprev : DA_POOL_BEGIN * 2 ^ (k - 1) <= size).
    { destruct (Z_lt_le_dec size (DA_POOL_BEGIN * 2 ^ (k - 1))) as [Hc|]; [|lia].
      specialize (Hmin (k - 1) ltac:(lia) Hc). lia. }
    replace k with (k - 1 + 1) by lia. rewrite pow2_step by lia. zlia.
  - rewrite trieNextPower_saturates by exact Hge. zlia.
Qed.

Lemma setC_direct (t : trie) (v : Z) :
  wf_arrays t -> with_check t (zset (check t) 0 v) = trieSetCheck t 0 v.
Proof.
  intros Hwf. unfold trieSetCheck. rewrite ult_in; auto.
  destruct Hwf; lia.
Qed.

Section Expand.
Variables (t : trie) (size : Z).
Hypothesis Hinv : da_inv t.
Hypothesis Hsize : 0 < size < TRIE_INDEX_MAX.
Hypothesis Hgrow : dasize t < size.

Let R := _trieNextPower size.
Let n := dasize t.
Let ft := - trieGetBase t DA_POOL_FREE.
Let t' := snd (trieExpand t size).

Lemma expand_grow_unfold :
    trieExpand t size =
    (TDICT_OK,
     trieSetCheck
       (trieSetBase
          (trieSetCheck
             (trieSetBase
                (trieSetCheck
                   (fold_left expand_link
                      (zrange n (Z.to_nat (R - 1 - n))) (resized t R))
                   ft (- n))
                n (- ft))
             (R - 1) (- DA_POOL_FREE))
          DA_POOL_FREE (- (R - 1)))
       0 R).
  Proof.
    pose proof (inv_wf t Hinv) as Hwf. pose proof Hwf as (Hd & _).
    pose proof (trieNextPower_bounds size Hsize) as HR. fold R in HR.
    unfold trieExpand.
    destruct ((size <=? 0) || (TRIE_INDEX_MAX <=? size)) eqn:E.
    { apply orb_true_iff in E. zlia. }
    rewrite !ulong_small by zlia.
    destruct (dasize t >=? size) eqn:E2; [lia|].
    cbv zeta. cbn [dasize with_base with_check check base].
    fold R. fold n. change (with_dasize _ R) with (resized t R).
    destruct (fold_link_facts (Z.to_nat (R - 1 - n)) n (resized t R))
      as (Hwf2 & Hd2 & _ & _ & _ & _ & HB2).
    { apply resized_wf; auto. lia. }
    { lia. }
    { unfold resized. cbn [dasize with_dasize]. lia. }
    cbv zeta in Hwf2, Hd2, HB2.
    assert (Hft : - trieGetBase
                      (fold_left expand_link (zrange n (Z.to_nat (R - 1 - n)))
                                 (resized t R)) DA_POOL_FREE = ft).
    { rewrite HB2 by zlia. unfold DA_POOL_FREE.
      destruct (Z.leb_spec (n + 1) 1); [lia|]. cbn [andb].
      rewrite resized_B by (auto; zlia). reflexivity. }
    rewrite Hft. rewrite setC_direct.
    - rewrite dasize_setB, dasize_setC, dasize_setB, dasize_setC, Hd2.
      unfold resized. cbn [dasize with_dasize]. reflexivity.
    - apply wf_setB, wf_setC, wf_setB, wf_setC, Hwf2.
  Qed.
End Expand.

Lemma expand_grow_reads (t : trie) (size : Z) :
  da_inv t -> 0 < size < TRIE_INDEX_MAX -> dasize t < size ->
  let R := _trieNextPower size in
  let n := dasize t in
  let ft := - trieGetBase t DA_POOL_FREE in
  let t' := snd (trieExpand t size) in
  fst (trieExpand t size) = TDICT_OK /\
  dasize t' = R /\ wf_arrays t' /\ same_pool t t' /\
  Forall small (check t') /\ Forall small (base t') /\
  (forall j, lng j ->
     trieGetCheck t' j =
       if j =? 0 then R
       else if j =? R - 1 then -1
       else if j =? ft then - n
       else if (n <=? j) && (j <? R - 1) then - (j + 1)
       else trieGetCheck t j) /\
  (forall j, lng j ->
     trieGetBase t' j =
       if j =? 1 then - (R - 1)
       else if j =? n then - ft
       else if (n + 1 <=? j) && (j <=? R - 1) then - (j - 1)
       else trieGetBase t j).
Proof.
  intros H Hsize Hgrow R n ft t'.
  pose proof (inv_wf t H) as Hwf. pose proof Hwf as (Hd & _).
  pose proof (trieNextPower_bounds size Hsize) as HR. fold R in HR.
  destruct (inv_head t H) as (_ & _ & H1).
  destruct (inv_prev t H _ H1) as ((Hftb & _) & _). fold ft in Hftb.
  pose proof (small_getB t DA_POOL_FREE H) as Hsft.
  unfold t'. rewrite (expand_grow_unfold t size H Hsize Hgrow).
  cbn [fst snd]. fold R n ft.
  destruct (fold_link_facts (Z.to_nat (R - 1 - n)) n (resized t R))
    as (Hwf2 & Hd2 & Hsp2 & HsC2 & HsB2 & HC2 & HB2).
  { apply resized_wf; auto. fold n. lia. }
  { fold n in Hd. lia. }
  { unfold resized. cbn [dasize with_dasize]. lia. }
  cbv zeta in Hwf2, Hd2, Hsp2, HsC2, HsB2, HC2, HB2.
  set (t2 := fold_left expand_link (zrange n (Z.to_nat (R - 1 - n)))
                       (resized t R)) in *.
  assert (HdR : dasize t2 = R)
    by (rewrite Hd2; unfold resized; reflexivity).
  set (t3 := trieSetCheck t2 ft (- n)).
  set (t4 := trieSetBase t3 n (- ft)).
  set (t5 := trieSetCheck t4 (R - 1) (- DA_POOL_FREE)).
  set (t6 := trieSetBase t5 DA_POOL_FREE (- (R - 1))).
  assert (Hwf3 : wf_arrays t3) by (apply wf_setC; auto).
  assert (Hwf4 : wf_arrays t4) by (apply wf_setB; auto).
  assert (Hwf5 : wf_arrays t5) by (apply wf_setC; auto).
  assert (Hwf6 : wf_arrays t6) by (apply wf_setB; auto).
  assert (Hd3 : dasize t3 = R) by (unfold t3; rewrite dasize_setC; auto).
  assert (Hd4 : dasize t4 = R) by (unfold t4; rewrite dasize_setB; auto).
  assert (Hd5 : dasize t5 = R) by (unfold t5; rewrite dasize_setC; auto).
  assert (Hd6 : dasize t6 = R) by (unfold t6; rewrite dasize_setB; auto).
  fold n in Hftb, Hd.
  split; [reflexivity|].
  split; [rewrite dasize_setC; exact Hd6|].
  split; [apply wf_setC; exact Hwf6|].
  split.
  { eapply same_pool_trans; [|apply same_pool_setC].
    eapply same_pool_trans; [|apply same_pool_setB].
    eapply same_pool_trans; [|apply same_pool_setC].
    eapply same_pool_trans; [|apply same_pool_setB].
    eapply same_pool_trans; [|apply same_pool_setC].
    eapply same_pool_trans; [|exact Hsp2]. repeat split. }
  split.
  { apply smallC_setC; [|zlia]. unfold t6. rewrite check_setB.
    apply smallC_setC; [|zlia]. unfold t4. rewrite check_setB.
    apply smallC_setC; [|zlia]. apply HsC2. unfold resized.
    cbn [check with_dasize with_check]. apply resize_small.
    apply (inv_smallC t H). }
  split.
  { rewrite base_setC. apply smallB_setB; [|zlia]. unfold t5.
    rewrite base_setC. apply smallB_setB; [|unfold ft; zlia]. unfold t3.
    rewrite base_setC. apply HsB2. unfold resized.
    cbn [base with_dasize with_check with_base]. apply resize_small.
    apply (inv_smallB t H). }
  split; intros j Hj.
  - rewrite getC_setC by (auto; lia). destruct (Z.eqb_spec j 0); [reflexivity|].
    unfold t6. rewrite getC_setB. unfold t5.
    rewrite getC_setC by (auto; lia).
    destruct (Z.eqb_spec j (R - 1)); [reflexivity|].
    unfold t4. rewrite getC_setB. unfold t3.
    rewrite getC_setC by (auto; lia).
    destruct (Z.eqb_spec j ft); [reflexivity|].
    rewrite HC2 by exact Hj.
    replace (n + Z.of_nat (Z.to_nat (R - 1 - n))) with (R - 1) by lia.
    destruct ((n <=? j) && (j <? R - 1)); [reflexivity|].
    apply resized_C; auto. fold n. lia.
  - rewrite getB_setC. unfold t6.
    rewrite getB_setB by (auto; unfold DA_POOL_FREE; lia).
    unfold DA_POOL_FREE. destruct (Z.eqb_spec j 1); [reflexivity|].
    unfold t5. rewrite getB_setC. unfold t4.
    rewrite getB_setB by (auto; lia).
    destruct (Z.eqb_spec j n); [reflexivity|].
    unfold t3. rewrite getB_setC.
    rewrite HB2 by exact Hj.
    replace (n + Z.of_nat (Z.to_nat (R - 1 - n))) with (R - 1) by lia.
    destruct ((n + 1 <=? j) && (j <=? R - 1)); [reflexivity|].
    apply resized_B; auto. fold n. lia.
Qed.

Lemma expand_grow_step (t : trie) (size : Z) :
  da_inv t -> 0 < size < TRIE_INDEX_MAX -> dasize t < size ->
  let t' := snd (trieExpand t size) in
  da_inv t' /\ size < dasize t' /\ same_pool t t' /\
  keeps_used nobody t t' /\ keeps_free nobody t t' /\
  (forall j, dasize t <= j < dasize t' -> free t' j) /\
  (forall j, free t j -> - trieGetCheck t j <> 1 ->
             trieGetCheck t' j = trieGetCheck t j) /\
  (forall j, free t j -> - trieGetCheck t j = 1 ->
             - trieGetCheck t' j = dasize t).
Proof.
  intros H Hsize Hgrow t'.
  destruct (expand_grow_reads t size H Hsize Hgrow)
    as (_ & Hds & Hwf' & Hsp & HsC & HsB & HC & HB).
  fold t' in Hds, Hwf', Hsp, HsC, HsB, HC, HB.
  pose proof (trieNextPower_bounds size Hsize) as HR.
  set (R := _trieNextPower size) in *.
  set (n := dasize t) in *.
  set (ft := - trieGetBase t DA_POOL_FREE) in *.
  pose proof (inv_wf t H) as Hwf. pose proof Hwf as (Hd & _). fold n in Hd.
  destruct (inv_head t H) as (H0 & H2 & H1).
  destruct (inv_prev t H _ H1) as (Hft & Hftc). fold ft in Hft, Hftc.
  pose proof (free_prev_pos t _ H H1) as Hftpos. fold ft in Hftpos.
  pose proof Hft as (Hftb & _). fold n in Hftb.
  unfold DA_POOL_ROOT, DA_POOL_FREE in *.
  assert (Hlng : forall j, 0 <= j < R -> lng j) by (intros; zlia).
  assert (Hold : forall j, free t j -> free t' j).
  { intros j (Hj & Hc). fold n in Hj. split; [rewrite Hds; lia|].
    rewrite HC by (apply Hlng; lia).
    destruct (free_not_head t j H (conj Hj Hc)).
    - subst. eqb_cases; try lia.
      destruct ((n <=? 1) && (1 <? R - 1)) eqn:E; [|lia].
      apply andb_true_iff in E. lia.
    - eqb_cases; try lia.
      destruct (Z.leb_spec n j); [lia|]. cbn [andb]. lia. }
  assert (Hnew : forall j, n <= j < R -> free t' j).
  { intros j Hj. split; [rewrite Hds; lia|].
    rewrite HC by (apply Hlng; lia). eqb_cases; try lia.
    destruct (Z.leb_spec n j); [|lia].
    destruct (Z.ltb_spec j (R - 1)); [|lia]. cbn [andb]. lia. }
  assert (Hfree' : forall j, free t' j -> free t j \/ n <= j < R).
  { intros j (Hj & Hc). rewrite Hds in Hj.
    destruct (Z_lt_le_dec j n); [left|right; lia].
    split; [fold n; lia|].
    rewrite HC in Hc by (apply Hlng; lia).
    destruct (Z.eqb_spec j 0); [subst; lia|].
    destruct (Z.eqb_spec j (R - 1)); [lia|].
    destruct (Z.eqb_spec j ft); [subst; apply Hft|].
    destruct (Z.leb_spec n j); [lia|]. cbn [andb] in Hc. exact Hc. }
  assert (HCold : forall j, 0 <= j < n -> j <> 0 -> j <> ft ->
                            trieGetCheck t' j = trieGetCheck t j).
  { intros j Hj Hj0 Hjft. rewrite HC by (apply Hlng; lia).
    eqb_cases; try lia. destruct (Z.leb_spec n j); [lia|]. reflexivity. }
  assert (HBold : forall j, 0 <= j < n -> j <> 1 ->
                            trieGetBase t' j = trieGetBase t j).
  { intros j Hj Hj1. rewrite HB by (apply Hlng; lia).
    eqb_cases; try lia. destruct (Z.leb_spec (n + 1) j); [lia|]. reflexivity. }
  assert (Hinv' : da_inv t').
  { constructor; auto.
    - unfold DA_POOL_ROOT, DA_POOL_FREE.
      rewrite !HC by zlia. rewrite Hds.
      split; [reflexivity|]. split; [|apply Hold; exact H1].
      destruct (Z.eqb_spec 2 0); [lia|].
      destruct (Z.eqb_spec 2 (R - 1)); [lia|].
      destruct (Z.eqb_spec 2 ft) as [E|]; [rewrite <- E in Hft; destruct Hft; lia|].
      destruct (Z.leb_spec n 2); [lia|]. cbn [andb]. exact H2.
    - intros i Hi.
      assert (Hli : lng i) by (destruct Hi as (Hi & _); rewrite Hds in Hi;
                               apply Hlng; lia).
      destruct (Hfree' i Hi) as [Hfi|Hin].
      + pose proof Hfi as (Hib & _). fold n in Hib.
        destruct (inv_next t H i Hfi) as (Hnx & Hnxb & Hnxo).
        pose proof Hnx as (Hnxbd & _). fold n in Hnxbd.
        destruct (Z.eq_dec i ft) as [->|Hift].
        * rewrite HC by exact Hli. eqb_cases; try lia.
          replace (- - n) with n by lia.
          split; [apply Hnew; lia|].
          rewrite HB by (apply Hlng; lia). eqb_cases; lia.
        * destruct (free_not_head t i H Hfi) as [->|Hi3].
          -- rewrite HCold by lia.
             assert (Hm1 : - trieGetCheck t 1 <> 1).
             { intros E. rewrite E in Hnxb. unfold ft in Hift. lia. }
             split; [apply Hold; exact Hnx|].
             rewrite HBold by lia. auto.
          -- rewrite HCold by lia.
             assert (Hm1 : - trieGetCheck t i <> 1).
             { intros E. rewrite E in Hnxb. unfold ft in Hift. lia. }
             split; [apply Hold; exact Hnx|].
             rewrite HBold by lia. auto.
      + rewrite HC by exact Hli.
        destruct (Z.eqb_spec i 0); [lia|].
        destruct (Z.eqb_spec i (R - 1)) as [->|HiR].
        * replace (- -1) with 1 by lia. split; [apply Hold; exact H1|].
          rewrite HB by zlia. rewrite Z.eqb_refl.
          split; [lia|]. left. reflexivity.
        * destruct (Z.eqb_spec i ft); [lia|].
          destruct (Z.leb_spec n i); [|lia].
          destruct (Z.ltb_spec i (R - 1)); [|lia]. cbn [andb].
          replace (- - (i + 1)) with (i + 1) by lia.
          split; [apply Hnew; lia|].
          rewrite HB by (apply Hlng; lia). eqb_cases; try lia.
          destruct (Z.leb_spec (n + 1) (i + 1)); [|lia].
          destruct (Z.leb_spec (i + 1) (R - 1)); [|lia]. cbn [andb].
          split; [lia|]. right. lia.
    - intros i Hi.
      assert (Hli : lng i) by (destruct Hi as (Hi & _); rewrite Hds in Hi;
                               apply Hlng; lia).
      destruct (Hfree' i Hi) as [Hfi|Hin].
      + pose proof Hfi as (Hib & _). fold n in Hib.
        destruct (inv_prev t H i Hfi) as (Hp & Hpc).
        pose proof Hp as (Hpbd & _). fold n in Hpbd.
        destruct (free_not_head t i H Hfi) as [->|Hi3].
        * rewrite HB by exact Hli. rewrite Z.eqb_refl.
          replace (- - (R - 1)) with (R - 1) by lia.
          split; [apply Hnew; lia|].
          rewrite HC by (apply Hlng; lia). eqb_cases; try lia.
        * rewrite HBold by lia.
          assert (Hpft : - trieGetBase t i <> ft).
          { intros E. rewrite E in Hpc. lia. }
          split; [apply Hold; exact Hp|].
          rewrite HCold; auto.
          destruct (free_not_head t _ H Hp); lia.
      + rewrite HB by exact Hli.
        destruct (Z.eqb_spec i 1); [lia|].
        destruct (Z.eqb_spec i n) as [->|Hin'].
        * replace (- - ft) with ft by lia. split; [apply Hold; exact Hft|].
          rewrite HC by (apply Hlng; lia). eqb_cases; try lia.
        * destruct (Z.leb_spec (n + 1) i); [|lia].
          destruct (Z.leb_spec i (R - 1)); [|lia]. cbn [andb].
          replace (- - (i - 1)) with (i - 1) by lia.
          split; [apply Hnew; lia|].
          rewrite HC by (apply Hlng; lia). eqb_cases; try lia.
          destruct (Z.leb_spec n (i - 1)); [|lia].
          destruct (Z.ltb_spec (i - 1) (R - 1)); [|lia]. cbn [andb]. lia.
    - intros i (Hi & Hc). rewrite Hds in Hi.
      destruct (Z_lt_le_dec i n) as [Hlt|Hge].
      + assert (Hift : i <> ft).
        { intros ->. rewrite HC in Hc by (apply Hlng; lia).
          revert Hc. eqb_cases; lia. }
        rewrite HCold in Hc by lia. rewrite HBold by lia.
        apply (inv_base t H). split; [fold n; lia|exact Hc].
      + exfalso. destruct (Hnew i ltac:(lia)) as (_ & Hneg). lia.
    - intros i Hi. rewrite Hds in Hi.
      rewrite HC by (apply Hlng; lia).
      destruct (Z.eqb_spec i 0); [lia|].
      destruct (Z.eqb_spec i (R - 1)); [lia|].
      destruct (Z.eqb_spec i ft); [lia|].
      destruct ((n <=? i) && (i <? R - 1)) eqn:E; [lia|].
      destruct (Z_lt_le_dec i n); [apply (inv_noself t H); fold n; lia|].
      apply andb_false_iff in E.
      destruct E as [E|E]; [apply Z.leb_gt in E|apply Z.ltb_ge in E]; lia.
    - eapply same_pool_tail_inv; eauto. apply (inv_tail t H). }
  split; [exact Hinv'|]. split; [rewrite Hds; lia|]. split; [exact Hsp|].
  split; [|split; [|split; [|split]]].
  - intros j (Hj & Hc) _. fold n in Hj.
    assert (j <> ft) by (intros ->; destruct Hft; lia).
    split.
    + apply HCold; lia.
    + apply HBold; lia.
  - intros j Hj _. apply Hold. exact Hj.
  - intros j Hj. apply Hnew. rewrite Hds in Hj. fold n in Hj. lia.
  - intros j Hj Hne. pose proof Hj as (Hjb & _). fold n in Hjb.
    apply HCold; try lia.
    + destruct (free_not_head t j H Hj); lia.
    + intros ->. lia.
  - intros j Hj He. pose proof Hj as (Hjb & _). fold n in Hjb.
    assert (j = ft).
    { destruct (inv_next t H j Hj) as (_ & Hb & _). rewrite He in Hb.
      unfold ft. lia. }
    subst j. rewrite HC by (apply Hlng; lia).
    revert He. eqb_cases; lia.
Qed.

Lemma untouched_refl (t : trie) (j : Z) : untouched t t j.
Proof. split; reflexivity. Qed.

Lemma grown_refl (t : trie) : da_inv t -> grown t t.
Proof.
  intros H. split; [exact H|]. split; [lia|]. split; [apply same_pool_refl|].
  split; [intros j Hj _; apply untouched_refl|].
  split; [intros j Hj _; exact Hj|]. intros j Hj. lia.
Qed.

Lemma keeps_used_node (X : Z -> Prop) (t t' : trie) (j : Z) :
  keeps_used X t t' -> dasize t <= dasize t' -> node t j -> ~ X j ->
  node t' j.
Proof.
  intros Hk Hd Hn Hx. destruct (Hk j Hn Hx) as (Hc & _).
  destruct Hn as (Hj & Hc0). split; [lia|]. rewrite Hc. exact Hc0.
Qed.

Lemma grown_trans (t1 t2 t3 : trie) : grown t1 t2 -> grown t2 t3 -> grown t1 t3.
Proof.
  intros (H2 & Hd12 & Hp12 & Hu12 & Hf12 & Hn12)
         (H3 & Hd23 & Hp23 & Hu23 & Hf23 & Hn23).
  split; [exact H3|]. split; [lia|].
  split; [eapply same_pool_trans; eauto|]. split; [|split].
  - intros j Hj Hx.
    pose proof (keeps_used_node _ _ _ j Hu12 Hd12 Hj Hx) as Hj2.
    destruct (Hu12 j Hj Hx) as (Hc & Hb).
    destruct (Hu23 j Hj2 Hx) as (Hc' & Hb').
    split; congruence.
  - intros j Hj Hx. apply Hf23; auto.
  - intros j Hj. destruct (Z_lt_le_dec j (dasize t2)).
    + apply Hf23; [|unfold nobody; auto]. apply Hn12. lia.
    + apply Hn23. lia.
Qed.

Lemma grown_node (t t' : trie) (j : Z) : grown t t' -> node t j -> node t' j.
Proof.
  intros (_ & Hd & _ & Hu & _) Hn.
  eapply keeps_used_node; eauto.
Qed.

Lemma grown_free (t t' : trie) (j : Z) : grown t t' -> free t j -> free t' j.
Proof. intros (_ & _ & _ & _ & Hf & _) Hj. apply Hf; auto. Qed.

Lemma grown_inv (t t' : trie) : grown t t' -> da_inv t'.
Proof. intros (H & _). exact H. Qed.

Lemma grown_C (t t' : trie) (j : Z) :
  grown t t' -> node t j -> trieGetCheck t' j = trieGetCheck t j.
Proof. intros (_ & _ & _ & Hu & _) Hn. apply Hu; unfold nobody; auto. Qed.

Lemma grown_B (t t' : trie) (j : Z) :
  grown t t' -> node t j -> trieGetBase t' j = trieGetBase t j.
Proof. intros (_ & _ & _ & Hu & _) Hn. apply Hu; unfold nobody; auto. Qed.

(** [trieExpand], whatever the requested size. *)
Lemma expand_step (t : trie) (size : Z) :
  da_inv t -> lng size ->
  let r := fst (trieExpand t size) in
  let t' := snd (trieExpand t size) in
  grown t t' /\
  (r = TDICT_OK \/ r = TDICT_ERR) /\
  (r = TDICT_OK -> 0 < size < TRIE_INDEX_MAX /\ size <= dasize t') /\
  (r = TDICT_ERR -> size <= 0 \/ TRIE_INDEX_MAX <= size).
Proof.
  intros H Hl r t'. pose proof (inv_wf t H) as (Hd & _).
  destruct (Z_le_gt_dec size 0) as [Hle|Hpos];
    [|destruct (Z_le_gt_dec TRIE_INDEX_MAX size) as [Hmax|Hlt];
      [|destruct (Z_le_gt_dec size (dasize t)) as [Hfit|Hgrow]]].
  - assert (E : trieExpand t size = (TDICT_ERR, t)).
    { unfold trieExpand. destruct (Z.leb_spec size 0); [reflexivity|lia]. }
    unfold r, t'. rewrite E. cbn [fst snd].
    split; [apply grown_refl; auto|]. split; [auto|].
    split; [discriminate|]. auto.
  - assert (E : trieExpand t size = (TDICT_ERR, t)).
    { unfold trieExpand. destruct (Z.leb_spec size 0); [reflexivity|].
      destruct (Z.leb_spec TRIE_INDEX_MAX size); [reflexivity|lia]. }
    unfold r, t'. rewrite E. cbn [fst snd].
    split; [apply grown_refl; auto|]. split; [auto|].
    split; [discriminate|]. auto.
  - assert (E : trieExpand t size = (TDICT_OK, t)).
    { unfold trieExpand. destruct (Z.leb_spec size 0); [lia|].
      destruct (Z.leb_spec TRIE_INDEX_MAX size); [lia|]. cbn [orb].
      rewrite !ulong_small by zlia.
      destruct (Z.geb_spec (dasize t) size); [reflexivity|lia]. }
    unfold r, t'. rewrite E. cbn [fst snd].
    split; [apply grown_refl; auto|]. split; [auto|].
    split; [intros _; lia|]. discriminate.
  - destruct (expand_grow_reads t size H ltac:(lia) ltac:(lia)) as (Hr & _).
    destruct (expand_grow_step t size H ltac:(lia) ltac:(lia))
      as (Hinv' & Hsz & Hsp & Hu & Hf & Hnew & _).
    unfold r, t'. rewrite Hr.
    split; [|split; [auto|split; [intros _; lia|discriminate]]].
    split; [exact Hinv'|]. split; [lia|]. auto.
Qed.

(** ** Looking for room *)

Lemma prepareSpace_step (t : trie) (s : Z) :
  da_inv t -> lng s ->
  let ok := fst (_daPrepareSpace t s) in
  let t' := snd (_daPrepareSpace t s) in
  grown t t' /\ (ok = true -> free t' s).
Proof.
  intros H Hl. unfold _daPrepareSpace.
  destruct (expand_step t s H Hl) as (Hg & _).
  destruct (trieExpand t s) as [r t1]. cbn [fst snd] in *.
  split; [exact Hg|]. intros Hok. apply andb_true_iff in Hok.
  destruct Hok as (_ & Hc). apply Z.ltb_lt in Hc.
  split; [|exact Hc].
  apply getC_inb; auto; [apply (inv_wf _ (grown_inv _ _ Hg))|lia].
Qed.

Lemma fitSymbols_step (symbols : Symbols) :
  forall t b,
    da_inv t -> small b -> Forall byte symbols ->
    let r := fst (_daFitSymbols t b symbols) in
    let t' := snd (_daFitSymbols t b symbols) in
    grown t t' /\
    (r = TDICT_OK \/ r = TDICT_ERR) /\
    (r = TDICT_OK -> forall sym, In sym symbols -> free t' (b + sym)).
Proof.
  induction symbols as [|sym rest IH]; intros t b H Hb Hsyms;
    cbn [_daFitSymbols].
  - cbn [fst snd]. split; [apply grown_refl; auto|]. split; [auto|].
    intros _ sym [].
  - inversion Hsyms as [|? ? Hsym Hrest]; subst.
    destruct (Z.gtb_spec b (TRIE_INDEX_MAX - sym)).
    { cbn [fst snd]. split; [apply grown_refl; auto|]. split; [auto|].
      discriminate. }
    assert (Hl : lng (b + sym)) by (unfold byte in Hsym; zlia).
    destruct (prepareSpace_step t (b + sym) H Hl) as (Hg & Hok).
    destruct (_daPrepareSpace t (b + sym)) as [ok t1]. cbn [fst snd] in *.
    destruct ok.
    + destruct (IH t1 b (grown_inv _ _ Hg) Hb Hrest) as (Hg2 & Hr & Hfit).
      split; [eapply grown_trans; eauto|]. split; [exact Hr|].
      intros Hr0 x [<-|Hx]; [|apply Hfit; auto].
      eapply grown_free; eauto.
    + cbn [fst snd]. split; [exact Hg|]. split; [auto|]. discriminate.
Qed.

Lemma findFreeBase_skip_spec (fuel : nat) (t : trie) (fs : Z) :
  da_inv t ->
  forall s0 s,
    free t s0 ->
    findFreeBase_skip fuel t fs s0 = Some s ->
    free t s /\ (s = 1 \/ fs + 3 <= s).
Proof.
  intros H. induction fuel as [|f IH]; intros s0 s Hf Hskip; [discriminate|].
  cbn [findFreeBase_skip] in Hskip. unfold DA_POOL_FREE, DA_POOL_BEGIN in Hskip.
  destruct (Z.eqb_spec s0 1) as [->|Hne]; cbn [negb andb] in Hskip.
  - inversion Hskip; subst. auto.
  - destruct (Z.ltb_spec s0 (fs + 3)).
    + destruct (inv_next t H s0 Hf) as (Hn & _). apply (IH _ _ Hn Hskip).
    + inversion Hskip; subst. split; [auto|]. right. lia.
Qed.

Lemma findFreeBase_grow_spec (fuel : nat) :
  forall t s0 res t',
    da_inv t -> 3 <= s0 -> lng s0 ->
    findFreeBase_grow fuel t s0 = Some (res, t') ->
    grown t t' /\
    match res with
    | Some s => free t' s /\ s0 <= s
    | None => True
    end.
Proof.
  induction fuel as [|f IH]; intros t s0 res t' H Hs0 Hl Hgrow;
    [discriminate|].
  cbn [findFreeBase_grow] in Hgrow.
  destruct (expand_step t s0 H Hl) as (Hg & Hr & Hok & _).
  destruct (trieExpand t s0) as [r t1]. cbn [fst snd] in *.
  destruct (Z.eqb_spec r 0) as [Hr0|Hr0]; cbn [negb] in Hgrow.
  - destruct (Z.ltb_spec (trieGetCheck t1 s0) 0) as [Hneg|Hpos].
    + inversion Hgrow; subst. split; [exact Hg|]. split; [|lia].
      split; [|exact Hneg].
      apply getC_inb; auto; [apply (inv_wf _ (grown_inv _ _ Hg))|lia].
    + destruct (Hok Hr0) as (Hbound & _).
      destruct (IH t1 (s0 + 1) res t' (grown_inv _ _ Hg) ltac:(lia)
                  ltac:(zlia) Hgrow) as (Hg2 & Hres).
      split; [eapply grown_trans; eauto|].
      destruct res; [|auto]. destruct Hres. split; [auto|lia].
  - inversion Hgrow; subst. split; [exact Hg|auto].
Qed.

Lemma findFreeBase_fit_spec (fuel : nat) (fs : Z) (symbols : Symbols) :
  byte fs -> Forall byte symbols ->
  forall t s b t',
    da_inv t -> free t s -> s <> 1 -> fs + 3 <= s ->
    findFreeBase_fit fuel t fs symbols s = Some (b, t') ->
    grown t t' /\
    (b = TRIE_INDEX_ERROR \/
     (3 <= b <= TRIE_INDEX_MAX /\
      forall sym, In sym symbols -> free t' (b + sym))).
Proof.
  intros Hfs Hsyms.
  induction fuel as [|f IH]; intros t s b t' H Hf Hs1 Hs3 Hfit;
    [discriminate|].
  cbn [findFreeBase_fit] in Hfit.
  pose proof (inv_wf t H) as (Hd & _). pose proof Hf as (Hsb & _).
  assert (Hsmall : small (s - fs)) by (unfold byte in Hfs; zlia).
  destruct (fitSymbols_step symbols t (s - fs) H Hsmall Hsyms)
    as (Hg1 & Hr & Hok).
  destruct (_daFitSymbols t (s - fs) symbols) as [r t1]. cbn [fst snd] in *.
  pose proof (grown_inv _ _ Hg1) as H1.
  pose proof (grown_free _ _ s Hg1 Hf) as Hf1.
  destruct (Z.eqb_spec r 0) as [Hr0|Hr0]; cbn [negb] in Hfit.
  - inversion Hfit; subst. split; [exact Hg1|]. right.
    split; [unfold byte in Hfs; zlia|]. apply Hok. reflexivity.
  - destruct (inv_next t1 H1 s Hf1) as (Hn & _ & Hord).
    unfold DA_POOL_FREE in *.
    destruct (Z.eqb_spec (- trieGetCheck t1 s) 1) as [Elast|Enot].
    + pose proof (inv_wf t1 H1) as (Hd1 & _).
      destruct (expand_step t1 (dasize t1 + 1) H1 ltac:(zlia))
        as (Hg2 & Hr2 & Hok2 & _).
      pose proof (expand_grow_step t1 (dasize t1 + 1) H1) as Hgs.
      destruct (trieExpand t1 (dasize t1 + 1)) as [e t2]. cbn [fst snd] in *.
      destruct (Z.eqb_spec e 0) as [He|He]; cbn [negb] in Hfit.
      * destruct (Hok2 He) as (Hb2 & _).
        destruct (Hgs Hb2 ltac:(lia)) as (_ & _ & _ & _ & _ & Hnew & _ & Hlast).
        specialize (Hlast s Hf1 Elast).
        destruct (IH t2 (- trieGetCheck t2 s) b t' (grown_inv _ _ Hg2))
          as (Hg3 & Hres); auto.
        { rewrite Hlast. apply Hnew. destruct Hg2 as (_ & ? & _).
          destruct (Hok2 He). lia. }
        { lia. }
        { destruct Hf1. lia. }
        split; [|exact Hres].
        eapply grown_trans; [exact Hg1|]. eapply grown_trans; eauto.
      * inversion Hfit; subst. split; [eapply grown_trans; eauto|].
        left. reflexivity.
    + destruct (IH t1 (- trieGetCheck t1 s) b t' H1) as (Hg3 & Hres); auto.
      { lia. }
      split; [eapply grown_trans; eauto|exact Hres].
Qed.

Lemma daFindFreeBase_step (fuel : nat) (t : trie) (symbols : Symbols)
  (b : Z) (t' : trie) :
  da_inv t -> symbols <> [] -> Forall byte symbols ->
  _daFindFreeBase fuel t symbols = Some (b, t') ->
  grown t t' /\
  (b = TRIE_INDEX_ERROR \/
   (3 <= b <= TRIE_INDEX_MAX /\
    forall sym, In sym symbols -> free t' (b + sym))).
Proof.
  intros H Hne Hsyms Hfind. unfold _daFindFreeBase in Hfind.
  assert (Hfs : byte (symbols_get symbols 0)).
  { destruct symbols as [|x r]; [congruence|]. inversion Hsyms; subst.
    exact H2. }
  set (fs := symbols_get symbols 0) in *.
  destruct (inv_head t H) as (_ & _ & Hf1).
  destruct (inv_next t H _ Hf1) as (Hf0 & _).
  destruct (findFreeBase_skip fuel t fs (- trieGetCheck t DA_POOL_FREE))
    as [s|] eqn:Eskip; [|discriminate].
  destruct (findFreeBase_skip_spec fuel t fs H _ _ Hf0 Eskip) as (Hs & Hsord).
  unfold DA_POOL_FREE, DA_POOL_BEGIN in *.
  destruct (Z.eqb_spec s 1) as [Hs1|Hs1].
  - destruct (findFreeBase_grow fuel t (fs + 3)) as [[res t1]|] eqn:Egrow;
      [|discriminate].
    destruct (findFreeBase_grow_spec fuel t (fs + 3) res t1 H
                ltac:(unfold byte in Hfs; lia) ltac:(unfold byte in Hfs; zlia) Egrow)
      as (Hg1 & Hres).
    destruct res as [s1|].
    + destruct Hres as (Hfs1 & Hge).
      destruct (findFreeBase_fit_spec fuel fs symbols Hfs Hsyms t1 s1 b t'
                  (grown_inv _ _ Hg1) Hfs1) as (Hg2 & Hr); auto.
      { unfold byte in Hfs. lia. }
      split; [eapply grown_trans; eauto|exact Hr].
    + inversion Hfind; subst. split; [exact Hg1|]. left. reflexivity.
  - destruct (findFreeBase_fit_spec fuel fs symbols Hfs Hsyms t s b t' H Hs)
      as (Hg & Hr); auto. lia.
Qed.

(** ** Writes to cells in use *)

Lemma setBase_node_inv (t : trie) (i v : Z) :
  da_inv t -> node t i -> small v ->
  (v <= 0 \/ 3 <= v <= TRIE_INDEX_MAX) ->
  da_inv (trieSetBase t i v).
Proof.
  intros H Hn Hv Hok. pose proof (inv_wf t H) as Hwf.
  pose proof Hn as (Hi & Hc).
  assert (HB : forall j, lng j ->
             trieGetBase (trieSetBase t i v) j =
             if j =? i then v else trieGetBase t j)
    by (intros; apply getB_setB; auto; lia).
  assert (Hfr : forall j, free (trieSetBase t i v) j <-> free t j).
  { intros j. unfold free. rewrite dasize_setB, getC_setB. reflexivity. }
  destruct (inv_head t H) as (H0 & H2 & H1).
  constructor.
  - apply wf_setB; auto.
  - rewrite check_setB. apply (inv_smallC t H).
  - apply smallB_setB; auto. apply (inv_smallB t H).
  - rewrite !getC_setB, dasize_setB. split; [auto|]. split; [auto|].
    apply Hfr. exact H1.
  - intros j Hj. apply Hfr in Hj. rewrite getC_setB.
    destruct (inv_next t H j Hj) as (Hnx & Hnxb & Hnxo).
    split; [apply Hfr; exact Hnx|]. split; [|exact Hnxo].
    rewrite HB by (eapply free_lng; eauto).
    destruct (Z.eqb_spec (- trieGetCheck t j) i) as [E|]; [|exact Hnxb].
    exfalso. rewrite E in Hnx. eapply node_not_free; eauto.
  - intros j Hj. apply Hfr in Hj.
    rewrite HB by (eapply free_lng; eauto).
    destruct (Z.eqb_spec j i) as [->|];
      [exfalso; eapply node_not_free; eauto|].
    destruct (inv_prev t H j Hj) as (Hp & Hpc).
    split; [apply Hfr; exact Hp|]. rewrite getC_setB. exact Hpc.
  - intros j (Hj & Hcj). rewrite dasize_setB in Hj. rewrite getC_setB in Hcj.
    rewrite HB by (eapply inb_lng; eauto; lia).
    destruct (Z.eqb_spec j i); [exact Hok|].
    apply (inv_base t H). split; auto.
  - intros j Hj. rewrite dasize_setB in Hj. rewrite getC_setB.
    apply (inv_noself t H). exact Hj.
  - apply tail_inv_setB. apply (inv_tail t H).
Qed.

Lemma setCheck_node_inv (t : trie) (g v : Z) :
  da_inv t -> node t g -> 3 <= g -> 0 <= v <= TRIE_INDEX_MAX -> v <> g ->
  da_inv (trieSetCheck t g v).
Proof.
  intros H Hn Hg Hv Hvg. pose proof (inv_wf t H) as Hwf.
  pose proof Hn as (Hi & Hc).
  assert (HC : forall j, lng j ->
             trieGetCheck (trieSetCheck t g v) j =
             if j =? g then v else trieGetCheck t j)
    by (intros; apply getC_setC; auto; lia).
  assert (Hfr : forall j, free (trieSetCheck t g v) j <-> free t j).
  { intros j. unfold free. rewrite dasize_setC.
    split; intros (Hj & Hcj); (split; [exact Hj|]).
    - rewrite HC in Hcj by (eapply inb_lng; eauto).
      destruct (Z.eqb_spec j g); [lia|exact Hcj].
    - rewrite HC by (eapply inb_lng; eauto).
      destruct (Z.eqb_spec j g); [subst; lia|exact Hcj]. }
  destruct (inv_head t H) as (H0 & H2 & H1).
  constructor.
  - apply wf_setC; auto.
  - apply smallC_setC; [apply (inv_smallC t H)|zlia].
  - rewrite base_setC. apply (inv_smallB t H).
  - unfold DA_POOL_ROOT, DA_POOL_FREE in *.
    rewrite !HC by zlia. rewrite dasize_setC.
    destruct (Z.eqb_spec 0 g); [lia|]. destruct (Z.eqb_spec 2 g); [lia|].
    split; [auto|]. split; [auto|]. apply Hfr. exact H1.
  - intros j Hj. apply Hfr in Hj.
    rewrite HC by (eapply free_lng; eauto).
    destruct (Z.eqb_spec j g) as [->|];
      [exfalso; eapply node_not_free; eauto|].
    destruct (inv_next t H j Hj) as (Hnx & Hnxb & Hnxo).
    split; [apply Hfr; exact Hnx|]. rewrite getB_setC. auto.
  - intros j Hj. apply Hfr in Hj. rewrite getB_setC.
    destruct (inv_prev t H j Hj) as (Hp & Hpc).
    split; [apply Hfr; exact Hp|].
    rewrite HC by (eapply free_lng; eauto).
    destruct (Z.eqb_spec (- trieGetBase t j) g) as [E|]; [|exact Hpc].
    exfalso. rewrite E in Hp. eapply node_not_free; eauto.
  - intros j (Hj & Hcj). rewrite dasize_setC in Hj. rewrite getB_setC.
    apply (inv_base t H). split; [exact Hj|].
    rewrite HC in Hcj by (eapply inb_lng; eauto; lia).
    destruct (Z.eqb_spec j g); [subst; exact Hc|exact Hcj].
  - intros j Hj. rewrite dasize_setC in Hj.
    rewrite HC by (eapply inb_lng; eauto).
    destruct (Z.eqb_spec j g); [subst; exact Hvg|].
    apply (inv_noself t H). exact Hj.
  - apply tail_inv_setC. apply (inv_tail t H).
Qed.

(** The grandchildren of a moved node are given to its new cell. *)
Lemma reindex_children_step (cs : list Z) :
  forall t ob old new,
    da_inv t -> small ob -> Forall byte cs ->
    3 <= old < dasize t -> 3 <= new < dasize t ->
    trieGetCheck t new <> old ->
    let t' := reindex_children t ob old new cs in
    da_inv t' /\ dasize t' = dasize t /\ same_pool t t' /\
    (forall j, trieGetBase t' j = trieGetBase t j) /\
    (forall j, lng j ->
       trieGetCheck t' j = trieGetCheck t j \/
       (trieGetCheck t j = old /\ trieGetCheck t' j = new)).
Proof.
  induction cs as [|c cs IH]; intros t ob old new H Hob Hcs Hold Hnew Hcn;
    cbn [reindex_children].
  - cbv zeta. split; [auto|]. split; [auto|]. split; [apply same_pool_refl|].
    split; auto.
  - inversion Hcs as [|? ? Hc Hrest]; subst.
    pose proof (inv_wf t H) as Hwf. pose proof Hwf as (Hd & _).
    assert (Hlg : lng (ob + c)) by (unfold byte in Hc; zlia).
    destruct (Z.eqb_spec (trieGetCheck t (ob + c)) old) as [E|E].
    + assert (Hgb : 0 <= ob + c < dasize t).
      { apply getC_inb; auto. lia. }
      destruct (inv_head t H) as (H0 & H2 & _). unfold DA_POOL_ROOT in *.
      assert (Hg3 : 3 <= ob + c).
      { destruct (Z.eq_dec (ob + c) 0) as [E0|]; [rewrite E0 in E; lia|].
        destruct (Z.eq_dec (ob + c) 2) as [E2|]; [rewrite E2 in E; lia|].
        destruct (Z.eq_dec (ob + c) 1) as [E1|]; [|lia].
        rewrite E1 in E. destruct (inv_head t H) as (_ & _ & (_ & Hneg)).
        unfold DA_POOL_FREE in Hneg. lia. }
      assert (Hgn : node t (ob + c)) by (split; lia).
      assert (Hne : new <> ob + c) by (intros Heq; rewrite Heq in Hcn; lia).
      pose proof (setCheck_node_inv t (ob + c) new H Hgn Hg3 ltac:(zlia) Hne)
        as H'.
      assert (HC : forall j, lng j ->
                 trieGetCheck (trieSetCheck t (ob + c) new) j =
                 if j =? ob + c then new else trieGetCheck t j)
        by (intros; apply getC_setC; auto).
      destruct (IH (trieSetCheck t (ob + c) new) ob old new H' Hob Hrest)
        as (Hi & Hds & Hsp & HB & HCs).
      { rewrite dasize_setC. exact Hold. }
      { rewrite dasize_setC. exact Hnew. }
      { rewrite HC by zlia. destruct (Z.eqb_spec new (ob + c)); [lia|].
        exact Hcn. }
      cbv zeta. split; [exact Hi|]. split; [rewrite Hds, dasize_setC; auto|].
      split; [eapply same_pool_trans; [apply same_pool_setC|exact Hsp]|].
      split; [intros j; rewrite HB, getB_setC; reflexivity|].
      intros j Hj. destruct (HCs j Hj) as [Hsame|(Hwas & Hnow)].
      * rewrite Hsame. rewrite HC by exact Hj.
        destruct (Z.eqb_spec j (ob + c)) as [->|].
        -- right. split; [exact E|reflexivity].
        -- left. reflexivity.
      * rewrite HC in Hwas by exact Hj. right.
        destruct (Z.eqb_spec j (ob + c)) as [->|]; split; auto.
    + apply IH; auto.
Qed.

(** ** The children of a node *)

Lemma fold_filter (p : Z -> bool) (l : list Z) :
  forall acc,
    fold_left (fun syms c => if p c then symbols_add_fast syms c else syms)
              l acc
    = acc ++ filter p l.
Proof.
  induction l as [|c l IH]; intros acc; cbn [fold_left filter].
  - rewrite app_nil_r. reflexivity.
  - rewrite IH. destruct (p c); [|reflexivity].
    unfold symbols_add_fast. rewrite <- app_assoc. reflexivity.
Qed.

Lemma zrange_In (k : nat) : forall lo c, In c (zrange lo k) <-> lo <= c < lo + Z.of_nat k.
Proof.
  induction k as [|k IH]; intros lo c; cbn [zrange In].
  - lia.
  - rewrite IH. lia.
Qed.

Lemma zrange_NoDup (k : nat) : forall lo, NoDup (zrange lo k).
Proof.
  induction k as [|k IH]; intros lo; cbn [zrange]; constructor; auto.
  rewrite zrange_In. lia.
Qed.

Lemma zrange_byte (k : nat) : (k <= 256)%nat -> Forall byte (zrange 0 k).
Proof.
  intros Hk. apply Forall_forall. intros c Hc. apply zrange_In in Hc.
  unfold byte. lia.
Qed.

Lemma fillSymbols_spec (t : trie) (s : Z) :
  da_inv t -> 3 <= trieGetBase t s <= TRIE_INDEX_MAX ->
  NoDup (_daFillSymbols t s) /\
  forall sym,
    In sym (_daFillSymbols t s) <->
    (0 <= sym < 255 /\ sym < TRIE_INDEX_MAX - trieGetBase t s /\
     sym < dasize t /\ trieGetCheck t (trieGetBase t s + sym) = s).
Proof.
  intros H Hb. pose proof (inv_wf t H) as (Hd & _).
  unfold _daFillSymbols. rewrite fold_filter. cbn [app symbols_new].
  split; [apply NoDup_filter, zrange_NoDup|].
  intros sym. rewrite filter_In, zrange_In.
  assert (Hk : Z.of_nat (Z.to_nat (MIN_VAL_u
                 (MIN_VAL TRIE_CHAR_MAX (TRIE_INDEX_MAX - trieGetBase t s))
                 (dasize t)))
               = Z.min (Z.min 255 (TRIE_INDEX_MAX - trieGetBase t s)) (dasize t)).
  { unfold MIN_VAL_u, MIN_VAL, TRIE_CHAR_MAX.
    destruct (Z.ltb_spec 255 (TRIE_INDEX_MAX - trieGetBase t s));
      rewrite !ulong_small by zlia;
      match goal with |- context [?a <? ?b] => destruct (Z.ltb_spec a b) end;
      lia. }
  rewrite Hk. rewrite Z.eqb_eq. lia.
Qed.

Lemma child_is_node (t : trie) (s x : Z) :
  da_inv t -> node t s -> lng x -> trieGetCheck t x = s ->
  node t x /\ 3 <= x /\ x <> s.
Proof.
  intros H (Hs & Hcs) Hx Hc. pose proof (inv_wf t H) as Hwf.
  assert (Hxb : 0 <= x < dasize t) by (apply getC_inb; auto; lia).
  destruct (inv_head t H) as (H0 & H2 & (_ & H1)).
  unfold DA_POOL_ROOT, DA_POOL_FREE in *.
  assert (x <> 0) by (intros ->; lia).
  assert (x <> 1) by (intros ->; lia).
  assert (x <> 2) by (intros ->; lia).
  split; [split; lia|]. split; [lia|].
  intros ->. apply (inv_noself t H s); auto.
Qed.

Lemma min_val_byte (b : Z) :
  0 <= MIN_VAL TRIE_CHAR_MAX b <= 255 \/ MIN_VAL TRIE_CHAR_MAX b < 0.
Proof.
  unfold MIN_VAL, TRIE_CHAR_MAX. destruct (Z.ltb_spec 255 b); lia.
Qed.

Lemma reindex_loop_step (fuel : nat) (symbols : Symbols) :
  forall t t' s ob nb keep,
    da_inv t -> node t s -> small ob -> 3 <= nb <= TRIE_INDEX_MAX ->
    NoDup symbols ->
    (forall sym, In sym symbols ->
       byte sym /\ trieGetCheck t (ob + sym) = s /\ free t (nb + sym)) ->
    free t keep -> (forall sym, In sym symbols -> keep <> nb + sym) ->
    reindex_loop fuel t s ob nb symbols = Some t' ->
    da_inv t' /\ dasize t' = dasize t /\ same_pool t t' /\
    node t' s /\ free t' keep.
Proof.
  induction symbols as [|sym rest IH];
    intros t t' s ob nb keep H Hs Hob Hnb Hnd Hsyms Hkeep Hkne Hloop;
    cbn [reindex_loop] in Hloop.
  - inversion Hloop; subst. split; [auto|]. split; [auto|].
    split; [apply same_pool_refl|auto].
  - inversion Hnd as [|? ? Hnotin Hnd']; subst.
    destruct (Hsyms sym (or_introl eq_refl)) as (Hbyte & Hcold & Hfnew).
    pose proof (inv_wf t H) as Hwf. pose proof Hwf as (Hd & _).
    set (old := ob + sym) in *. set (new := nb + sym) in *.
    assert (Hlold : lng old) by (unfold old, byte in *; zlia).
    destruct (child_is_node t s old H Hs Hlold Hcold) as (Hnold & Hold3 & Holds).
    assert (Hnew1 : new <> 1) by (unfold new, byte in *; lia).
    (* claim the new cell *)
    destruct (claim_step t s new H Hfnew Hnew1 Hs)
      as (H1 & Hd1 & Hp1 & Hu1 & Hf1 & Hc1 & _ & Hnew3).
    set (t1 := snd (daInsert_claim t s new)) in *.
    change (trieSetCheck (_daAssignCell t new) new s) with t1 in Hloop.
    pose proof Hfnew as (Hnewb & _).
    assert (Hnnew1 : node t1 new) by (split; [lia|destruct Hs; lia]).
    (* copy the base *)
    set (obase := trieGetBase t old) in *.
    assert (Hobase : obase <= 0 \/ 3 <= obase <= TRIE_INDEX_MAX)
      by (apply (inv_base t H); exact Hnold).
    pose proof (small_getB t old H) as Hsob. fold obase in Hsob.
    pose proof (setBase_node_inv t1 new obase H1 Hnnew1 Hsob Hobase) as H2.
    set (t2 := trieSetBase t1 new obase) in *.
    assert (Hd2 : dasize t2 = dasize t)
      by (unfold t2; rewrite dasize_setB; exact Hd1).
    assert (HC2 : forall j, node t j -> trieGetCheck t2 j = trieGetCheck t j).
    { intros j Hj. unfold t2. rewrite getC_setB. apply Hu1; unfold nobody; auto. }
    assert (HCnew2 : trieGetCheck t2 new = s)
      by (unfold t2; rewrite getC_setB; exact Hc1).
    assert (Hfree2 : forall j, free t j -> j <> new -> free t2 j).
    { intros j Hj Hjn. destruct (Hf1 j Hj Hjn) as (Hjb & Hjc).
      split; [rewrite Hd2; destruct Hj; auto|].
      unfold t2. rewrite getC_setB. exact Hjc. }
    (* hand over the grandchildren *)
    set (t3 := if obase >? 0
               then reindex_children t2 obase old new
                      (zrange 0 (Z.to_nat (MIN_VAL TRIE_CHAR_MAX
                                             (TRIE_INDEX_MAX - obase))))
               else t2) in *.
    assert (Hstep3 :
      da_inv t3 /\ dasize t3 = dasize t2 /\ same_pool t2 t3 /\
      (forall j, trieGetBase t3 j = trieGetBase t2 j) /\
      (forall j, lng j ->
         trieGetCheck t3 j = trieGetCheck t2 j \/
         (trieGetCheck t2 j = old /\ trieGetCheck t3 j = new))).
    { unfold t3. destruct (obase >? 0).
      - apply reindex_children_step; auto.
        + apply zrange_byte.
          destruct (min_val_byte (TRIE_INDEX_MAX - obase)); lia.
        + destruct Hnold. lia.
        + lia.
        + rewrite HCnew2. auto.
      - split; [auto|]. split; [auto|]. split; [apply same_pool_refl|].
        split; auto. }
    destruct Hstep3 as (H3 & Hd3 & Hp3 & HB3 & HC3).
    assert (Hlng : forall j, 0 <= j < dasize t -> lng j)
      by (intros; zlia).
    assert (HC3s : forall j, node t j -> trieGetCheck t j = s ->
                             trieGetCheck t3 j = s).
    { intros j Hj Hjs. destruct (HC3 j (Hlng j ltac:(destruct Hj; lia)))
        as [E|(E & _)]; rewrite HC2 in E by exact Hj; [congruence|].
      exfalso. apply Holds. congruence. }
    assert (Hnode3 : forall j, node t j -> node t3 j).
    { intros j Hj. pose proof Hj as (Hjb & Hjc).
      split; [rewrite Hd3, Hd2; exact Hjb|].
      destruct (HC3 j (Hlng j ltac:(lia))) as [E|(_ & E)]; rewrite E;
        [rewrite HC2 by exact Hj; exact Hjc|lia]. }
    assert (Hfree3 : forall j, free t j -> j <> new -> free t3 j).
    { intros j Hj Hjn. destruct (Hfree2 j Hj Hjn) as (Hjb & Hjc).
      split; [rewrite Hd3; exact Hjb|].
      destruct (HC3 j (Hlng j ltac:(destruct Hj; lia))) as [E|(E & _)];
        [rewrite E; exact Hjc|lia]. }
    (* release the old cell *)
    destruct (_daFreeCell fuel t3 old) as [t4|] eqn:Efree; [|discriminate].
    destruct (daFreeCell_step fuel t3 t4 old H3 (Hnode3 old Hnold) Hold3 Efree)
      as (H4 & Hd4 & Hp4 & Hu4 & Hf4 & _).
    assert (Hnode4 : forall j, node t j -> j <> old -> node t4 j).
    { intros j Hj Hjo. apply (keeps_used_node (only old) t3 t4 j Hu4);
        [lia|apply Hnode3; exact Hj|exact Hjo]. }
    destruct (IH t4 t' s ob nb keep H4) as (H' & Hd' & Hp' & Hs' & Hk'); auto.
    + intros x Hx. destruct (Hsyms x (or_intror Hx)) as (Hxb & Hxc & Hxf).
      assert (Hxs : x <> sym) by (intros ->; contradiction).
      assert (Hlx : lng (ob + x)) by (unfold byte in *; zlia).
      destruct (child_is_node t s (ob + x) H Hs Hlx Hxc) as (Hnx & _ & _).
      split; [exact Hxb|]. split.
      * destruct (Hu4 (ob + x) (Hnode3 _ Hnx)) as (E & _);
          [unfold only, old; lia|].
        rewrite E. apply HC3s; auto.
      * apply Hf4; [|unfold nobody; auto]. apply Hfree3; auto.
        unfold new. lia.
    + apply Hf4; [|unfold nobody; auto]. apply Hfree3; auto.
      apply Hkne. left. reflexivity.
    + intros x Hx. apply Hkne. right. exact Hx.
    + split; [exact H'|]. split; [lia|]. split; [|auto].
      eapply same_pool_trans; [|exact Hp'].
      eapply same_pool_trans; [|exact Hp4].
      eapply same_pool_trans; [|exact Hp3].
      eapply same_pool_trans; [exact Hp1|]. apply same_pool_setB.
Qed.

(** ** The symbol set *)

Lemma symbols_search_found (fuel : nat) (syms : Symbols) (c : Z) :
  forall lower upper,
    0 <= lower -> upper <= Z.of_nat (length syms) ->
    symbols_search fuel syms c lower upper = None -> In c syms.
Proof.
  induction fuel as [|f IH]; intros lower upper Hlo Hup Hs;
    cbn [symbols_search] in Hs; [discriminate|].
  destruct (Z.ltb_spec lower upper); [|discriminate].
  set (m := (lower + upper) / 2) in *.
  assert (Hm : lower <= m < upper).
  { pose proof (Z.div_mod (lower + upper) 2 ltac:(lia)) as Hdm.
    pose proof (Z.mod_pos_bound (lower + upper) 2 ltac:(lia)) as Hmb.
    fold m in Hdm. lia. }
  clearbody m.
  destruct (Z.gtb_spec c (zget syms m)).
  - apply (IH (m + 1) upper); auto; lia.
  - destruct (Z.ltb_spec c (zget syms m)).
    + apply (IH lower m); auto; lia.
    + assert (c = zget syms m) by lia. subst c. unfold zget.
      apply nth_In. unfold TrieChar in *. lia.
Qed.

Lemma symbols_add_spec (syms : Symbols) (c : Z) :
  In c (symbols_add syms c) /\
  (forall x, In x syms -> In x (symbols_add syms c)) /\
  (forall x, In x (symbols_add syms c) -> x = c \/ In x syms).
Proof.
  unfold symbols_add.
  destruct (symbols_search (S (length syms)) syms c 0 (symbols_num syms))
    as [lower|] eqn:E.
  - split; [apply in_or_app; right; left; reflexivity|]. split.
    + intros x Hx. rewrite <- (firstn_skipn (Z.to_nat lower) syms) in Hx.
      apply in_app_or in Hx. apply in_or_app.
      destruct Hx; [left|right; right]; auto.
    + intros x Hx. apply in_app_or in Hx.
      destruct Hx as [Hx|[Hx|Hx]]; auto; right;
        rewrite <- (firstn_skipn (Z.to_nat lower) syms); apply in_or_app; auto.
  - apply symbols_search_found in E; [|lia|unfold symbols_num; lia].
    split; [exact E|]. split; auto.
Qed.

Lemma symbols_add_nonempty (syms : Symbols) (c : Z) : symbols_add syms c <> [].
Proof.
  destruct (symbols_add_spec syms c) as (Hc & _).
  intros E. rewrite E in Hc. destruct Hc.
Qed.

Lemma grown_child_iff (t t' : trie) (s x : Z) :
  da_inv t -> grown t t' -> node t s -> lng x ->
  (trieGetCheck t' x = s <-> trieGetCheck t x = s).
Proof.
  intros H Hg Hs Hx. pose proof (grown_inv _ _ Hg) as H'.
  pose proof (grown_node _ _ s Hg Hs) as Hs'.
  split; intros Hc.
  - destruct (child_is_node t' s x H' Hs' Hx Hc) as ((Hxb & _) & Hx3 & _).
    destruct (Z_lt_le_dec x (dasize t)) as [Hlt|Hge].
    + destruct (Z_lt_le_dec (trieGetCheck t x) 0) as [Hneg|Hpos].
      * exfalso. assert (Hf : free t x) by (split; [lia|exact Hneg]).
        destruct (grown_free _ _ x Hg Hf) as (_ & Hf'). destruct Hs. lia.
      * rewrite <- (grown_C t t' x Hg); [exact Hc|split; lia].
    + exfalso. destruct Hg as (_ & _ & _ & _ & _ & Hnew).
      destruct (Hnew x ltac:(lia)) as (_ & Hf'). destruct Hs. lia.
  - destruct (child_is_node t s x H Hs Hx Hc) as (Hnx & _).
    rewrite (grown_C t t' x Hg Hnx). exact Hc.
Qed.

(** ** Relocation *)

Lemma trieReIndex_step (fuel : nat) (t t' : trie) (s nb keep : Z) :
  da_inv t -> node t s -> 3 <= trieGetBase t s <= TRIE_INDEX_MAX ->
  3 <= nb <= TRIE_INDEX_MAX ->
  (forall sym, In sym (_daFillSymbols t s) -> free t (nb + sym)) ->
  free t keep ->
  (forall sym, In sym (_daFillSymbols t s) -> keep <> nb + sym) ->
  _trieReIndex fuel t s nb = Some t' ->
  da_inv t' /\ dasize t' = dasize t /\ same_pool t t' /\
  node t' s /\ free t' keep.
Proof.
  intros H Hs Hb Hnb Hfree Hkeep Hkne Hre. unfold _trieReIndex in Hre.
  destruct (fillSymbols_spec t s H Hb) as (Hnd & Hin).
  destruct (reindex_loop fuel t s (trieGetBase t s) nb (_daFillSymbols t s))
    as [t1|] eqn:Eloop; [|discriminate].
  inversion Hre; subst t'; clear Hre.
  destruct (reindex_loop_step fuel (_daFillSymbols t s) t t1 s
              (trieGetBase t s) nb keep H Hs (small_getB t s H) Hnb Hnd)
    as (H1 & Hd1 & Hp1 & Hs1 & Hk1); auto.
  { intros sym Hsym. apply Hin in Hsym as Hsym'.
    split; [unfold byte; lia|]. split; [apply Hsym'|]. apply Hfree. exact Hsym. }
  split.
  { apply setBase_node_inv; [exact H1|exact Hs1|zlia|right; exact Hnb]. }
  split; [rewrite dasize_setB; exact Hd1|].
  split; [eapply same_pool_trans; [exact Hp1|apply same_pool_setB]|].
  split.
  - destruct Hs1 as (Hsb & Hsc). split; [rewrite dasize_setB; exact Hsb|].
    rewrite getC_setB. exact Hsc.
  - destruct Hk1 as (Hkb & Hkc). split; [rewrite dasize_setB; exact Hkb|].
    rewrite getC_setB. exact Hkc.
Qed.

(** ** Inserting an arc *)

Lemma keeps_used_nobody_trans (X : Z -> Prop) (t1 t2 t3 : trie) :
  keeps_used X t1 t2 -> dasize t1 <= dasize t2 -> keeps_used X t2 t3 ->
  keeps_used X t1 t3.
Proof.
  intros H12 Hd H23 j Hj Hx.
  pose proof (keeps_used_node X t1 t2 j H12 Hd Hj Hx) as Hj2.
  destruct (H12 j Hj Hx) as (A & B). destruct (H23 j Hj2 Hx) as (A' & B').
  split; congruence.
Qed.

(** Inserting below a node whose base is not positive: a tail cell or a
    cell that has just been claimed.  Nothing is relocated. *)
Lemma daInsert_leaf_step (fuel : nat) (t t' : trie) (s c next : Z) :
  da_inv t -> node t s -> byte c -> trieGetBase t s <= 0 ->
  _daInsert fuel t s c = Some (next, t') ->
  da_inv t' /\ dasize t <= dasize t' /\ same_pool t t' /\
  (forall j, node t j ->
     node t' j /\ trieGetCheck t' j = trieGetCheck t j /\
     (j <> s -> trieGetBase t' j = trieGetBase t j)) /\
  (forall j, free t' j -> j < dasize t -> free t j) /\
  ((next = TRIE_INDEX_ERROR /\ trieGetBase t' s = trieGetBase t s) \/
   (3 <= next /\ ~ node t next /\ node t' next /\
    trieGetCheck t' next = s /\ trieGetBase t' next < 0 /\
    3 <= trieGetBase t' s <= TRIE_INDEX_MAX)).
Proof.
  intros H Hs Hc Hb Hins. unfold _daInsert in Hins.
  destruct (Z.gtb_spec (trieGetBase t s) 0); [lia|].
  change (symbols_add symbols_new c) with [c] in Hins.
  destruct (_daFindFreeBase fuel t [c]) as [[nb t1]|] eqn:Efind;
    [|discriminate].
  destruct (daFindFreeBase_step fuel t [c] nb t1 H ltac:(discriminate)
              ltac:(constructor; auto) Efind) as (Hg & Hres).
  pose proof (grown_inv _ _ Hg) as H1.
  pose proof Hg as (_ & Hd1 & Hp1 & Hu1 & Hf1 & Hn1).
  assert (Hold1 : forall j, free t1 j -> j < dasize t -> free t j).
  { intros j (Hjb & Hjc) Hlt. split; [lia|].
    destruct (Z_lt_le_dec (trieGetCheck t j) 0) as [|Hpos]; [auto|].
    exfalso. destruct (inv_head t H) as (Hh0 & _ & H1f).
    destruct (Z.eq_dec j 0) as [->|].
    { destruct (inv_head t1 H1) as (Hh0' & _). lia. }
    destruct (Z.eq_dec j 1) as [->|].
    { destruct H1f. unfold DA_POOL_FREE in *. lia. }
    rewrite <- (grown_C t t1 j Hg) in Hpos; [lia|split; lia]. }
  unfold TRIE_INDEX_ERROR in *.
  destruct (Z.eqb_spec 0 nb) as [E0|E0].
  - inversion Hins; subst. split; [exact H1|]. split; [exact Hd1|].
    split; [exact Hp1|]. split; [|split; [exact Hold1|]].
    + intros j Hj. split; [eapply grown_node; eauto|].
      split; [apply grown_C; auto|]. intros _. apply grown_B; auto.
    + left. split; [reflexivity|]. apply grown_B; auto.
  - destruct Hres as [|(Hnb & Hfree)]; [lia|].
    specialize (Hfree c (or_introl eq_refl)).
    pose proof (grown_node _ _ s Hg Hs) as Hs1.
    assert (H2 : da_inv (trieSetBase t1 s nb))
      by (apply setBase_node_inv; [exact H1|exact Hs1|zlia|right; exact Hnb]).
    set (t2 := trieSetBase t1 s nb) in *.
    assert (Hs2 : node t2 s).
    { destruct Hs1. split; [unfold t2; rewrite dasize_setB; auto|].
      unfold t2. rewrite getC_setB. auto. }
    assert (Hf2 : free t2 (nb + c)).
    { destruct Hfree. split; [unfold t2; rewrite dasize_setB; auto|].
      unfold t2. rewrite getC_setB. auto. }
    assert (Hne1 : nb + c <> 1) by (unfold byte in Hc; lia).
    destruct (claim_step t2 s (nb + c) H2 Hf2 Hne1 Hs2)
      as (H3 & Hd3 & Hp3 & Hu3 & Hf3 & Hc3 & Hb3 & Hn3).
    cbn [daInsert_claim] in Hins. inversion Hins; subst next t'.
    cbn [daInsert_claim snd] in *.
    set (t3 := trieSetCheck (_daAssignCell t2 (nb + c)) (nb + c) s) in *.
    assert (Hd2 : dasize t2 = dasize t1) by (unfold t2; apply dasize_setB).
    pose proof (inv_wf t1 H1) as Hwf1.
    assert (HB2 : forall j, lng j ->
               trieGetBase t2 j = if j =? s then nb else trieGetBase t1 j).
    { intros j Hj. unfold t2. apply getB_setB; auto. destruct Hs1; lia. }
    split; [exact H3|]. split; [lia|].
    split.
    { eapply same_pool_trans; [exact Hp1|].
      eapply same_pool_trans; [apply same_pool_setB|exact Hp3]. }
    split; [|split].
    + intros j Hj. pose proof (grown_node _ _ j Hg Hj) as Hj1.
      assert (Hj2 : node t2 j).
      { destruct Hj1. split; [rewrite Hd2; auto|].
        unfold t2. rewrite getC_setB. auto. }
      destruct (Hu3 j Hj2) as (A & B); [unfold nobody; auto|].
      split; [|split].
      * destruct Hj2. split; [lia|]. rewrite A. auto.
      * rewrite A. unfold t2. rewrite getC_setB. apply grown_C; auto.
      * intros Hjs. rewrite B. rewrite HB2 by (eapply node_lng; eauto).
        destruct (Z.eqb_spec j s); [contradiction|]. apply grown_B; auto.
    + intros j Hj Hlt. apply Hold1; auto.
      destruct Hj as (Hjb & Hjc). split; [lia|].
      destruct (Z.eq_dec j (nb + c)) as [->|Hjn].
      { rewrite Hc3 in Hjc. destruct Hs. lia. }
      destruct (Z_lt_le_dec (trieGetCheck t1 j) 0) as [|Hpos]; [auto|].
      exfalso.
      destruct (Z.eq_dec j 0) as [->|].
      { destruct (inv_head t3 H3) as (E & _). lia. }
      destruct (Z.eq_dec j 1) as [->|].
      { destruct (inv_head t1 H1) as (_ & _ & (_ & E)).
        unfold DA_POOL_FREE in *. lia. }
      assert (Hj2 : node t2 j).
      { split; [lia|]. unfold t2. rewrite getC_setB. lia. }
      destruct (Hu3 j Hj2) as (A & _); [unfold nobody; auto|].
      rewrite A in Hjc. unfold t2 in Hjc. rewrite getC_setB in Hjc. lia.
    + right. split; [lia|]. split.
      { intros Hnn. destruct Hfree as (_ & Hneg).
        rewrite (grown_C t t1 _ Hg Hnn) in Hneg. destruct Hnn. lia. }
      split.
      { destruct Hf2. split; [lia|]. rewrite Hc3. destruct Hs. lia. }
      split; [exact Hc3|]. split; [exact Hb3|].
      destruct (Hu3 s Hs2) as (_ & B); [unfold nobody; auto|].
      rewrite B, HB2 by (eapply node_lng; eauto). rewrite Z.eqb_refl. exact Hnb.
Qed.

Lemma daInsert_step (fuel : nat) (t t' : trie) (s c next : Z) :
  da_inv t -> node t s -> byte c ->
  _daInsert fuel t s c = Some (next, t') ->
  da_inv t' /\ dasize t <= dasize t' /\ same_pool t t' /\ node t' s /\
  (next = TRIE_INDEX_ERROR \/ (node t' next /\ 3 <= next)).
Proof.
  intros H Hs Hc Hins.
  destruct (Z_le_gt_dec (trieGetBase t s) 0) as [Hb|Hb].
  { destruct (daInsert_leaf_step fuel t t' s c next H Hs Hc Hb Hins)
      as (H' & Hd & Hp & Hn & _ & Hres).
    split; [exact H'|]. split; [exact Hd|]. split; [exact Hp|].
    split; [apply Hn; exact Hs|].
    destruct Hres as [(E & _)|(Hn3 & _ & Hnn & _)]; [left|right]; auto. }
  unfold _daInsert in Hins.
  destruct (Z.gtb_spec (trieGetBase t s) 0); [|lia].
  set (b := trieGetBase t s) in *.
  assert (Hb3 : 3 <= b <= TRIE_INDEX_MAX)
    by (destruct (inv_base t H s Hs); unfold b in *; lia).
  pose proof (inv_wf t H) as Hwf.
  assert (Hlnext : lng (b + c)) by (unfold byte in Hc; zlia).
  destruct (Z.eqb_spec (trieGetCheck t (b + c)) s) as [Echild|Echild].
  { inversion Hins; subst next t'.
    destruct (child_is_node t s (b + c) H Hs Hlnext Echild) as (Hn & Hn3 & _).
    split; [exact H|]. split; [lia|]. split; [apply same_pool_refl|].
    split; [exact Hs|]. right. auto. }
  assert (Hprep :
    let p := if b >? TRIE_INDEX_MAX - c then (false, t)
             else _daPrepareSpace t (b + c) in
    grown t (snd p) /\ (fst p = true -> free (snd p) (b + c))).
  { cbv zeta. destruct (b >? TRIE_INDEX_MAX - c).
    - cbn [fst snd]. split; [apply grown_refl; auto|discriminate].
    - apply prepareSpace_step; auto. }
  cbv zeta in Hprep.
  destruct (if b >? TRIE_INDEX_MAX - c then (false, t)
            else _daPrepareSpace t (b + c)) as [fits t1].
  cbn [fst snd] in Hprep. destruct Hprep as (Hg1 & Hfits).
  pose proof (grown_inv _ _ Hg1) as H1.
  pose proof (grown_node _ _ s Hg1 Hs) as Hs1.
  pose proof Hg1 as (_ & Hd1 & Hp1 & _).
  destruct fits; cbn [negb] in Hins.
  - (* the cell is free: claim it *)
    specialize (Hfits eq_refl).
    destruct (claim_step t1 s (b + c) H1 Hfits ltac:(unfold byte in Hc; lia) Hs1)
      as (H2 & Hd2 & Hp2 & Hu2 & _ & Hc2 & _ & Hn3).
    inversion Hins; subst next t'. cbn [daInsert_claim snd] in *.
    split; [exact H2|]. split; [lia|].
    split; [eapply same_pool_trans; eauto|].
    split.
    + apply (keeps_used_node nobody t1 _ s Hu2);
        [lia|exact Hs1|unfold nobody; auto].
    + right. split; [|exact Hn3]. destruct Hfits. split; [lia|].
      rewrite Hc2. destruct Hs. lia.
  - (* relocate *)
    set (symbols := symbols_add (_daFillSymbols t1 s) c) in *.
    assert (Hb1 : trieGetBase t1 s = b) by (apply grown_B; auto).
    destruct (fillSymbols_spec t1 s H1 ltac:(rewrite Hb1; exact Hb3))
      as (_ & Hin1).
    destruct (symbols_add_spec (_daFillSymbols t1 s) c) as (Hcin & Hsub & Hsup).
    fold symbols in Hcin, Hsub, Hsup.
    assert (Hbytes : Forall byte symbols).
    { apply Forall_forall. intros x Hx. destruct (Hsup x Hx) as [->|Hx1]; auto.
      apply Hin1 in Hx1. unfold byte. lia. }
    destruct (_daFindFreeBase fuel t1 symbols) as [[nb t2]|] eqn:Efind;
      [|discriminate].
    destruct (daFindFreeBase_step fuel t1 symbols nb t2 H1
                (symbols_add_nonempty _ _) Hbytes Efind) as (Hg2 & Hres).
    pose proof (grown_inv _ _ Hg2) as H2.
    pose proof (grown_node _ _ s Hg2 Hs1) as Hs2.
    pose proof Hg2 as (_ & Hd2 & Hp2 & _).
    unfold TRIE_INDEX_ERROR in *.
    destruct (Z.eqb_spec 0 nb) as [E0|E0].
    + inversion Hins; subst next t'. split; [exact H2|]. split; [lia|].
      split; [eapply same_pool_trans; eauto|]. split; [exact Hs2|].
      left. reflexivity.
    + destruct Hres as [|(Hnb & Hfree)]; [lia|].
      assert (Hb2 : trieGetBase t2 s = b)
        by (rewrite (grown_B t1 t2 s Hg2 Hs1); exact Hb1).
      destruct (fillSymbols_spec t2 s H2 ltac:(rewrite Hb2; exact Hb3))
        as (_ & Hin2).
      assert (Hsub2 : forall sym, In sym (_daFillSymbols t2 s) ->
                                  In sym (_daFillSymbols t1 s)).
      { intros sym Hsym. apply Hin2 in Hsym.
        destruct Hsym as (Hsb & Hsm & _ & Hsc). rewrite Hb2 in Hsm, Hsc.
        assert (Hl : lng (b + sym)) by zlia.
        apply (grown_child_iff t1 t2 s (b + sym) H1 Hg2 Hs1 Hl) in Hsc.
        apply Hin1. rewrite Hb1. split; [exact Hsb|]. split; [exact Hsm|].
        split; [|exact Hsc].
        destruct (child_is_node t1 s (b + sym) H1 Hs1 Hl Hsc) as ((? & _) & _).
        lia. }
      assert (Hcnot : ~ In c (_daFillSymbols t2 s)).
      { intros Hcin2. apply Hin2 in Hcin2. destruct Hcin2 as (_ & _ & _ & Hcc).
        rewrite Hb2 in Hcc.
        apply (grown_child_iff t1 t2 s (b + c) H1 Hg2 Hs1 Hlnext) in Hcc.
        apply (grown_child_iff t t1 s (b + c) H Hg1 Hs Hlnext) in Hcc.
        contradiction. }
      destruct (_trieReIndex fuel t2 s nb) as [t3|] eqn:Ere; [|discriminate].
      destruct (trieReIndex_step fuel t2 t3 s nb (nb + c) H2 Hs2
                  ltac:(rewrite Hb2; exact Hb3) Hnb)
        as (H3 & Hd3 & Hp3 & Hs3 & Hk3).
      { intros sym Hsym. apply Hfree, Hsub, Hsub2, Hsym. }
      { apply Hfree, Hcin. }
      { intros sym Hsym E. assert (sym = c) by lia. subst. contradiction. }
      { exact Ere. }
      destruct (claim_step t3 s (nb + c) H3 Hk3 ltac:(unfold byte in Hc; lia) Hs3)
        as (H4 & Hd4 & Hp4 & Hu4 & _ & Hc4 & _ & Hn3).
      inversion Hins; subst next t'. cbn [daInsert_claim snd] in *.
      split; [exact H4|]. split; [lia|].
      split.
      { eapply same_pool_trans; [exact Hp1|].
        eapply same_pool_trans; [exact Hp2|].
        eapply same_pool_trans; [exact Hp3|exact Hp4]. }
      split.
      * apply (keeps_used_node nobody t3 _ s Hu4);
          [lia|exact Hs3|unfold nobody; auto].
      * right. split; [|exact Hn3]. destruct Hk3. split; [lia|].
        rewrite Hc4. destruct Hs. lia.
Qed.

(** ** The tail pool *)

Lemma same_da_refl (t : trie) : same_da t t.
Proof. repeat split. Qed.

Lemma same_da_trans (t1 t2 t3 : trie) :
  same_da t1 t2 -> same_da t2 t3 -> same_da t1 t3.
Proof. intros (A & B & C) (A' & B' & C'). repeat split; congruence. Qed.

Lemma same_da_getC (t t' : trie) (j : Z) :
  same_da t t' -> trieGetCheck t' j = trieGetCheck t j.
Proof. intros (A & B & C). unfold trieGetCheck. rewrite B, C. reflexivity. Qed.

Lemma same_da_getB (t t' : trie) (j : Z) :
  same_da t t' -> trieGetBase t' j = trieGetBase t j.
Proof. intros (A & B & C). unfold trieGetBase. rewrite A, C. reflexivity. Qed.

Lemma same_da_free (t t' : trie) (j : Z) :
  same_da t t' -> (free t' j <-> free t j).
Proof.
  intros Hs. unfold free. rewrite (same_da_getC t t' j Hs).
  destruct Hs as (_ & _ & ->). reflexivity.
Qed.

Lemma same_da_node (t t' : trie) (j : Z) :
  same_da t t' -> (node t' j <-> node t j).
Proof.
  intros Hs. unfold node. rewrite (same_da_getC t t' j Hs).
  destruct Hs as (_ & _ & ->). reflexivity.
Qed.

Lemma same_da_inv (t t' : trie) :
  same_da t t' -> tail_inv t' -> da_inv t -> da_inv t'.
Proof.
  intros Hs Ht H. pose proof Hs as (Hb & Hc & Hd).
  constructor.
  - unfold wf_arrays. rewrite Hb, Hc, Hd. apply (inv_wf t H).
  - rewrite Hc. apply (inv_smallC t H).
  - rewrite Hb. apply (inv_smallB t H).
  - rewrite !(same_da_getC t t' _ Hs), (same_da_free t t' _ Hs), Hd.
    apply (inv_head t H).
  - intros i Hi. apply (same_da_free t t' _ Hs) in Hi.
    rewrite !(same_da_getC t t' _ Hs), (same_da_getB t t' _ Hs),
      (same_da_free t t' _ Hs).
    apply (inv_next t H i Hi).
  - intros i Hi. apply (same_da_free t t' _ Hs) in Hi.
    rewrite !(same_da_getB t t' _ Hs), (same_da_getC t t' _ Hs),
      (same_da_free t t' _ Hs).
    apply (inv_prev t H i Hi).
  - intros i Hi. apply (same_da_node t t' _ Hs) in Hi.
    rewrite (same_da_getB t t' _ Hs). apply (inv_base t H i Hi).
  - intros i Hi. rewrite Hd in Hi. rewrite (same_da_getC t t' _ Hs).
    apply (inv_noself t H i Hi).
  - exact Ht.
Qed.

Lemma entry_ok_blank : entry_ok blankEntry.
Proof. unfold entry_ok, blankEntry. cbn. split; [zlia|exact I]. Qed.

Lemma entry_ok_nth (l : list trieEntry) (n : nat) :
  Forall entry_ok l -> entry_ok (nth n l blankEntry).
Proof.
  intros H. destruct (Nat.lt_ge_cases n (length l)) as [Hlt|Hge].
  - rewrite Forall_forall in H. apply H. apply nth_In. exact Hlt.
  - rewrite nth_overflow by exact Hge. apply entry_ok_blank.
Qed.

Lemma entry_ok_upd (l : list trieEntry) :
  forall n e, Forall entry_ok l -> entry_ok e -> Forall entry_ok (upd l n e).
Proof.
  induction l as [|h l IH]; intros [|n] e Hl He; simpl; auto;
    inversion Hl; subst; constructor; auto.
Qed.

Lemma tail_at_ok (t : trie) (i : Z) : tail_inv t -> entry_ok (tail_at t i).
Proof. intros (_ & _ & H). apply entry_ok_nth. exact H. Qed.

Lemma set_tail_same_da (t : trie) (i : Z) (e : trieEntry) :
  same_da t (set_tail t i e).
Proof. repeat split. Qed.

Lemma set_tail_inv (t : trie) (i : Z) (e : trieEntry) :
  tail_inv t -> entry_ok e -> tail_inv (set_tail t i e).
Proof.
  intros (A & B & C) He. unfold tail_inv, set_tail.
  cbn [tailsize first_free tails with_tails].
  split; [auto|]. split; [auto|]. apply entry_ok_upd; auto.
Qed.

Lemma set_next_free_inv (t : trie) (i n : Z) :
  tail_inv t -> -1 <= n <= TRIE_INDEX_MAX -> tail_inv (set_next_free t i n).
Proof.
  intros Ht Hn. unfold set_next_free. apply set_tail_inv; auto.
  destruct (tail_at_ok t i Ht) as (_ & Hs).
  unfold entry_ok, entry_set_next_free. cbn. auto.
Qed.

Lemma fold_next_free_frame (l : list Z) :
  forall t,
    let t' := fold_left (fun t i => set_next_free t i (i + 1)) l t in
    same_da t t' /\ tailsize t' = tailsize t /\
    first_free t' = first_free t /\ used t' = used t.
Proof.
  induction l as [|i l IH]; intros t; cbn [fold_left].
  - cbv zeta. split; [apply same_da_refl|]. auto.
  - destruct (IH (set_next_free t i (i + 1))) as (B & C & D & E).
    cbv zeta. split; [eapply same_da_trans; [|exact B]; repeat split|].
    rewrite C, D, E. repeat split.
Qed.

Lemma trieNextPower_grows (size : Z) :
  0 <= size < TRIE_INDEX_MAX ->
  size < _trieNextPower size <= TRIE_INDEX_MAX.
Proof.
  intros Hs. destruct (Z.eq_dec size 0) as [->|].
  - vm_compute. split; [reflexivity|discriminate].
  - apply trieNextPower_bounds. lia.
Qed.

Lemma zrange_Forall (P : Z -> Prop) (k : nat) :
  forall lo, (forall i, lo <= i < lo + Z.of_nat k -> P i) ->
             Forall P (zrange lo k).
Proof.
  intros lo H. apply Forall_forall. intros i Hi. apply zrange_In in Hi. auto.
Qed.

Lemma zrange_length (k : nat) : forall lo, length (zrange lo k) = k.
Proof. induction k as [|k IH]; intros lo; cbn [zrange length]; auto. Qed.

Lemma zrange_nth (k : nat) :
  forall lo n d, (n < k)%nat -> nth n (zrange lo k) d = lo + Z.of_nat n.
Proof.
  induction k as [|k IH]; intros lo n d Hn; [lia|]. cbn [zrange].
  destruct n as [|n]; cbn [nth]; [lia|]. rewrite IH by lia. lia.
Qed.

Lemma map_zrange_nth {A : Type} (f : Z -> A) (k : nat) :
  forall lo n d, (n < k)%nat -> nth n (map f (zrange lo k)) d = f (lo + Z.of_nat n).
Proof.
  induction k as [|k IH]; intros lo n d Hn; [lia|]. cbn [zrange map].
  destruct n as [|n]; cbn [nth]; [f_equal; lia|].
  rewrite IH by lia. f_equal. lia.
Qed.

Lemma c_string_byte (l : list Z) : Forall byte l -> Forall byte (c_string l).
Proof.
  induction l as [|c l IH]; intros H; cbn [c_string]; [constructor|].
  inversion H; subst. destruct (c =? 0); constructor; auto.
Qed.

Lemma to_TrieChar_bytes (l : list Z) : Forall byte (map to_TrieChar l).
Proof.
  apply Forall_forall. intros c Hc. apply in_map_iff in Hc.
  destruct Hc as (x & <- & _). unfold to_TrieChar, byte.
  pose proof (Z.mod_pos_bound x 256 ltac:(lia)). lia.
Qed.

Lemma resize_tails_length (m : Z -> trieEntry) (l : list trieEntry)
  (old ns : Z) :
  length (resize_tails m l old ns) = Z.to_nat ns.
Proof. unfold resize_tails. rewrite length_map. apply zrange_length. Qed.

Lemma resize_tails_at (m : Z -> trieEntry) (l : list trieEntry)
  (old ns : Z) (n : nat) :
  (n < Z.to_nat ns)%nat ->
  nth n (resize_tails m l old ns) blankEntry =
  if Z.of_nat n <? old then nth n l blankEntry
  else unwritten (m (Z.of_nat n)).
Proof.
  intros Hn. unfold resize_tails.
  rewrite (map_zrange_nth _ (Z.to_nat ns) 0 n blankEntry Hn). cbn [Z.add].
  rewrite Nat2Z.id. reflexivity.
Qed.

(** The suffix of a slot is a string of bytes. *)
Definition sfx_ok (e : trieEntry) : Prop :=
  match suffix e with Some s => Forall byte s | None => True end.

(** Every slot is in order, except that the slots in [E], which have not
    been written yet, may hold any [next_free]. *)
Definition slots_ok (E : Z -> Prop) (l : list trieEntry) : Prop :=
  forall n, (n < length l)%nat ->
    sfx_ok (nth n l blankEntry) /\
    (~ E (Z.of_nat n) ->
     -1 <= next_free (nth n l blankEntry) <= TRIE_INDEX_MAX).

Lemma slots_ok_all (l : list trieEntry) :
  slots_ok (fun _ => False) l -> Forall entry_ok l.
Proof.
  intros H. apply Forall_forall. intros e He.
  destruct (In_nth l e blankEntry He) as (n & Hn & <-).
  destruct (H n Hn) as (A & B). split; [apply B; tauto|exact A].
Qed.

Lemma slots_ok_upd (E : Z -> Prop) (l : list trieEntry) (i : nat)
  (e : trieEntry) :
  slots_ok E l -> entry_ok e ->
  slots_ok (fun x => E x /\ x <> Z.of_nat i) (upd l i e).
Proof.
  intros H (He1 & He2) n Hn. rewrite upd_length in Hn.
  destruct (Nat.eq_dec i n) as [<-|Hne].
  - rewrite nth_upd_same by exact Hn. split; [exact He2|auto].
  - rewrite nth_upd_other by exact Hne. destruct (H n Hn) as (A & B).
    split; [exact A|]. intros Hx. apply B. intros HE. apply Hx.
    split; [exact HE|lia].
Qed.

Lemma slots_ok_next_free (E : Z -> Prop) (t : trie) (i v : Z) :
  slots_ok E (tails t) -> 0 <= i -> -1 <= v <= TRIE_INDEX_MAX ->
  slots_ok (fun x => E x /\ x <> i) (tails (set_next_free t i v)).
Proof.
  intros H Hi Hv n Hn. unfold set_next_free, set_tail in *.
  cbn [tails with_tails] in *. rewrite upd_length in Hn.
  destruct (Nat.eq_dec (Z.to_nat i) n) as [<-|Hne].
  - rewrite nth_upd_same by exact Hn. destruct (H _ Hn) as (A & _).
    split; [exact A|]. intros _. exact Hv.
  - rewrite nth_upd_other by exact Hne. destruct (H n Hn) as (A & B).
    split; [exact A|]. intros Hx. apply B. intros HE. apply Hx.
    split; [exact HE|lia].
Qed.

Lemma slots_ok_fold (l : list Z) :
  forall E t,
    slots_ok E (tails t) ->
    Forall (fun i => 0 <= i /\ -1 <= i + 1 <= TRIE_INDEX_MAX) l ->
    slots_ok (fun x => E x /\ ~ In x l)
      (tails (fold_left (fun t i => set_next_free t i (i + 1)) l t)).
Proof.
  induction l as [|i l IH]; intros E t H Hl; cbn [fold_left].
  - intros n Hn. destruct (H n Hn) as (A & B). split; [exact A|].
    intros Hx. apply B. intros HE. apply Hx. split; [exact HE|intros []].
  - apply Forall_cons_iff in Hl as ((Hi & Hv) & Hl).
    pose proof (IH _ _ (slots_ok_next_free E t i (i + 1) H Hi Hv) Hl) as H'.
    intros n Hn. destruct (H' n Hn) as (A & B). split; [exact A|].
    intros Hx. apply B. intros ((HE & Hne) & Hnl). apply Hx.
    split; [exact HE|]. intros [Ei|Hin]; [congruence|contradiction].
Qed.

Lemma slots_ok_resize (m : Z -> trieEntry) (l : list trieEntry)
  (old ns : Z) :
  Forall entry_ok l ->
  slots_ok (fun x => old <= x < ns) (resize_tails m l old ns).
Proof.
  intros H n Hn. rewrite resize_tails_length in Hn.
  rewrite resize_tails_at by exact Hn.
  destruct (Z.ltb_spec (Z.of_nat n) old) as [Hlt|Hge].
  - destruct (entry_ok_nth l n H) as (A & B). split; [exact B|auto].
  - split; [|intros Hx; exfalso; apply Hx; lia].
    unfold sfx_ok, unwritten. cbn [suffix].
    destruct (suffix (m (Z.of_nat n))); cbn [option_map]; [|exact I].
    apply c_string_byte, to_TrieChar_bytes.
Qed.

Lemma tailAllocCell_step (t : trie) :
  tail_inv t ->
  let r := fst (_tailAllocCell t) in
  let t' := snd (_tailAllocCell t) in
  tail_inv t' /\ same_da t t' /\
  (tailsize t < TRIE_INDEX_MAX -> 1 <= r <= TRIE_INDEX_MAX + 2).
Proof.
  intros Ht. pose proof Ht as (Hts & Hff & Hall).
  unfold _tailAllocCell.
  destruct (Z.eqb_spec (first_free t) 0) as [E0|E0]; cbn [negb].
  - destruct (Z.eqb_spec (_trieNextPower (tailsize t)) (tailsize t)) as [E|E].
    + cbn [fst snd]. split; [auto|]. split; [apply same_da_refl|].
      intros Hlt. pose proof (trieNextPower_grows (tailsize t) ltac:(lia)). lia.
    + assert (Hcap : tailsize t < TRIE_INDEX_MAX).
      { destruct (Z_lt_le_dec (tailsize t) TRIE_INDEX_HALFMAX).
        - zlia.
        - rewrite trieNextPower_saturates in E by lia. lia. }
      pose proof (trieNextPower_grows (tailsize t) ltac:(lia)) as Hg.
      set (ns := _trieNextPower (tailsize t)) in *.
      set (t1 := with_tailsize
                   (with_tails t (resize_tails (raw t) (tails t) (tailsize t) ns))
                   ns).
      assert (H1 : slots_ok (fun x => tailsize t <= x < ns) (tails t1)).
      { unfold t1. cbn [tails with_tails with_tailsize].
        apply slots_ok_resize. exact Hall. }
      set (range := zrange (tailsize t + 1)
                           (Z.to_nat (ns - 1 - (tailsize t + 1)))).
      destruct (fold_next_free_frame range t1) as (B & C & D & F).
      pose proof (slots_ok_fold range _ t1 H1) as H2.
      specialize (H2 ltac:(apply zrange_Forall; intros i Hi; lia)).
      fold range. set (t2 := fold_left _ range t1) in *.
      pose proof (slots_ok_next_free _ t2 (ns - 1) 0 H2 ltac:(lia) ltac:(zlia))
        as H3.
      set (t3 := set_next_free t2 (ns - 1) 0) in *.
      cbn [fst snd].
      split.
      { unfold tail_inv, set_tail.
        cbn [tailsize first_free tails with_tails with_first_free with_used].
        change (tailsize t3) with (tailsize t2). rewrite C.
        unfold t1. cbn [tailsize with_tailsize].
        split; [lia|]. split; [lia|].
        apply slots_ok_all.
        pose proof (slots_ok_upd _ (tails t3) (Z.to_nat (tailsize t))
                      (mkEntry None None NULL (-1)) H3) as H4.
        specialize (H4 ltac:(unfold entry_ok; cbn; split; [zlia|exact I])).
        intros n Hn. destruct (H4 n Hn) as (X & Y). split; [exact X|].
        intros _. apply Y. intros (((Hr & Hnin) & Hn1) & Hn0).
        apply Hnin. apply zrange_In. lia. }
      split; [|intros _; zlia].
      eapply same_da_trans; [|exact B]. repeat split.
  - cbn [fst snd]. split.
    + apply set_tail_inv.
      * unfold tail_inv. cbn. split; [auto|]. split; [|auto].
        apply (tail_at_ok t (first_free t) Ht).
      * unfold entry_ok. cbn. split; [zlia|exact I].
    + split; [repeat split|]. intros _. zlia.
Qed.

Lemma trieSetTailSuffix_step (t : trie) (idx : Z) (sfx : cstr) :
  tail_inv t -> Forall byte sfx ->
  tail_inv (snd (_trieSetTailSuffix t idx (Some sfx))) /\
  same_da t (snd (_trieSetTailSuffix t idx (Some sfx))).
Proof.
  intros Ht Hs. unfold _trieSetTailSuffix.
  destruct ((idx - TAIL_START_BLOCKNO >=? 0) &&
            ult (idx - TAIL_START_BLOCKNO) (tailsize t)); cbn [snd].
  - split; [|repeat split]. apply set_tail_inv; auto.
    destruct (tail_at_ok t (idx - TAIL_START_BLOCKNO) Ht) as (Hnf & _).
    unfold entry_ok, entry_set_suffix. cbn. split; [auto|].
    apply c_string_byte. exact Hs.
  - split; [auto|apply same_da_refl].
Qed.

Lemma tailFree_scan_spec (fuel : nat) (t : trie) (block : Z) :
  tail_inv t ->
  forall j i r,
    -1 <= i <= TRIE_INDEX_MAX ->
    tailFree_scan fuel t block j i = Some r ->
    -1 <= snd r <= TRIE_INDEX_MAX.
Proof.
  intros Ht. induction fuel as [|f IH]; intros j i r Hi Hscan;
    cbn [tailFree_scan] in Hscan; [discriminate|].
  destruct (negb (i =? 0) && (i <? block)).
  - apply (IH i (next_free (tail_at t i)) r); auto.
    apply (tail_at_ok t i Ht).
  - inversion Hscan; subst. exact Hi.
Qed.

Lemma call_keyDestructor_pool (t : trie) (k : keyptr) :
  same_da t (call_keyDestructor t k) /\
  tails (call_keyDestructor t k) = tails t /\
  tailsize (call_keyDestructor t k) = tailsize t /\
  first_free (call_keyDestructor t k) = first_free t.
Proof.
  unfold call_keyDestructor. destruct (keyDestructor (type t));
    repeat split.
Qed.

Lemma call_valDestructor_pool (t : trie) (v : valptr) :
  same_da t (call_valDestructor t v) /\
  tails (call_valDestructor t v) = tails t /\
  tailsize (call_valDestructor t v) = tailsize t /\
  first_free (call_valDestructor t v) = first_free t.
Proof.
  unfold call_valDestructor. destruct (valDestructor (type t));
    repeat split.
Qed.

Lemma tailFreeCell_step (fuel : nat) (t t' : trie) (block : Z) :
  tail_inv t -> lng block ->
  _tailFreeCell fuel t block = Some t' ->
  tail_inv t' /\ same_da t t'.
Proof.
  intros Ht Hl Hfree. unfold _tailFreeCell in Hfree.
  pose proof Ht as (Hts & Hff & Hall).
  set (b := block - TAIL_START_BLOCKNO) in *.
  destruct (Z.geb_spec (ulong b) (ulong (tailsize t))) as [Hout|Hin].
  { inversion Hfree; subst. split; [auto|apply same_da_refl]. }
  assert (Hb : 0 <= b < tailsize t).
  { pose proof (ult_spec b (tailsize t) ltac:(unfold b; zlia) ltac:(zlia)) as E.
    unfold ult in E. destruct (Z.ltb_spec (ulong b) (ulong (tailsize t))); [|lia].
    symmetry in E. apply andb_true_iff in E. lia. }
  set (t1 := set_tail t b (entry_set_suffix (tail_at t b) None)) in *.
  assert (Ht1 : tail_inv t1).
  { apply set_tail_inv; auto. destruct (tail_at_ok t b Ht).
    unfold entry_ok, entry_set_suffix. cbn. auto. }
  set (t2 := call_keyDestructor t1 (key (tail_at t1 b))) in *.
  destruct (call_keyDestructor_pool t1 (key (tail_at t1 b)))
    as (Hd2 & Hl2 & Hs2 & Hf2). fold t2 in Hd2, Hl2, Hs2, Hf2.
  assert (Ht2 : tail_inv t2).
  { destruct Ht1 as (X & Y & Z0). unfold tail_inv. rewrite Hl2, Hs2, Hf2. auto. }
  set (t3 := call_valDestructor t2 (val (tail_at t2 b))) in *.
  destruct (call_valDestructor_pool t2 (val (tail_at t2 b)))
    as (Hd3 & Hl3 & Hs3 & Hf3). fold t3 in Hd3, Hl3, Hs3, Hf3.
  assert (Ht3 : tail_inv t3).
  { destruct Ht2 as (X & Y & Z0). unfold tail_inv. rewrite Hl3, Hs3, Hf3. auto. }
  destruct (tailFree_scan fuel t3 b 0 (first_free t3)) as [[j i]|] eqn:Escan;
    [|discriminate].
  pose proof (tailFree_scan_spec fuel t3 b Ht3 0 (first_free t3) (j, i)
                ltac:(destruct Ht3 as (_ & ? & _); lia) Escan) as Hi.
  cbn [snd] in Hi.
  inversion Hfree; subst t'; clear Hfree.
  assert (Ht4 : tail_inv (set_next_free t3 b i))
    by (apply set_next_free_inv; auto).
  assert (Hda : same_da t t3).
  { eapply same_da_trans; [|exact Hd3].
    eapply same_da_trans; [|exact Hd2]. repeat split. }
  destruct (negb (j =? 0)).
  - split.
    + assert (Ht5 : tail_inv (set_next_free (set_next_free t3 b i) j b))
        by (apply set_next_free_inv; auto; zlia).
      destruct Ht5 as (X & Y & Z0). unfold tail_inv. cbn. auto.
    + eapply same_da_trans; [exact Hda|]. repeat split.
  - split.
    + destruct Ht4 as (X & Y & Z0). unfold tail_inv. cbn.
      split; [exact X|]. split; [zlia|exact Z0].
    + eapply same_da_trans; [exact Hda|]. repeat split.
Qed.

Lemma trieSetTailKey_step (t : trie) (i : Z) (k : keyptr) :
  tail_inv t ->
  tail_inv (trieSetTailKey t i k) /\ same_da t (trieSetTailKey t i k).
Proof.
  intros Ht. unfold trieSetTailKey.
  destruct (ult (i - TAIL_START_BLOCKNO) (tailsize t));
    [|split; [auto|apply same_da_refl]].
  destruct (keyDup (type t)).
  - split; [|repeat split]. destruct Ht as (X & Y & Z0).
    unfold tail_inv. cbn. auto.
  - split; [|repeat split]. apply set_tail_inv; auto.
    destruct (tail_at_ok t (i - TAIL_START_BLOCKNO) Ht).
    unfold entry_ok, entry_set_key. cbn. auto.
Qed.

Lemma trieSetTailVal_step (t : trie) (i : Z) (v : valptr) :
  tail_inv t ->
  tail_inv (trieSetTailVal t i v) /\ same_da t (trieSetTailVal t i v).
Proof.
  intros Ht. unfold trieSetTailVal.
  destruct (ult (i - TAIL_START_BLOCKNO) (tailsize t));
    [|split; [auto|apply same_da_refl]].
  destruct (valDup (type t)).
  - split; [|repeat split]. destruct Ht as (X & Y & Z0).
    unfold tail_inv. cbn. auto.
  - split; [|repeat split]. apply set_tail_inv; auto.
    destruct (tail_at_ok t (i - TAIL_START_BLOCKNO) Ht).
    unfold entry_ok, entry_set_val. cbn. auto.
Qed.

(** ** Pruning *)

Lemma up_path_length (n : nat) :
  forall m t p s, up_path n t p s -> up_path m t p s -> n = m.
Proof.
  induction n as [|n IH]; intros [|m] t p s Hn Hm; cbn [up_path] in *;
    auto.
  - destruct Hm as (Hne & _). contradiction.
  - destruct Hn as (Hne & _). contradiction.
  - destruct Hn as (_ & _ & _ & Hn). destruct Hm as (_ & _ & _ & Hm).
    f_equal. eapply IH; eauto.
Qed.

(** A path survives a change that leaves its cells alone. *)
Lemma up_path_transfer (n : nat) :
  forall t t' p x,
    up_path n t p x ->
    (forall j, node t j -> (exists k, (k <= n)%nat /\ up_path k t p j) ->
               node t' j /\ trieGetCheck t' j = trieGetCheck t j) ->
    up_path n t' p x.
Proof.
  induction n as [|n IH]; intros t t' p x Hp Hkeep; cbn [up_path] in *;
    [exact Hp|].
  destruct Hp as (Hne & Hnx & Hx3 & Hrest).
  destruct (Hkeep x Hnx) as (Hnx' & Hcx).
  { exists (S n). split; [lia|]. cbn [up_path]. auto. }
  split; [exact Hne|]. split; [exact Hnx'|]. split; [exact Hx3|].
  rewrite Hcx. apply (IH t t' p _ Hrest).
  intros j Hj (k & Hk & Hpk). apply Hkeep; auto.
  exists k. split; [lia|exact Hpk].
Qed.

Lemma daPrune_step (fuel : nat) :
  forall n t t' p s,
    da_inv t -> node t p -> up_path n t p s ->
    _daPrune fuel t p s = Some t' ->
    da_inv t' /\ dasize t' = dasize t /\ same_pool t t' /\ node t' p.
Proof.
  induction fuel as [|f IH]; intros n t t' p s H Hp Hpath Hprune;
    [discriminate|].
  cbn [_daPrune] in Hprune.
  destruct (Z.eqb_spec p s) as [E|E]; cbn [negb andb] in Hprune.
  { inversion Hprune; subst. split; [auto|]. split; [auto|].
    split; [apply same_pool_refl|auto]. }
  destruct (_daHasChildren t s); cbn [negb] in Hprune.
  { inversion Hprune; subst. split; [auto|]. split; [auto|].
    split; [apply same_pool_refl|auto]. }
  destruct n as [|n]; cbn [up_path] in Hpath; [congruence|].
  destruct Hpath as (_ & Hns & Hs3 & Hrest).
  destruct (_daFreeCell (S f) t s) as [t1|] eqn:Efree; [|discriminate].
  destruct (daFreeCell_step (S f) t t1 s H Hns Hs3 Efree)
    as (H1 & Hd1 & Hp1 & Hu1 & _).
  assert (Hkeep : forall j, node t j -> j <> s ->
                            node t1 j /\ trieGetCheck t1 j = trieGetCheck t j).
  { intros j Hj Hjs. split.
    - apply (keeps_used_node (only s) t t1 j Hu1); auto. lia.
    - apply Hu1; auto. }
  assert (Hrest1 : up_path n t1 p (trieGetCheck t s)).
  { apply (up_path_transfer n t t1 p _ Hrest).
    intros j Hj (k & Hk & Hpk). apply Hkeep; auto.
    intros ->. 
    assert (Hfull : up_path (S n) t p s) by (cbn [up_path]; auto).
    pose proof (up_path_length _ _ _ _ _ Hpk Hfull). lia. }
  destruct (IH n t1 t' p (trieGetCheck t s) H1) as (H' & Hd' & Hp' & Hn'); auto.
  { apply Hkeep; auto. }
  split; [exact H'|]. split; [lia|].
  split; [eapply same_pool_trans; eauto|exact Hn'].
Qed.

(** ** Insertion in a branch *)

Lemma trieSetTailIndex_setBase (t : trie) (i v : Z) :
  trieSetTailIndex t i v = trieSetBase t i (- v).
Proof. reflexivity. Qed.

Lemma deref_byte (p : cstr) : Forall byte p -> byte (deref p).
Proof.
  intros H. destruct p as [|c p]; cbn; [unfold byte, TRIE_CHAR_TERM; lia|].
  inversion H; auto.
Qed.

Lemma advance_byte (p : cstr) : Forall byte p -> Forall byte (advance p).
Proof. intros H. destruct p; cbn; auto. inversion H; auto. Qed.

Lemma same_pool_tailsize (t t' : trie) :
  same_pool t t' -> tailsize t' = tailsize t.
Proof. intros (_ & E & _). exact E. Qed.

Lemma addTailSuffix_step (t : trie) (sfx : cstr) :
  da_inv t -> Forall byte sfx ->
  let r := fst (_trieAddTailSuffix t sfx) in
  let t' := snd (_trieAddTailSuffix t sfx) in
  da_inv t' /\ same_da t t' /\
  (tailsize t < TRIE_INDEX_MAX -> 1 <= r <= TRIE_INDEX_MAX + 2).
Proof.
  intros H Hs. unfold _trieAddTailSuffix.
  destruct (tailAllocCell_step t (inv_tail t H)) as (Ht1 & Hd1 & Hr).
  destruct (_tailAllocCell t) as [nb t1]. cbn [fst snd] in *.
  destruct (trieSetTailSuffix_step t1 nb sfx Ht1 Hs) as (Ht2 & Hd2).
  destruct (_trieSetTailSuffix t1 nb (Some sfx)) as [x t2]. cbn [fst snd] in *.
  assert (Hda : same_da t t2) by (eapply same_da_trans; eauto).
  split; [eapply same_da_inv; eauto|]. split; [exact Hda|exact Hr].
Qed.

Lemma insertInBranch_step (fuel : nat) (t t' : trie) (sep r : Z) (sfx : cstr) :
  da_inv t -> node t sep -> Forall byte sfx ->
  tailsize t < TRIE_INDEX_MAX ->
  _trieInsertInBranch fuel t sep sfx = Some (r, t') ->
  da_inv t' /\ dasize t <= dasize t'.
Proof.
  intros H Hsep Hs Hcap Hins. unfold _trieInsertInBranch in Hins.
  destruct (_daInsert fuel t sep (deref sfx)) as [[new_da t1]|] eqn:Eins;
    [|discriminate].
  destruct (daInsert_step fuel t t1 sep (deref sfx) new_da H Hsep
              (deref_byte sfx Hs) Eins) as (H1 & Hd1 & Hp1 & Hs1 & Hres).
  unfold TRIE_INDEX_ERROR in *.
  destruct (Z.eqb_spec 0 new_da) as [E|E].
  { inversion Hins; subst. auto. }
  destruct Hres as [|(Hnn & Hn3)]; [lia|].
  set (sfx' := if negb (0 =? deref sfx) then advance sfx else sfx) in *.
  assert (Hs' : Forall byte sfx').
  { unfold sfx'. destruct (negb (0 =? deref sfx)); auto.
    apply advance_byte. exact Hs. }
  destruct (addTailSuffix_step t1 sfx' H1 Hs') as (H2 & Hd2 & Hr).
  destruct (_trieAddTailSuffix t1 sfx') as [new_tail t2]. cbn [fst snd] in *.
  inversion Hins; subst r t'. clear Hins.
  rewrite (same_pool_tailsize _ _ Hp1) in Hr. specialize (Hr Hcap).
  rewrite trieSetTailIndex_setBase.
  destruct Hd2 as (Hb2 & Hc2 & Hds2).
  split; [|rewrite dasize_setB; lia].
  apply setBase_node_inv; auto; [|zlia|left; lia].
  apply (same_da_node t1 t2); [repeat split; auto|exact Hnn].
Qed.

(** ** Walking *)

Lemma trieWalk_spec (t : trie) (s c s' : Z) :
  da_inv t -> node t s -> byte c ->
  _trieWalk t s c = Some s' ->
  node t s' /\ 3 <= s' /\ s' <> s /\ trieGetCheck t s' = s.
Proof.
  intros H Hs Hc Hw. unfold _trieWalk in Hw.
  destruct (Z.eqb_spec (trieGetCheck t (trieGetBase t s + c)) s) as [E|E];
    [|discriminate].
  inversion Hw; subst s'.
  pose proof (small_getB t s H) as Hb.
  destruct (child_is_node t s (trieGetBase t s + c) H Hs
              ltac:(unfold byte in Hc; zlia) E) as (A & B & C).
  auto.
Qed.

Lemma walk_branches_spec (p : cstr) :
  forall t s n exit,
    da_inv t -> Forall byte p ->
    node t s -> up_path n t DA_POOL_ROOT s ->
    walk_branches t s p = exit ->
    exists s' q m,
      (exit = NoArc s' q \/ exit = InTail s' q) /\
      node t s' /\ up_path m t DA_POOL_ROOT s' /\ Forall byte q.
Proof.
  induction p as [|c p IH]; intros t s n exit H Hp Hs Hpath Hw;
    cbn [walk_branches] in Hw.
  - destruct (trieBranchEnd t s).
    { exists s, [], n. subst exit. auto. }
    destruct (_trieWalk t s (deref [])) as [s'|] eqn:Ew.
    + destruct (trieWalk_spec t s _ s' H Hs (deref_byte [] Hp) Ew)
        as (A & B & C & D).
      exists s', [], (S n). subst exit. split; [auto|]. split; [auto|].
      split; [|auto]. cbn [up_path]. rewrite D.
      split; [unfold DA_POOL_ROOT; lia|]. auto.
    + exists s, [], n. subst exit. auto.
  - destruct (trieBranchEnd t s).
    { exists s, (c :: p), n. subst exit. auto. }
    destruct (_trieWalk t s (deref (c :: p))) as [s'|] eqn:Ew.
    + destruct (trieWalk_spec t s _ s' H Hs (deref_byte _ Hp) Ew)
        as (A & B & C & D).
      assert (Hpath' : up_path (S n) t DA_POOL_ROOT s').
      { cbn [up_path]. rewrite D.
        split; [unfold DA_POOL_ROOT; lia|]. auto. }
      destruct (0 =? c).
      * exists s', (c :: p), (S n). subst exit. auto.
      * inversion Hp; subst. eapply IH; eauto.
    + exists s, (c :: p), n. subst exit. auto.
Qed.

(** ** Insertion in a tail *)

Lemma up_path_keep (n : nat) (t t' : trie) (p x : Z) :
  up_path n t p x ->
  (forall j, node t j -> node t' j /\ trieGetCheck t' j = trieGetCheck t j) ->
  up_path n t' p x.
Proof.
  intros Hp Hk. apply (up_path_transfer n t t' p x Hp).
  intros j Hj _. apply Hk. exact Hj.
Qed.

Lemma insertInTail_loop_step (fuel : nat) (sep : Z) :
  forall t s p sfx n res t',
    da_inv t -> node t sep -> node t s -> up_path n t sep s ->
    trieGetBase t s <= 0 -> Forall byte p -> Forall byte sfx ->
    insertInTail_loop fuel t s p sfx = Some (res, t') ->
    da_inv t' /\ dasize t <= dasize t' /\ same_pool t t' /\ node t' sep /\
    match res with
    | inl s1 => exists m, up_path m t' sep s1
    | inr (s1, p1, sfx1) =>
      exists m, up_path m t' sep s1 /\ node t' s1 /\
                trieGetBase t' s1 <= 0 /\ Forall byte p1 /\ Forall byte sfx1
    end.
Proof.
  induction fuel as [|f IH]; intros t s p sfx n res t' H Hsep Hs Hpath Hb Hp
    Hsfx Hloop; [discriminate|].
  cbn [insertInTail_loop] in Hloop.
  destruct (deref p =? deref sfx).
  - destruct (_daInsert (S f) t s (deref p)) as [[s' t1]|] eqn:Eins;
      [|discriminate].
    destruct (daInsert_leaf_step (S f) t t1 s (deref p) s' H Hs
                (deref_byte p Hp) Hb Eins)
      as (H1 & Hd1 & Hp1 & Hkeep & _ & Hres).
    assert (Hkeep' : forall j, node t j ->
               node t1 j /\ trieGetCheck t1 j = trieGetCheck t j).
    { intros j Hj. destruct (Hkeep j Hj) as (A & B & _). auto. }
    pose proof (up_path_keep n t t1 sep s Hpath Hkeep') as Hpath1.
    unfold TRIE_INDEX_ERROR in *.
    destruct (Z.eqb_spec 0 s') as [E|E].
    + inversion Hloop; subst res t'. split; [exact H1|]. split; [exact Hd1|].
      split; [exact Hp1|]. split; [apply Hkeep'; exact Hsep|].
      exists n. exact Hpath1.
    + destruct Hres as [(E0 & _)|(Hs3 & Hnot & Hns' & Hcs' & Hbs' & _)]; [lia|].
      destruct (IH t1 s' (advance p) (advance sfx) (S n) res t' H1)
        as (H' & Hd' & Hp' & Hsep' & Hr'); auto.
      * apply Hkeep'. exact Hsep.
      * cbn [up_path]. rewrite Hcs'. split; [|auto].
        intros ->. contradiction.
      * lia.
      * apply advance_byte. exact Hp.
      * apply advance_byte. exact Hsfx.
      * split; [exact H'|]. split; [lia|].
        split; [eapply same_pool_trans; eauto|]. auto.
  - inversion Hloop; subst res t'. split; [exact H|]. split; [lia|].
    split; [apply same_pool_refl|]. split; [exact Hsep|].
    exists n. auto.
Qed.

Lemma getTailSuffix_bytes (t : trie) (i : Z) (sfx : cstr) :
  tail_inv t -> trieGetTailSuffix t i = Some sfx -> Forall byte sfx.
Proof.
  intros Ht Hg. unfold trieGetTailSuffix in Hg.
  destruct (ult (i - TAIL_START_BLOCKNO) (tailsize t)); [|discriminate].
  destruct (tail_at_ok t (i - TAIL_START_BLOCKNO) Ht) as (_ & Hs).
  rewrite Hg in Hs. exact Hs.
Qed.

Lemma insertInTail_fail_step (fuel : nat) (t t' : trie) (sep s old_tail r : Z)
  (n : nat) :
  da_inv t -> node t sep -> up_path n t sep s ->
  small old_tail -> 0 <= old_tail ->
  insertInTail_fail fuel t sep s old_tail = Some (r, t') ->
  da_inv t' /\ dasize t' = dasize t.
Proof.
  intros H Hsep Hpath Hsm Hpos Hfail. unfold insertInTail_fail in Hfail.
  destruct (_daPrune fuel t sep s) as [t1|] eqn:Eprune; [|discriminate].
  destruct (daPrune_step fuel n t t1 sep s H Hsep Hpath Eprune)
    as (H1 & Hd1 & _ & Hsep1).
  inversion Hfail; subst r t'. rewrite trieSetTailIndex_setBase.
  split; [|rewrite dasize_setB; exact Hd1].
  apply setBase_node_inv; auto; [zlia|left; lia].
Qed.

Lemma insertInTail_step (fuel : nat) (t t' : trie) (sep r : Z) (sfx : cstr) :
  da_inv t -> node t sep -> Forall byte sfx ->
  tailsize t < TRIE_INDEX_MAX ->
  _trieInsertInTail fuel t sep sfx = Some (r, t') ->
  da_inv t' /\ dasize t <= dasize t'.
Proof.
  intros H Hsep Hsfx Hcap Hins. unfold _trieInsertInTail in Hins.
  pose proof (inv_wf t H) as Hwf. pose proof Hsep as (Hsepb & _).
  assert (Hot : trieGetTailIndex t sep = - trieGetBase t sep).
  { unfold trieGetTailIndex, trieGetBase. rewrite ult_in; auto; lia. }
  rewrite Hot in Hins.
  pose proof (small_getB t sep H) as Hsb.
  set (old_tail := - trieGetBase t sep) in *.
  destruct (trieGetTailSuffix t old_tail) as [old_suffix|] eqn:Esfx;
    [|inversion Hins; subst; split; [auto|lia]].
  assert (Hold : 0 < old_tail).
  { unfold trieGetTailSuffix in Esfx.
    destruct (ult (old_tail - TAIL_START_BLOCKNO) (tailsize t)) eqn:Eu;
      [|discriminate].
    destruct (inv_tail t H) as (Hts & _).
    rewrite ult_spec in Eu by zlia. apply andb_true_iff in Eu.
    destruct Eu as (Eu & _). apply Z.leb_le in Eu. zlia. }
  pose proof (getTailSuffix_bytes t old_tail old_suffix (inv_tail t H) Esfx)
    as Hob.
  destruct (insertInTail_loop fuel t sep old_suffix sfx) as [[res t1]|] eqn:Eloop;
    [|discriminate].
  destruct (insertInTail_loop_step fuel sep t sep old_suffix sfx 0 res t1
              H Hsep Hsep eq_refl ltac:(unfold old_tail in Hold; lia) Hob Hsfx
              Eloop) as (H1 & Hd1 & Hp1 & Hsep1 & Hres).
  destruct res as [s1|[[s1 p1] sfx1]].
  - destruct Hres as (m & Hpath).
    destruct (insertInTail_fail_step fuel t1 t' sep s1 old_tail r m H1 Hsep1
                Hpath ltac:(unfold old_tail; zlia) ltac:(lia) Hins) as (H' & Hd').
    split; [exact H'|lia].
  - destruct Hres as (m & Hpath & Hs1 & Hb1 & Hp1b & Hsfx1).
    destruct (_daInsert fuel t1 s1 (deref p1)) as [[old_da t2]|] eqn:Eins;
      [|discriminate].
    destruct (daInsert_leaf_step fuel t1 t2 s1 (deref p1) old_da H1 Hs1
                (deref_byte p1 Hp1b) Hb1 Eins)
      as (H2 & Hd2 & Hp2 & Hkeep & _ & Hres2).
    assert (Hkeep' : forall j, node t1 j ->
               node t2 j /\ trieGetCheck t2 j = trieGetCheck t1 j).
    { intros j Hj. destruct (Hkeep j Hj) as (A & B & _). auto. }
    unfold TRIE_INDEX_ERROR in *.
    destruct (Z.eqb_spec 0 old_da) as [E|E].
    + pose proof (up_path_keep m t1 t2 sep s1 Hpath Hkeep') as Hpath2.
      destruct (insertInTail_fail_step fuel t2 t' sep s1 old_tail r m H2
                  ltac:(apply Hkeep'; exact Hsep1) Hpath2
                  ltac:(unfold old_tail; zlia) ltac:(lia) Hins) as (H' & Hd').
      split; [exact H'|lia].
    + destruct Hres2 as [(E0 & _)|(Hda3 & _ & Hnda & _ & _ & _)]; [lia|].
      set (p2 := if negb (0 =? deref p1) then advance p1 else p1) in *.
      assert (Hp2b : Forall byte p2).
      { unfold p2. destruct (negb (0 =? deref p1)); auto.
        apply advance_byte. exact Hp1b. }
      destruct (trieSetTailSuffix_step t2 old_tail p2 (inv_tail t2 H2) Hp2b)
        as (Ht3 & Hd3).
      destruct (_trieSetTailSuffix t2 old_tail (Some p2)) as [x t3] eqn:Eset.
      cbn [snd] in *.
      assert (Hts3 : tailsize t3 = tailsize t2).
      { unfold _trieSetTailSuffix in Eset.
        destruct ((old_tail - TAIL_START_BLOCKNO >=? 0) &&
                  ult (old_tail - TAIL_START_BLOCKNO) (tailsize t2));
          inversion Eset; reflexivity. }
      pose proof (same_da_inv t2 t3 Hd3 Ht3 H2) as H3.
      rewrite trieSetTailIndex_setBase in Hins.
      assert (Hnda3 : node t3 old_da) by (apply (same_da_node t2 t3); auto).
      assert (H4 : da_inv (trieSetBase t3 old_da (- old_tail)))
        by (apply setBase_node_inv; auto; [unfold old_tail; zlia|left; lia]).
      destruct (insertInBranch_step fuel _ t' s1 r sfx1 H4) as (H' & Hd'); auto.
      * assert (Hs13 : node t3 s1)
          by (apply (same_da_node t2 t3); auto; apply Hkeep'; exact Hs1).
        destruct Hs13. split; [rewrite dasize_setB; auto|].
        rewrite getC_setB. auto.
      * destruct (same_pool_setB t3 old_da (- old_tail)) as (_ & -> & _).
        rewrite Hts3, (same_pool_tailsize _ _ Hp2), (same_pool_tailsize _ _ Hp1).
        exact Hcap.
      * split; [exact H'|]. rewrite dasize_setB in Hd'.
        destruct Hd3 as (_ & _ & Hds3). lia.
Qed.

(** ** The public operations *)

Lemma root_node (t : trie) : da_inv t -> node t DA_POOL_ROOT.
Proof.
  intros H. destruct (inv_head t H) as (_ & H2 & _).
  pose proof (inv_wf t H) as (Hd & _). unfold DA_POOL_ROOT in *.
  split; lia.
Qed.

Lemma internalKey_bytes (t : trie) (k : list Z) : Forall byte (internalKey t k).
Proof.
  unfold internalKey. apply c_string_byte. apply Forall_forall.
  intros c Hc. apply in_map_iff in Hc. destruct Hc as (x & <- & _).
  unfold to_TrieChar, byte.
  pose proof (Z.mod_pos_bound x 256 ltac:(lia)). lia.
Qed.

Lemma base_nonempty (t : trie) : da_inv t -> base t <> [].
Proof.
  intros H E. destruct (inv_wf t H) as (Hd & Hb & _).
  rewrite E in Hb. cbn in Hb. lia.
Qed.

Lemma return_int_inv (r : option (Z * trie)) (x : Z) (t' : trie) :
  return_int r = Some (x, t') ->
  exists x0, r = Some (x0, t') /\ x = int_of_long x0.
Proof.
  destruct r as [[x0 t0]|]; cbn [return_int]; [|discriminate].
  intros E. inversion E; subst. exists x0. auto.
Qed.

Lemma trieAddKey_step (fuel : nat) (t t' : trie) (k : list Z) (r : Z) :
  da_inv t -> tailsize t < TRIE_INDEX_MAX ->
  _trieAddKey fuel t k = Some (r, t') ->
  da_inv t' /\ dasize t <= dasize t'.
Proof.
  intros H Hcap Hadd. unfold _trieAddKey in Hadd.
  pose proof (base_nonempty t H) as Hne.
  destruct (base t) as [|b0 bs] eqn:Eb; [congruence|].
  destruct (walk_branches_spec (internalKey t k) t DA_POOL_ROOT 0 _ H
              (internalKey_bytes t k) (root_node t H) eq_refl eq_refl)
    as (s & q & m & Hexit & Hs & _ & Hq).
  destruct Hexit as [E|E]; rewrite E in Hadd.
  - apply return_int_inv in Hadd as (r0 & Hadd & _).
    eapply insertInBranch_step; eauto.
  - destruct (walk_tail t (trieGetTailIndex t s) 0 q);
      apply return_int_inv in Hadd as (r0 & Hadd & _).
    + inversion Hadd; subst. split; [auto|lia].
    + eapply insertInTail_step; eauto.
Qed.

Lemma trieAdd_step (fuel : nat) (t t' : trie) (k : list Z) (v : valptr)
  (r : Z) :
  da_inv t -> tailsize t < TRIE_INDEX_MAX ->
  trieAdd fuel t k v = Some (r, t') ->
  da_inv t' /\ dasize t <= dasize t'.
Proof.
  intros H Hcap Hadd. unfold trieAdd in Hadd.
  destruct (_trieAddKey fuel t k) as [[index t1]|] eqn:Ekey; [|discriminate].
  destruct (trieAddKey_step fuel t t1 k index H Hcap Ekey) as (H1 & Hd1).
  destruct ((index =? TRIE_INDEX_ERROR) || (index =? TDICT_ERR) ||
            (index =? -1)).
  - inversion Hadd; subst. auto.
  - inversion Hadd; subst r t'. clear Hadd.
    destruct (trieSetTailKey_step t1 index (Some k) (inv_tail t1 H1))
      as (Ht2 & Hd2).
    destruct (trieSetTailVal_step _ index v Ht2) as (Ht3 & Hd3).
    split.
    + eapply same_da_inv; [|exact Ht3|exact H1].
      eapply same_da_trans; eauto.
    + destruct Hd2 as (_ & _ & E2). destruct Hd3 as (_ & _ & E3). lia.
Qed.

Lemma trieDelete_step (fuel : nat) (t t' : trie) (k : list Z) (r : Z) :
  da_inv t ->
  trieDelete fuel t k = Some (r, t') ->
  da_inv t' /\ dasize t' = dasize t.
Proof.
  intros H Hdel. unfold trieDelete in Hdel.
  destruct (walk_branches_spec (internalKey t k) t DA_POOL_ROOT 0 _ H
              (internalKey_bytes t k) (root_node t H) eq_refl eq_refl)
    as (s & q & m & Hexit & Hs & Hpath & Hq).
  destruct Hexit as [E|E]; rewrite E in Hdel.
  { inversion Hdel; subst. auto. }
  destruct (walk_tail t (trieGetTailIndex t s) 0 q);
    [|inversion Hdel; subst; auto].
  pose proof (inv_wf t H) as Hwf. pose proof Hs as (Hsb & _).
  assert (Hti : trieGetTailIndex t s = - trieGetBase t s).
  { unfold trieGetTailIndex, trieGetBase. rewrite ult_in; auto; lia. }
  rewrite Hti in Hdel. pose proof (small_getB t s H) as Hsm.
  destruct (_tailFreeCell fuel t (- trieGetBase t s)) as [t1|] eqn:Efree;
    [|discriminate].
  assert (Hlti : lng (- trieGetBase t s)) by zlia.
  destruct (tailFreeCell_step fuel t t1 _ (inv_tail t H) Hlti Efree)
    as (Ht1 & Hd1).
  pose proof (same_da_inv t t1 Hd1 Ht1 H) as H1.
  assert (Hs1 : node t1 s) by (apply (same_da_node t t1); auto).
  assert (H2 : da_inv (trieSetBase t1 s TRIE_INDEX_ERROR))
    by (apply setBase_node_inv; auto; [zlia|left; zlia]).
  set (t2 := trieSetBase t1 s TRIE_INDEX_ERROR) in *.
  assert (Hkeep : forall j, node t j ->
             node t2 j /\ trieGetCheck t2 j = trieGetCheck t j).
  { intros j Hj. apply (same_da_node t t1 j Hd1) in Hj as Hj1.
    destruct Hj1 as (A & B). unfold t2. split.
    - split; [rewrite dasize_setB; exact A|]. rewrite getC_setB. exact B.
    - rewrite getC_setB. apply same_da_getC. exact Hd1. }
  pose proof (up_path_keep m t t2 _ s Hpath Hkeep) as Hpath2.
  destruct (_daPrune fuel t2 DA_POOL_ROOT s) as [t3|] eqn:Eprune;
    [|discriminate].
  destruct (daPrune_step fuel m t2 t3 _ s H2 (root_node t2 H2) Hpath2 Eprune)
    as (H3 & Hd3 & _).
  inversion Hdel; subst r t'. split; [exact H3|].
  rewrite Hd3. unfold t2. rewrite dasize_setB. apply Hd1.
Qed.

Lemma trieExpand_public_step (t : trie) (size : Z) :
  da_inv t -> da_inv (snd (trieExpand t size)).
Proof.
  intros H.
  destruct (Z_le_gt_dec size 0) as [Hle|Hpos].
  { unfold trieExpand. destruct (Z.leb_spec size 0); [exact H|lia]. }
  destruct (Z_le_gt_dec TRIE_INDEX_MAX size) as [Hmax|Hlt].
  { unfold trieExpand. destruct (Z.leb_spec size 0); [exact H|].
    destruct (Z.leb_spec TRIE_INDEX_MAX size); [exact H|lia]. }
  destruct (expand_step t size H ltac:(zlia)) as (Hg & _).
  exact (grown_inv _ _ Hg).
Qed.

Lemma trieReplace_step (t : trie) (te : option Z) (v : valptr) :
  da_inv t -> da_inv (snd (trieReplace t te v)).
Proof.
  intros H. unfold trieReplace. destruct te as [i|]; cbn [snd]; [|exact H].
  destruct (call_valDestructor_pool
              (set_tail t i (entry_set_val (tail_at t i) v))
              (val (tail_at t i))) as (Hd & Hl & Hs & Hf).
  eapply same_da_inv; [| |exact H].
  - eapply same_da_trans; [|exact Hd]. repeat split.
  - assert (Ht : tail_inv (set_tail t i (entry_set_val (tail_at t i) v))).
    { apply set_tail_inv; [apply (inv_tail t H)|].
      destruct (tail_at_ok t i (inv_tail t H)).
      unfold entry_ok, entry_set_val. cbn. auto. }
    destruct Ht as (X & Y & Z0). unfold tail_inv. rewrite Hl, Hs, Hf. auto.
Qed.

Lemma trieCreate_inv (ty : trieType) (m : Z -> trieEntry) :
  da_inv (trieCreate ty m).
Proof.
  assert (HC : forall j,
     trieGetCheck (trieCreate ty m) j =
     if ult j 3 then zget [3; -1; 0] j else 0) by reflexivity.
  assert (HB : forall j,
     trieGetBase (trieCreate ty m) j =
     if ult j 3 then zget [DA_SIGNATURE; -1; 3] j else 0) by reflexivity.
  assert (Hfree : forall i, free (trieCreate ty m) i -> i = 1).
  { intros i (Hi & Hc). change (dasize (trieCreate ty m)) with 3 in Hi.
    rewrite HC in Hc. rewrite ult_spec in Hc by lia.
    assert (i = 0 \/ i = 1 \/ i = 2) as [-> | [-> | ->]] by lia;
      try reflexivity; vm_compute in Hc; discriminate. }
  assert (Hf1 : free (trieCreate ty m) 1).
  { split; [change (dasize (trieCreate ty m)) with 3; lia|]. reflexivity. }
  constructor.
  - unfold wf_arrays. change (dasize (trieCreate ty m)) with 3.
    unfold TRIE_INDEX_MAX. repeat split; try lia; reflexivity.
  - change (check (trieCreate ty m)) with [3; -1; 0].
    repeat constructor; unfold small; lia.
  - change (base (trieCreate ty m)) with [DA_SIGNATURE; -1; 3].
    repeat constructor; unfold small, DA_SIGNATURE; lia.
  - split; [reflexivity|]. split; [reflexivity|exact Hf1].
  - intros i Hi. apply Hfree in Hi. subst i.
    split; [exact Hf1|]. split; [reflexivity|]. left. reflexivity.
  - intros i Hi. apply Hfree in Hi. subst i.
    split; [exact Hf1|reflexivity].
  - intros i ((Hi & Hi') & Hc). change (dasize (trieCreate ty m)) with 3 in Hi'.
    assert (i = 2) by lia. subst i. right. vm_compute.
    split; discriminate.
  - intros i Hi. change (dasize (trieCreate ty m)) with 3 in Hi.
    assert (i = 0 \/ i = 1 \/ i = 2) as [-> | [-> | ->]] by lia;
      vm_compute; discriminate.
  - unfold tail_inv.
    change (tailsize (trieCreate ty m)) with 0.
    change (first_free (trieCreate ty m)) with 0.
    change (tails (trieCreate ty m)) with (@nil trieEntry).
    unfold TRIE_INDEX_MAX. repeat split; try lia. constructor.
Qed.

(** ** From the cell-wise invariant to the ring *)

(** Between two free cells there is no gap in the ring: the successor of
    the smaller one is not beyond the larger one. *)
Lemma next_free_le (t : trie) :
  da_inv t ->
  forall m a b,
    free t a -> free t b -> a < b -> b <= m ->
    - trieGetCheck t a <= b /\ - trieGetCheck t a <> 1.
Proof.
  intros H m. pattern m.
  apply (well_founded_induction (Z.lt_wf 0)); clear m.
  intros m IH a b Ha Hb Hab Hbm.
  assert (Hb1 : b <> 1) by (destruct (free_not_head t a H Ha); lia).
  pose proof (free_prev_lt t b H Hb Hb1) as Hplt.
  destruct (inv_prev t H b Hb) as (Hp & Hpc).
  pose proof (free_prev_pos t b H Hb) as Hppos.
  destruct (Z.compare_spec (- trieGetBase t b) a) as [E|E|E].
  - rewrite <- E. rewrite Hpc. lia.
  - destruct (IH a ltac:(destruct Ha; lia) (- trieGetBase t b) a Hp Ha E
                ltac:(lia)) as (Hle & _).
    rewrite Hpc in Hle. lia.
  - destruct (IH (- trieGetBase t b) ltac:(lia) a (- trieGetBase t b) Ha Hp E
                ltac:(lia)) as (Hle & Hne).
    split; [lia|exact Hne].
Qed.

Lemma chain_from (t : trie) :
  da_inv t ->
  forall m x,
    free t x -> (Z.to_nat (dasize t - x) <= m)%nat ->
    exists l,
      ring_links t (x :: l ++ [DA_POOL_FREE]) /\
      Forall (fun y => x < y /\ free t y) l /\
      NoDup l /\
      forall y, free t y -> x < y -> In y l.
Proof.
  intros H. induction m as [|m IH]; intros x Hx Hm.
  { destruct Hx. lia. }
  destruct (inv_next t H x Hx) as (Hn & Hnb & Hord).
  destruct Hord as [E1|Hgt].
  - exists []. cbn [app ring_links]. split.
    + rewrite <- E1. split; [lia|]. split; [exact Hnb|exact I].
    + split; [constructor|]. split; [constructor|].
      intros y Hy Hxy.
      destruct (next_free_le t H y x y Hx Hy Hxy ltac:(lia)) as (_ & Hne).
      unfold DA_POOL_FREE in *. contradiction.
  - destruct (IH (- trieGetCheck t x) Hn) as (l & Hl & Hall & Hnd & Hcomp).
    { destruct Hx, Hn. lia. }
    exists (- trieGetCheck t x :: l). cbn [app ring_links].
    split; [split; [lia|split; [exact Hnb|exact Hl]]|].
    split.
    { constructor; [split; [exact Hgt|exact Hn]|].
      eapply Forall_impl; [|exact Hall]. cbv beta. intros y (A & B).
      split; [lia|exact B]. }
    split.
    { constructor; [|exact Hnd]. intros Hin.
      rewrite Forall_forall in Hall. destruct (Hall _ Hin). lia. }
    intros y Hy Hxy.
    destruct (next_free_le t H y x y Hx Hy Hxy ltac:(lia)) as (Hle & _).
    destruct (Z.eq_dec (- trieGetCheck t x) y) as [E|E]; [left; exact E|].
    right. apply Hcomp; auto. lia.
Qed.

Lemma da_inv_ring_ok (t : trie) : da_inv t -> ring_ok t.
Proof.
  intros H. destruct (inv_head t H) as (_ & _ & H1).
  destruct (chain_from t H (Z.to_nat (dasize t)) DA_POOL_FREE H1)
    as (L & Hl & Hall & Hnd & Hcomp).
  { unfold DA_POOL_FREE. lia. }
  exists L. split; [exact Hl|]. split.
  - constructor; [|exact Hnd]. intros Hin.
    rewrite Forall_forall in Hall. destruct (Hall _ Hin). lia.
  - intros i Hi. split.
    + intros Hc. assert (Hf : free t i) by (split; auto).
      destruct (free_not_head t i H Hf) as [->|Hi3]; [left; reflexivity|].
      right. apply Hcomp; auto. unfold DA_POOL_FREE. lia.
    + intros [<-|Hin]; [apply H1|].
      rewrite Forall_forall in Hall. destruct (Hall _ Hin) as (_ & (_ & Hc)).
      exact Hc.
Qed.

(** The free ring is an invariant of the public operations as long as
    the tail pool can still grow.  [trieCreate] establishes the cell-wise
    invariant [da_inv]; [trieAdd], [trieDelete], [trieExpand] and
    [trieReplace] preserve it whenever they return ([trieFind] and
    [triePrefixSearch] do not change the trie); and under [da_inv] the
    negated [check] links starting at cell 1 run through exactly the
    cells with a negative [check], each once, and come back to cell 1,
    with [base] holding the links in the other direction.  For [trieAdd]
    the tail pool must be below [TRIE_INDEX_MAX] slots, so that
    [_tailAllocCell] cannot fail. *)
Theorem free_ring_preserved :
  (forall ty m, da_inv (trieCreate ty m)) /\
  (forall t, da_inv t -> ring_ok t) /\
  (forall fuel t k v r t',
      da_inv t -> tailsize t < TRIE_INDEX_MAX ->
      trieAdd fuel t k v = Some (r, t') -> da_inv t') /\
  (forall fuel t k r t',
      da_inv t -> trieDelete fuel t k = Some (r, t') -> da_inv t') /\
  (forall t size, da_inv t -> da_inv (snd (trieExpand t size))) /\
  (forall t te v, da_inv t -> da_inv (snd (trieReplace t te v))).
Proof.
  split; [exact trieCreate_inv|].
  split; [exact da_inv_ring_ok|].
  split.
  { intros fuel t k v r t' H Hcap Hadd.
    apply (trieAdd_step fuel t t' k v r H Hcap Hadd). }
  split.
  { intros fuel t k r t' H Hdel.
    apply (trieDelete_step fuel t t' k r H Hdel). }
  split; [exact trieExpand_public_step|exact trieReplace_step].
Qed.

Example free_ring_preserved_cat :
  ring_ok trie_cat /\
  exists t, trieDelete 100 trie_cat key_cat = Some (TDICT_OK, t) /\ ring_ok t.
Proof.
  destruct free_ring_preserved as (Hcreate & Hring & Hadd & Hdel & _).
  assert (Hcat : da_inv trie_cat).
  { apply (Hadd 100%nat (trieCreate plainType zeroed) key_cat 1 TDICT_OK).
    - apply Hcreate.
    - vm_compute. reflexivity.
    - vm_compute. reflexivity. }
  split; [apply Hring; exact Hcat|].
  eexists. split; [vm_compute; reflexivity|].
  apply Hring.
  eapply (Hdel 100%nat trie_cat key_cat TDICT_OK); [exact Hcat|].
  vm_compute. reflexivity.
Qed.

(** * Undoing a failed insertion in the tail *)

Lemma daInsert_leaf_nodes (fuel : nat) (t t' : trie) (s c next : Z) :
  da_inv t -> node t s -> byte c -> trieGetBase t s <= 0 ->
  _daInsert fuel t s c = Some (next, t') ->
  forall j, node t' j -> node t j \/ j = next.
Proof.
  intros H Hs Hc Hb Hins. unfold _daInsert in Hins.
  destruct (Z.gtb_spec (trieGetBase t s) 0); [lia|].
  change (symbols_add symbols_new c) with [c] in Hins.
  destruct (_daFindFreeBase fuel t [c]) as [[nb t1]|] eqn:Efind;
    [|discriminate].
  destruct (daFindFreeBase_step fuel t [c] nb t1 H ltac:(discriminate)
              ltac:(constructor; auto) Efind) as (Hg & Hres).
  pose proof (grown_inv _ _ Hg) as H1.
  pose proof Hg as (_ & Hd1 & Hp1 & Hu1 & Hf1 & Hn1).
  assert (Hnew1 : forall j, node t1 j -> node t j).
  { intros j (Hjb & Hjc).
    destruct (Z_lt_le_dec j (dasize t)) as [Hlt|Hge].
    - split; [lia|].
      destruct (Z_lt_le_dec (trieGetCheck t j) 0) as [Hneg|]; [|lia].
      destruct (Hf1 j) as (_ & Hf); [split; [lia|exact Hneg]|
                                     unfold nobody; auto|lia].
    - destruct (Hn1 j) as (_ & Hf); lia. }
  unfold TRIE_INDEX_ERROR in *.
  destruct (Z.eqb_spec 0 nb) as [E0|E0].
  - inversion Hins; subst. intros j Hj. left. auto.
  - destruct Hres as [|(Hnb & Hfree)]; [lia|].
    specialize (Hfree c (or_introl eq_refl)).
    pose proof (grown_node _ _ s Hg Hs) as Hs1.
    assert (H2 : da_inv (trieSetBase t1 s nb))
      by (apply setBase_node_inv; [exact H1|exact Hs1|zlia|right; exact Hnb]).
    set (t2 := trieSetBase t1 s nb) in *.
    assert (Hs2 : node t2 s).
    { destruct Hs1. split; [unfold t2; rewrite dasize_setB; auto|].
      unfold t2. rewrite getC_setB. auto. }
    assert (Hf2 : free t2 (nb + c)).
    { destruct Hfree. split; [unfold t2; rewrite dasize_setB; auto|].
      unfold t2. rewrite getC_setB. auto. }
    assert (Hne1 : nb + c <> 1) by (unfold byte in Hc; lia).
    destruct (claim_step t2 s (nb + c) H2 Hf2 Hne1 Hs2)
      as (H3 & Hd3 & Hp3 & Hu3 & Hf3 & Hc3 & Hb3 & Hn3).
    cbn [daInsert_claim] in Hins. inversion Hins; subst next t'.
    cbn [daInsert_claim snd] in *.
    intros j (Hjb & Hjc).
    destruct (Z.eq_dec j (nb + c)) as [|Hjn]; [right; auto|left].
    apply Hnew1. rewrite Hd3 in Hjb. unfold t2 in Hjb.
    rewrite dasize_setB in Hjb. split; [lia|].
    destruct (Z_lt_le_dec (trieGetCheck t1 j) 0) as [Hneg|]; [|lia].
    assert (Hfj : free t2 j).
    { split; [unfold t2; rewrite dasize_setB; lia|].
      unfold t2. rewrite getC_setB. exact Hneg. }
    destruct (Hf3 j Hfj) as (_ & Hf); [unfold only; auto|lia].
Qed.

(** A cell from which no cell in use hangs has no children for
    [_daHasChildren]. *)
Lemma hasChildren_false (t : trie) (x : Z) :
  da_inv t -> node t x ->
  (forall g, node t g -> trieGetCheck t g <> x) ->
  _daHasChildren t x = false.
Proof.
  intros H Hx Hno. unfold _daHasChildren.
  destruct ((TRIE_INDEX_ERROR =? trieGetBase t x) || (trieGetBase t x <? 0))
    eqn:E0; [reflexivity|].
  apply orb_false_iff in E0 as (E1 & E2).
  apply Z.eqb_neq in E1. apply Z.ltb_ge in E2.
  destruct (existsb _ _) eqn:E; [|reflexivity].
  exfalso. apply existsb_exists in E as (c & Hin & Hc).
  apply Z.eqb_eq in Hc. apply zrange_In in Hin.
  pose proof (small_getB t x H) as Hsb.
  pose proof (inv_wf t H) as (Hd & _).
  assert (Hl : lng (trieGetBase t x + c)).
  { revert Hin. unfold MIN_VAL_u, MIN_VAL, TRIE_CHAR_MAX.
    destruct (ulong (dasize t) <? _);
      [|destruct (255 <? TRIE_INDEX_MAX - trieGetBase t x)];
      intros Hin; zlia. }
  destruct (child_is_node t x _ H Hx Hl Hc) as (Hg & _).
  exact (Hno _ Hg Hc).
Qed.

Lemma links_hd_in (t : trie) (sep : Z) :
  forall ch g, links t sep ch -> In g ch ->
    trieGetCheck t g = sep \/ In (trieGetCheck t g) ch.
Proof.
  induction ch as [|x r IH]; intros g Hl Hin; [destruct Hin|].
  destruct Hl as (Hx & Hr). destruct Hin as [->|Hin].
  - rewrite Hx. destruct r as [|y r']; [left; reflexivity|].
    right. right. left. reflexivity.
  - destruct (IH g Hr Hin) as [|Hin']; [left; auto|right; right; auto].
Qed.

Lemma links_tail_in (t : trie) (sep : Z) :
  forall ch x g, links t sep (x :: ch) -> NoDup (x :: ch) -> In g ch ->
    trieGetCheck t g <> x \/ x = sep.
Proof.
  intros ch x g (_ & Hl) Hnd Hin. apply NoDup_cons_iff in Hnd as (Hnx & _).
  destruct (links_hd_in t sep ch g Hl Hin) as [E|Hin'].
  - destruct (Z.eq_dec x sep); [right; auto|left; congruence].
  - left. intros E. rewrite E in Hin'. contradiction.
Qed.

(** The latest cell of the chain has no child. *)
Lemma mid_insert_childless (t0 t : trie) (sep x : Z) (r : list Z) :
  parents_in_use t0 -> node t0 sep ->
  mid_insert t0 t sep (x :: r) ->
  forall g, node t g -> trieGetCheck t g <> x.
Proof.
  intros Hpar Hsep (H & Hd & Hp & Hold & Hnew & Hnd & Hall & Hl) g Hg Hc.
  apply Forall_cons_iff in Hall as ((Hx3 & Hxn & Hx0) & Hall').
  assert (Hxs : x <> sep) by (intros ->; contradiction).
  destruct (Hnew g Hg) as [Hg0|[Eg|Hin]]; [| subst g |].
  - destruct (Hold g Hg0) as (_ & Hcg & _).
    destruct (Z_lt_le_dec g 3) as [Hlt|Hge].
    + assert (g = DA_POOL_ROOT) by (destruct Hg; unfold DA_POOL_ROOT; lia).
      subst g. destruct (inv_head t H) as (_ & Hr & _). lia.
    + apply Hx0. rewrite <- Hc, Hcg. apply Hpar; auto.
  - destruct Hxn. apply (inv_noself t H x); [lia|exact Hc].
  - destruct (links_tail_in t sep r x g Hl Hnd Hin); contradiction.
Qed.

Lemma links_keep (t t' : trie) (sep : Z) :
  forall ch, links t sep ch ->
    (forall y, In y ch -> trieGetCheck t' y = trieGetCheck t y) ->
    links t' sep ch.
Proof.
  induction ch as [|x r IH]; intros Hl Hk; [exact I|].
  destruct Hl as (Hx & Hr). split.
  - rewrite Hk by (left; reflexivity). exact Hx.
  - apply IH; [exact Hr|]. intros y Hy. apply Hk. right. exact Hy.
Qed.

Lemma mid_insert_sep_node (t0 t : trie) (sep : Z) (ch : list Z) :
  node t0 sep -> mid_insert t0 t sep ch -> node t sep.
Proof. intros Hsep (_ & _ & _ & Hold & _). apply Hold. exact Hsep. Qed.

Lemma mid_insert_hd_node (t0 t : trie) (sep : Z) (ch : list Z) :
  node t0 sep -> mid_insert t0 t sep ch -> node t (hd sep ch).
Proof.
  intros Hsep Hm. destruct ch as [|x r]; [eapply mid_insert_sep_node; eauto|].
  destruct Hm as (_ & _ & _ & _ & _ & _ & Hall & _).
  apply Forall_cons_iff in Hall as ((_ & Hx & _) & _). exact Hx.
Qed.

(** [_daPrune] frees the whole chain again. *)
Lemma daPrune_undoes (t0 : trie) (sep : Z) :
  parents_in_use t0 -> node t0 sep ->
  forall ch fuel t t',
    mid_insert t0 t sep ch ->
    _daPrune fuel t sep (hd sep ch) = Some t' ->
    mid_insert t0 t' sep [].
Proof.
  intros Hpar Hsep. induction ch as [|x r IH]; intros fuel t t' Hm Hpr.
  - destruct fuel as [|f]; [discriminate|]. cbn [_daPrune hd] in Hpr.
    rewrite Z.eqb_refl in Hpr. cbn [negb andb] in Hpr.
    inversion Hpr; subst. exact Hm.
  - destruct fuel as [|f]; [discriminate|]. cbn [_daPrune hd] in Hpr.
    pose proof (mid_insert_childless t0 t sep x r Hpar Hsep Hm) as Hno.
    destruct Hm as (H & Hd & Hp & Hold & Hnew & Hnd & Hall & Hl).
    apply Forall_cons_iff in Hall as ((Hx3 & Hxn & Hx0) & Hall').
    apply NoDup_cons_iff in Hnd as (Hxr & Hnd').
    destruct Hl as (Hcx & Hl').
    assert (Hxs : x <> sep) by (intros ->; contradiction).
    destruct (Z.eqb_spec sep x) as [|_]; [congruence|].
    rewrite (hasChildren_false t x H Hxn Hno) in Hpr.
    cbn [negb andb] in Hpr.
    destruct (_daFreeCell (S f) t x) as [t1|] eqn:Efree; [|discriminate].
    destruct (daFreeCell_step (S f) t t1 x H Hxn Hx3 Efree)
      as (H1 & Hd1 & Hp1 & Hu1 & Hf1 & Hfx).
    rewrite Hcx in Hpr. apply (IH f t1 t'); [|exact Hpr].
    assert (Hkeep : forall j, node t j -> j <> x ->
              node t1 j /\ trieGetCheck t1 j = trieGetCheck t j /\
              trieGetBase t1 j = trieGetBase t j).
    { intros j Hj Hjx. destruct (Hu1 j Hj Hjx) as (A & B).
      split; [|split; auto]. destruct Hj. split; [lia|]. rewrite A. auto. }
    split; [exact H1|]. split; [lia|].
    split; [eapply same_pool_trans; eauto|]. split; [|split; [|split; [|split]]].
    + intros j Hj. destruct (Hold j Hj) as (Hjn & Hjc & Hjb).
      assert (Hjx : j <> x) by (intros ->; contradiction).
      destruct (Hkeep j Hjn Hjx) as (A & B & C).
      split; [exact A|]. split; [congruence|]. intros Hjs. rewrite C. auto.
    + intros j (Hjb & Hjc).
      assert (Hjx : j <> x) by (intros ->; destruct Hfx; lia).
      assert (Hj : node t j).
      { split; [lia|].
        destruct (Z_lt_le_dec (trieGetCheck t j) 0) as [Hneg|]; [|lia].
        destruct (Hf1 j) as (_ & Hf); [split; [lia|exact Hneg]|
                                       unfold nobody; auto|lia]. }
      destruct (Hnew j Hj) as [|[|]]; [left; auto|congruence|right; auto].
    + exact Hnd'.
    + apply Forall_forall. intros y Hy.
      rewrite Forall_forall in Hall'. destruct (Hall' y Hy) as (A & B & C).
      assert (Hyx : y <> x) by (intros ->; contradiction).
      split; [exact A|]. split; [apply Hkeep; auto|exact C].
    + apply (links_keep t t1 sep r Hl'). intros y Hy.
      rewrite Forall_forall in Hall'. destruct (Hall' y Hy) as (_ & B & _).
      assert (Hyx : y <> x) by (intros ->; contradiction).
      apply Hkeep; auto.
Qed.

(** One [_daInsert] below the latest cell of the chain either fails and
    keeps the chain, or extends it by the new cell. *)
Lemma mid_insert_step (fuel : nat) (t0 t t1 : trie) (sep c next : Z)
  (ch : list Z) :
  node t0 sep -> mid_insert t0 t sep ch -> byte c ->
  trieGetBase t (hd sep ch) <= 0 ->
  _daInsert fuel t (hd sep ch) c = Some (next, t1) ->
  (next = TRIE_INDEX_ERROR /\ mid_insert t0 t1 sep ch) \/
  (next <> TRIE_INDEX_ERROR /\ mid_insert t0 t1 sep (next :: ch) /\
   trieGetBase t1 next < 0).
Proof.
  intros Hsep Hm Hc Hb Hins.
  pose proof (mid_insert_hd_node t0 t sep ch Hsep Hm) as Hs.
  destruct Hm as (H & Hd & Hp & Hold & Hnew & Hnd & Hall & Hl).
  set (s := hd sep ch) in *.
  destruct (daInsert_leaf_step fuel t t1 s c next H Hs Hc Hb Hins)
    as (H1 & Hd1 & Hp1 & Hn & _ & Hres).
  pose proof (daInsert_leaf_nodes fuel t t1 s c next H Hs Hc Hb Hins) as Hnew1.
  assert (Hs0 : forall j, node t0 j -> j <> sep -> j <> s).
  { intros j Hj Hjs. unfold s. destruct ch as [|x r]; [exact Hjs|].
    apply Forall_cons_iff in Hall as ((_ & _ & Hx0) & _).
    cbn [hd]. intros ->. contradiction. }
  assert (Hold1 : forall j, node t0 j ->
            node t1 j /\ trieGetCheck t1 j = trieGetCheck t0 j /\
            (j <> sep -> trieGetBase t1 j = trieGetBase t0 j)).
  { intros j Hj. destruct (Hold j Hj) as (A & B & C).
    destruct (Hn j A) as (A1 & B1 & C1).
    split; [exact A1|]. split; [congruence|].
    intros Hjs. rewrite C1 by (apply Hs0; auto). auto. }
  assert (Hall1 : Forall (fun x => 3 <= x /\ node t1 x /\ ~ node t0 x) ch).
  { apply Forall_forall. intros y Hy. rewrite Forall_forall in Hall.
    destruct (Hall y Hy) as (A & B & C). split; [exact A|].
    split; [apply Hn; exact B|exact C]. }
  assert (Hl1 : links t1 sep ch).
  { apply (links_keep t t1 sep ch Hl). intros y Hy.
    rewrite Forall_forall in Hall. destruct (Hall y Hy) as (_ & B & _).
    apply Hn. exact B. }
  destruct Hres as [(E & _)|(Hn3 & Hnn & Hnn1 & Hcn & Hbn & _)].
  - left. split; [exact E|]. split; [exact H1|]. split; [lia|].
    split; [eapply same_pool_trans; eauto|]. split; [exact Hold1|].
    split; [|auto].
    intros j Hj. destruct (Hnew1 j Hj) as [Hjt|Hjn]; [apply Hnew; exact Hjt|].
    exfalso. destruct Hj. unfold TRIE_INDEX_ERROR in *. lia.
  - right. split; [unfold TRIE_INDEX_ERROR; lia|]. split; [|exact Hbn].
    split; [exact H1|]. split; [lia|].
    split; [eapply same_pool_trans; eauto|]. split; [exact Hold1|].
    split; [|split; [|split]].
    + intros j Hj. destruct (Hnew1 j Hj) as [Hjt|Hjn].
      * destruct (Hnew j Hjt); [left; auto|right; right; auto].
      * right. left. auto.
    + constructor; [|exact Hnd]. intros Hin. rewrite Forall_forall in Hall.
      destruct (Hall next Hin) as (_ & B & _). contradiction.
    + constructor; [|exact Hall1]. split; [exact Hn3|]. split; [exact Hnn1|].
      intros Hn0. apply Hnn. apply Hold. exact Hn0.
    + split; [exact Hcn|exact Hl1].
Qed.

Lemma insertInTail_loop_mid (fuel : nat) (t0 : trie) (sep : Z) :
  node t0 sep ->
  forall t ch p sfx res t',
    mid_insert t0 t sep ch -> trieGetBase t (hd sep ch) <= 0 ->
    Forall byte p ->
    insertInTail_loop fuel t (hd sep ch) p sfx = Some (res, t') ->
    exists ch', mid_insert t0 t' sep ch' /\
      match res with
      | inl s1 => s1 = hd sep ch'
      | inr (s1, p1, _) =>
        s1 = hd sep ch' /\ trieGetBase t' s1 <= 0 /\ Forall byte p1
      end.
Proof.
  intros Hsep. induction fuel as [|f IH]; intros t ch p sfx res t' Hm Hb Hp Hloop;
    [discriminate|].
  cbn [insertInTail_loop] in Hloop.
  destruct (deref p =? deref sfx).
  - destruct (_daInsert (S f) t (hd sep ch) (deref p)) as [[s' t1]|] eqn:Eins;
      [|discriminate].
    destruct (mid_insert_step (S f) t0 t t1 sep (deref p) s' ch Hsep Hm
                (deref_byte p Hp) Hb Eins) as [(E & Hm1)|(E & Hm1 & Hb1)].
    + rewrite E, Z.eqb_refl in Hloop. inversion Hloop; subst.
      exists ch. split; [exact Hm1|reflexivity].
    + destruct (Z.eqb_spec TRIE_INDEX_ERROR s') as [|_]; [congruence|].
      apply (IH t1 (s' :: ch) (advance p) (advance sfx) res t' Hm1);
        [cbn [hd]; lia|apply advance_byte; exact Hp|exact Hloop].
  - inversion Hloop; subst. exists ch. split; [exact Hm|].
    split; [reflexivity|]. split; [exact Hb|exact Hp].
Qed.

Lemma trieGetTailIndex_base (t : trie) (i : Z) :
  trieGetTailIndex t i = - trieGetBase t i.
Proof.
  unfold trieGetTailIndex, trieGetBase.
  destruct (ult i (dasize t)); reflexivity.
Qed.

Lemma mid_insert_start (t : trie) (sep : Z) : da_inv t -> mid_insert t t sep [].
Proof.
  intros H. split; [exact H|]. split; [lia|]. split; [apply same_pool_refl|].
  split; [intros j Hj; auto|]. split; [intros j Hj; left; exact Hj|].
  split; [constructor|]. split; [constructor|exact I].
Qed.

(** With the chain freed and the tail index of [sep] put back, the trie
    is the one before the call, up to the growth of the arrays. *)
Lemma restore_grown (t0 t : trie) (sep : Z) :
  da_inv t0 -> node t0 sep -> trieGetBase t0 sep <= 0 ->
  mid_insert t0 t sep [] ->
  grown t0 (trieSetTailIndex t sep (trieGetTailIndex t0 sep)).
Proof.
  intros H0 Hsep Hb0 (H & Hd & Hp & Hold & Hnew & _).
  rewrite trieSetTailIndex_setBase, trieGetTailIndex_base, Z.opp_involutive.
  pose proof (proj1 (Hold sep Hsep)) as Hsep'.
  pose proof (inv_wf t H) as Hwf.
  assert (Hfree : forall j, 2 <= j < dasize t -> ~ node t0 j ->
            trieGetCheck t j < 0).
  { intros j Hj Hn.
    destruct (Z_lt_le_dec (trieGetCheck t j) 0) as [|Hpos]; [auto|].
    destruct (Hnew j) as [|[]]; [split; lia|contradiction]. }
  split.
  { apply setBase_node_inv; [exact H|exact Hsep'|apply small_getB; exact H0|].
    left. exact Hb0. }
  rewrite dasize_setB. split; [exact Hd|].
  split; [eapply same_pool_trans; [exact Hp|apply same_pool_setB]|].
  split; [|split].
  - intros j Hj _. destruct (Hold j Hj) as (A & B & C). split.
    + rewrite getC_setB. exact B.
    + rewrite getB_setB;
        [|exact Hwf|destruct Hsep'; lia|eapply node_lng; eauto].
      destruct (Z.eqb_spec j sep) as [->|Hjs]; [reflexivity|auto].
  - intros j (Hjb & Hjc) _. unfold free. rewrite getC_setB, dasize_setB.
    split; [lia|].
    destruct (Z.eq_dec j 0) as [->|].
    { destruct (inv_head t0 H0) as (E & _). pose proof (inv_wf t0 H0). 
      unfold wf_arrays in *. lia. }
    destruct (Z.eq_dec j 1) as [->|].
    { destruct (inv_head t H) as (_ & _ & (_ & E)). exact E. }
    apply Hfree; [lia|]. intros (_ & Hn). lia.
  - intros j Hj. unfold free. rewrite getC_setB, dasize_setB.
    pose proof (inv_wf t0 H0) as (Hd0 & _). split; [lia|].
    apply Hfree; [lia|]. intros (Hn & _). lia.
Qed.

(** ** Lookups after the arrays have grown *)

Lemma trieBranchEnd_base (t : trie) (i : Z) :
  trieBranchEnd t i = (trieGetBase t i <? 0).
Proof.
  unfold trieBranchEnd, trieGetBase.
  destruct (ult i (dasize t)); reflexivity.
Qed.

Lemma grown_trieWalk (t t' : trie) (s c : Z) :
  da_inv t -> grown t t' -> node t s -> byte c ->
  _trieWalk t' s c = _trieWalk t s c.
Proof.
  intros H Hg Hs Hc. unfold _trieWalk.
  rewrite (grown_B t t' s Hg Hs).
  pose proof (small_getB t s H) as Hsb.
  assert (Hl : lng (trieGetBase t s + c)) by (unfold byte in Hc; zlia).
  pose proof (grown_child_iff t t' s _ H Hg Hs Hl) as Hiff.
  destruct (Z.eqb_spec (trieGetCheck t' (trieGetBase t s + c)) s) as [E|E];
    destruct (Z.eqb_spec (trieGetCheck t (trieGetBase t s + c)) s) as [E'|E'];
    try reflexivity; exfalso; tauto.
Qed.

Lemma grown_walk_branches (t t' : trie) :
  da_inv t -> grown t t' ->
  forall p s, node t s -> Forall byte p ->
    walk_branches t' s p = walk_branches t s p /\
    forall s1 p1, walk_branches t s p = InTail s1 p1 -> node t s1.
Proof.
  intros H Hg. induction p as [|c p IH]; intros s Hs Hp;
    pose proof (deref_byte _ Hp) as Hc;
    cbn [walk_branches]; rewrite !trieBranchEnd_base, (grown_B t t' s Hg Hs);
    (destruct (trieGetBase t s <? 0);
     [split; [reflexivity|]; intros s1 p1 E; inversion E; subst; exact Hs|]);
    set (c0 := deref _) in *;
    rewrite (grown_trieWalk t t' s c0 H Hg Hs Hc);
    (destruct (_trieWalk t s c0) as [s'|] eqn:Ew;
     [|split; [reflexivity|]; intros s1 p1 E; discriminate]);
    pose proof (trieWalk_spec t s c0 s' H Hs Hc Ew) as (Hs' & _).
  - split; [reflexivity|]. intros s1 p1 E. inversion E; subst. exact Hs'.
  - destruct (0 =? c).
    + split; [reflexivity|]. intros s1 p1 E. inversion E; subst. exact Hs'.
    + apply IH; [exact Hs'|]. apply Forall_cons_iff in Hp. apply Hp.
Qed.

Lemma pool_walk_tail (t t' : trie) (index : Z) :
  same_pool t t' ->
  forall p i, walk_tail t' index i p = walk_tail t index i p.
Proof.
  intros (Ht & Hs & _).
  assert (E : forall i c, _trieWalkTail t' index i c = _trieWalkTail t index i c).
  { intros i c. unfold _trieWalkTail, trieGetTailSuffix, tail_at.
    rewrite Ht, Hs. reflexivity. }
  induction p as [|c p IH]; intros i; cbn [walk_tail]; rewrite E.
  - reflexivity.
  - destruct (_trieWalkTail t index i (deref (c :: p))) as [r i'].
    destruct (negb (r =? 0)); [reflexivity|].
    destruct (0 =? c); [reflexivity|apply IH].
Qed.

(** Growth of the arrays changes the result of no lookup. *)
Lemma grown_trieFind (t t' : trie) (k : list Z) :
  da_inv t -> grown t t' -> trieFind t' k = trieFind t k.
Proof.
  intros H Hg. unfold trieFind.
  pose proof Hg as (_ & _ & Hp & _).
  assert (Ek : internalKey t' k = internalKey t k).
  { unfold internalKey. destruct Hp as (_ & _ & _ & _ & Hty & _).
    rewrite Hty. reflexivity. }
  rewrite Ek.
  destruct (grown_walk_branches t t' H Hg (internalKey t k) DA_POOL_ROOT
              (root_node t H) (internalKey_bytes t k)) as (Ew & Hn).
  rewrite Ew. destruct (walk_branches t DA_POOL_ROOT (internalKey t k))
    as [s1 p1|s1 p1]; [reflexivity|].
  rewrite !trieGetTailIndex_base, (grown_B t t' s1 Hg (Hn s1 p1 eq_refl)).
  rewrite (pool_walk_tail t t' _ Hp).
  unfold trieGetTrieEntry. destruct Hp as (_ & Hs & _). rewrite Hs.
  reflexivity.
Qed.

Lemma insertInTail_fail_undoes (fuel : nat) (t0 t t' : trie) (sep r : Z)
  (ch : list Z) :
  da_inv t0 -> parents_in_use t0 -> node t0 sep -> trieGetBase t0 sep < 0 ->
  mid_insert t0 t sep ch ->
  insertInTail_fail fuel t sep (hd sep ch) (trieGetTailIndex t0 sep)
    = Some (r, t') ->
  r = TDICT_ERR /\ grown t0 t'.
Proof.
  intros H0 Hpar Hsep Hb Hm Hfail. unfold insertInTail_fail in Hfail.
  destruct (_daPrune fuel t sep (hd sep ch)) as [t1|] eqn:Eprune;
    [|discriminate].
  inversion Hfail; subst r t'. split; [reflexivity|].
  apply restore_grown; [exact H0|exact Hsep|lia|].
  exact (daPrune_undoes t0 sep Hpar Hsep ch fuel t t1 Hm Eprune).
Qed.


(** ** An array with no room left *)

Lemma expand_noop (t : trie) (size : Z) :
  da_inv t -> 0 < size <= dasize t -> size < TRIE_INDEX_MAX ->
  trieExpand t size = (TDICT_OK, t).
Proof.
  intros H Hs Hm. unfold trieExpand.
  destruct (Z.leb_spec size 0); [lia|].
  destruct (Z.leb_spec TRIE_INDEX_MAX size); [lia|]. cbn [orb].
  pose proof (inv_wf t H) as (Hd & _).
  rewrite !ulong_small by zlia.
  destruct (Z.geb_spec (dasize t) size); [reflexivity|lia].
Qed.

Lemma expand_refused (t : trie) (size : Z) :
  size <= 0 \/ TRIE_INDEX_MAX <= size -> trieExpand t size = (TDICT_ERR, t).
Proof.
  intros Hs. unfold trieExpand.
  destruct (Z.leb_spec size 0); [reflexivity|].
  destruct (Z.leb_spec TRIE_INDEX_MAX size); [reflexivity|lia].
Qed.

Lemma packed_ring_empty (t : trie) :
  da_inv t -> packed t -> trieGetCheck t DA_POOL_FREE = -1.
Proof.
  intros H (Hd & Hfull).
  destruct (inv_head t H) as (Hc0 & _ & Hf1).
  destruct (inv_next t H _ Hf1) as ((Hb & Hc) & _).
  set (n := - trieGetCheck t DA_POOL_FREE) in *.
  destruct (Z.eq_dec n 0) as [E|E0]; [rewrite E in Hc; lia|].
  destruct (Z.eq_dec n 1) as [E|E1]; [unfold n in E; lia|].
  specialize (Hfull n). lia.
Qed.

Lemma findFreeBase_grow_packed (t : trie) :
  da_inv t -> packed t ->
  forall fuel s, 2 <= s -> 0 < Z.of_nat fuel ->
    TRIE_INDEX_MAX - s < Z.of_nat fuel ->
    findFreeBase_grow fuel t s = Some (None, t).
Proof.
  intros H (Hd & Hfull). induction fuel as [|f IH]; intros s Hs Hpos Hf.
  { exfalso. change (Z.of_nat 0) with 0 in Hpos. lia. }
  cbn [findFreeBase_grow].
  destruct (Z_lt_le_dec s TRIE_INDEX_MAX) as [Hlt|Hge].
  - rewrite (expand_noop t s H) by lia.
    change (negb (TDICT_OK =? 0)) with false. cbv iota.
    destruct (Z.ltb_spec (trieGetCheck t s) 0) as [Hneg|_].
    + specialize (Hfull s). lia.
    + rewrite Nat2Z.inj_succ in Hf. apply IH; lia.
  - rewrite (expand_refused t s) by lia. reflexivity.
Qed.

Lemma symbols_get_first (syms : Symbols) :
  (forall x, In x syms -> 0 <= x) -> 0 <= symbols_get syms 0.
Proof.
  intros Hs. destruct syms as [|x r]; [cbv; discriminate|].
  change (symbols_get (x :: r) 0) with x. apply Hs. left. reflexivity.
Qed.

Lemma daFindFreeBase_packed (fuel : nat) (t : trie) (symbols : Symbols) :
  da_inv t -> packed t -> 0 <= symbols_get symbols 0 ->
  TRIE_INDEX_MAX < Z.of_nat fuel ->
  _daFindFreeBase fuel t symbols = Some (TRIE_INDEX_ERROR, t).
Proof.
  intros H Hp Hs Hf. unfold _daFindFreeBase.
  rewrite (packed_ring_empty t H Hp).
  destruct fuel as [|f]; [exfalso; change (Z.of_nat 0) with 0 in Hf; zlia|].
  cbn [findFreeBase_skip]. change (- -1) with 1.
  change (negb (1 =? DA_POOL_FREE)) with false. cbn [andb].
  change (1 =? DA_POOL_FREE) with true. cbv iota.
  rewrite (findFreeBase_grow_packed t H Hp (S f)); [reflexivity| | |].
  - unfold DA_POOL_BEGIN. lia.
  - rewrite Nat2Z.inj_succ. lia.
  - unfold DA_POOL_BEGIN. lia.
Qed.

(** With no room left, [_daInsert] of a new arc fails and changes
    nothing. *)
Lemma daInsert_packed (fuel : nat) (t : trie) (s c : Z) :
  da_inv t -> packed t -> node t s -> byte c ->
  trieGetCheck t (trieGetBase t s + c) <> s ->
  TRIE_INDEX_MAX < Z.of_nat fuel ->
  _daInsert fuel t s c = Some (TRIE_INDEX_ERROR, t).
Proof.
  intros H Hp Hs Hc Hnew Hf. unfold _daInsert.
  destruct (Z.gtb_spec (trieGetBase t s) 0) as [Hb|Hb].
  - destruct (Z.eqb_spec (trieGetCheck t (trieGetBase t s + c)) s) as [|_];
      [contradiction|].
    destruct (inv_base t H s Hs) as [|Hb3]; [lia|].
    assert (Hfits :
      (if trieGetBase t s >? TRIE_INDEX_MAX - c then (false, t)
       else _daPrepareSpace t (trieGetBase t s + c)) = (false, t)).
    { destruct (Z.gtb_spec (trieGetBase t s) (TRIE_INDEX_MAX - c));
        [reflexivity|].
      unfold _daPrepareSpace.
      destruct (Z_lt_le_dec (trieGetBase t s + c) TRIE_INDEX_MAX) as [Hlt|Hge].
      - destruct Hp as (Hd & Hfull).
        rewrite (expand_noop t _ H) by (unfold byte in Hc; lia).
        change (TDICT_OK =? 0) with true. cbn [andb].
        destruct (Z.ltb_spec (trieGetCheck t (trieGetBase t s + c)) 0);
          [|reflexivity].
        specialize (Hfull (trieGetBase t s + c)). unfold byte in Hc. lia.
      - rewrite (expand_refused t _) by lia. reflexivity. }
    rewrite Hfits. cbn [negb].
    rewrite daFindFreeBase_packed; auto.
    apply symbols_get_first. intros x Hx.
    apply symbols_add_spec in Hx as [->|Hx]; [unfold byte in Hc; lia|].
    apply (fillSymbols_spec t s H Hb3) in Hx. lia.
  - change (symbols_add symbols_new c) with [c].
    rewrite daFindFreeBase_packed; auto.
    change (symbols_get [c] 0) with c. unfold byte in Hc. lia.
Qed.

(** With the first free cell [f] far enough from the start, the new arc
    goes to [f]. *)
Lemma daFindFreeBase_head (fuel : nat) (t : trie) (c : Z) :
  da_inv t -> byte c ->
  - trieGetCheck t DA_POOL_FREE <> DA_POOL_FREE ->
  c + DA_POOL_BEGIN <= - trieGetCheck t DA_POOL_FREE ->
  _daFindFreeBase (S fuel) t [c]
  = Some (- trieGetCheck t DA_POOL_FREE - c, t).
Proof.
  intros H Hc Hne Hge. unfold _daFindFreeBase.
  change (symbols_get [c] 0) with c.
  set (f := - trieGetCheck t DA_POOL_FREE) in *.
  destruct (inv_head t H) as (_ & _ & Hf1).
  destruct (inv_next t H _ Hf1) as ((Hfb & Hfc) & _). fold f in Hfb, Hfc.
  pose proof (inv_wf t H) as (Hd & _).
  assert (Eskip : findFreeBase_skip (S fuel) t c f = Some f).
  { cbn [findFreeBase_skip].
    destruct (Z.ltb_spec f (c + DA_POOL_BEGIN)) as [|_]; [lia|].
    rewrite andb_false_r. reflexivity. }
  assert (Efit : _daFitSymbols t (f - c) [c] = (TDICT_OK, t)).
  { cbn [_daFitSymbols].
    destruct (Z.gtb_spec (f - c) (TRIE_INDEX_MAX - c)) as [|_]; [lia|].
    replace (f - c + c) with f by lia. unfold _daPrepareSpace.
    rewrite (expand_noop t f H) by (unfold DA_POOL_BEGIN, byte in *; lia).
    change (TDICT_OK =? 0) with true. cbn [andb].
    destruct (Z.ltb_spec (trieGetCheck t f) 0) as [_|]; [reflexivity|lia]. }
  rewrite Eskip.
  destruct (Z.eqb_spec f DA_POOL_FREE) as [|_]; [contradiction|].
  cbn [findFreeBase_fit]. rewrite Efit. reflexivity.
Qed.

Lemma daInsert_head (fuel : nat) (t : trie) (s c : Z) :
  da_inv t -> byte c -> trieGetBase t s <= 0 ->
  - trieGetCheck t DA_POOL_FREE <> DA_POOL_FREE ->
  c + DA_POOL_BEGIN <= - trieGetCheck t DA_POOL_FREE ->
  let f := - trieGetCheck t DA_POOL_FREE in
  _daInsert (S fuel) t s c
  = Some (f, snd (daInsert_claim (trieSetBase t s (f - c)) s f)).
Proof.
  intros H Hc Hb Hne Hge f. unfold _daInsert.
  destruct (Z.gtb_spec (trieGetBase t s) 0) as [|_]; [lia|].
  change (symbols_add symbols_new c) with [c].
  rewrite (daFindFreeBase_head fuel t c H Hc Hne Hge). fold f.
  destruct (Z.eqb_spec TRIE_INDEX_ERROR (f - c)) as [E|_].
  { unfold TRIE_INDEX_ERROR, DA_POOL_BEGIN, byte in *. lia. }
  replace (f - c + c) with f by lia. reflexivity.
Qed.

(** ** The trie with no room left *)

Lemma zget_app (l1 l2 : list Z) (j : Z) :
  0 <= j ->
  zget (l1 ++ l2) j =
    if j <? Z.of_nat (length l1) then zget l1 j
    else zget l2 (j - Z.of_nat (length l1)).
Proof.
  intros Hj. unfold zget.
  destruct (Z.ltb_spec j (Z.of_nat (length l1))) as [Hlt|Hge].
  - apply app_nth1. lia.
  - rewrite app_nth2 by lia. f_equal. lia.
Qed.

Lemma zget_repeat (x : Z) (n : nat) (j : Z) :
  0 <= j < Z.of_nat n -> zget (repeat x n) j = x.
Proof.
  intros Hj. unfold zget. apply (repeat_spec n x).
  apply nth_In. rewrite repeat_length. lia.
Qed.

Lemma rest_cells_Z : Z.of_nat rest_cells = TRIE_INDEX_MAX - 301.
Proof.
  unfold rest_cells. apply Z2Nat.id. unfold TRIE_INDEX_MAX. lia.
Qed.

Lemma layout_get (h0 h1 h2 x y j : Z) :
  0 <= j < TRIE_INDEX_MAX ->
  zget (layout h0 h1 h2 x y) j =
    if j =? 0 then h0 else if j =? 1 then h1 else if j =? 2 then h2
    else if j =? 300 then y else x.
Proof.
  intros Hj. unfold layout. rewrite zget_app by lia.
  change (Z.of_nat (length [h0; h1; h2])) with 3.
  destruct (Z.ltb_spec j 3) as [Hlt|Hge].
  - assert (E : j = 0 \/ j = 1 \/ j = 2) by lia.
    destruct E as [-> | [-> | ->]]; reflexivity.
  - destruct (Z.eqb_spec j 0); [lia|]. destruct (Z.eqb_spec j 1); [lia|].
    destruct (Z.eqb_spec j 2); [lia|].
    rewrite zget_app by lia. rewrite repeat_length.
    change (Z.of_nat 297) with 297.
    destruct (Z.ltb_spec (j - 3) 297) as [Hlt|Hge2].
    + destruct (Z.eqb_spec j 300); [lia|].
      apply zget_repeat. change (Z.of_nat 297) with 297. lia.
    + rewrite zget_app by lia. change (Z.of_nat (length [y])) with 1.
      destruct (Z.ltb_spec (j - 3 - 297) 1) as [Hlt|Hge3].
      * destruct (Z.eqb_spec j 300); [|lia].
        replace (j - 3 - 297) with 0 by lia. reflexivity.
      * destruct (Z.eqb_spec j 300); [lia|].
        apply zget_repeat. rewrite rest_cells_Z. lia.
Qed.

Lemma layout_length (h0 h1 h2 x y : Z) :
  length (layout h0 h1 h2 x y) = Z.to_nat TRIE_INDEX_MAX.
Proof.
  unfold layout. rewrite !length_app, !repeat_length.
  apply Nat2Z.inj. rewrite Z2Nat.id by (unfold TRIE_INDEX_MAX; lia).
  rewrite !Nat2Z.inj_add, rest_cells_Z.
  change (Z.of_nat (length [h0; h1; h2])) with 3.
  change (Z.of_nat 297) with 297. change (Z.of_nat (length [y])) with 1.
  unfold TRIE_INDEX_MAX. lia.
Qed.

Lemma layout_small (h0 h1 h2 x y : Z) :
  small h0 -> small h1 -> small h2 -> small x -> small y ->
  Forall small (layout h0 h1 h2 x y).
Proof.
  intros H0 H1 H2 Hx Hy. unfold layout.
  assert (Hr : forall n, Forall small (repeat x n)).
  { intros n. apply Forall_forall. intros z Hz.
    apply repeat_spec in Hz. subst. exact Hx. }
  repeat (apply Forall_app; split); auto.
Qed.

Lemma full_wf : wf_arrays full_trie.
Proof.
  split; [|split].
  - change (dasize full_trie) with TRIE_INDEX_MAX. unfold TRIE_INDEX_MAX. lia.
  - apply layout_length.
  - apply layout_length.
Qed.

Lemma full_C (j : Z) :
  0 <= j < TRIE_INDEX_MAX ->
  trieGetCheck full_trie j =
    if j =? 0 then TRIE_INDEX_MAX else if j =? 1 then -300
    else if j =? 2 then 0 else if j =? 300 then -1 else 2.
Proof.
  intros Hj. unfold trieGetCheck. rewrite (ult_in full_trie j full_wf Hj).
  apply layout_get. exact Hj.
Qed.

Lemma full_B (j : Z) :
  0 <= j < TRIE_INDEX_MAX ->
  trieGetBase full_trie j =
    if j =? 0 then DA_SIGNATURE else if j =? 1 then -300
    else if j =? 2 then 3 else if j =? 300 then -1 else -2.
Proof.
  intros Hj. unfold trieGetBase. rewrite (ult_in full_trie j full_wf Hj).
  apply layout_get. exact Hj.
Qed.

Ltac full_cases j :=
  destruct (Z.eqb_spec j 0); [try lia|];
  destruct (Z.eqb_spec j 1); [try lia|];
  destruct (Z.eqb_spec j 2); [try lia|];
  destruct (Z.eqb_spec j 300); [try lia|]; try lia.

Lemma full_free (i : Z) : free full_trie i <-> i = 1 \/ i = 300.
Proof.
  unfold free. change (dasize full_trie) with TRIE_INDEX_MAX. split.
  - intros (Hi & Hc). rewrite (full_C i Hi) in Hc.
    unfold TRIE_INDEX_MAX in *. full_cases i.
  - intros [-> | ->]; (split; [unfold TRIE_INDEX_MAX; lia|]);
      rewrite full_C by (unfold TRIE_INDEX_MAX; lia); cbn; lia.
Qed.

Lemma full_node (j : Z) :
  node full_trie j <-> 2 <= j < TRIE_INDEX_MAX /\ j <> 300.
Proof.
  unfold node. change (dasize full_trie) with TRIE_INDEX_MAX. split.
  - intros (Hj & Hc). split; [exact Hj|]. intros ->.
    rewrite full_C in Hc by lia. cbn in Hc. lia.
  - intros (Hj & Hne). split; [exact Hj|]. rewrite full_C by lia.
    full_cases j.
Qed.

Lemma full_inv : da_inv full_trie.
Proof.
  assert (HM : 301 < TRIE_INDEX_MAX) by (unfold TRIE_INDEX_MAX; lia).
  assert (Hr1 : 0 <= 1 < TRIE_INDEX_MAX) by lia.
  assert (Hr300 : 0 <= 300 < TRIE_INDEX_MAX) by lia.
  constructor.
  - exact full_wf.
  - apply layout_small; zlia.
  - apply layout_small; unfold DA_SIGNATURE; zlia.
  - split; [|split].
    + rewrite full_C by lia. reflexivity.
    + unfold DA_POOL_ROOT. rewrite full_C by lia. reflexivity.
    + apply full_free. left. reflexivity.
  - intros i Hi. apply full_free in Hi as [-> | ->].
    + rewrite (full_C 1 Hr1). change (- (if 1 =? 0 then TRIE_INDEX_MAX else
        if 1 =? 1 then -300 else if 1 =? 2 then 0 else
        if 1 =? 300 then -1 else 2)) with 300.
      split; [apply full_free; right; reflexivity|].
      split; [rewrite (full_B 300 Hr300); reflexivity|right; lia].
    + rewrite (full_C 300 Hr300). change (- (if 300 =? 0 then TRIE_INDEX_MAX
        else if 300 =? 1 then -300 else if 300 =? 2 then 0 else
        if 300 =? 300 then -1 else 2)) with 1.
      split; [apply full_free; left; reflexivity|].
      split; [rewrite (full_B 1 Hr1); reflexivity|left; reflexivity].
  - intros i Hi. apply full_free in Hi as [-> | ->].
    + rewrite (full_B 1 Hr1). change (- (if 1 =? 0 then DA_SIGNATURE else
        if 1 =? 1 then -300 else if 1 =? 2 then 3 else
        if 1 =? 300 then -1 else -2)) with 300.
      split; [apply full_free; right; reflexivity|].
      rewrite (full_C 300 Hr300). reflexivity.
    + rewrite (full_B 300 Hr300). change (- (if 300 =? 0 then DA_SIGNATURE
        else if 300 =? 1 then -300 else if 300 =? 2 then 3 else
        if 300 =? 300 then -1 else -2)) with 1.
      split; [apply full_free; left; reflexivity|].
      rewrite (full_C 1 Hr1). reflexivity.
  - intros i Hi. apply full_node in Hi as (Hi & Hne).
    rewrite full_B by lia. unfold TRIE_INDEX_MAX in *. full_cases i.
  - intros i Hi. change (dasize full_trie) with TRIE_INDEX_MAX in Hi.
    rewrite full_C by lia. unfold TRIE_INDEX_MAX in *. full_cases i.
  - split; [|split].
    + change (tailsize full_trie) with 3. unfold TRIE_INDEX_MAX. lia.
    + change (first_free full_trie) with 1. unfold TRIE_INDEX_MAX. lia.
    + change (tails full_trie) with full_tails. unfold full_tails.
      repeat constructor; cbn; unfold TRIE_INDEX_MAX, byte; try lia.
Qed.

Lemma full_parents : parents_in_use full_trie.
Proof.
  intros j Hj Hj3. apply full_node in Hj as (Hj & Hne).
  rewrite full_C by lia. apply full_node.
  unfold TRIE_INDEX_MAX in *. full_cases j.
Qed.

Lemma full_sep : node full_trie 4 /\ trieGetBase full_trie 4 = -2.
Proof.
  assert (HM : 301 < TRIE_INDEX_MAX) by (unfold TRIE_INDEX_MAX; lia).
  split; [apply full_node; lia|]. rewrite full_B by lia. reflexivity.
Qed.

Lemma full_head : - trieGetCheck full_trie DA_POOL_FREE = 300.
Proof.
  unfold DA_POOL_FREE. rewrite full_C by (unfold TRIE_INDEX_MAX; lia).
  reflexivity.
Qed.

(** The first arc below cell 4 takes the last free cell. *)
Lemma full_first_arc (fuel : nat) (c : Z) :
  0 <= c <= 255 ->
  exists t1,
    _daInsert (S fuel) full_trie 4 c = Some (300, t1) /\
    mid_insert full_trie t1 4 [300] /\ packed t1 /\
    trieGetBase t1 4 = 300 - c /\ trieGetBase t1 300 < 0.
Proof.
  intros Hc.
  assert (HM : 301 < TRIE_INDEX_MAX) by (unfold TRIE_INDEX_MAX; lia).
  destruct full_sep as (Hsep & Hb).
  pose proof (daInsert_head fuel full_trie 4 c full_inv Hc
                ltac:(rewrite Hb; lia)) as Hins.
  rewrite full_head in Hins.
  specialize (Hins ltac:(unfold DA_POOL_FREE; lia)
                   ltac:(unfold DA_POOL_BEGIN; lia)).
  cbv zeta in Hins.
  set (t1 := snd (daInsert_claim (trieSetBase full_trie 4 (300 - c)) 4 300))
    in *.
  exists t1. split; [exact Hins|].
  destruct (mid_insert_step (S fuel) full_trie full_trie t1 4 c 300 []
              Hsep (mid_insert_start full_trie 4 full_inv) Hc
              ltac:(cbn [hd]; rewrite Hb; lia) Hins)
    as [(E & _)|(_ & Hm & Hb300)]; [discriminate E|].
  split; [exact Hm|]. rewrite <- and_assoc. split; [|exact Hb300].
  pose proof Hm as (H1 & Hd1 & _ & Hold & _ & _ & Hall & _).
  apply Forall_cons_iff in Hall as ((_ & Hn300 & _) & _).
  split.
  - pose proof (inv_wf t1 H1) as (Hd & _).
    change (dasize full_trie) with TRIE_INDEX_MAX in Hd1.
    split; [lia|]. intros j Hj.
    destruct (Z.eq_dec j 300) as [->|Hne]; [apply Hn300|].
    apply (Hold j). apply full_node. split; [exact Hj|exact Hne].
  - assert (H2 : da_inv (trieSetBase full_trie 4 (300 - c))).
    { apply setBase_node_inv; [exact full_inv|exact Hsep|zlia|].
      right. unfold TRIE_INDEX_MAX. lia. }
    assert (Hf2 : free (trieSetBase full_trie 4 (300 - c)) 300).
    { unfold free. rewrite dasize_setB, getC_setB.
      apply full_free. right. reflexivity. }
    unfold t1. rewrite (claim_B _ 4 300 H2 Hf2 4) by zlia.
    rewrite getC_setB, full_C by lia.
    change (4 =? - (if 300 =? 0 then TRIE_INDEX_MAX else
      if 300 =? 1 then -300 else if 300 =? 2 then 0 else
      if 300 =? 300 then -1 else 2)) with false. cbv iota.
    rewrite getB_setB;
      [rewrite Z.eqb_refl; reflexivity|exact full_wf| |zlia].
    change (dasize full_trie) with TRIE_INDEX_MAX. lia.
Qed.

Lemma full_suffix :
  trieGetTailSuffix full_trie (trieGetTailIndex full_trie 4) = Some [7; 9].
Proof.
  rewrite trieGetTailIndex_base. destruct full_sep as (_ & ->). reflexivity.
Qed.

(** In the trie with one arc below cell 4 nothing hangs from cell 300. *)
Lemma one_arc_no_child (t1 : trie) (x : Z) :
  mid_insert full_trie t1 4 [300] -> lng x -> trieGetCheck t1 x <> 300.
Proof.
  intros Hm Hx Hc. pose proof Hm as (H1 & _ & _ & _ & _ & _ & Hall & _).
  apply Forall_cons_iff in Hall as ((_ & Hn & _) & _).
  destruct (child_is_node t1 300 x H1 Hn Hx Hc) as (Hnx & _).
  exact (mid_insert_childless full_trie t1 4 300 [] full_parents
           (proj1 full_sep) Hm x Hnx Hc).
Qed.

(** The call that takes the [fail] label: the suffix [7; 8] shares its
    first character with the stored [7; 9]; the arc for 7 takes the last
    free cell and the arc for 9 finds none. *)
Lemma full_fail_run (N : nat) :
  TRIE_INDEX_MAX <= Z.of_nat N ->
  insertInTail_return (S (S N)) full_trie 4 [7; 8] = Some (AtFail 300) /\
  exists t', _trieInsertInTail (S (S N)) full_trie 4 [7; 8]
             = Some (TDICT_ERR, t').
Proof.
  intros HN.
  destruct (full_first_arc (S N) 7 ltac:(lia))
    as (t1 & Hins1 & Hm1 & Hp1 & Hb4 & Hb300).
  pose proof Hm1 as (H1 & _ & _ & _ & _ & _ & Hall & (Hc300 & _)).
  apply Forall_cons_iff in Hall as ((_ & Hn300 & _) & _). cbn [hd] in Hc300.
  assert (Hins2 : _daInsert (S (S N)) t1 300 9 = Some (TRIE_INDEX_ERROR, t1)).
  { apply daInsert_packed; auto.
    - unfold byte. lia.
    - apply one_arc_no_child; [exact Hm1|].
      pose proof (small_getB t1 300 H1). zlia.
    - rewrite !Nat2Z.inj_succ. lia. }
  assert (Eloop : insertInTail_loop (S (S N)) full_trie 4 [7; 9] [7; 8]
                  = Some (inr (300, [9], [8]), t1)).
  { cbn [insertInTail_loop]. change (deref [7; 9] =? deref [7; 8]) with true.
    cbv iota. change (deref [7; 9]) with 7. rewrite Hins1.
    change (TRIE_INDEX_ERROR =? 300) with false. cbv iota.
    reflexivity. }
  split.
  - unfold insertInTail_return. rewrite full_suffix, Eloop.
    change (deref [9]) with 9. rewrite Hins2. reflexivity.
  - unfold _trieInsertInTail. rewrite full_suffix, Eloop.
    change (deref [9]) with 9. rewrite Hins2.
    change (TRIE_INDEX_ERROR =? TRIE_INDEX_ERROR) with true. cbv iota.
    unfold insertInTail_fail. cbn [_daPrune].
    change (4 =? 300) with false.
    rewrite (hasChildren_false t1 300 H1 Hn300).
    2:{ intros g Hg. apply one_arc_no_child; [exact Hm1|].
        eapply node_lng; [apply (inv_wf t1 H1)|exact Hg]. }
    cbn [negb andb]. unfold _daFreeCell.
    rewrite (packed_ring_empty t1 H1 Hp1). change (- -1) with 1.
    cbn [freeCell_scan]. change (negb (1 =? DA_POOL_FREE)) with false.
    cbn [andb]. rewrite Hc300. cbn [_daPrune]. rewrite Z.eqb_refl.
    cbn [negb andb]. eexists. reflexivity.
Qed.

Lemma fuel_for_full : TRIE_INDEX_MAX <= Z.of_nat (Z.to_nat TRIE_INDEX_MAX).
Proof. rewrite Z2Nat.id; unfold TRIE_INDEX_MAX; lia. Qed.



(** * The free ring after the tail pool is exhausted *)

Lemma exhausted_inv : da_inv exhausted_trie.
Proof.
  apply (same_da_inv (trieCreate plainType zeroed) exhausted_trie).
  - repeat split.
  - split; [|split].
    + change (tailsize exhausted_trie) with TRIE_INDEX_MAX.
      unfold TRIE_INDEX_MAX. lia.
    + change (first_free exhausted_trie) with 0. unfold TRIE_INDEX_MAX. lia.
    + change (tails exhausted_trie)
        with (repeat blankEntry (Z.to_nat TRIE_INDEX_MAX)).
      apply Forall_forall. intros e He. apply repeat_spec in He. subst e.
      apply entry_ok_blank.
  - apply trieCreate_inv.
Qed.

(** C6: the free ring does not survive an exhausted tail pool.
    [exhausted_trie] satisfies the invariant.  [trieAdd] of the key
    [97; 98] claims cell 4 for the arc of the first character;
    [_tailAllocCell] then returns [-1], which [_trieInsertInBranch]
    stores unchecked as the tail index of cell 4, so that its base
    becomes 1, and [trieAdd] returns [TDICT_ERR].  [trieAdd] of the key
    [97] then walks to cell 4, looks for its terminator arc at cell
    [1 + 0], finds cell 1 free and claims it: cell 1, the anchor of the
    ring, is in use afterwards. *)
Theorem C6_ring_broken_after_tail_exhaustion :
  ring_ok exhausted_trie /\
  option_map fst (trieAdd 50 exhausted_trie [97; 98] 1) = Some TDICT_ERR /\
  trieGetBase exhausted_ab 4 = 1 /\
  option_map fst (trieAdd 50 exhausted_ab [97] 2) = Some TDICT_ERR /\
  trieGetCheck exhausted_a DA_POOL_FREE = 4 /\
  ~ ring_ok exhausted_a.
Proof.
  split; [apply da_inv_ring_ok, exhausted_inv|].
  split; [reflexivity|]. split; [reflexivity|]. split; [reflexivity|].
  assert (E : trieGetCheck exhausted_a DA_POOL_FREE = 4) by reflexivity.
  split; [exact E|].
  intros (L & _ & _ & Hiff).
  assert (Hd : dasize exhausted_a = 6) by reflexivity.
  destruct (Hiff DA_POOL_FREE) as (_ & Hin).
  { rewrite Hd. unfold DA_POOL_FREE. lia. }
  specialize (Hin (or_introl eq_refl)). rewrite E in Hin. lia.
Qed.

(** * Further properties of the operations *)

(** * Example tries satisfy the invariant *)

Lemma trie_cat_inv : da_inv trie_cat.
Proof.
  apply (trieAdd_step 100 (trieCreate plainType zeroed) trie_cat key_cat 1 TDICT_OK).
  - apply trieCreate_inv.
  - vm_compute. reflexivity.
  - vm_compute. reflexivity.
Qed.

(** * Lookups and deletions of absent keys *)

(** A fresh trie holds no key: every lookup returns [NULL]. *)
Theorem trieFind_fresh (ty : trieType) (m : Z -> trieEntry) (k : list Z) :
  trieFind (trieCreate ty m) k = None.
Proof.
  unfold trieFind. set (t := trieCreate ty m).
  pose proof (internalKey_bytes t k) as Hp.
  pose proof (deref_byte _ Hp) as Hc.
  destruct (internalKey t k) as [|c p];
    cbn [walk_branches]; rewrite trieBranchEnd_base;
    change (trieGetBase t DA_POOL_ROOT) with 3; cbn [Z.ltb Z.compare];
    unfold _trieWalk; change (trieGetBase t DA_POOL_ROOT) with 3;
    set (c0 := deref _) in *;
    (assert (E : trieGetCheck t (3 + c0) = 0);
     [unfold trieGetCheck; rewrite (ult_out t);
      [reflexivity|apply (inv_wf t), trieCreate_inv|unfold byte in Hc; zlia|
       change (dasize t) with 3; unfold byte in Hc; lia]|]);
    rewrite E; reflexivity.
Qed.

Lemma walk_tail_in_pool (t : trie) (index i : Z) (p : cstr) :
  walk_tail t index i p = true ->
  ult (index - TAIL_START_BLOCKNO) (tailsize t) = true.
Proof.
  intros H.
  assert (E : forall c, fst (_trieWalkTail t index i c) = TDICT_OK ->
            ult (index - TAIL_START_BLOCKNO) (tailsize t) = true).
  { intros c. unfold _trieWalkTail, trieGetTailSuffix.
    destruct (ult (index - TAIL_START_BLOCKNO) (tailsize t));
      [reflexivity|discriminate]. }
  destruct p as [|c p]; cbn [walk_tail] in H;
    destruct (_trieWalkTail t index i _) as [r i'] eqn:Ew;
    (destruct (Z.eqb_spec r 0) as [->|];
     [eapply E; rewrite Ew; reflexivity|discriminate H]).
Qed.

(** [trieDelete] decides like [trieFind]: for a key of at most 32767
    characters, the range of the [short] suffix index of both walks,
    that [trieFind] does not find it returns [TDICT_ERR] and leaves the
    trie as it is, and for such a key that [trieFind] finds it never
    returns [TDICT_ERR]. *)
Theorem trieDelete_decides_like_trieFind (fuel : nat) (t : trie) (k : list Z) :
  Z.of_nat (length (internalKey t k)) <= 32767 ->
  (trieFind t k = None -> trieDelete fuel t k = Some (TDICT_ERR, t)) /\
  (forall e r t',
      trieFind t k = Some e -> trieDelete fuel t k = Some (r, t') ->
      r = TDICT_OK).
Proof.
  intros _. unfold trieFind, trieDelete.
  destruct (walk_branches t DA_POOL_ROOT (internalKey t k)) as [s p|s p].
  - split; [reflexivity|discriminate].
  - destruct (walk_tail t (trieGetTailIndex t s) 0 p) eqn:Ew.
    + apply walk_tail_in_pool in Ew. split.
      * unfold trieGetTrieEntry. rewrite Ew. discriminate.
      * intros e r t' _ Hdel.
        destruct (_tailFreeCell fuel t (trieGetTailIndex t s)) as [t1|];
          [|discriminate].
        destruct (_daPrune fuel _ DA_POOL_ROOT s) as [t2|]; [|discriminate].
        inversion Hdel. reflexivity.
    + split; [reflexivity|discriminate].
Qed.

Lemma trieDelete_decides_like_trieFind_witness :
  (trieFind trie_cat key_car = None ->
   trieDelete 100 trie_cat key_car = Some (TDICT_ERR, trie_cat)) /\
  (forall e r t',
      trieFind trie_cat key_car = Some e ->
      trieDelete 100 trie_cat key_car = Some (r, t') ->
      r = TDICT_OK).
Proof.
  apply (trieDelete_decides_like_trieFind 100 trie_cat key_car).
  vm_compute. discriminate.
Defined.

(** * Expansion *)

(** [trieExpand] refuses exactly the sizes outside [1 .. TRIE_INDEX_MAX - 1]
    and then changes nothing, as it does when the array is large enough.
    Otherwise the array reaches at least [size] cells; the cells in use
    keep their [base] and [check], the new cells are free, the free ring
    is intact, the tail pool is untouched and every lookup answers as
    before. *)
Theorem trieExpand_behaviour (t : trie) (size : Z) :
  da_inv t ->
  let r := fst (trieExpand t size) in
  let t' := snd (trieExpand t size) in
  (r = TDICT_OK \/ r = TDICT_ERR) /\
  (r = TDICT_ERR <-> size <= 0 \/ TRIE_INDEX_MAX <= size) /\
  (r = TDICT_ERR \/ size <= dasize t -> t' = t) /\
  (r = TDICT_OK -> size <= dasize t') /\
  dasize t <= dasize t' /\
  (forall j, node t j ->
     trieGetCheck t' j = trieGetCheck t j /\
     trieGetBase t' j = trieGetBase t j) /\
  (forall j, dasize t <= j < dasize t' -> trieGetCheck t' j < 0) /\
  ring_ok t' /\
  tails t' = tails t /\ used t' = used t /\
  forall k, trieFind t' k = trieFind t k.
Proof.
  intros H r t'.
  assert (Hsame : t' = t ->
    dasize t <= dasize t' /\
    (forall j, node t j ->
       trieGetCheck t' j = trieGetCheck t j /\
       trieGetBase t' j = trieGetBase t j) /\
    (forall j, dasize t <= j < dasize t' -> trieGetCheck t' j < 0) /\
    ring_ok t' /\
    tails t' = tails t /\ used t' = used t /\
    forall k, trieFind t' k = trieFind t k).
  { intros ->. split; [lia|]. split; [auto|]. split; [intros; lia|].
    split; [apply da_inv_ring_ok, H|auto]. }
  destruct (Z_le_gt_dec size 0) as [Hle|Hpos].
  { assert (E : trieExpand t size = (TDICT_ERR, t))
      by (apply expand_refused; lia).
    unfold r, t' in *. rewrite E in *. cbn [fst snd] in *.
    split; [right; reflexivity|]. split; [split; auto|].
    split; [reflexivity|]. split; [discriminate|]. apply Hsame. reflexivity. }
  destruct (Z_le_gt_dec TRIE_INDEX_MAX size) as [Hmax|Hlt].
  { assert (E : trieExpand t size = (TDICT_ERR, t))
      by (apply expand_refused; lia).
    unfold r, t' in *. rewrite E in *. cbn [fst snd] in *.
    split; [right; reflexivity|]. split; [split; auto|].
    split; [reflexivity|]. split; [discriminate|]. apply Hsame. reflexivity. }
  destruct (expand_step t size H ltac:(zlia)) as (Hg & Hr & Hok & Herr).
  fold r t' in Hg, Hr, Hok, Herr.
  assert (Hrok : r = TDICT_OK).
  { destruct Hr as [|E]; [assumption|]. apply Herr in E. lia. }
  split; [exact Hr|]. split.
  { split; [intros E; rewrite Hrok in E; discriminate|lia]. }
  split.
  { intros [E|Hd]; [rewrite Hrok in E; discriminate|].
    unfold t'. rewrite (expand_noop t size H); [reflexivity|lia|lia]. }
  split; [intros _; apply Hok; exact Hrok|].
  pose proof Hg as (H' & Hd & Hp & _ & _ & Hnew).
  split; [exact Hd|]. split.
  { intros j Hj. split; [apply grown_C|apply grown_B]; auto. }
  split; [intros j Hj; apply Hnew; exact Hj|].
  split; [apply da_inv_ring_ok, H'|].
  destruct Hp as (Ht & _ & _ & Hu & _).
  split; [exact Ht|]. split; [exact Hu|].
  intros k. apply grown_trieFind; assumption.
Qed.

Lemma trieExpand_behaviour_witness :
  fst (trieExpand trie_cat 100) = TDICT_OK /\
  100 <= dasize (snd (trieExpand trie_cat 100)) /\
  ring_ok (snd (trieExpand trie_cat 100)) /\
  trieFind (snd (trieExpand trie_cat 100)) key_cat = trieFind trie_cat key_cat.
Proof.
  destruct (trieExpand_behaviour trie_cat 100 trie_cat_inv)
    as (_ & _ & _ & Hsz & _ & _ & _ & Hring & _ & _ & Hfind).
  assert (Hok : fst (trieExpand trie_cat 100) = TDICT_OK)
    by (vm_compute; reflexivity).
  split; [exact Hok|]. split; [apply Hsz; exact Hok|].
  split; [exact Hring|apply Hfind].
Defined.

(** * Deleting a key *)

(** [_daPrune] touches no cell that stays in use and claims none: a cell
    in use before is either in use afterwards with the same [base] and
    [check], or free; a free cell stays free; and the cell it starts
    from is freed when it has no child and is not the stop cell. *)
Lemma daPrune_frame (fuel : nat) :
  forall n t t' p s,
    da_inv t -> node t p -> up_path n t p s ->
    _daPrune fuel t p s = Some t' ->
    (forall j, node t j -> (node t' j /\ untouched t t' j) \/ free t' j) /\
    (forall j, free t j -> free t' j) /\
    (s <> p -> _daHasChildren t s = false -> free t' s).
Proof.
  induction fuel as [|f IH]; intros n t t' p s H Hp Hpath Hprune;
    [discriminate|].
  cbn [_daPrune] in Hprune.
  destruct (Z.eqb_spec p s) as [E|E]; cbn [negb andb] in Hprune.
  { inversion Hprune; subst. split; [|split]; auto; [|congruence].
    intros j Hj. left. split; [exact Hj|apply untouched_refl]. }
  destruct (_daHasChildren t s) eqn:Ech; cbn [negb] in Hprune.
  { inversion Hprune; subst. split; [|split]; auto; [|discriminate].
    intros j Hj. left. split; [exact Hj|apply untouched_refl]. }
  destruct n as [|n]; cbn [up_path] in Hpath; [congruence|].
  destruct Hpath as (_ & Hns & Hs3 & Hrest).
  destruct (_daFreeCell (S f) t s) as [t1|] eqn:Efree; [|discriminate].
  destruct (daFreeCell_step (S f) t t1 s H Hns Hs3 Efree)
    as (H1 & Hd1 & Hp1 & Hu1 & Hf1 & Hfs).
  assert (Hkeep : forall j, node t j -> j <> s ->
                            node t1 j /\ trieGetCheck t1 j = trieGetCheck t j).
  { intros j Hj Hjs. split.
    - apply (keeps_used_node (only s) t t1 j Hu1); auto. lia.
    - apply Hu1; auto. }
  assert (Hrest1 : up_path n t1 p (trieGetCheck t s)).
  { apply (up_path_transfer n t t1 p _ Hrest).
    intros j Hj (k & Hk & Hpk). apply Hkeep; auto.
    intros ->.
    assert (Hfull : up_path (S n) t p s) by (cbn [up_path]; auto).
    pose proof (up_path_length _ _ _ _ _ Hpk Hfull). lia. }
  destruct (IH n t1 t' p (trieGetCheck t s) H1) as (Hn' & Hf' & _); auto.
  { apply Hkeep; auto. }
  split; [|split].
  - intros j Hj. destruct (Z.eq_dec j s) as [->|Hjs].
    { right. apply Hf'. exact Hfs. }
    destruct (Hkeep j Hj Hjs) as (Hj1 & _).
    destruct (Hn' j Hj1) as [(Hj' & A & B)|Hfree]; [left|right; exact Hfree].
    split; [exact Hj'|]. destruct (Hu1 j Hj Hjs) as (A1 & B1).
    split; congruence.
  - intros j Hj. apply Hf'. apply Hf1; [exact Hj|unfold nobody; auto].
  - intros _ _. apply Hf'. exact Hfs.
Qed.

Lemma call_keyDestructor_type (t : trie) (k : keyptr) :
  type (call_keyDestructor t k) = type t.
Proof. unfold call_keyDestructor. destruct (keyDestructor (type t)); reflexivity. Qed.

Lemma call_valDestructor_type (t : trie) (v : valptr) :
  type (call_valDestructor t v) = type t.
Proof. unfold call_valDestructor. destruct (valDestructor (type t)); reflexivity. Qed.

Lemma tailFreeCell_type (fuel : nat) (t t' : trie) (block : Z) :
  _tailFreeCell fuel t block = Some t' -> type t' = type t.
Proof.
  unfold _tailFreeCell.
  destruct (ulong (block - TAIL_START_BLOCKNO) >=? ulong (tailsize t)).
  { intros E. inversion E. reflexivity. }
  destruct (tailFree_scan _ _ _ _ _) as [[j i]|]; [|discriminate].
  intros E. inversion E; subst t'. clear E.
  destruct (negb (j =? 0)); cbn [type with_used with_first_free set_next_free
    set_tail with_tails];
    rewrite call_valDestructor_type, call_keyDestructor_type; reflexivity.
Qed.

(** The walk for a key whose cell has just been freed runs into a
    missing arc. *)
Lemma walk_branches_after_delete (t t' : trie) (s : Z) :
  da_inv t ->
  (forall j, node t j -> j <> s ->
             (node t' j /\ untouched t t' j) \/ free t' j) ->
  free t' s ->
  forall p s0 q,
    node t s0 -> node t' s0 -> untouched t t' s0 -> s0 <> s ->
    Forall byte p ->
    walk_branches t s0 p = InTail s q ->
    exists x y, walk_branches t' s0 p = NoArc x y.
Proof.
  intros H Hframe Hfs.
  induction p as [|c p IH]; intros s0 q Hs0 Hs0' (HC0 & HB0) Hne Hp Hw;
    pose proof (deref_byte _ Hp) as Hc;
    cbn [walk_branches] in Hw |- *;
    rewrite trieBranchEnd_base in Hw; rewrite trieBranchEnd_base, HB0;
    (destruct (trieGetBase t s0 <? 0); [inversion Hw; congruence|]);
    set (c0 := deref _) in *;
    (destruct (_trieWalk t s0 c0) as [s1|] eqn:Ew; [|discriminate Hw]);
    pose proof (trieWalk_spec t s0 c0 s1 H Hs0 Hc Ew) as (Hs1 & _ & _ & Hc1);
    unfold _trieWalk in Ew |- *; rewrite HB0;
    (destruct (Z.eqb_spec (trieGetCheck t (trieGetBase t s0 + c0)) s0)
      as [Eq|]; [|discriminate Ew]);
    inversion Ew as [Es1]; rewrite Es1;
    (assert (Hcase : (node t' s1 /\ untouched t t' s1 /\ s1 <> s) \/
                     free t' s1);
     [destruct (Z.eq_dec s1 s) as [->|Hn1]; [right; exact Hfs|];
      destruct (Hframe s1 Hs1 Hn1) as [(A & B)|A]; [left; auto|right; exact A]|]);
    (destruct Hcase as [(Hs1' & (HC1 & HB1) & Hn1)|(_ & Hneg)];
     [|destruct (Z.eqb_spec (trieGetCheck t' s1) s0) as [E'|];
       [destruct Hs0; lia|eexists; eexists; reflexivity]]);
    rewrite HC1, Hc1, Z.eqb_refl.
  - inversion Hw; congruence.
  - destruct (0 =? c); [inversion Hw; congruence|].
    apply (IH s1 q); auto. split; auto.
    apply Forall_cons_iff in Hp. apply Hp.
Qed.

(** After a successful [trieDelete] of a key of at most 32767
    characters, the range of the [short] suffix index, the key is gone:
    [trieFind] returns [NULL] for it.  The root must not be a tail cell,
    which it never is in a trie built by [trieCreate] and [trieAdd]. *)
Theorem trieDelete_removes_key (fuel : nat) (t t' : trie) (k : list Z) :
  da_inv t ->
  0 <= trieGetBase t DA_POOL_ROOT ->
  Z.of_nat (length (internalKey t k)) <= 32767 ->
  trieDelete fuel t k = Some (TDICT_OK, t') ->
  trieFind t' k = None.
Proof.
  intros H Hroot _ Hdel. unfold trieDelete in Hdel.
  pose proof (internalKey_bytes t k) as Hbytes.
  destruct (walk_branches_spec (internalKey t k) t DA_POOL_ROOT 0 _ H
              Hbytes (root_node t H) eq_refl eq_refl)
    as (s & q & m & Hexit & Hs & Hpath & Hq).
  destruct Hexit as [E|E]; rewrite E in Hdel; [discriminate|].
  destruct (walk_tail t (trieGetTailIndex t s) 0 q) eqn:Etail;
    [|discriminate].
  pose proof (inv_wf t H) as Hwf. pose proof Hs as (Hsb & _).
  rewrite trieGetTailIndex_base in Hdel, Etail.
  pose proof (small_getB t s H) as Hsm.
  (* the cell of the key is a tail cell, so it is not the root *)
  assert (Hneg : trieGetBase t s < 0).
  { apply walk_tail_in_pool in Etail.
    destruct (inv_tail t H) as (Hts & _).
    rewrite ult_spec in Etail by zlia.
    apply andb_true_iff in Etail as (A & _). apply Z.leb_le in A.
    unfold TAIL_START_BLOCKNO in A. lia. }
  assert (Hsr : s <> DA_POOL_ROOT) by (intros ->; lia).
  destruct (_tailFreeCell fuel t (- trieGetBase t s)) as [t1|] eqn:Efree;
    [|discriminate].
  assert (Hlti : lng (- trieGetBase t s)) by zlia.
  destruct (tailFreeCell_step fuel t t1 _ (inv_tail t H) Hlti Efree)
    as (Ht1 & Hd1).
  pose proof (tailFreeCell_type fuel t t1 _ Efree) as Hty1.
  pose proof (same_da_inv t t1 Hd1 Ht1 H) as H1.
  assert (Hs1 : node t1 s) by (apply (same_da_node t t1); auto).
  assert (H2 : da_inv (trieSetBase t1 s TRIE_INDEX_ERROR))
    by (apply setBase_node_inv; auto; [zlia|left; zlia]).
  set (t2 := trieSetBase t1 s TRIE_INDEX_ERROR) in *.
  assert (Hkeep : forall j, node t j ->
             node t2 j /\ trieGetCheck t2 j = trieGetCheck t j /\
             (j <> s -> trieGetBase t2 j = trieGetBase t j)).
  { intros j Hj. apply (same_da_node t t1 j Hd1) in Hj as Hj1.
    destruct Hj1 as (A & B). unfold t2. split; [|split].
    - split; [rewrite dasize_setB; exact A|]. rewrite getC_setB. exact B.
    - rewrite getC_setB. apply same_da_getC. exact Hd1.
    - intros Hjs. rewrite getB_setB;
        [|apply (inv_wf t1 H1)|destruct Hs1; lia|eapply node_lng; eauto].
      destruct (Z.eqb_spec j s); [contradiction|].
      apply same_da_getB. exact Hd1. }
  assert (Hpath2 : up_path m t2 DA_POOL_ROOT s).
  { apply (up_path_keep m t t2 _ s Hpath). intros j Hj.
    destruct (Hkeep j Hj) as (A & B & _). auto. }
  destruct (_daPrune fuel t2 DA_POOL_ROOT s) as [t3|] eqn:Eprune;
    [|discriminate].
  inversion Hdel; subst t'. clear Hdel.
  destruct (daPrune_frame fuel m t2 t3 _ s H2 (root_node t2 H2) Hpath2 Eprune)
    as (Hn3 & _ & Hfs3).
  destruct (daPrune_step fuel m t2 t3 _ s H2 (root_node t2 H2) Hpath2 Eprune)
    as (H3 & _ & Hp3 & Hroot3).
  assert (Hfree3 : free t3 s).
  { apply Hfs3; [exact Hsr|]. unfold _daHasChildren.
    assert (Eb : trieGetBase t2 s = TRIE_INDEX_ERROR).
    { unfold t2. rewrite getB_setB;
        [rewrite Z.eqb_refl; reflexivity|apply (inv_wf t1 H1)|
         destruct Hs1; lia|].
      eapply node_lng; eauto. }
    rewrite Eb. reflexivity. }
  assert (Hframe : forall j, node t j -> j <> s ->
            (node t3 j /\ untouched t t3 j) \/ free t3 j).
  { intros j Hj Hjs. destruct (Hkeep j Hj) as (A & B & C).
    destruct (Hn3 j A) as [(A3 & B3 & C3)|F]; [left|right; exact F].
    split; [exact A3|]. split; [congruence|]. rewrite C3. auto. }
  assert (Hty : type t3 = type t).
  { destruct Hp3 as (_ & _ & _ & _ & Hty3 & _). rewrite Hty3.
    unfold t2, trieSetBase. destruct (ult s (dasize t1)); exact Hty1. }
  unfold trieFind.
  assert (Ek : internalKey t3 k = internalKey t k)
    by (unfold internalKey; rewrite Hty; reflexivity).
  rewrite Ek.
  destruct (Hframe DA_POOL_ROOT (root_node t H) ltac:(auto))
    as [(_ & Hu)|(_ & F)].
  2:{ destruct Hroot3. lia. }
  destruct (walk_branches_after_delete t t3 s H Hframe Hfree3
              (internalKey t k) DA_POOL_ROOT q (root_node t H) Hroot3 Hu
              ltac:(auto) Hbytes E) as (x & y & Ew).
  rewrite Ew. reflexivity.
Qed.

Lemma trieDelete_removes_key_witness :
  exists t',
    trieDelete 100 trie_cat key_cat = Some (TDICT_OK, t') /\
    trieFind t' key_cat = None.
Proof.
  eexists. split; [vm_compute; reflexivity|].
  apply (trieDelete_removes_key 100 trie_cat _ key_cat).
  - exact trie_cat_inv.
  - vm_compute. discriminate.
  - vm_compute. discriminate.
  - vm_compute. reflexivity.
Defined.

(** * Enumeration *)

Lemma fillSymbols_child (t : trie) (s sym : Z) :
  da_inv t -> In sym (_daFillSymbols t s) ->
  0 <= sym < TRIE_INDEX_MAX /\ trieGetCheck t (trieGetBase t s + sym) = s.
Proof.
  intros H. pose proof (inv_wf t H) as (Hd & _).
  unfold _daFillSymbols. rewrite fold_filter. cbn [app symbols_new].
  rewrite filter_In, zrange_In, Z.eqb_eq. intros ((Hlo & Hhi) & Hc).
  split; [|exact Hc]. split; [lia|].
  eapply Z.lt_le_trans; [exact Hhi|].
  unfold MIN_VAL_u, MIN_VAL, TRIE_CHAR_MAX, TRIE_INDEX_MAX in *.
  destruct (ulong _ <? ulong (dasize t));
    [destruct (255 <? _) eqn:E; [|apply Z.ltb_ge in E]|]; lia.
Qed.

Lemma chain_up_child (t : trie) (state s x : Z) :
  da_inv t -> node t s -> lng x -> trieGetCheck t x = s ->
  (exists n, chain_up n t state s) ->
  node t x /\ exists n, chain_up n t state x.
Proof.
  intros H Hs Hx Hc (n & Hn).
  destruct (child_is_node t s x H Hs Hx Hc) as (Hnx & Hx3 & _).
  split; [exact Hnx|]. exists (S n). cbn [chain_up]. rewrite Hc. auto.
Qed.

Lemma push_all_below (t : trie) (state s : Z) (P : Z -> Prop) (l : list Z) :
  (forall sym, In sym l -> P (trieGetBase t s + sym)) ->
  forall st, Forall P st ->
    Forall P (fold_left (fun st sym => push st (trieGetBase t s + sym)) l st).
Proof.
  induction l as [|sym l IH]; intros Hl st Hst; cbn [fold_left]; [exact Hst|].
  apply IH; [intros y Hy; apply Hl; right; exact Hy|].
  unfold push. constructor; [apply Hl; left; reflexivity|exact Hst].
Qed.

Lemma iterator_loop_yields_tails (t : trie) (state : Z) :
  da_inv t ->
  forall fuel nodeStack result res,
    Forall (fun s => node t s /\ exists n, chain_up n t state s) nodeStack ->
    Forall (tail_below t state) result ->
    iterator_loop fuel t nodeStack result = Some res ->
    Forall (tail_below t state) res.
Proof.
  intros H. induction fuel as [|f IH]; intros st result res Hst Hres Hloop;
    [discriminate|].
  cbn [iterator_loop] in Hloop.
  destruct st as [|s st']; cbn [stackEmpty pop] in Hloop.
  { inversion Hloop; subst. exact Hres. }
  apply Forall_cons_iff in Hst as ((Hs & Hup) & Hst').
  destruct (Z.ltb_spec (trieGetBase t s) 0) as [Hneg|Hpos].
  - apply (IH st' (result ++ [s]) res Hst'); [|exact Hloop].
    apply Forall_app. split; [exact Hres|].
    constructor; [|constructor]. split; [exact Hs|]. split; [exact Hneg|exact Hup].
  - eapply IH; [|exact Hres|exact Hloop].
    apply push_all_below; [exact state| |exact Hst'].
    intros sym Hin. apply in_rev in Hin.
    apply fillSymbols_child in Hin as (Hlo & Hc); [|exact H].
    apply (chain_up_child t state s); auto.
    pose proof (small_getB t s H). unfold small, lng, TRIE_INDEX_MAX in *. lia.
Qed.



(** * Insertion keeps the cells above the insertion point *)

(** Relocation of the children [ob + sym] of [s] touches the children,
    the cells that hang from them and free cells: any other cell in use
    keeps its content. *)
Lemma reindex_loop_frame (fuel : nat) (symbols : Symbols) :
  forall t t' s ob nb,
    da_inv t -> node t s -> small ob -> 3 <= nb <= TRIE_INDEX_MAX ->
    NoDup symbols ->
    (forall sym, In sym symbols ->
       byte sym /\ trieGetCheck t (ob + sym) = s /\ free t (nb + sym)) ->
    reindex_loop fuel t s ob nb symbols = Some t' ->
    forall j, node t j ->
      (forall sym, In sym symbols ->
         j <> ob + sym /\ trieGetCheck t j <> ob + sym) ->
      node t' j /\ untouched t t' j.
Proof.
  induction symbols as [|sym rest IH];
    intros t t' s ob nb H Hs Hob Hnb Hnd Hsyms Hloop j Hj Hjc;
    cbn [reindex_loop] in Hloop.
  - inversion Hloop; subst. split; [exact Hj|split; reflexivity].
  - inversion Hnd as [|? ? Hnotin Hnd']; subst.
    destruct (Hsyms sym (or_introl eq_refl)) as (Hbyte & Hcold & Hfnew).
    destruct (Hjc sym (or_introl eq_refl)) as (Hjold & Hjpar).
    pose proof (inv_wf t H) as Hwf. pose proof Hwf as (Hd & _).
    set (old := ob + sym) in *. set (new := nb + sym) in *.
    assert (Hlold : lng old) by (unfold old, byte in *; zlia).
    destruct (child_is_node t s old H Hs Hlold Hcold) as (Hnold & Hold3 & Holds).
    assert (Hnew1 : new <> 1) by (unfold new, byte in *; lia).
    destruct (claim_step t s new H Hfnew Hnew1 Hs)
      as (H1 & Hd1 & Hp1 & Hu1 & Hf1 & Hc1 & _ & Hnew3).
    set (t1 := snd (daInsert_claim t s new)) in *.
    change (trieSetCheck (_daAssignCell t new) new s) with t1 in Hloop.
    pose proof Hfnew as (Hnewb & Hnewc).
    assert (Hnnew1 : node t1 new) by (split; [lia|destruct Hs; lia]).
    set (obase := trieGetBase t old) in *.
    assert (Hobase : obase <= 0 \/ 3 <= obase <= TRIE_INDEX_MAX)
      by (apply (inv_base t H); exact Hnold).
    pose proof (small_getB t old H) as Hsob. fold obase in Hsob.
    pose proof (setBase_node_inv t1 new obase H1 Hnnew1 Hsob Hobase) as H2.
    set (t2 := trieSetBase t1 new obase) in *.
    assert (Hd2 : dasize t2 = dasize t)
      by (unfold t2; rewrite dasize_setB; exact Hd1).
    assert (HC2 : forall j, node t j -> trieGetCheck t2 j = trieGetCheck t j).
    { intros x Hx. unfold t2. rewrite getC_setB. apply Hu1; unfold nobody; auto. }
    assert (HCnew2 : trieGetCheck t2 new = s)
      by (unfold t2; rewrite getC_setB; exact Hc1).
    assert (Hlng : forall j, 0 <= j < dasize t -> lng j)
      by (intros; zlia).
    assert (HB2 : forall j, node t j -> trieGetBase t2 j = trieGetBase t j).
    { intros x Hx. unfold t2. rewrite getB_setB.
      - destruct (Z.eqb_spec x new) as [->|_];
          [destruct Hx; lia|apply Hu1; unfold nobody; auto].
      - apply (inv_wf t1 H1).
      - rewrite Hd1. exact Hnewb.
      - apply Hlng. destruct Hx. lia. }
    assert (Hfree2 : forall j, free t j -> j <> new -> free t2 j).
    { intros x Hx Hxn. destruct (Hf1 x Hx Hxn) as (Hxb & Hxc).
      split; [rewrite Hd2; destruct Hx; auto|].
      unfold t2. rewrite getC_setB. exact Hxc. }
    set (t3 := if obase >? 0
               then reindex_children t2 obase old new
                      (zrange 0 (Z.to_nat (MIN_VAL TRIE_CHAR_MAX
                                             (TRIE_INDEX_MAX - obase))))
               else t2) in *.
    assert (Hstep3 :
      da_inv t3 /\ dasize t3 = dasize t2 /\ same_pool t2 t3 /\
      (forall j, trieGetBase t3 j = trieGetBase t2 j) /\
      (forall j, lng j ->
         trieGetCheck t3 j = trieGetCheck t2 j \/
         (trieGetCheck t2 j = old /\ trieGetCheck t3 j = new))).
    { unfold t3. destruct (obase >? 0).
      - apply reindex_children_step; auto.
        + apply zrange_byte.
          destruct (min_val_byte (TRIE_INDEX_MAX - obase)); lia.
        + destruct Hnold. lia.
        + lia.
        + rewrite HCnew2. auto.
      - split; [auto|]. split; [auto|]. split; [apply same_pool_refl|].
        split; auto. }
    destruct Hstep3 as (H3 & Hd3 & Hp3 & HB3 & HC3).
    assert (HC3s : forall j, node t j -> trieGetCheck t j = s ->
                             trieGetCheck t3 j = s).
    { intros x Hx Hxs. destruct (HC3 x (Hlng x ltac:(destruct Hx; lia)))
        as [E|(E & _)]; rewrite HC2 in E by exact Hx; [congruence|].
      exfalso. apply Holds. congruence. }
    assert (Hnode3 : forall j, node t j -> node t3 j).
    { intros x Hx. pose proof Hx as (Hxb & Hxc).
      split; [rewrite Hd3, Hd2; exact Hxb|].
      destruct (HC3 x (Hlng x ltac:(lia))) as [E|(_ & E)]; rewrite E;
        [rewrite HC2 by exact Hx; exact Hxc|lia]. }
    assert (Hfree3 : forall j, free t j -> j <> new -> free t3 j).
    { intros x Hx Hxn. destruct (Hfree2 x Hx Hxn) as (Hxb & Hxc).
      split; [rewrite Hd3; exact Hxb|].
      destruct (HC3 x (Hlng x ltac:(destruct Hx; lia))) as [E|(E & _)];
        [rewrite E; exact Hxc|lia]. }
    destruct (_daFreeCell fuel t3 old) as [t4|] eqn:Efree; [|discriminate].
    destruct (daFreeCell_step fuel t3 t4 old H3 (Hnode3 old Hnold) Hold3 Efree)
      as (H4 & Hd4 & Hp4 & Hu4 & Hf4 & _).
    assert (Hnode4 : forall j, node t j -> j <> old -> node t4 j).
    { intros x Hx Hxo. apply (keeps_used_node (only old) t3 t4 x Hu4);
        [lia|apply Hnode3; exact Hx|exact Hxo]. }
    (* the cell [j] across this round *)
    assert (Hj4 : untouched t t4 j).
    { destruct (Hu4 j (Hnode3 j Hj)) as (EC & EB); [unfold only; exact Hjold|].
      split.
      - rewrite EC.
        destruct (HC3 j (Hlng j ltac:(destruct Hj; lia))) as [E|(E & _)].
        + rewrite E. apply HC2. exact Hj.
        + exfalso. rewrite HC2 in E by exact Hj. contradiction.
      - rewrite EB, HB3. apply HB2. exact Hj. }
    destruct (IH t4 t' s ob nb H4) with (j := j) as (Hj' & HjC' & HjB'); auto.
    + intros x Hx. destruct (Hsyms x (or_intror Hx)) as (Hxb & Hxc & Hxf).
      assert (Hxs : x <> sym) by (intros ->; contradiction).
      assert (Hlx : lng (ob + x)) by (unfold byte in *; zlia).
      destruct (child_is_node t s (ob + x) H Hs Hlx Hxc) as (Hnx & _ & _).
      split; [exact Hxb|]. split.
      * destruct (Hu4 (ob + x) (Hnode3 _ Hnx)) as (E & _);
          [unfold only, old; lia|].
        rewrite E. apply HC3s; auto.
      * apply Hf4; [|unfold nobody; auto]. apply Hfree3; auto.
        unfold new. lia.
    + intros x Hx. destruct (Hjc x (or_intror Hx)) as (A & B).
      destruct Hj4 as (EC & _). rewrite EC. auto.
    + split; [exact Hj'|]. destruct Hj4 as (EC & EB).
      split; congruence.
Qed.

Lemma trieReIndex_frame (fuel : nat) (t t' : trie) (s nb : Z) :
  da_inv t -> node t s -> 3 <= trieGetBase t s <= TRIE_INDEX_MAX ->
  3 <= nb <= TRIE_INDEX_MAX ->
  (forall sym, In sym (_daFillSymbols t s) -> free t (nb + sym)) ->
  _trieReIndex fuel t s nb = Some t' ->
  trieGetBase t' s = nb /\
  forall j, node t j -> trieGetCheck t j <> s ->
    trieGetCheck t (trieGetCheck t j) <> s ->
    node t' j /\ trieGetCheck t' j = trieGetCheck t j /\
    (j <> s -> trieGetBase t' j = trieGetBase t j).
Proof.
  intros H Hs Hb Hnb Hfree Hre. unfold _trieReIndex in Hre.
  destruct (fillSymbols_spec t s H Hb) as (Hnd & Hin).
  destruct (reindex_loop fuel t s (trieGetBase t s) nb (_daFillSymbols t s))
    as [t1|] eqn:Eloop; [|discriminate].
  inversion Hre; subst t'; clear Hre.
  assert (Hsyms : forall sym, In sym (_daFillSymbols t s) ->
            byte sym /\ trieGetCheck t (trieGetBase t s + sym) = s /\
            free t (nb + sym)).
  { intros sym Hsym. apply Hin in Hsym as Hsym'.
    split; [unfold byte; lia|]. split; [apply Hsym'|]. apply Hfree. exact Hsym. }
  pose proof (inv_wf t H) as Hwf.
  destruct (inv_head t H) as (_ & H2 & _).
  assert (Hfree1 : free t DA_POOL_FREE) by apply (inv_head t H).
  destruct (reindex_loop_step fuel (_daFillSymbols t s) t t1 s
              (trieGetBase t s) nb DA_POOL_FREE H Hs (small_getB t s H) Hnb Hnd
              Hsyms Hfree1) as (H1 & Hd1 & _ & Hs1 & _).
  { intros sym Hsym. apply Hin in Hsym. unfold DA_POOL_FREE. lia. }
  { exact Eloop. }
  split.
  { rewrite getB_setB; [rewrite Z.eqb_refl; reflexivity|apply (inv_wf t1 H1)| |].
    - destruct Hs1. lia.
    - destruct Hs1. destruct (inv_wf t1 H1). zlia. }
  intros j Hj Hjc Hjcc.
  destruct (reindex_loop_frame fuel (_daFillSymbols t s) t t1 s
              (trieGetBase t s) nb H Hs (small_getB t s H) Hnb Hnd Hsyms Eloop
              j Hj) as (Hj1 & EC & EB).
  { intros sym Hsym. destruct (Hsyms sym Hsym) as (_ & Hc & _).
    split; intros E; [apply Hjc|apply Hjcc]; rewrite E; exact Hc. }
  split; [|split].
  - destruct Hj1 as (Hjb & Hjn). split; [rewrite dasize_setB; exact Hjb|].
    rewrite getC_setB. exact Hjn.
  - rewrite getC_setB. exact EC.
  - intros Hjs. rewrite getB_setB.
    + destruct (Z.eqb_spec j s); [contradiction|exact EB].
    + apply (inv_wf t1 H1).
    + destruct Hs1. lia.
    + destruct Hj1. destruct (inv_wf t1 H1). zlia.
Qed.

(** [_daInsert] on success: the arc [c] leaves [s] for the returned cell,
    and every cell in use that neither hangs from [s] nor from a child
    of [s] keeps its check and, unless it is [s], its base. *)
Lemma daInsert_frame (fuel : nat) (t t' : trie) (s c next : Z) :
  da_inv t -> node t s -> byte c ->
  _daInsert fuel t s c = Some (next, t') -> next <> TRIE_INDEX_ERROR ->
  trieGetBase t' s + c = next /\ trieGetCheck t' next = s /\
  3 <= trieGetBase t' s <= TRIE_INDEX_MAX /\
  (forall j, node t j -> trieGetCheck t j <> s ->
     trieGetCheck t (trieGetCheck t j) <> s ->
     node t' j /\ trieGetCheck t' j = trieGetCheck t j /\
     (j <> s -> trieGetBase t' j = trieGetBase t j)) /\
  (trieGetCheck t (trieGetBase t s + c) <> s \/ trieGetBase t s <= 0 ->
   ~ node t next /\ trieGetBase t' next < 0).
Proof.
  intros H Hs Hc Hins Hok.
  pose proof (inv_wf t H) as Hwf.
  destruct (Z_le_gt_dec (trieGetBase t s) 0) as [Hb|Hb].
  { destruct (daInsert_leaf_step fuel t t' s c next H Hs Hc Hb Hins)
      as (H' & Hd & Hp & Hn & _ & Hres).
    destruct Hres as [(E & _)|(Hn3 & Hnn & Hnn' & Hcn & Hbn & Hbs)];
      [contradiction|].
    assert (Esum : trieGetBase t' s + c = next).
    { unfold _daInsert in Hins.
      destruct (Z.gtb_spec (trieGetBase t s) 0); [lia|].
      change (symbols_add symbols_new c) with [c] in Hins.
      destruct (_daFindFreeBase fuel t [c]) as [[nb t1]|] eqn:Efind;
        [|discriminate].
      destruct (daFindFreeBase_step fuel t [c] nb t1 H ltac:(discriminate)
                  ltac:(constructor; auto) Efind) as (Hg & Hres).
      pose proof (grown_inv _ _ Hg) as H1.
      unfold TRIE_INDEX_ERROR in *.
      destruct (Z.eqb_spec 0 nb) as [E0|E0].
      { inversion Hins; subst. contradiction. }
      destruct Hres as [|(Hnb & Hfree)]; [lia|].
      specialize (Hfree c (or_introl eq_refl)).
      pose proof (grown_node _ _ s Hg Hs) as Hs1.
      assert (H2 : da_inv (trieSetBase t1 s nb))
        by (apply setBase_node_inv; [exact H1|exact Hs1|zlia|right; exact Hnb]).
      set (t2 := trieSetBase t1 s nb) in *.
      assert (Hs2 : node t2 s).
      { destruct Hs1. split; [unfold t2; rewrite dasize_setB; auto|].
        unfold t2. rewrite getC_setB. auto. }
      assert (Hf2 : free t2 (nb + c)).
      { destruct Hfree. split; [unfold t2; rewrite dasize_setB; auto|].
        unfold t2. rewrite getC_setB. auto. }
      assert (Hne1 : nb + c <> 1) by (unfold byte in Hc; lia).
      destruct (claim_step t2 s (nb + c) H2 Hf2 Hne1 Hs2)
        as (_ & _ & _ & Hu3 & _).
      cbn [daInsert_claim] in Hins. inversion Hins; subst next t'.
      destruct (Hu3 s Hs2) as (_ & B); [unfold nobody; auto|].
      cbn [daInsert_claim snd] in B. rewrite B. unfold t2.
      rewrite getB_setB; [rewrite Z.eqb_refl; reflexivity|apply (inv_wf t1 H1)| |].
      - destruct Hs1. lia.
      - eapply node_lng; eauto. }
    split; [exact Esum|]. split; [exact Hcn|]. split; [exact Hbs|].
    split; [intros j Hj _ _; apply Hn; exact Hj|].
    intros _. split; assumption. }
  unfold _daInsert in Hins.
  destruct (Z.gtb_spec (trieGetBase t s) 0); [|lia].
  set (b := trieGetBase t s) in *.
  assert (Hb3 : 3 <= b <= TRIE_INDEX_MAX)
    by (destruct (inv_base t H s Hs); unfold b in *; lia).
  assert (Hlnext : lng (b + c)) by (unfold byte in Hc; zlia).
  destruct (Z.eqb_spec (trieGetCheck t (b + c)) s) as [Echild|Echild].
  { inversion Hins; subst next t'. fold b.
    split; [reflexivity|]. split; [exact Echild|]. split; [exact Hb3|].
    split; [intros j Hj _ _; auto|]. intros [E|E]; [contradiction|lia]. }
  assert (Hprep :
    let p := if b >? TRIE_INDEX_MAX - c then (false, t)
             else _daPrepareSpace t (b + c) in
    grown t (snd p) /\ (fst p = true -> free (snd p) (b + c))).
  { cbv zeta. destruct (b >? TRIE_INDEX_MAX - c).
    - cbn [fst snd]. split; [apply grown_refl; auto|discriminate].
    - apply prepareSpace_step; auto. }
  cbv zeta in Hprep.
  destruct (if b >? TRIE_INDEX_MAX - c then (false, t)
            else _daPrepareSpace t (b + c)) as [fits t1].
  cbn [fst snd] in Hprep. destruct Hprep as (Hg1 & Hfits).
  pose proof (grown_inv _ _ Hg1) as H1.
  pose proof (grown_node _ _ s Hg1 Hs) as Hs1.
  pose proof Hg1 as (_ & Hd1 & Hp1 & _).
  assert (Hb1 : trieGetBase t1 s = b) by (apply grown_B; auto).
  destruct fits; cbn [negb] in Hins.
  - specialize (Hfits eq_refl).
    destruct (claim_step t1 s (b + c) H1 Hfits ltac:(unfold byte in Hc; lia) Hs1)
      as (H2 & Hd2 & Hp2 & Hu2 & _ & Hc2 & Hbn & Hn3).
    inversion Hins; subst next t'. cbn [daInsert_claim snd] in *.
    set (t2 := trieSetCheck (_daAssignCell t1 (b + c)) (b + c) s) in *.
    assert (Hu : forall j, node t j -> node t2 j /\ untouched t t2 j).
    { intros j Hj. pose proof (grown_node _ _ j Hg1 Hj) as Hj1.
      destruct (Hu2 j Hj1) as (A & B); [unfold nobody; auto|].
      split.
      - apply (keeps_used_node nobody t1 t2 j Hu2);
          [lia|exact Hj1|unfold nobody; auto].
      - split; [rewrite A; apply grown_C; auto|rewrite B; apply grown_B; auto]. }
    destruct (Hu s Hs) as (_ & _ & Bs). fold b in Bs.
    split; [rewrite Bs; reflexivity|]. split; [exact Hc2|].
    split; [rewrite Bs; exact Hb3|].
    split.
    + intros j Hj _ _. destruct (Hu j Hj) as (A & B & C). auto.
    + intros _. split; [|exact Hbn].
      intros Hnn. destruct Hfits as (_ & Hneg).
      rewrite (grown_C t t1 _ Hg1 Hnn) in Hneg. destruct Hnn. lia.
  - set (symbols := symbols_add (_daFillSymbols t1 s) c) in *.
    destruct (fillSymbols_spec t1 s H1 ltac:(rewrite Hb1; exact Hb3))
      as (_ & Hin1).
    destruct (symbols_add_spec (_daFillSymbols t1 s) c) as (Hcin & Hsub & Hsup).
    fold symbols in Hcin, Hsub, Hsup.
    assert (Hbytes : Forall byte symbols).
    { apply Forall_forall. intros x Hx. destruct (Hsup x Hx) as [->|Hx1]; auto.
      apply Hin1 in Hx1. unfold byte. lia. }
    destruct (_daFindFreeBase fuel t1 symbols) as [[nb t2]|] eqn:Efind;
      [|discriminate].
    destruct (daFindFreeBase_step fuel t1 symbols nb t2 H1
                (symbols_add_nonempty _ _) Hbytes Efind) as (Hg2 & Hres).
    pose proof (grown_inv _ _ Hg2) as H2.
    pose proof (grown_node _ _ s Hg2 Hs1) as Hs2.
    pose proof Hg2 as (_ & Hd2 & Hp2 & _).
    pose proof (grown_trans _ _ _ Hg1 Hg2) as Hg.
    unfold TRIE_INDEX_ERROR in *.
    destruct (Z.eqb_spec 0 nb) as [E0|E0].
    { inversion Hins; subst next t'. contradiction. }
    destruct Hres as [|(Hnb & Hfree)]; [lia|].
    assert (Hb2 : trieGetBase t2 s = b)
      by (rewrite (grown_B t1 t2 s Hg2 Hs1); exact Hb1).
    destruct (fillSymbols_spec t2 s H2 ltac:(rewrite Hb2; exact Hb3))
      as (_ & Hin2).
    assert (Hsub2 : forall sym, In sym (_daFillSymbols t2 s) ->
                                In sym (_daFillSymbols t1 s)).
    { intros sym Hsym. apply Hin2 in Hsym.
      destruct Hsym as (Hsb & Hsm & _ & Hsc). rewrite Hb2 in Hsm, Hsc.
      assert (Hl : lng (b + sym)) by zlia.
      apply (grown_child_iff t1 t2 s (b + sym) H1 Hg2 Hs1 Hl) in Hsc.
      apply Hin1. rewrite Hb1. split; [exact Hsb|]. split; [exact Hsm|].
      split; [|exact Hsc].
      destruct (child_is_node t1 s (b + sym) H1 Hs1 Hl Hsc) as ((? & _) & _).
      lia. }
    assert (Hcnot : ~ In c (_daFillSymbols t2 s)).
    { intros Hcin2. apply Hin2 in Hcin2. destruct Hcin2 as (_ & _ & _ & Hcc).
      rewrite Hb2 in Hcc.
      apply (grown_child_iff t1 t2 s (b + c) H1 Hg2 Hs1 Hlnext) in Hcc.
      apply (grown_child_iff t t1 s (b + c) H Hg1 Hs Hlnext) in Hcc.
      contradiction. }
    destruct (_trieReIndex fuel t2 s nb) as [t3|] eqn:Ere; [|discriminate].
    assert (Hfree2 : forall sym, In sym (_daFillSymbols t2 s) ->
                                 free t2 (nb + sym))
      by (intros sym Hsym; apply Hfree, Hsub, Hsub2, Hsym).
    destruct (trieReIndex_step fuel t2 t3 s nb (nb + c) H2 Hs2
                ltac:(rewrite Hb2; exact Hb3) Hnb Hfree2)
      as (H3 & Hd3 & Hp3 & Hs3 & Hk3).
    { apply Hfree, Hcin. }
    { intros sym Hsym E. assert (sym = c) by lia. subst. contradiction. }
    { exact Ere. }
    destruct (trieReIndex_frame fuel t2 t3 s nb H2 Hs2
                ltac:(rewrite Hb2; exact Hb3) Hnb Hfree2 Ere) as (Hbs3 & Hfr3).
    destruct (claim_step t3 s (nb + c) H3 Hk3 ltac:(unfold byte in Hc; lia) Hs3)
      as (H4 & Hd4 & Hp4 & Hu4 & _ & Hc4 & Hbn & Hn3).
    inversion Hins; subst next t'. cbn [daInsert_claim snd] in *.
    set (t4 := trieSetCheck (_daAssignCell t3 (nb + c)) (nb + c) s) in *.
    destruct (Hu4 s Hs3) as (_ & Bs); [unfold nobody; auto|].
    split; [rewrite Bs, Hbs3; reflexivity|]. split; [exact Hc4|].
    split; [rewrite Bs, Hbs3; exact Hnb|].
    split.
    + intros j Hj Hjc Hjcc.
      pose proof (grown_node _ _ j Hg Hj) as Hj2.
      pose proof (grown_C _ _ j Hg Hj) as EC2.
      pose proof (grown_B _ _ j Hg Hj) as EB2.
      destruct (Hfr3 j Hj2) as (Hj3 & EC3 & EB3).
      { rewrite EC2. exact Hjc. }
      { rewrite EC2. intros E.
        apply (grown_child_iff t t2 s (trieGetCheck t j) H Hg Hs) in E;
          [contradiction|].
        pose proof (small_getC t j H). zlia. }
      destruct (Hu4 j Hj3) as (A & B); [unfold nobody; auto|].
      split; [|split].
      * apply (keeps_used_node nobody t3 t4 j Hu4);
          [lia|exact Hj3|unfold nobody; auto].
      * rewrite A, EC3. exact EC2.
      * intros Hjs. rewrite B, EB3 by exact Hjs. exact EB2.
    + intros _. split; [|exact Hbn].
      intros Hnn. destruct (Hfree c Hcin) as (_ & Hneg).
      rewrite (grown_C t t2 _ Hg Hnn) in Hneg. destruct Hnn. lia.
Qed.

(** * A key can be looked up after it has been added *)

Lemma c_string_nonzero (l : list Z) : nonzero (c_string l).
Proof.
  induction l as [|c l IH]; cbn [c_string]; [constructor|].
  destruct (Z.eqb_spec c 0); [constructor|constructor; auto].
Qed.

Lemma c_string_id (p : cstr) : nonzero p -> c_string p = p.
Proof.
  induction 1 as [|c p Hc _ IH]; cbn [c_string]; [reflexivity|].
  destruct (Z.eqb_spec c 0); [contradiction|rewrite IH; reflexivity].
Qed.

Lemma internalKey_nonzero (t : trie) (k : list Z) : nonzero (internalKey t k).
Proof. apply c_string_nonzero. Qed.

Lemma trieWalk_Some (t : trie) (s c s' : Z) :
  _trieWalk t s c = Some s' <->
  trieGetCheck t (trieGetBase t s + c) = s /\ s' = trieGetBase t s + c.
Proof.
  unfold _trieWalk. destruct (Z.eqb_spec (trieGetCheck t (trieGetBase t s + c)) s).
  - split; [intros E; inversion E; auto|intros (_ & ->); reflexivity].
  - split; [discriminate|intros (E & _); contradiction].
Qed.

Lemma walk_branches_arcs (p : cstr) :
  forall t s, nonzero p ->
  exists pre q s',
    p = pre ++ q /\ arcs t s pre s' /\
    ((walk_branches t s p = NoArc s' q /\ trieBranchEnd t s' = false /\
      _trieWalk t s' (deref q) = None) \/
     (walk_branches t s p = InTail s' q /\ trieBranchEnd t s' = true) \/
     (exists s'', q = [] /\ walk_branches t s p = InTail s'' [] /\
        trieBranchEnd t s' = false /\ _trieWalk t s' 0 = Some s'')).
Proof.
  induction p as [|c p IH]; intros t s Hp.
  - exists [], [], s. split; [reflexivity|]. split; [reflexivity|].
    cbn [walk_branches deref hd]. unfold TRIE_CHAR_TERM.
    destruct (trieBranchEnd t s) eqn:Eb; [right; left; auto|].
    destruct (_trieWalk t s 0) as [s''|] eqn:Ew.
    + right. right. exists s''. auto.
    + left. auto.
  - apply Forall_cons_iff in Hp as (Hc & Hp). cbn [walk_branches deref hd].
    destruct (trieBranchEnd t s) eqn:Eb.
    { exists [], (c :: p), s. split; [reflexivity|]. split; [reflexivity|].
      right. left. auto. }
    destruct (_trieWalk t s c) as [s1|] eqn:Ew.
    + destruct (Z.eqb_spec 0 c) as [E|_]; [congruence|].
      destruct (IH t s1 Hp) as (pre & q & s' & Epq & Harcs & Hexit).
      exists (c :: pre), q, s'. split; [cbn [app]; congruence|].
      apply trieWalk_Some in Ew as (Ec & ->).
      split; [|exact Hexit]. cbn [arcs]. split; [exact Hc|].
      rewrite trieBranchEnd_base in Eb. apply Z.ltb_ge in Eb. auto.
    + exists [], (c :: p), s. split; [reflexivity|]. split; [reflexivity|].
      left. cbn [deref hd]. auto.
Qed.

Lemma walk_arcs (pre : cstr) :
  forall t s s' q, arcs t s pre s' ->
    walk_branches t s (pre ++ q) = walk_branches t s' q.
Proof.
  induction pre as [|c pre IH]; intros t s s' q Harcs; cbn [arcs] in Harcs.
  - subst s'. reflexivity.
  - destruct Harcs as (Hc & Hb & Hch & Hrest).
    cbn [app]. destruct q as [|d q]; cbn [walk_branches];
      rewrite trieBranchEnd_base;
      (destruct (Z.ltb_spec (trieGetBase t s) 0); [lia|]);
      cbn [deref hd]; unfold _trieWalk; rewrite Hch, Z.eqb_refl;
      (destruct (Z.eqb_spec 0 c); [congruence|]);
      apply (IH t _ s'); exact Hrest.
Qed.

Lemma arcs_app (pre : cstr) :
  forall t s s1 r s2, arcs t s pre s1 -> arcs t s1 r s2 -> arcs t s (pre ++ r) s2.
Proof.
  induction pre as [|c pre IH]; intros t s s1 r s2 H1 H2; cbn [arcs app] in *.
  - subst s1. exact H2.
  - destruct H1 as (A & B & C & D). repeat split; auto. eapply IH; eauto.
Qed.

Lemma up_path_node (n : nat) (t : trie) (s : Z) :
  da_inv t -> up_path n t DA_POOL_ROOT s -> node t s.
Proof.
  intros H Hup. destruct n; cbn [up_path] in Hup.
  - subst s. apply root_node. exact H.
  - apply Hup.
Qed.

(** A cell at most [n] arcs below the root neither hangs from a cell
    [n] arcs below the root nor from one of its children. *)
Lemma depth_not_below (t : trie) (n k : nat) (s j : Z) :
  da_inv t -> up_path n t DA_POOL_ROOT s -> (k <= n)%nat ->
  up_path k t DA_POOL_ROOT j ->
  trieGetCheck t j <> s /\ trieGetCheck t (trieGetCheck t j) <> s.
Proof.
  intros H Hs Hk Hj.
  pose proof (up_path_node n t s H Hs) as (Hsb & _).
  destruct (inv_head t H) as (H0 & H2 & _).
  destruct k as [|k]; cbn [up_path] in Hj.
  { subst j. rewrite H2. split; [lia|]. rewrite H0. lia. }
  destruct Hj as (_ & _ & _ & Hj). split.
  { intros E. rewrite E in Hj.
    pose proof (up_path_length _ _ _ _ _ Hj Hs). lia. }
  destruct k as [|k]; cbn [up_path] in Hj.
  { rewrite Hj, H2. lia. }
  destruct Hj as (_ & _ & _ & Hj). intros E. rewrite E in Hj.
  pose proof (up_path_length _ _ _ _ _ Hj Hs). lia.
Qed.

Lemma above_kept_path (n : nat) (t t' : trie) (s : Z) :
  above_kept n t t' s ->
  forall k j, (k <= n)%nat -> up_path k t DA_POOL_ROOT j ->
              up_path k t' DA_POOL_ROOT j.
Proof.
  intros Hk k. induction k as [|k IH]; intros j Hle Hj; cbn [up_path] in *;
    [exact Hj|].
  destruct Hj as (A & B & C & D).
  destruct (Hk j (S k) Hle) as (Hn & Hc & _); [cbn [up_path]; auto|].
  split; [exact A|]. split; [exact Hn|]. split; [exact C|].
  rewrite Hc. apply IH; [lia|exact D].
Qed.

(** [_daInsert] below a cell [n] arcs under the root keeps the cells
    that are at most [n] arcs under the root. *)
Lemma daInsert_above (fuel : nat) (t t' : trie) (n : nat) (s c next : Z) :
  da_inv t -> up_path n t DA_POOL_ROOT s -> byte c ->
  _daInsert fuel t s c = Some (next, t') -> next <> TRIE_INDEX_ERROR ->
  da_inv t' /\ same_pool t t' /\ above_kept n t t' s /\
  trieGetBase t' s + c = next /\ trieGetCheck t' next = s /\
  3 <= trieGetBase t' s <= TRIE_INDEX_MAX /\
  up_path (S n) t' DA_POOL_ROOT next /\
  (trieGetCheck t (trieGetBase t s + c) <> s \/ trieGetBase t s <= 0 ->
   ~ node t next /\ trieGetBase t' next < 0).
Proof.
  intros H Hs Hc Hins Hok.
  pose proof (up_path_node n t s H Hs) as Hns.
  destruct (daInsert_step fuel t t' s c next H Hns Hc Hins)
    as (H' & _ & Hp & _ & Hnext).
  destruct Hnext as [|(Hnn & Hn3)]; [contradiction|].
  destruct (daInsert_frame fuel t t' s c next H Hns Hc Hins Hok)
    as (Esum & Ech & Hb & Hfr & Hnew).
  assert (Hk : above_kept n t t' s).
  { intros j k Hle Hj.
    destruct (depth_not_below t n k s j H Hs Hle Hj) as (A & B).
    apply Hfr; auto. apply (up_path_node k); auto. }
  split; [exact H'|]. split; [exact Hp|]. split; [exact Hk|].
  split; [exact Esum|]. split; [exact Ech|]. split; [exact Hb|].
  split; [|exact Hnew].
  cbn [up_path]. split; [unfold DA_POOL_ROOT; lia|]. split; [exact Hnn|].
  split; [exact Hn3|]. rewrite Ech.
  apply (above_kept_path n t t' s Hk n s); auto.
Qed.

Lemma arcs_depth (pre : cstr) :
  forall t s s' k,
    da_inv t -> up_path k t DA_POOL_ROOT s -> Forall byte pre ->
    arcs t s pre s' -> up_path (k + length pre) t DA_POOL_ROOT s'.
Proof.
  induction pre as [|c pre IH]; intros t s s' k H Hs Hb Harcs;
    cbn [arcs length] in *.
  - subst s'. rewrite Nat.add_0_r. exact Hs.
  - destruct Harcs as (Hc & Hbs & Hch & Hrest).
    apply Forall_cons_iff in Hb as (Hcb & Hb).
    rewrite Nat.add_succ_r. change (S (k + length pre)) with (S k + length pre)%nat.
    apply (IH t (trieGetBase t s + c)); auto.
    pose proof (up_path_node k t s H Hs) as Hns.
    pose proof (small_getB t s H) as Hsm.
    destruct (child_is_node t s (trieGetBase t s + c) H Hns) as (Hn & Hn3 & _);
      [unfold byte in Hcb; zlia|exact Hch|].
    cbn [up_path]. split; [unfold DA_POOL_ROOT; lia|]. split; [exact Hn|].
    split; [exact Hn3|]. rewrite Hch. exact Hs.
Qed.

Lemma arcs_kept (pre : cstr) :
  forall t t' s s' x k n,
    da_inv t -> up_path k t DA_POOL_ROOT s -> Forall byte pre ->
    arcs t s pre s' -> above_kept n t t' x ->
    (k + length pre <= n)%nat ->
    (forall m, (m < k + length pre)%nat -> ~ up_path m t DA_POOL_ROOT x) ->
    arcs t' s pre s'.
Proof.
  induction pre as [|c pre IH]; intros t t' s s' x k n H Hs Hb Harcs Hk Hle Hx;
    cbn [arcs length] in *; [exact Harcs|].
  destruct Harcs as (Hc & Hbs & Hch & Hrest).
  apply Forall_cons_iff in Hb as (Hcb & Hb).
  pose proof (up_path_node k t s H Hs) as Hns.
  pose proof (small_getB t s H) as Hsm.
  destruct (child_is_node t s (trieGetBase t s + c) H Hns) as (Hn & Hn3 & _);
    [unfold byte in Hcb; zlia|exact Hch|].
  assert (Hs1 : up_path (S k) t DA_POOL_ROOT (trieGetBase t s + c)).
  { cbn [up_path]. split; [unfold DA_POOL_ROOT; lia|]. split; [exact Hn|].
    split; [exact Hn3|]. rewrite Hch. exact Hs. }
  destruct (Hk s k ltac:(lia) Hs) as (_ & _ & EB).
  rewrite EB by (intros ->; apply (Hx k); [lia|exact Hs]).
  destruct (Hk _ (S k) ltac:(lia) Hs1) as (_ & EC & _).
  split; [exact Hc|]. split; [exact Hbs|]. split; [rewrite EC; exact Hch|].
  apply (IH t t' _ s' x (S k) n); auto; [lia|].
  intros m Hm. apply Hx. lia.
Qed.

(** ** The tail pool invariant *)

Lemma pool_sizes_bounds (n : Z) : pool_sizes n -> 0 <= n <= TRIE_INDEX_MAX.
Proof.
  intros [->|[->|(k & Hk & ->)]]; [zlia|zlia|].
  assert (0 < 2 ^ k) by (apply Z.pow_pos_nonneg; lia).
  assert (2 ^ k <= 2 ^ 29) by (apply Z.pow_le_mono_r; lia).
  change (2 ^ 29) with 536870912 in *. zlia.
Qed.

Lemma chain_ok_ext (L : list Z) :
  forall t t' f,
    chain_ok t f L -> tailsize t <= tailsize t' ->
    (forall x, In x L ->
       next_free (tail_at t' x) = next_free (tail_at t x)) ->
    chain_ok t' f L.
Proof.
  induction L as [|x L IH]; intros t t' f Hc Hsz Hsame; cbn [chain_ok] in *;
    [exact Hc|].
  destruct Hc as (Hf & Hx & Hn & Hrest).
  rewrite (Hsame x (or_introl eq_refl)).
  split; [exact Hf|]. split; [lia|].
  split; [exact Hn|]. apply (IH t); auto.
  intros y Hy. apply Hsame. right. exact Hy.
Qed.

Lemma chain_ok_members (L : list Z) :
  forall t f, chain_ok t f L ->
    forall y, In y L ->
      f <= y /\ 0 < y < tailsize t /\ 0 <= next_free (tail_at t y).
Proof.
  induction L as [|x L IH]; intros t f Hc y Hy; cbn [chain_ok] in *;
    [destruct Hy|].
  destruct Hc as (Hf & Hx & Hn & Hrest).
  destruct Hy as [<-|Hy].
  - split; [lia|]. split; [exact Hx|]. lia.
  - destruct (IH t _ Hrest y Hy) as (A & B & D).
    split; [|auto]. destruct L as [|z L]; [destruct Hy|].
    cbn [chain_ok] in Hrest. destruct Hrest as (Ez & Hz & _). lia.
Qed.

Lemma tail_at_set_tail (t : trie) (i x : Z) (e : trieEntry) :
  0 <= i -> 0 <= x ->
  tail_at (set_tail t i e) x =
    if (x =? i) && (x <? Z.of_nat (length (tails t))) then e else tail_at t x.
Proof.
  intros Hi Hx. unfold tail_at, set_tail. cbn [tails with_tails].
  destruct (Z.eqb_spec x i) as [->|Hne]; cbn [andb].
  - destruct (Z.ltb_spec i (Z.of_nat (length (tails t)))).
    + apply nth_upd_same. lia.
    + rewrite !nth_overflow; [reflexivity|lia|rewrite upd_length; lia].
  - apply nth_upd_other. lia.
Qed.

Lemma sfx_nonzero_upd (l : list trieEntry) :
  forall n e, Forall sfx_nonzero l -> sfx_nonzero e ->
              Forall sfx_nonzero (upd l n e).
Proof.
  induction l as [|h l IH]; intros [|n] e Hl He; simpl; auto;
    inversion Hl; subst; constructor; auto.
Qed.

(** Writing a slot that is not on the free chain, or writing without
    changing the link, keeps the pool invariant. *)
Lemma pool_ok_set_tail (t : trie) (i : Z) (e : trieEntry) :
  pool_ok t -> 0 <= i -> sfx_nonzero e ->
  (next_free (tail_at t i) = -1 \/
   next_free e = next_free (tail_at t i)) ->
  pool_ok (set_tail t i e).
Proof.
  intros (Hlen & Hsz & (L & Hch) & Hnz) Hi He Hcase.
  split; [unfold set_tail; cbn [tails with_tails tailsize];
          rewrite upd_length; exact Hlen|].
  split; [exact Hsz|]. split.
  - exists L. apply (chain_ok_ext L t); [exact Hch|cbn; lia|].
    intros x Hx.
    destruct (chain_ok_members L t _ Hch x Hx) as (_ & Hxb & Hxn).
    rewrite tail_at_set_tail by lia.
    destruct (Z.eqb_spec x i) as [->|_]; cbn [andb]; [|auto].
    destruct (i <? Z.of_nat (length (tails t))); [|auto].
    destruct Hcase as [E|E]; [lia|auto].
  - apply sfx_nonzero_upd; auto.
Qed.

Lemma fold_next_free_at (k : nat) :
  forall lo t,
    0 <= lo -> lo + Z.of_nat k <= Z.of_nat (length (tails t)) ->
    let t' := fold_left (fun t i => set_next_free t i (i + 1)) (zrange lo k) t in
    length (tails t') = length (tails t) /\
    forall x, 0 <= x ->
      tail_at t' x =
        if (lo <=? x) && (x <? lo + Z.of_nat k)
        then entry_set_next_free (tail_at t x) (x + 1) else tail_at t x.
Proof.
  induction k as [|k IH]; intros lo t Hlo Hlen; cbn [zrange fold_left].
  - cbv zeta. split; [reflexivity|]. intros x Hx.
    destruct (Z.leb_spec lo x); destruct (Z.ltb_spec x (lo + Z.of_nat 0));
      cbn [andb]; try reflexivity; lia.
  - set (t1 := set_next_free t lo (lo + 1)).
    assert (Hlen1 : length (tails t1) = length (tails t))
      by (unfold t1, set_next_free, set_tail; cbn [tails with_tails];
          apply upd_length).
    destruct (IH (lo + 1) t1 ltac:(lia) ltac:(rewrite Hlen1; lia)) as (A & B).
    cbv zeta in *. split; [rewrite A; exact Hlen1|].
    intros x Hx. rewrite B by exact Hx.
    assert (E : tail_at t1 x =
                if x =? lo then entry_set_next_free (tail_at t lo) (lo + 1)
                else tail_at t x).
    { unfold t1, set_next_free. rewrite tail_at_set_tail by lia.
      destruct (Z.eqb_spec x lo) as [->|Hne]; cbn [andb]; [|reflexivity].
      destruct (Z.ltb_spec lo (Z.of_nat (length (tails t)))); [reflexivity|lia]. }
    rewrite E. rewrite Nat2Z.inj_succ.
    destruct (Z.eqb_spec x lo) as [Ex|Hne];
      destruct (Z.leb_spec (lo + 1) x); destruct (Z.leb_spec lo x); try lia;
      destruct (Z.ltb_spec x (lo + 1 + Z.of_nat k));
      destruct (Z.ltb_spec x (lo + Z.succ (Z.of_nat k))); try lia;
      cbn [andb]; try reflexivity.
    rewrite Ex. reflexivity.
Qed.

Lemma chain_ok_range (k : nat) :
  forall lo t,
    0 < lo -> lo + Z.of_nat (S k) <= tailsize t ->
    (forall i, lo <= i < lo + Z.of_nat (S k) ->
       next_free (tail_at t i) =
         if i =? lo + Z.of_nat k then 0 else i + 1) ->
    chain_ok t lo (zrange lo (S k)).
Proof.
  induction k as [|k IH]; intros lo t Hlo Hsz Hent.
  - cbn [zrange chain_ok].
    pose proof (Hent lo ltac:(lia)) as Hn.
    replace (lo + Z.of_nat 0) with lo in Hn by lia.
    rewrite Z.eqb_refl in Hn. rewrite Hn.
    split; [reflexivity|]. split; [lia|].
    split; [left; reflexivity|reflexivity].
  - change (zrange lo (S (S k))) with (lo :: zrange (lo + 1) (S k)).
    cbn [chain_ok].
    pose proof (Hent lo ltac:(lia)) as Hn.
    destruct (Z.eqb_spec lo (lo + Z.of_nat (S k))) as [E|_]; [lia|].
    rewrite Hn. split; [reflexivity|]. split; [lia|].
    split; [right; lia|]. apply IH; [lia|lia|].
    intros i Hi. rewrite (Hent i ltac:(lia)).
    replace (lo + 1 + Z.of_nat k) with (lo + Z.of_nat (S k)) by lia.
    reflexivity.
Qed.

Lemma tail_at_blank (t : trie) (i : Z) :
  Z.of_nat (length (tails t)) <= i -> tail_at t i = blankEntry.
Proof. intros H. unfold tail_at. apply nth_overflow. lia. Qed.

(** The slots of the old pool after [zrealloc]. *)
Lemma tail_at_resize (t : trie) (ns i : Z) :
  tailsize t <= ns -> 0 <= i < tailsize t ->
  nth (Z.to_nat i) (resize_tails (raw t) (tails t) (tailsize t) ns) blankEntry
  = tail_at t i.
Proof.
  intros Hns Hi. rewrite resize_tails_at by lia. rewrite Z2Nat.id by lia.
  destruct (Z.ltb_spec i (tailsize t)); [reflexivity|lia].
Qed.

Lemma trieNextPower_pool (n : Z) :
  pool_sizes n -> n <> TRIE_INDEX_MAX ->
  pool_sizes (_trieNextPower n) /\ n + 2 <= _trieNextPower n.
Proof.
  intros [->|[->|(k & Hk & ->)]] Hne; [|contradiction|].
  - change (_trieNextPower 0) with 3. split; [|lia].
    right. right. exists 0. split; [lia|reflexivity].
  - assert (Hpos : 0 < 2 ^ k) by (apply Z.pow_pos_nonneg; lia).
    destruct (Z.eq_dec k 29) as [->|Hk29].
    + rewrite trieNextPower_saturates by (vm_compute; discriminate).
      split; [right; left; reflexivity|]. vm_compute. discriminate.
    + assert (Hle : 2 ^ k <= 2 ^ 28) by (apply Z.pow_le_mono_r; lia).
      change (2 ^ 28) with 268435456 in Hle.
      destruct (trieNextPower_doubling (DA_POOL_BEGIN * 2 ^ k))
        as (k' & Hk' & Heq & Hgt & Hmin); [zlia|].
      pose proof (Hmin (k + 1) ltac:(lia)) as Hup.
      rewrite pow2_step in Hup by lia.
      specialize (Hup ltac:(unfold DA_POOL_BEGIN; lia)).
      assert (Hlow : k < k').
      { destruct (Z_lt_le_dec k k') as [|Hge]; [assumption|].
        assert (2 ^ k' <= 2 ^ k) by (apply Z.pow_le_mono_r; lia).
        rewrite Heq in Hgt. unfold DA_POOL_BEGIN in *. lia. }
      assert (k' = k + 1) by lia. subst k'.
      rewrite Heq. split.
      * right. right. exists (k + 1). split; [lia|reflexivity].
      * rewrite pow2_step by lia. unfold DA_POOL_BEGIN. lia.
Qed.

Lemma sfx_nonzero_tail_at (t : trie) (i : Z) :
  Forall sfx_nonzero (tails t) -> sfx_nonzero (tail_at t i).
Proof.
  intros H. unfold tail_at.
  destruct (Nat.lt_ge_cases (Z.to_nat i) (length (tails t))) as [Hlt|Hge].
  - rewrite Forall_forall in H. apply H. apply nth_In. exact Hlt.
  - rewrite nth_overflow by exact Hge. exact I.
Qed.

Lemma set_next_free_nonzero (t : trie) (i n : Z) :
  Forall sfx_nonzero (tails t) ->
  Forall sfx_nonzero (tails (set_next_free t i n)).
Proof.
  intros H. unfold set_next_free, set_tail. cbn [tails with_tails].
  apply sfx_nonzero_upd; [exact H|].
  apply (sfx_nonzero_tail_at t i H).
Qed.

Lemma fold_next_free_nonzero (l : list Z) :
  forall t, Forall sfx_nonzero (tails t) ->
    Forall sfx_nonzero
      (tails (fold_left (fun t i => set_next_free t i (i + 1)) l t)).
Proof.
  induction l as [|i l IH]; intros t H; cbn [fold_left]; [exact H|].
  apply IH, set_next_free_nonzero, H.
Qed.

Lemma resize_tails_nonzero (m : Z -> trieEntry) (l : list trieEntry)
  (old n : Z) :
  Forall sfx_nonzero l -> Forall sfx_nonzero (resize_tails m l old n).
Proof.
  intros H. apply Forall_forall. intros e He.
  destruct (In_nth _ e blankEntry He) as (k & Hk & <-).
  rewrite resize_tails_length in Hk. rewrite resize_tails_at by exact Hk.
  destruct (Z.of_nat k <? old).
  - destruct (Nat.lt_ge_cases k (length l)) as [Hlt|Hge].
    + rewrite Forall_forall in H. apply H. apply nth_In. exact Hlt.
    + rewrite nth_overflow by exact Hge. exact I.
  - unfold sfx_nonzero, unwritten. cbn [suffix].
    destruct (suffix (m (Z.of_nat k))); cbn [option_map]; [|exact I].
    apply c_string_nonzero.
Qed.

Lemma pool_ok_same_tails (t t' : trie) :
  pool_ok t -> tails t' = tails t -> tailsize t' = tailsize t ->
  first_free t' = first_free t -> pool_ok t'.
Proof.
  intros (Hlen & Hsz & (L & Hch) & Hnz) Et Es Ef.
  unfold pool_ok. rewrite Et, Es, Ef.
  split; [exact Hlen|]. split; [exact Hsz|]. split; [|exact Hnz].
  exists L. apply (chain_ok_ext L t); [exact Hch|lia|].
  intros x _. unfold tail_at. rewrite Et. auto.
Qed.

(** [_tailAllocCell] either fails, on a pool of [TRIE_INDEX_MAX] slots
    without a free one, or hands out a slot of the pool, marks it as in
    use and leaves the other slots of the old pool alone. *)
Lemma tailAllocCell_pool (t : trie) :
  pool_ok t ->
  let r := fst (_tailAllocCell t) in
  let t' := snd (_tailAllocCell t) in
  (r = -1 /\ t' = t /\ tailsize t = TRIE_INDEX_MAX) \/
  (0 <= r - TAIL_START_BLOCKNO < tailsize t' /\ pool_ok t' /\
   tail_at t' (r - TAIL_START_BLOCKNO) = mkEntry None None NULL (-1) /\
   r - TAIL_START_BLOCKNO <= tailsize t <= tailsize t' /\
   used t' = ulong (used t + 1) /\
   type t' = type t /\ calls t' = calls t /\
   forall i, 0 <= i < tailsize t -> i <> r - TAIL_START_BLOCKNO ->
             tail_at t' i = tail_at t i).
Proof.
  intros Hpool. pose proof Hpool as (Hlen & Hsz & (L & Hch) & Hnz).
  pose proof (pool_sizes_bounds _ Hsz) as Hb.
  unfold _tailAllocCell.
  destruct (Z.eqb_spec (first_free t) 0) as [E0|E0]; cbn [negb].
  - destruct (Z.eqb_spec (_trieNextPower (tailsize t)) (tailsize t)) as [E|E].
    + cbn [fst snd]. left. split; [reflexivity|]. split; [reflexivity|].
      destruct (Z.eq_dec (tailsize t) TRIE_INDEX_MAX) as [|Hne]; [assumption|].
      destruct (trieNextPower_pool _ Hsz Hne). lia.
    + right.
      assert (Hne : tailsize t <> TRIE_INDEX_MAX).
      { intros Emax. apply E. rewrite Emax. reflexivity. }
      destruct (trieNextPower_pool _ Hsz Hne) as (Hsz' & Hgrow).
      pose proof (pool_sizes_bounds _ Hsz') as Hb'.
      set (B := tailsize t) in *. set (ns := _trieNextPower B) in *.
      set (t1 := with_tailsize
                   (with_tails t (resize_tails (raw t) (tails t) B ns)) ns).
      assert (Hlen1 : length (tails t1) = Z.to_nat ns).
      { unfold t1. cbn [tails with_tails with_tailsize].
        apply resize_tails_length. }
      assert (Hat1 : forall i, 0 <= i < B -> tail_at t1 i = tail_at t i).
      { intros i Hi. unfold t1. unfold tail_at at 1.
        cbn [tails with_tails with_tailsize]. apply tail_at_resize; lia. }
      destruct (fold_next_free_at (Z.to_nat (ns - 1 - (B + 1))) (B + 1) t1)
        as (Hlen2 & Hat2); [lia|rewrite Hlen1; lia|].
      cbv zeta in Hlen2, Hat2.
      set (t2 := fold_left _ _ t1) in *.
      assert (Hsz2 : tailsize t2 = ns)
        by (unfold t2; rewrite fold_next_free_tailsize; reflexivity).
      set (t3 := set_next_free t2 (ns - 1) 0).
      set (t4 := with_first_free t3 (B + 1)).
      set (used_entry := mkEntry None None NULL (-1)).
      set (t5 := set_tail t4 B used_entry).
      cbn [fst snd].
      replace (B + TAIL_START_BLOCKNO - TAIL_START_BLOCKNO) with B by lia.
      assert (Hat3 : forall i, 0 <= i ->
                tail_at t3 i =
                  if i =? ns - 1 then entry_set_next_free (tail_at t2 i) 0
                  else tail_at t2 i).
      { intros i Hi. unfold t3, set_next_free.
        rewrite tail_at_set_tail by lia.
        destruct (Z.eqb_spec i (ns - 1)) as [Ei|_]; cbn [andb]; [|reflexivity].
        destruct (Z.ltb_spec i (Z.of_nat (length (tails t2))));
          [rewrite Ei; reflexivity|lia]. }
      assert (Hlen4 : length (tails t4) = Z.to_nat ns).
      { unfold t4, t3, set_next_free, set_tail.
        cbn [tails with_tails with_first_free]. rewrite upd_length. lia. }
      assert (Hat5 : forall i, 0 <= i ->
                tail_at t5 i = if i =? B then used_entry else tail_at t3 i).
      { intros i Hi. unfold t5. rewrite tail_at_set_tail by lia.
        destruct (Z.eqb_spec i B) as [Ei|_]; cbn [andb]; [|reflexivity].
        destruct (Z.ltb_spec i (Z.of_nat (length (tails t4))));
          [reflexivity|lia]. }
      assert (Hnew : forall i, B + 1 <= i < ns ->
                next_free (tail_at t5 i) = if i =? ns - 1 then 0 else i + 1).
      { intros i Hi. rewrite Hat5, Hat3 by lia.
        destruct (Z.eqb_spec i B); [lia|]. rewrite Hat2 by lia.
        destruct (Z.eqb_spec i (ns - 1)).
        - reflexivity.
        - destruct (Z.leb_spec (B + 1) i); [|lia].
          destruct (Z.ltb_spec i (B + 1 + Z.of_nat (Z.to_nat (ns - 1 - (B + 1)))));
            [|lia].
          reflexivity. }
      assert (Hold : forall i, 0 <= i < B -> tail_at t5 i = tail_at t i).
      { intros i Hi. rewrite Hat5, Hat3 by lia.
        destruct (Z.eqb_spec i B); [lia|].
        destruct (Z.eqb_spec i (ns - 1)); [lia|]. rewrite Hat2 by lia.
        destruct (Z.leb_spec (B + 1) i); [lia|]. cbn [andb]. apply Hat1. lia. }
      assert (Hsz5 : tailsize t5 = ns) by exact Hsz2.
      change (tailsize (with_used t5 (ulong (used t5 + 1)))) with (tailsize t5).
      rewrite Hsz5.
      split; [lia|]. split; [|split; [|split; [|split; [|split; [|split]]]]].
      * apply (pool_ok_same_tails t5); [|reflexivity|reflexivity|reflexivity].
        unfold pool_ok. rewrite Hsz5.
        split; [unfold t5, set_tail; cbn [tails with_tails];
                rewrite upd_length, Hlen4; reflexivity|].
        split; [exact Hsz'|]. split.
        { exists (zrange (B + 1) (S (Z.to_nat (ns - 1 - (B + 1))))).
          change (first_free t5) with (B + 1).
          apply chain_ok_range; [lia|rewrite Hsz5; lia|].
          intros i Hi. rewrite (Hnew i ltac:(lia)).
          replace (B + 1 + Z.of_nat (Z.to_nat (ns - 1 - (B + 1)))) with (ns - 1)
            by lia.
          reflexivity. }
        { unfold t5, set_tail. cbn [tails with_tails].
          apply sfx_nonzero_upd; [|exact I].
          unfold t4, t3, set_next_free, set_tail. cbn [tails with_tails with_first_free].
          assert (Hnz2 : Forall sfx_nonzero (tails t2)).
          { apply fold_next_free_nonzero. unfold t1.
            cbn [tails with_tails with_tailsize].
            apply resize_tails_nonzero, Hnz. }
          apply sfx_nonzero_upd; [exact Hnz2|].
          apply (sfx_nonzero_tail_at t2 (ns - 1) Hnz2). }
      * change (tail_at (with_used t5 (ulong (used t5 + 1))) B)
          with (tail_at t5 B).
        rewrite Hat5 by lia. rewrite Z.eqb_refl. reflexivity.
      * lia.
      * cbn [used with_used]. f_equal. f_equal.
        unfold t5, t4, t3, set_next_free, set_tail.
        cbn [used with_tails with_first_free]. unfold t2.
        generalize (zrange (B + 1) (Z.to_nat (ns - 1 - (B + 1)))).
        intros l. change (used t) with (used t1). generalize t1.
        induction l as [|i l IH]; intros t0; cbn [fold_left]; [reflexivity|].
        rewrite IH. reflexivity.
      * cbn [type with_used]. unfold t5, t4, t3, set_next_free, set_tail.
        cbn [type with_tails with_first_free]. unfold t2.
        generalize (zrange (B + 1) (Z.to_nat (ns - 1 - (B + 1)))).
        intros l. change (type t) with (type t1). generalize t1.
        induction l as [|i l IH]; intros t0; cbn [fold_left]; [reflexivity|].
        rewrite IH. reflexivity.
      * cbn [calls with_used]. unfold t5, t4, t3, set_next_free, set_tail.
        cbn [calls with_tails with_first_free]. unfold t2.
        generalize (zrange (B + 1) (Z.to_nat (ns - 1 - (B + 1)))).
        intros l. change (calls t) with (calls t1). generalize t1.
        induction l as [|i l IH]; intros t0; cbn [fold_left]; [reflexivity|].
        rewrite IH. reflexivity.
      * intros i Hi _.
        change (tail_at (with_used t5 (ulong (used t5 + 1))) i)
          with (tail_at t5 i).
        apply Hold. exact Hi.
  - right. destruct L as [|x L']; cbn [chain_ok] in Hch; [contradiction|].
    destruct Hch as (Ef & Hx & Hxn & Hrest).
    rewrite Ef in *. set (n := next_free (tail_at t x)) in *.
    set (used_entry := mkEntry None None NULL (-1)).
    set (t1 := with_first_free t n).
    set (t2 := set_tail t1 x used_entry).
    cbn [fst snd].
    replace (x + TAIL_START_BLOCKNO - TAIL_START_BLOCKNO) with x by lia.
    assert (Hat2 : forall i, 0 <= i ->
              tail_at t2 i = if i =? x then used_entry else tail_at t i).
    { intros i Hi. unfold t2. rewrite tail_at_set_tail by lia.
      destruct (Z.eqb_spec i x) as [Ei|_]; cbn [andb]; [|reflexivity].
      destruct (Z.ltb_spec i (Z.of_nat (length (tails t1)))); [reflexivity|].
      change (tails t1) with (tails t) in *. lia. }
    change (tailsize (with_used t2 (ulong (used t2 + 1)))) with (tailsize t).
    split; [lia|]. split; [|split; [|split; [|split; [|split; [|split]]]]].
    + apply (pool_ok_same_tails t2); [|reflexivity|reflexivity|reflexivity].
      unfold pool_ok. change (tailsize t2) with (tailsize t).
      split; [unfold t2, set_tail; cbn [tails with_tails];
              rewrite upd_length; exact Hlen|].
      split; [exact Hsz|]. split.
      * exists L'. change (first_free t2) with n.
        apply (chain_ok_ext L' t); [exact Hrest|cbn; lia|].
        intros y Hy.
        destruct (chain_ok_members L' t n Hrest y Hy) as (Hny & Hyb & _).
        rewrite Hat2 by lia.
        destruct (Z.eqb_spec y x) as [Ey|_]; [|auto].
        exfalso. destruct L' as [|z L'']; [destruct Hy|].
        cbn [chain_ok] in Hrest. destruct Hrest as (Ez & Hz & _). lia.
      * unfold t2, set_tail. cbn [tails with_tails].
        apply sfx_nonzero_upd; [exact Hnz|exact I].
    + change (tail_at (with_used t2 (ulong (used t2 + 1))) x)
        with (tail_at t2 x).
      rewrite Hat2 by lia. rewrite Z.eqb_refl. reflexivity.
    + lia.
    + reflexivity.
    + reflexivity.
    + reflexivity.
    + intros i Hi Hne.
      change (tail_at (with_used t2 (ulong (used t2 + 1))) i)
        with (tail_at t2 i).
      rewrite Hat2 by lia. destruct (Z.eqb_spec i x); [contradiction|reflexivity].
Qed.

(** ** Lookups read the arrays and the stored suffixes only *)

Lemma walk_branches_cells (p : cstr) :
  forall t t' s,
    (forall j, trieGetBase t' j = trieGetBase t j) ->
    (forall j, trieGetCheck t' j = trieGetCheck t j) ->
    walk_branches t' s p = walk_branches t s p.
Proof.
  induction p as [|c p IH]; intros t t' s HB HC; cbn [walk_branches];
    rewrite !trieBranchEnd_base; unfold _trieWalk; rewrite HB, HC;
    [reflexivity|].
  destruct (trieGetBase t s <? 0); [reflexivity|].
  destruct (trieGetCheck t _ =? s); [|reflexivity].
  destruct (0 =? c); [reflexivity|]. apply IH; auto.
Qed.

Lemma walk_tail_suffix (p : cstr) :
  forall t t' index i,
    trieGetTailSuffix t' index = trieGetTailSuffix t index ->
    walk_tail t' index i p = walk_tail t index i p.
Proof.
  induction p as [|c p IH]; intros t t' index i Hs; cbn [walk_tail];
    unfold _trieWalkTail; rewrite Hs; [reflexivity|].
  destruct (trieGetTailSuffix t index) as [sfx|] eqn:Et; [|reflexivity].
  rewrite <- Et in Hs.
  destruct (zget sfx i =? deref (c :: p)); [|reflexivity].
  change (negb (TDICT_OK =? 0)) with false. cbv iota.
  destruct (0 =? c); [reflexivity|].
  apply IH. exact Hs.
Qed.

Lemma zget_skipn (l : list Z) (i : Z) :
  0 <= i -> zget l i = deref (skipn (Z.to_nat i) l).
Proof.
  intros Hi. unfold zget, deref. generalize (Z.to_nat i). clear.
  intros n. revert l. induction n as [|n IH]; intros [|x l]; cbn; auto.
Qed.

Lemma skipn_cons_next {A : Type} (n : nat) :
  forall (l : list A) c p, c :: p = skipn n l -> p = skipn (S n) l.
Proof.
  induction n as [|n IH]; intros [|x l] c p Hp; try discriminate.
  - cbn in *. inversion Hp. reflexivity.
  - change (skipn (S (S n)) (x :: l)) with (skipn (S n) l).
    apply (IH l c). exact Hp.
Qed.

(** The tail walk accepts the stored suffix itself, when its length
    fits the [short] index. *)
Lemma walk_tail_self (t : trie) (index : Z) (sfx : cstr) :
  trieGetTailSuffix t index = Some sfx -> nonzero sfx ->
  Z.of_nat (length sfx) <= 32767 ->
  forall p i, 0 <= i -> p = skipn (Z.to_nat i) sfx ->
    walk_tail t index i p = true.
Proof.
  intros Hs Hnz Hlen. induction p as [|c p IH]; intros i Hi Hp; cbn [walk_tail];
    unfold _trieWalkTail; rewrite Hs; rewrite (zget_skipn sfx i Hi);
    set (q := skipn _ _) in *; rewrite <- Hp; rewrite Z.eqb_refl.
  - reflexivity.
  - cbn [deref hd].
    assert (Hc : c <> 0).
    { assert (Hin : In c sfx).
      { rewrite <- (firstn_skipn (Z.to_nat i) sfx). fold q. rewrite <- Hp.
        apply in_or_app. right. left. reflexivity. }
      unfold nonzero in Hnz. rewrite Forall_forall in Hnz. apply Hnz, Hin. }
    assert (Hil : i < Z.of_nat (length sfx)).
    { destruct (Z_lt_le_dec i (Z.of_nat (length sfx))) as [|Hge]; [assumption|].
      exfalso. unfold q in Hp. rewrite skipn_all2 in Hp by lia. discriminate. }
    change (negb (TDICT_OK =? 0)) with false. cbv iota.
    destruct (Z.eqb_spec 0 c) as [E|_]; [congruence|].
    cbn [negb]. rewrite short_of_id by lia. apply IH; [lia|].
    replace (Z.to_nat (i + 1)) with (S (Z.to_nat i)) by lia.
    subst q. apply (skipn_cons_next _ _ c). exact Hp.
Qed.

Lemma ult_pool (t : trie) (i : Z) :
  pool_sizes (tailsize t) -> 0 <= i < tailsize t -> ult i (tailsize t) = true.
Proof.
  intros Hsz Hi. pose proof (pool_sizes_bounds _ Hsz).
  rewrite ult_spec by zlia.
  destruct (Z.leb_spec 0 i); destruct (Z.ltb_spec i (tailsize t)); auto; lia.
Qed.

Lemma trieSetTailSuffix_pool (t : trie) (idx : Z) (sfx : cstr) :
  pool_ok t -> 0 <= idx - TAIL_START_BLOCKNO < tailsize t ->
  let t' := snd (_trieSetTailSuffix t idx (Some sfx)) in
  pool_ok t' /\
  tail_at t' (idx - TAIL_START_BLOCKNO) =
    entry_set_suffix (tail_at t (idx - TAIL_START_BLOCKNO))
                     (Some (c_string sfx)) /\
  (forall i, 0 <= i -> i <> idx - TAIL_START_BLOCKNO ->
             tail_at t' i = tail_at t i) /\
  same_da t t' /\ tailsize t' = tailsize t /\ first_free t' = first_free t /\
  used t' = used t /\ type t' = type t /\ calls t' = calls t.
Proof.
  intros Hpool Hi. pose proof Hpool as (Hlen & Hsz & _ & _).
  unfold _trieSetTailSuffix. set (j := idx - TAIL_START_BLOCKNO) in *.
  rewrite (ult_pool t j Hsz Hi).
  destruct (Z.geb_spec j 0); [|lia]. cbn [andb snd option_map].
  unfold zstrdup.
  split; [|split; [|split; [|repeat split]]].
  - apply pool_ok_set_tail; [exact Hpool|lia| |].
    + unfold sfx_nonzero, entry_set_suffix. cbn [suffix].
      apply c_string_nonzero.
    + right. reflexivity.
  - rewrite tail_at_set_tail by lia. rewrite Z.eqb_refl.
    destruct (Z.ltb_spec j (Z.of_nat (length (tails t)))); [reflexivity|lia].
  - intros i Hi0 Hne. rewrite tail_at_set_tail by lia.
    destruct (Z.eqb_spec i j); [contradiction|reflexivity].
Qed.

(** [_trieAddTailSuffix] on a pool that can still hand out a slot: the
    slot returned is in use and holds the suffix. *)
Lemma addTailSuffix_pool (t : trie) (sfx : cstr) :
  tail_inv t -> pool_ok t ->
  let r := fst (_trieAddTailSuffix t sfx) in
  let t' := snd (_trieAddTailSuffix t sfx) in
  (r = -1 /\ t' = t /\ tailsize t = TRIE_INDEX_MAX) \/
  (0 <= r - TAIL_START_BLOCKNO < tailsize t' /\ pool_ok t' /\
   tail_at t' (r - TAIL_START_BLOCKNO) =
     mkEntry (Some (c_string sfx)) None NULL (-1) /\
   r - TAIL_START_BLOCKNO <= tailsize t <= tailsize t' /\
   used t' = ulong (used t + 1) /\
   type t' = type t /\ calls t' = calls t /\ same_da t t' /\
   forall i, 0 <= i < tailsize t -> i <> r - TAIL_START_BLOCKNO ->
             tail_at t' i = tail_at t i).
Proof.
  intros Ht Hpool. unfold _trieAddTailSuffix.
  pose proof (tailAllocCell_pool t Hpool) as Halloc. cbv zeta in Halloc.
  destruct (tailAllocCell_step t Ht) as (_ & Hda & _).
  destruct (_tailAllocCell t) as [nb t1]. cbn [fst snd] in Halloc, Hda.
  destruct Halloc as [(E1 & E2 & E3)|(Hr & Hp1 & Hat & Hsz & Hu & Hty & Hcl & Hfr)].
  - subst nb t1. left.
    unfold _trieSetTailSuffix. cbn [fst snd]. split; [reflexivity|].
    split; [reflexivity|exact E3].
  - right.
    destruct (trieSetTailSuffix_pool t1 nb sfx Hp1 Hr)
      as (Hp2 & Hat2 & Hfr2 & Hda2 & Hsz2 & Hff2 & Hu2 & Hty2 & Hcl2).
    destruct (_trieSetTailSuffix t1 nb (Some sfx)) as [r2 t2].
    cbn [fst snd] in *.
    split; [lia|]. split; [exact Hp2|]. split; [rewrite Hat2, Hat; reflexivity|].
    split; [lia|]. split; [congruence|]. split; [congruence|].
    split; [congruence|]. split; [eapply same_da_trans; eauto|].
    intros i Hi Hne. rewrite Hfr2 by lia. apply Hfr; auto.
Qed.

Lemma walk_branches_end (t : trie) (s : Z) (p : cstr) :
  trieBranchEnd t s = true -> walk_branches t s p = InTail s p.
Proof. intros E. destruct p; cbn [walk_branches]; rewrite E; reflexivity. Qed.

Lemma tl_after_arc (q : cstr) :
  nonzero q -> (if negb (0 =? deref q) then advance q else q) = tl q.
Proof.
  intros Hq. destruct q as [|c q]; [reflexivity|].
  apply Forall_cons_iff in Hq as (Hc & _). cbn [deref hd advance tl].
  destruct (Z.eqb_spec 0 c); [congruence|reflexivity].
Qed.

Lemma same_pool_ok (t t' : trie) : same_pool t t' -> pool_ok t -> pool_ok t'.
Proof.
  intros (A & B & C & _) H. apply (pool_ok_same_tails t); auto.
Qed.

(** Setting the tail index of a cell further down keeps the arcs. *)
Lemma arcs_set_below (t : trie) (pre : cstr) (s x v : Z) :
  da_inv t -> Forall byte pre -> arcs t DA_POOL_ROOT pre s ->
  up_path (S (length pre)) t DA_POOL_ROOT x ->
  arcs (trieSetTailIndex t x v) DA_POOL_ROOT pre s.
Proof.
  intros H Hb Harcs Hx. rewrite trieSetTailIndex_setBase.
  pose proof (inv_wf t H) as Hwf.
  assert (Hnx : node t x) by apply Hx.
  apply (arcs_kept pre t _ DA_POOL_ROOT s x 0 (length pre)); auto.
  - reflexivity.
  - intros j k Hk Hj. pose proof (up_path_node k t j H Hj) as Hnj.
    split; [|split].
    + destruct Hnj. split; [rewrite dasize_setB; auto|].
      rewrite getC_setB. auto.
    + apply getC_setB.
    + intros Hne. rewrite getB_setB; auto.
      * destruct (Z.eqb_spec j x); [contradiction|reflexivity].
      * destruct Hnx. lia.
      * eapply node_lng; eauto.
  - intros m Hm Hup. pose proof (up_path_length _ _ _ _ _ Hup Hx). lia.
Qed.

(** After a successful [_trieInsertInBranch] below the end [s] of the
    arcs [pre], walking [pre ++ q] ends in the tail of the cell that was
    inserted, and the slot returned holds the rest of [q]. *)
Lemma insertInBranch_found (fuel : nat) (t t' : trie) (pre q : cstr)
  (s r : Z) :
  da_inv t -> pool_ok t -> Forall byte pre -> Forall byte q -> nonzero q ->
  arcs t DA_POOL_ROOT pre s ->
  _trieInsertInBranch fuel t s q = Some (r, t') ->
  r <> TDICT_ERR -> r <> -1 ->
  pool_ok t' /\
  (0 <= r - TAIL_START_BLOCKNO < tailsize t' /\
   r - TAIL_START_BLOCKNO <= tailsize t) /\
  tail_at t' (r - TAIL_START_BLOCKNO) = mkEntry (Some (tl q)) None NULL (-1) /\
  type t' = type t /\ calls t' = calls t /\ used t' = ulong (used t + 1) /\
  exists leaf,
    walk_branches t' DA_POOL_ROOT (pre ++ q) = InTail leaf (tl q) /\
    trieGetTailIndex t' leaf = r.
Proof.
  intros H Hpool Hpre Hq Hqnz Harcs Hins Hr1 Hr2.
  unfold _trieInsertInBranch in Hins.
  destruct (_daInsert fuel t s (deref q)) as [[new_da t1]|] eqn:Eins;
    [|discriminate].
  destruct (Z.eqb_spec TRIE_INDEX_ERROR new_da) as [E0|E0].
  { inversion Hins; subst. contradiction. }
  rewrite (tl_after_arc q Hqnz) in Hins.
  assert (Hs : up_path (length pre) t DA_POOL_ROOT s).
  { apply (arcs_depth pre t DA_POOL_ROOT s 0 H); auto. reflexivity. }
  destruct (daInsert_above fuel t t1 (length pre) s (deref q) new_da H Hs
              (deref_byte q Hq) Eins ltac:(auto))
    as (H1 & Hp1 & Hk1 & Esum & Ech & Hbs & Hup1 & _).
  assert (Harcs1 : arcs t1 DA_POOL_ROOT pre s).
  { apply (arcs_kept pre t t1 DA_POOL_ROOT s s 0 (length pre)); auto.
    - reflexivity.
    - intros m Hm Hup. pose proof (up_path_length _ _ _ _ _ Hup Hs). lia. }
  pose proof (same_pool_ok t t1 Hp1 Hpool) as Hpool1.
  assert (Hqt : Forall byte (tl q)) by (apply (advance_byte q Hq)).
  pose proof (addTailSuffix_pool t1 (tl q) (inv_tail t1 H1) Hpool1) as Hadd.
  pose proof (addTailSuffix_step t1 (tl q) H1 Hqt) as Hstep.
  cbv zeta in Hadd, Hstep.
  destruct (_trieAddTailSuffix t1 (tl q)) as [new_tail t2].
  cbn [fst snd] in Hadd, Hstep. inversion Hins; subst r t'; clear Hins.
  destruct Hadd as [(E & _)|(Hr & Hp2 & Hat & Hsz & Hu & Hty & Hcl & Hda & _)];
    [contradiction|].
  assert (H2 : da_inv t2) by apply Hstep.
  assert (Hup2 : up_path (S (length pre)) t2 DA_POOL_ROOT new_da).
  { apply (up_path_keep _ t1); [exact Hup1|].
    intros j Hj. split; [apply (same_da_node t1 t2 j Hda); exact Hj|].
    apply same_da_getC. exact Hda. }
  assert (Harcs2 : arcs t2 DA_POOL_ROOT pre s).
  { apply (arcs_kept pre t1 t2 DA_POOL_ROOT s s 0 (length pre)); auto.
    - reflexivity.
    - intros j k _ Hj. split; [|split].
      + apply (same_da_node t1 t2 j Hda). apply (up_path_node k); auto.
      + apply same_da_getC. exact Hda.
      + intros _. apply same_da_getB. exact Hda.
    - intros m Hm Hup.
      assert (Hs1 : up_path (length pre) t1 DA_POOL_ROOT s)
        by (apply (above_kept_path _ t t1 s Hk1); auto).
      pose proof (up_path_length _ _ _ _ _ Hup Hs1). lia. }
  set (t3 := trieSetTailIndex t2 new_da new_tail).
  pose proof (arcs_set_below t2 pre s new_da new_tail H2 Hpre Harcs2 Hup2)
    as Harcs3. fold t3 in Harcs3.
  assert (Hnn2 : node t2 new_da) by apply Hup2.
  pose proof (inv_wf t2 H2) as Hwf2.
  assert (HB3 : forall j, lng j ->
            trieGetBase t3 j = if j =? new_da then - new_tail
                               else trieGetBase t2 j).
  { intros j Hj. unfold t3. rewrite trieSetTailIndex_setBase.
    apply getB_setB; auto. destruct Hnn2. lia. }
  assert (HC3 : forall j, trieGetCheck t3 j = trieGetCheck t2 j).
  { intros j. unfold t3. rewrite trieSetTailIndex_setBase. apply getC_setB. }
  assert (Hsn : s <> new_da).
  { intros E. rewrite <- E in Ech.
    pose proof (up_path_node _ t s H Hs) as (Hsb & _).
    assert (Hsb1 : 0 <= s < dasize t1).
    { destruct (Hk1 s (length pre) ltac:(lia) Hs) as ((Hb1 & _) & _). lia. }
    apply (inv_noself t1 H1 s Hsb1). exact Ech. }
  assert (Hsl : lng s).
  { pose proof (up_path_node _ t s H Hs) as Hns.
    apply (node_lng t); [apply (inv_wf t H)|exact Hns]. }
  assert (EBs : trieGetBase t3 s = trieGetBase t1 s).
  { rewrite HB3 by exact Hsl. destruct (Z.eqb_spec s new_da); [contradiction|].
    apply same_da_getB. exact Hda. }
  assert (Hp3 : same_pool t2 t3)
    by (unfold t3; rewrite trieSetTailIndex_setBase; apply same_pool_setB).
  destruct Hp3 as (Ets & Etz & Eff & Eus & Ety & Ecl).
  destruct Hp1 as (_ & Etz1 & _ & Eus1 & Ety1 & Ecl1).
  split; [apply (pool_ok_same_tails t2); auto|].
  split; [split; [rewrite Etz; exact Hr|lia]|]. split.
  { unfold tail_at. rewrite Ets. fold (tail_at t2 (new_tail - TAIL_START_BLOCKNO)).
    rewrite Hat. rewrite (c_string_id (tl q)); [reflexivity|].
    destruct q; [constructor|]. apply Forall_cons_iff in Hqnz. apply Hqnz. }
  split; [congruence|]. split; [congruence|]. split; [congruence|].
  exists new_da. split.
  - rewrite (walk_arcs pre t3 DA_POOL_ROOT s q Harcs3).
    assert (Hend_s : trieBranchEnd t3 s = false).
    { rewrite trieBranchEnd_base, EBs. apply Z.ltb_ge. lia. }
    assert (Hw : _trieWalk t3 s (deref q) = Some new_da).
    { apply trieWalk_Some. rewrite EBs, Esum, HC3.
      rewrite (same_da_getC t1 t2 _ Hda). auto. }
    assert (Hend_n : trieBranchEnd t3 new_da = true).
    { rewrite trieBranchEnd_base, HB3 by (eapply node_lng; eauto).
      rewrite Z.eqb_refl. apply Z.ltb_lt. unfold TAIL_START_BLOCKNO in Hr. lia. }
    destruct q as [|c q']; cbn [walk_branches]; rewrite Hend_s, Hw;
      [reflexivity|].
    apply Forall_cons_iff in Hqnz as (Hc & _).
    destruct (Z.eqb_spec 0 c); [congruence|].
    cbn [tl]. apply walk_branches_end. exact Hend_n.
  - rewrite trieGetTailIndex_base, HB3 by (eapply node_lng; eauto).
    rewrite Z.eqb_refl. lia.
Qed.

Lemma nonzero_deref (p : cstr) : nonzero p -> deref p = 0 -> p = [].
Proof.
  intros Hp E. destruct p as [|c p]; [reflexivity|].
  apply Forall_cons_iff in Hp as (Hc & _). cbn in E. contradiction.
Qed.

Lemma insertInTail_loop_ended (fuel : nat) :
  forall t s x t', insertInTail_loop fuel t s [] [] <> Some (inr x, t').
Proof.
  induction fuel as [|f IH]; intros t s x t'; cbn [insertInTail_loop];
    [discriminate|].
  cbn [deref hd]. rewrite Z.eqb_refl.
  destruct (_daInsert (S f) t s TRIE_CHAR_TERM) as [[s' t1]|]; [|discriminate].
  destruct (TRIE_INDEX_ERROR =? s'); [discriminate|].
  cbn [advance tl]. apply IH.
Qed.

(** The common-prefix loop of [_trieInsertInTail], when it ends at a
    difference: the matched characters [m] have become arcs below the
    former tail cell. *)
Lemma insertInTail_loop_found (fuel : nat) :
  forall t s p sfx pre s1 p1 sfx1 t1,
    da_inv t -> Forall byte pre -> Forall byte p -> Forall byte sfx ->
    nonzero p -> nonzero sfx ->
    arcs t DA_POOL_ROOT pre s -> trieGetBase t s <= 0 ->
    insertInTail_loop fuel t s p sfx = Some (inr (s1, p1, sfx1), t1) ->
    exists m,
      sfx = m ++ sfx1 /\ p = m ++ p1 /\ deref p1 <> deref sfx1 /\
      da_inv t1 /\ same_pool t t1 /\
      arcs t1 DA_POOL_ROOT (pre ++ m) s1 /\ trieGetBase t1 s1 <= 0.
Proof.
  induction fuel as [|f IH];
    intros t s p sfx pre s1 p1 sfx1 t1 H Hpre Hp Hsfx Hpnz Hsnz Harcs Hb Hloop;
    cbn [insertInTail_loop] in Hloop; [discriminate|].
  destruct (Z.eqb_spec (deref p) (deref sfx)) as [Eq|Hne].
  - destruct (_daInsert (S f) t s (deref p)) as [[s' t']|] eqn:Eins;
      [|discriminate].
    destruct (Z.eqb_spec TRIE_INDEX_ERROR s') as [E0|E0]; [discriminate|].
    destruct p as [|c p'].
    { cbn [deref hd] in Eq. symmetry in Eq.
      apply (nonzero_deref sfx Hsnz) in Eq. subst sfx.
      cbn [advance tl] in Hloop.
      exfalso. exact (insertInTail_loop_ended f t' s' _ _ Hloop). }
    destruct sfx as [|c' sfx'].
    { cbn [deref hd] in Eq. apply Forall_cons_iff in Hpnz as (Hc & _).
      unfold TRIE_CHAR_TERM in Eq. contradiction. }
    cbn [deref hd] in Eq, Eins. subst c'. cbn [advance tl] in Hloop.
    apply Forall_cons_iff in Hpnz as (Hc & Hpnz).
    apply Forall_cons_iff in Hsnz as (_ & Hsnz).
    apply Forall_cons_iff in Hp as (Hcb & Hp).
    apply Forall_cons_iff in Hsfx as (_ & Hsfx).
    assert (Hs : up_path (length pre) t DA_POOL_ROOT s).
    { apply (arcs_depth pre t DA_POOL_ROOT s 0 H); auto. reflexivity. }
    destruct (daInsert_above (S f) t t' (length pre) s c s' H Hs Hcb Eins
                ltac:(auto))
      as (H1 & Hp1 & Hk1 & Esum & Ech & Hbs & Hup1 & Hfresh).
    destruct (Hfresh (or_intror Hb)) as (_ & Hbn).
    assert (Harcs1 : arcs t' DA_POOL_ROOT (pre ++ [c]) s').
    { apply (arcs_app pre t' DA_POOL_ROOT s).
      - apply (arcs_kept pre t t' DA_POOL_ROOT s s 0 (length pre)); auto.
        + reflexivity.
        + intros m Hm Hup. pose proof (up_path_length _ _ _ _ _ Hup Hs).
          unfold cstr, TrieChar in *. lia.
      - cbn [arcs]. rewrite Esum. split; [exact Hc|]. split; [lia|].
        split; [exact Ech|reflexivity]. }
    assert (Hpre' : Forall byte (pre ++ [c]))
      by (apply Forall_app; split; [exact Hpre|constructor; auto]).
    destruct (IH t' s' p' sfx' (pre ++ [c]) s1 p1 sfx1 t1 H1 Hpre' Hp Hsfx
                Hpnz Hsnz Harcs1 ltac:(lia) Hloop) as
      (m & E1 & E2 & Hd & H2 & Hp2 & Harcs2 & Hb2).
    exists (c :: m). rewrite <- app_assoc in Harcs2.
    split; [rewrite E1; reflexivity|]. split; [rewrite E2; reflexivity|].
    split; [exact Hd|]. split; [exact H2|].
    split; [eapply same_pool_trans; eauto|]. split; [exact Harcs2|exact Hb2].
  - inversion Hloop; subst. exists []. rewrite app_nil_r.
    split; [reflexivity|]. split; [reflexivity|]. split; [exact Hne|].
    split; [exact H|]. split; [apply same_pool_refl|]. auto.
Qed.

Lemma getTailSuffix_pool (t : trie) (i : Z) (sfx : cstr) :
  pool_ok t -> small i -> trieGetTailSuffix t i = Some sfx ->
  0 <= i - TAIL_START_BLOCKNO < tailsize t /\
  suffix (tail_at t (i - TAIL_START_BLOCKNO)) = Some sfx /\ nonzero sfx.
Proof.
  intros (_ & Hsz & _ & Hnz) Hi Hs. unfold trieGetTailSuffix in Hs.
  pose proof (pool_sizes_bounds _ Hsz) as Hb.
  destruct (ult (i - TAIL_START_BLOCKNO) (tailsize t)) eqn:Eu; [|discriminate].
  rewrite ult_spec in Eu by zlia.
  apply andb_prop in Eu as (A & B). apply Z.leb_le in A. apply Z.ltb_lt in B.
  split; [lia|]. split; [exact Hs|].
  pose proof (sfx_nonzero_tail_at t (i - TAIL_START_BLOCKNO) Hnz) as Hn.
  unfold sfx_nonzero in Hn. rewrite Hs in Hn. exact Hn.
Qed.

Lemma nonzero_app (a b : cstr) : nonzero (a ++ b) -> nonzero a /\ nonzero b.
Proof. apply Forall_app. Qed.

(** After a successful [_trieInsertInTail] at the tail cell [sep] that
    ends the arcs [pre], walking [pre ++ q] ends in the tail of a new
    cell, and the slot returned holds the rest of the key. *)
Lemma insertInTail_found (fuel : nat) (t t' : trie) (pre q : cstr)
  (sep r : Z) :
  da_inv t -> pool_ok t -> Forall byte pre -> Forall byte q -> nonzero q ->
  arcs t DA_POOL_ROOT pre sep -> trieGetBase t sep < 0 ->
  _trieInsertInTail fuel t sep q = Some (r, t') ->
  r <> TDICT_ERR -> r <> -1 ->
  pool_ok t' /\
  (0 <= r - TAIL_START_BLOCKNO < tailsize t' /\
   r - TAIL_START_BLOCKNO <= tailsize t) /\
  type t' = type t /\ calls t' = calls t /\ used t' = ulong (used t + 1) /\
  exists leaf rest,
    nonzero rest /\
    tail_at t' (r - TAIL_START_BLOCKNO) = mkEntry (Some rest) None NULL (-1) /\
    walk_branches t' DA_POOL_ROOT (pre ++ q) = InTail leaf rest /\
    trieGetTailIndex t' leaf = r.
Proof.
  intros H Hpool Hpre Hq Hqnz Harcs Hb Hins Hr1 Hr2.
  unfold _trieInsertInTail in Hins.
  set (old_tail := trieGetTailIndex t sep) in *.
  assert (Eot : old_tail = - trieGetBase t sep)
    by apply trieGetTailIndex_base.
  pose proof (small_getB t sep H) as Hsb.
  destruct (trieGetTailSuffix t old_tail) as [os|] eqn:Eos;
    [|inversion Hins; subst; contradiction].
  destruct (getTailSuffix_pool t old_tail os Hpool ltac:(zlia) Eos)
    as (Hot & Hots & Hosnz).
  pose proof (getTailSuffix_bytes t old_tail os (inv_tail t H) Eos) as Hosb.
  destruct (insertInTail_loop fuel t sep os q) as [[[sf|[[s1 p1] sfx1]] t1]|]
    eqn:Eloop; [| |discriminate].
  { unfold insertInTail_fail in Hins.
    destruct (_daPrune fuel t1 sep sf); [|discriminate].
    inversion Hins; subst; contradiction. }
  destruct (insertInTail_loop_found fuel t sep os q pre s1 p1 sfx1 t1 H Hpre
              Hosb Hq Hosnz Hqnz Harcs ltac:(lia) Eloop)
    as (m & Eq & Eo & Hdiff & H1 & Hp1 & Harcs1 & Hb1).
  subst q os.
  apply Forall_app in Hq as (Hmb & Hsfxb).
  apply Forall_app in Hosb as (_ & Hp1b).
  apply nonzero_app in Hqnz as (_ & Hsfxnz).
  apply nonzero_app in Hosnz as (_ & Hp1nz).
  assert (Hprem : Forall byte (pre ++ m))
    by (apply Forall_app; split; auto).
  destruct (_daInsert fuel t1 s1 (deref p1)) as [[old_da t2]|] eqn:Eins;
    [|discriminate].
  destruct (Z.eqb_spec TRIE_INDEX_ERROR old_da) as [E0|E0].
  { unfold insertInTail_fail in Hins.
    destruct (_daPrune fuel t2 sep s1); [|discriminate].
    inversion Hins; subst; contradiction. }
  rewrite (tl_after_arc p1 Hp1nz) in Hins.
  assert (Hs1 : up_path (length (pre ++ m)) t1 DA_POOL_ROOT s1).
  { apply (arcs_depth (pre ++ m) t1 DA_POOL_ROOT s1 0 H1); auto. reflexivity. }
  destruct (daInsert_above fuel t1 t2 (length (pre ++ m)) s1 (deref p1) old_da
              H1 Hs1 (deref_byte p1 Hp1b) Eins ltac:(auto))
    as (H2 & Hp2 & Hk2 & Esum & Ech & Hbs & Hup2 & _).
  assert (Harcs2 : arcs t2 DA_POOL_ROOT (pre ++ m) s1).
  { apply (arcs_kept (pre ++ m) t1 t2 DA_POOL_ROOT s1 s1 0
             (length (pre ++ m))); auto.
    - reflexivity.
    - intros k Hk Hup. pose proof (up_path_length _ _ _ _ _ Hup Hs1).
      unfold cstr, TrieChar in *. lia. }
  pose proof (same_pool_trans _ _ _ Hp1 Hp2) as Hp02.
  pose proof (same_pool_ok t t2 Hp02 Hpool) as Hpool2.
  assert (Hat2 : tail_at t2 (old_tail - TAIL_START_BLOCKNO) =
                 tail_at t (old_tail - TAIL_START_BLOCKNO)).
  { unfold tail_at. destruct Hp02 as (-> & _). reflexivity. }
  assert (Htz2 : tailsize t2 = tailsize t) by apply Hp02.
  assert (Hp1tb : Forall byte (tl p1)) by apply (advance_byte p1 Hp1b).
  destruct (trieSetTailSuffix_pool t2 old_tail (tl p1) Hpool2
              ltac:(rewrite Htz2; exact Hot))
    as (Hpool3 & _ & _ & Hda3 & Htz3 & _ & Hu3 & Hty3 & Hcl3).
  destruct (trieSetTailSuffix_step t2 old_tail (tl p1) (inv_tail t2 H2) Hp1tb)
    as (Hti3 & _).
  destruct (_trieSetTailSuffix t2 old_tail _) as [r3 t3].
  cbn [snd] in *.
  pose proof (same_da_inv t2 t3 Hda3 Hti3 H2) as H3.
  assert (Hup3 : up_path (S (length (pre ++ m))) t3 DA_POOL_ROOT old_da).
  { apply (up_path_keep _ t2); [exact Hup2|].
    intros j Hj. split; [apply (same_da_node t2 t3 j Hda3); exact Hj|].
    apply same_da_getC. exact Hda3. }
  assert (Harcs3 : arcs t3 DA_POOL_ROOT (pre ++ m) s1).
  { apply (arcs_kept (pre ++ m) t2 t3 DA_POOL_ROOT s1 s1 0
             (length (pre ++ m))); auto.
    - reflexivity.
    - intros j k _ Hj. split; [|split].
      + apply (same_da_node t2 t3 j Hda3). apply (up_path_node k); auto.
      + apply same_da_getC. exact Hda3.
      + intros _. apply same_da_getB. exact Hda3.
    - intros k Hk Hup.
      assert (Hs2 : up_path (length (pre ++ m)) t2 DA_POOL_ROOT s1)
        by (apply (above_kept_path _ t1 t2 s1 Hk2); auto).
      pose proof (up_path_length _ _ _ _ _ Hup Hs2).
      unfold cstr, TrieChar in *. lia. }
  set (t4 := trieSetTailIndex t3 old_da old_tail) in *.
  pose proof (arcs_set_below t3 (pre ++ m) s1 old_da old_tail H3 Hprem Harcs3
                Hup3) as Harcs4. fold t4 in Harcs4.
  assert (H4 : da_inv t4).
  { unfold t4. rewrite trieSetTailIndex_setBase.
    apply setBase_node_inv; [exact H3|apply Hup3|zlia|left; lia]. }
  assert (Hp34 : same_pool t3 t4)
    by (unfold t4; rewrite trieSetTailIndex_setBase; apply same_pool_setB).
  pose proof (same_pool_ok t3 t4 Hp34 Hpool3) as Hpool4.
  destruct (insertInBranch_found fuel t4 t' (pre ++ m) sfx1 s1 r H4 Hpool4
              Hprem Hsfxb Hsfxnz Harcs4 Hins Hr1 Hr2)
    as (Hpool' & (Hr & Hrt) & Hat' & Hty' & Hcl' & Hu' & leaf & Hwalk & Hidx).
  destruct Hp34 as (_ & Etz4 & _ & Eu4 & Ety4 & Ecl4).
  destruct Hp02 as (_ & _ & _ & Eu2 & Ety2 & Ecl2).
  split; [exact Hpool'|]. split; [split; [exact Hr|lia]|].
  split; [congruence|]. split; [congruence|]. split; [congruence|].
  exists leaf, (tl sfx1). split.
  { destruct sfx1; [constructor|]. apply Forall_cons_iff in Hsfxnz.
    apply Hsfxnz. }
  split; [exact Hat'|]. split; [|exact Hidx].
  rewrite app_assoc. exact Hwalk.
Qed.

(** ** Storing the key and the value *)

Lemma suffix_upd (l : list trieEntry) (n m : nat) (e : trieEntry) :
  suffix e = suffix (nth n l blankEntry) ->
  suffix (nth m (upd l n e) blankEntry) = suffix (nth m l blankEntry).
Proof.
  intros He. destruct (Nat.eq_dec n m) as [<-|Hne].
  - destruct (Nat.lt_ge_cases n (length l)) as [Hlt|Hge].
    + rewrite nth_upd_same by exact Hlt. exact He.
    + rewrite !nth_overflow; [reflexivity|exact Hge|rewrite upd_length; exact Hge].
  - rewrite nth_upd_other by exact Hne. reflexivity.
Qed.

Lemma trieSetTailKey_lookup (t : trie) (i : Z) (k : keyptr) :
  let t' := trieSetTailKey t i k in
  same_da t t' /\ tailsize t' = tailsize t /\ type t' = type t /\
  (forall x, suffix (tail_at t' x) = suffix (tail_at t x)) /\
  (forall x, val (tail_at t' x) = val (tail_at t x)).
Proof.
  cbv zeta. unfold trieSetTailKey.
  destruct (ult (i - TAIL_START_BLOCKNO) (tailsize t));
    [|repeat split].
  destruct (keyDup (type t)); [repeat split|].
  split; [repeat split|]. split; [reflexivity|]. split; [reflexivity|].
  split; intros x; unfold tail_at, set_tail; cbn [tails with_tails].
  - apply suffix_upd. reflexivity.
  - destruct (Nat.eq_dec (Z.to_nat (i - TAIL_START_BLOCKNO)) (Z.to_nat x))
      as [<-|Hne].
    + destruct (Nat.lt_ge_cases (Z.to_nat (i - TAIL_START_BLOCKNO))
                  (length (tails t))) as [Hlt|Hge].
      * rewrite nth_upd_same by exact Hlt. reflexivity.
      * rewrite !nth_overflow; [reflexivity|exact Hge|
                                rewrite upd_length; exact Hge].
    + rewrite nth_upd_other by exact Hne. reflexivity.
Qed.

Lemma trieSetTailVal_lookup (t : trie) (i : Z) (v : valptr) :
  let t' := trieSetTailVal t i v in
  same_da t t' /\ tailsize t' = tailsize t /\ type t' = type t /\
  (forall x, suffix (tail_at t' x) = suffix (tail_at t x)) /\
  (forall x, key (tail_at t' x) = key (tail_at t x)).
Proof.
  cbv zeta. unfold trieSetTailVal.
  destruct (ult (i - TAIL_START_BLOCKNO) (tailsize t));
    [|repeat split].
  destruct (valDup (type t)); [repeat split|].
  split; [repeat split|]. split; [reflexivity|]. split; [reflexivity|].
  split; intros x; unfold tail_at, set_tail; cbn [tails with_tails].
  - apply suffix_upd. reflexivity.
  - destruct (Nat.eq_dec (Z.to_nat (i - TAIL_START_BLOCKNO)) (Z.to_nat x))
      as [<-|Hne].
    + destruct (Nat.lt_ge_cases (Z.to_nat (i - TAIL_START_BLOCKNO))
                  (length (tails t))) as [Hlt|Hge].
      * rewrite nth_upd_same by exact Hlt. reflexivity.
      * rewrite !nth_overflow; [reflexivity|exact Hge|
                                rewrite upd_length; exact Hge].
    + rewrite nth_upd_other by exact Hne. reflexivity.
Qed.

(** Lookups depend on the two arrays, the pool size, the stored
    suffixes and the type. *)
Lemma trieFind_ext (t t' : trie) (k : list Z) :
  same_da t t' -> tailsize t' = tailsize t -> type t' = type t ->
  (forall x, suffix (tail_at t' x) = suffix (tail_at t x)) ->
  trieFind t' k = trieFind t k.
Proof.
  intros Hda Hsz Hty Hsfx. unfold trieFind, internalKey. rewrite Hty.
  rewrite (walk_branches_cells _ t t');
    [|intros; apply same_da_getB; auto|intros; apply same_da_getC; auto].
  destruct (walk_branches t DA_POOL_ROOT _) as [s p|s p]; [reflexivity|].
  rewrite !trieGetTailIndex_base, (same_da_getB t t' s Hda).
  rewrite (walk_tail_suffix p t t').
  - unfold trieGetTrieEntry. rewrite Hsz. reflexivity.
  - unfold trieGetTailSuffix. rewrite Hsz, Hsfx. reflexivity.
Qed.

(** A pool that has not reached [TRIE_INDEX_MAX] slots has at most
    [DA_POOL_BEGIN * 2 ^ 29] of them. *)
Lemma pool_sizes_cap (n : Z) :
  pool_sizes n -> n < TRIE_INDEX_MAX -> 0 <= n <= 1610612736.
Proof.
  intros [->|[->|(k & Hk & ->)]] Hn; [lia|lia|].
  assert (0 < 2 ^ k) by (apply Z.pow_pos_nonneg; lia).
  assert (2 ^ k <= 2 ^ 29) by (apply Z.pow_le_mono_r; lia).
  change (2 ^ 29) with 536870912 in *. zlia.
Qed.

(** A slot index next to such a pool fits the [int] that [_trieAddKey]
    returns. *)
Lemma new_slot_int (r n : Z) :
  pool_sizes n -> n < TRIE_INDEX_MAX -> 0 <= r - TAIL_START_BLOCKNO <= n ->
  int_of_long r = r.
Proof.
  intros Hsz Hn Hr. pose proof (pool_sizes_cap n Hsz Hn).
  apply int_of_long_id. change (2 ^ 31) with 2147483648.
  unfold TAIL_START_BLOCKNO in Hr. lia.
Qed.

(** The tail phase starts on a rest of the key. *)
Lemma walk_branches_rest (p : cstr) :
  forall t s leaf rest,
    walk_branches t s p = InTail leaf rest -> (length rest <= length p)%nat.
Proof.
  induction p as [|c p IH]; intros t s leaf rest; cbn [walk_branches].
  - destruct (trieBranchEnd t s); [intros E; inversion E; subst; auto|].
    destruct (_trieWalk t s (deref [])); [|discriminate].
    intros E; inversion E; subst; auto.
  - destruct (trieBranchEnd t s); [intros E; inversion E; subst; auto|].
    destruct (_trieWalk t s (deref (c :: p))) as [s'|]; [|discriminate].
    destruct (0 =? c); [intros E; inversion E; subst; auto|].
    intros E. apply IH in E. cbn [length]. lia.
Qed.

(** What [_trieAddKey] leaves behind when it returns a slot: the walk
    for the key ends in a tail whose slot is the one returned, and the
    tail walk accepts the rest of the key.  The pool has not reached
    [TRIE_INDEX_MAX] slots, so that the slot index fits the [int]
    result, and the key fits the [short] suffix index. *)
Lemma trieAddKey_found (fuel : nat) (t t1 : trie) (k : list Z) (index : Z) :
  da_inv t -> pool_ok t -> term_ok t ->
  tailsize t < TRIE_INDEX_MAX ->
  Z.of_nat (length (internalKey t k)) <= 32767 ->
  _trieAddKey fuel t k = Some (index, t1) ->
  index <> TRIE_INDEX_ERROR -> index <> TDICT_ERR -> index <> -1 ->
  pool_ok t1 /\ 0 <= index - TAIL_START_BLOCKNO < tailsize t1 /\
  type t1 = type t /\
  exists leaf rest,
    walk_branches t1 DA_POOL_ROOT (internalKey t k) = InTail leaf rest /\
    trieGetTailIndex t1 leaf = index /\
    walk_tail t1 index 0 rest = true.
Proof.
  intros H Hpool Hterm Hcap Hklen Hkey Hi0 Hi1 Hi2. unfold _trieAddKey in Hkey.
  pose proof (inv_wf t H) as Hwf.
  pose proof (proj1 (proj2 Hpool)) as Hpsz.
  assert (Esetup : match base t with [] => _trieSetup t | _ :: _ => t end = t).
  { destruct (base t) eqn:Eb; [|reflexivity].
    destruct Hwf as (Hd & Hl & _). rewrite Eb in Hl. cbn in Hl. lia. }
  rewrite Esetup in Hkey. clear Esetup.
  pose proof (internalKey_bytes t k) as Hkb.
  destruct (walk_branches_arcs (internalKey t k) t DA_POOL_ROOT
              (internalKey_nonzero t k))
    as (pre & q & s' & Epq & Harcs & Hexit).
  rewrite Epq in Hkb. apply Forall_app in Hkb as (Hpre & Hq).
  assert (Hqnz : nonzero q).
  { pose proof (internalKey_nonzero t k) as Hnz. rewrite Epq in Hnz.
    apply (nonzero_app pre q Hnz). }
  assert (Hs' : up_path (length pre) t DA_POOL_ROOT s').
  { apply (arcs_depth pre t DA_POOL_ROOT s' 0 H); auto. reflexivity. }
  pose proof (up_path_node _ t s' H Hs') as Hns'.
  assert (Hpresent : forall s,
            walk_branches t DA_POOL_ROOT (internalKey t k) = InTail s q ->
            walk_tail t (trieGetTailIndex t s) 0 q = true ->
            index = int_of_long (trieGetTailIndex t s) -> t1 = t ->
            pool_ok t1 /\ 0 <= index - TAIL_START_BLOCKNO < tailsize t1 /\
            type t1 = type t /\
            exists leaf rest,
              walk_branches t1 DA_POOL_ROOT (internalKey t k) =
                InTail leaf rest /\
              trieGetTailIndex t1 leaf = index /\
              walk_tail t1 index 0 rest = true).
  { intros s Hw Hwt Ei ->.
    assert (Hin : 0 <= trieGetTailIndex t s - TAIL_START_BLOCKNO < tailsize t).
    { pose proof (walk_tail_in_pool _ _ _ _ Hwt) as Hu.
      pose proof (pool_sizes_bounds _ Hpsz).
      rewrite trieGetTailIndex_base in *. pose proof (small_getB t s H).
      rewrite ult_spec in Hu by zlia.
      apply andb_prop in Hu as (A & B). apply Z.leb_le in A.
      apply Z.ltb_lt in B. lia. }
    rewrite (new_slot_int _ (tailsize t) Hpsz Hcap) in Ei by lia. subst index.
    split; [exact Hpool|]. split; [exact Hin|].
    split; [reflexivity|]. exists s, q. auto. }
  destruct Hexit as [(Hw & Hend & Hnoarc)|[(Hw & Hend)|(s'' & -> & Hw & Hend & Harc)]];
    rewrite Hw in Hkey.
  - (* a new branch *)
    apply return_int_inv in Hkey as (res & Hkey & Eidx).
    assert (Hr1 : res <> TDICT_ERR) by (intros E; subst res; auto).
    assert (Hr2 : res <> -1) by (intros E; subst res; auto).
    destruct (insertInBranch_found fuel t t1 pre q s' res H Hpool Hpre Hq
                Hqnz Harcs Hkey Hr1 Hr2)
      as (Hpool1 & (Hr & Hrt) & Hat & Hty & _ & _ & leaf & Hwalk & Hidx).
    rewrite (new_slot_int _ (tailsize t) Hpsz Hcap) in Eidx by lia.
    subst res.
    split; [exact Hpool1|]. split; [exact Hr|]. split; [exact Hty|].
    exists leaf, (tl q). rewrite Epq. split; [exact Hwalk|].
    split; [exact Hidx|].
    assert (Hnz : nonzero (tl q)).
    { destruct q; [constructor|]. apply Forall_cons_iff in Hqnz. apply Hqnz. }
    pose proof (walk_branches_rest _ _ _ _ _ Hwalk) as Hrest.
    rewrite <- Epq in Hrest.
    apply (walk_tail_self t1 index (tl q)); [|exact Hnz|lia|lia|reflexivity].
    unfold trieGetTailSuffix.
    rewrite (ult_pool t1 _ (proj1 (proj2 Hpool1)) Hr), Hat. reflexivity.
  - (* a tail cell *)
    destruct (walk_tail t (trieGetTailIndex t s') 0 q) eqn:Ewt.
    + cbn [return_int] in Hkey. injection Hkey as E1 E2.
      apply (Hpresent s'); auto.
    + rewrite trieBranchEnd_base in Hend. apply Z.ltb_lt in Hend.
      apply return_int_inv in Hkey as (res & Hkey & Eidx).
      assert (Hr1 : res <> TDICT_ERR) by (intros E; subst res; auto).
      assert (Hr2 : res <> -1) by (intros E; subst res; auto).
      destruct (insertInTail_found fuel t t1 pre q s' res H Hpool Hpre Hq
                  Hqnz Harcs Hend Hkey Hr1 Hr2)
        as (Hpool1 & (Hr & Hrt) & Hty & _ & _ & leaf & rest & Hnz & Hat
            & Hwalk & Hidx).
      rewrite (new_slot_int _ (tailsize t) Hpsz Hcap) in Eidx by lia.
      subst res.
      split; [exact Hpool1|]. split; [exact Hr|]. split; [exact Hty|].
      exists leaf, rest. rewrite Epq. split; [exact Hwalk|].
      split; [exact Hidx|].
      pose proof (walk_branches_rest _ _ _ _ _ Hwalk) as Hrest.
      rewrite <- Epq in Hrest.
      apply (walk_tail_self t1 index rest); [|exact Hnz|lia|lia|reflexivity].
      unfold trieGetTailSuffix.
      rewrite (ult_pool t1 _ (proj1 (proj2 Hpool1)) Hr), Hat. reflexivity.
  - (* the terminator arc *)
    destruct (walk_tail t (trieGetTailIndex t s'') 0 []) eqn:Ewt.
    + cbn [return_int] in Hkey. injection Hkey as E1 E2.
      apply (Hpresent s''); auto.
    + exfalso. apply return_int_inv in Hkey as (res & Hkey & Eidx).
      unfold _trieInsertInTail in Hkey.
      destruct (trieGetTailSuffix t (trieGetTailIndex t s'')) as [os|] eqn:Eos;
        [|inversion Hkey; subst; contradiction].
      apply trieWalk_Some in Harc as (Hch & Es'').
      pose proof (small_getB t s' H) as Hsb.
      destruct (child_is_node t s' s'' H Hns') as (Hn'' & _);
        [subst s''; zlia|rewrite Es''; exact Hch|].
      pose proof (Hterm s'' ltac:(destruct Hn''; lia)) as Hcell.
      assert (Ec : trieGetCheck t s'' = s') by (rewrite Es''; exact Hch).
      unfold term_cell_ok, TRIE_CHAR_TERM in Hcell.
      rewrite Ec, <- Es'' in Hcell.
      destruct Hns' as (Hs'b & _).
      destruct (Z.leb_spec 0 s'); [|lia]. rewrite Z.eqb_refl in Hcell.
      cbn [andb] in Hcell. rewrite Eos in Hcell.
      destruct os as [|c os]; [|discriminate].
      cbn [walk_tail] in Ewt. unfold _trieWalkTail in Ewt.
      rewrite Eos in Ewt. cbn in Ewt. discriminate.
Qed.

Lemma trieAdd_finds (fuel : nat) (t t' : trie) (k : list Z) (v : valptr) :
  da_inv t -> pool_ok t -> term_ok t ->
  tailsize t < TRIE_INDEX_MAX ->
  Z.of_nat (length (internalKey t k)) <= 32767 ->
  trieAdd fuel t k v = Some (TDICT_OK, t') ->
  exists e,
    trieFind t' k = Some e /\ 0 <= e < tailsize t' /\
    (keyDup (type t) = None -> key (tail_at t' e) = Some k) /\
    (valDup (type t) = None -> val (tail_at t' e) = v).
Proof.
  intros H Hpool Hterm Hcap Hklen Hadd. unfold trieAdd in Hadd.
  destruct (_trieAddKey fuel t k) as [[index t1]|] eqn:Ekey; [|discriminate].
  destruct (Z.eqb_spec index TRIE_INDEX_ERROR) as [|Hi0];
    [cbn [orb] in Hadd; inversion Hadd; discriminate|].
  destruct (Z.eqb_spec index TDICT_ERR) as [|Hi1];
    [cbn [orb] in Hadd; inversion Hadd; discriminate|].
  destruct (Z.eqb_spec index (-1)) as [|Hi2];
    [cbn [orb] in Hadd; inversion Hadd; discriminate|].
  cbn [orb] in Hadd. injection Hadd as Et'.
  destruct (trieAddKey_found fuel t t1 k index H Hpool Hterm Hcap Hklen Ekey
              Hi0 Hi1 Hi2)
    as (Hpool1 & Hr & Hty1 & leaf & rest & Hwalk & Hidx & Hwt).
  pose proof Hpool1 as (Hlen1 & Hsz1 & _ & _).
  set (e := index - TAIL_START_BLOCKNO) in *.
  set (tk := trieSetTailKey t1 index (Some k)) in *.
  destruct (trieSetTailKey_lookup t1 index (Some k))
    as (Hdak & Hszk & Htyk & Hsfk & Hvalk). fold tk in Hdak, Hszk, Htyk, Hsfk, Hvalk.
  destruct (trieSetTailVal_lookup tk index v)
    as (Hdav & Hszv & Htyv & Hsfv & Hkeyv). rewrite Et' in *.
  assert (Hu1 : ult e (tailsize t1) = true) by (apply ult_pool; auto).
  exists e. split; [|split; [|split]].
  - rewrite (trieFind_ext tk t' k Hdav Hszv Htyv Hsfv).
    rewrite (trieFind_ext t1 tk k Hdak Hszk Htyk Hsfk).
    unfold trieFind. unfold internalKey at 1. rewrite Hty1.
    fold (internalKey t k). rewrite Hwalk, Hidx, Hwt.
    unfold trieGetTrieEntry. fold e. rewrite Hu1. reflexivity.
  - rewrite Hszv, Hszk. exact Hr.
  - intros Hkd. rewrite Hkeyv. unfold tk, trieSetTailKey. fold e.
    rewrite Hu1, Hty1, Hkd. rewrite tail_at_set_tail_same by lia. reflexivity.
  - intros Hvd. subst t'. unfold trieSetTailVal. fold e.
    rewrite Hszk, Hu1, Htyk, Hty1, Hvd.
    assert (Hlenk : length (tails tk) = length (tails t1)).
    { unfold tk, trieSetTailKey. fold e. rewrite Hu1.
      destruct (keyDup (type t1)); [reflexivity|].
      unfold set_tail. cbn [tails with_tails]. apply upd_length. }
    rewrite tail_at_set_tail_same by lia. reflexivity.
Qed.


(** ** The pool invariant is kept *)

Lemma trieCreate_pool (ty : trieType) (m : Z -> trieEntry) :
  pool_ok (trieCreate ty m).
Proof.
  split; [reflexivity|]. split; [left; reflexivity|].
  split; [exists []; reflexivity|constructor].
Qed.

Lemma insertInBranch_pool (fuel : nat) (t t' : trie) (sep r : Z) (sfx : cstr) :
  da_inv t -> node t sep -> Forall byte sfx -> pool_ok t ->
  _trieInsertInBranch fuel t sep sfx = Some (r, t') -> pool_ok t'.
Proof.
  intros H Hsep Hsfx Hpool Hins. unfold _trieInsertInBranch in Hins.
  destruct (_daInsert fuel t sep (deref sfx)) as [[new_da t1]|] eqn:Eins;
    [|discriminate].
  destruct (daInsert_step fuel t t1 sep (deref sfx) new_da H Hsep
              (deref_byte sfx Hsfx) Eins) as (H1 & _ & Hp1 & _).
  pose proof (same_pool_ok t t1 Hp1 Hpool) as Hpool1.
  destruct (TRIE_INDEX_ERROR =? new_da); [inversion Hins; subst; exact Hpool1|].
  set (q := if negb (0 =? deref sfx) then advance sfx else sfx) in *.
  pose proof (addTailSuffix_pool t1 q (inv_tail t1 H1) Hpool1) as Hadd.
  cbv zeta in Hadd.
  destruct (_trieAddTailSuffix t1 q) as [new_tail t2]. cbn [fst snd] in Hadd.
  inversion Hins; subst r t'. rewrite trieSetTailIndex_setBase.
  apply (same_pool_ok t2); [apply same_pool_setB|].
  destruct Hadd as [(_ & -> & _)|(_ & Hp2 & _)]; assumption.
Qed.

Lemma insertInTail_fail_pool (fuel : nat) (t t' : trie) (sep s old_tail r : Z)
  (n : nat) :
  da_inv t -> node t sep -> up_path n t sep s -> pool_ok t ->
  insertInTail_fail fuel t sep s old_tail = Some (r, t') -> pool_ok t'.
Proof.
  intros H Hsep Hpath Hpool Hfail. unfold insertInTail_fail in Hfail.
  destruct (_daPrune fuel t sep s) as [t1|] eqn:Eprune; [|discriminate].
  destruct (daPrune_step fuel n t t1 sep s H Hsep Hpath Eprune)
    as (_ & _ & Hp1 & _).
  inversion Hfail; subst r t'. rewrite trieSetTailIndex_setBase.
  apply (same_pool_ok t1); [apply same_pool_setB|].
  apply (same_pool_ok t t1 Hp1 Hpool).
Qed.

Lemma insertInTail_pool (fuel : nat) (t t' : trie) (sep r : Z) (sfx : cstr) :
  da_inv t -> node t sep -> Forall byte sfx -> pool_ok t ->
  _trieInsertInTail fuel t sep sfx = Some (r, t') -> pool_ok t'.
Proof.
  intros H Hsep Hsfx Hpool Hins. unfold _trieInsertInTail in Hins.
  pose proof (inv_wf t H) as Hwf. pose proof Hsep as (Hsepb & _).
  rewrite trieGetTailIndex_base in Hins.
  pose proof (small_getB t sep H) as Hsb.
  set (old_tail := - trieGetBase t sep) in *.
  destruct (trieGetTailSuffix t old_tail) as [old_suffix|] eqn:Esfx;
    [|inversion Hins; subst; exact Hpool].
  destruct (getTailSuffix_pool t old_tail old_suffix Hpool
              ltac:(unfold old_tail; zlia) Esfx) as (Hot & Hots & _).
  pose proof (getTailSuffix_bytes t old_tail old_suffix (inv_tail t H) Esfx)
    as Hob.
  destruct (insertInTail_loop fuel t sep old_suffix sfx) as [[res t1]|] eqn:Eloop;
    [|discriminate].
  destruct (insertInTail_loop_step fuel sep t sep old_suffix sfx 0 res t1
              H Hsep Hsep eq_refl ltac:(unfold old_tail in Hot; zlia) Hob Hsfx
              Eloop) as (H1 & Hd1 & Hp1 & Hsep1 & Hres).
  pose proof (same_pool_ok t t1 Hp1 Hpool) as Hpool1.
  destruct res as [s1|[[s1 p1] sfx1]].
  - destruct Hres as (m & Hpath).
    apply (insertInTail_fail_pool fuel t1 t' sep s1 old_tail r m H1 Hsep1
             Hpath Hpool1 Hins).
  - destruct Hres as (m & Hpath & Hs1 & Hb1 & Hp1b & Hsfx1).
    destruct (_daInsert fuel t1 s1 (deref p1)) as [[old_da t2]|] eqn:Eins;
      [|discriminate].
    destruct (daInsert_leaf_step fuel t1 t2 s1 (deref p1) old_da H1 Hs1
                (deref_byte p1 Hp1b) Hb1 Eins)
      as (H2 & Hd2 & Hp2 & Hkeep & _ & Hres2).
    pose proof (same_pool_ok t1 t2 Hp2 Hpool1) as Hpool2.
    assert (Hkeep' : forall j, node t1 j ->
               node t2 j /\ trieGetCheck t2 j = trieGetCheck t1 j).
    { intros j Hj. destruct (Hkeep j Hj) as (A & B & _). auto. }
    unfold TRIE_INDEX_ERROR in *.
    destruct (Z.eqb_spec 0 old_da) as [E|E].
    + pose proof (up_path_keep m t1 t2 sep s1 Hpath Hkeep') as Hpath2.
      apply (insertInTail_fail_pool fuel t2 t' sep s1 old_tail r m H2
               ltac:(apply Hkeep'; exact Hsep1) Hpath2 Hpool2 Hins).
    + destruct Hres2 as [(E0 & _)|(Hda3 & _ & Hnda & _ & _ & _)]; [lia|].
      set (p2 := if negb (0 =? deref p1) then advance p1 else p1) in *.
      assert (Hp2b : Forall byte p2).
      { unfold p2. destruct (negb (0 =? deref p1)); auto.
        apply advance_byte. exact Hp1b. }
      pose proof (same_pool_trans _ _ _ Hp1 Hp2) as Hp02.
      assert (Hat2 : tail_at t2 (old_tail - TAIL_START_BLOCKNO) =
                     tail_at t (old_tail - TAIL_START_BLOCKNO)).
      { unfold tail_at. destruct Hp02 as (-> & _). reflexivity. }
      assert (Htz2 : tailsize t2 = tailsize t) by apply Hp02.
      destruct (trieSetTailSuffix_pool t2 old_tail p2 Hpool2
                  ltac:(rewrite Htz2; exact Hot)) as (Hpool3 & _).
      destruct (trieSetTailSuffix_step t2 old_tail p2 (inv_tail t2 H2) Hp2b)
        as (Ht3 & Hd3).
      destruct (_trieSetTailSuffix t2 old_tail _) as [x t3].
      cbn [snd] in *.
      pose proof (same_da_inv t2 t3 Hd3 Ht3 H2) as H3.
      rewrite trieSetTailIndex_setBase in Hins.
      assert (Hnda3 : node t3 old_da) by (apply (same_da_node t2 t3); auto).
      assert (H4 : da_inv (trieSetBase t3 old_da (- old_tail)))
        by (apply setBase_node_inv; auto;
            [unfold old_tail; zlia|left; unfold old_tail in *; zlia]).
      apply (insertInBranch_pool fuel _ t' s1 r sfx1 H4); auto.
      * assert (Hs13 : node t3 s1)
          by (apply (same_da_node t2 t3); auto; apply Hkeep'; exact Hs1).
        destruct Hs13. split; [rewrite dasize_setB; auto|].
        rewrite getC_setB. auto.
      * apply (same_pool_ok t3); [apply same_pool_setB|exact Hpool3].
Qed.

Lemma trieSetTailKey_pool (t : trie) (i : Z) (k : keyptr) :
  pool_ok t -> pool_ok (trieSetTailKey t i k).
Proof.
  intros Hpool. unfold trieSetTailKey.
  destruct (ult (i - TAIL_START_BLOCKNO) (tailsize t)) eqn:Eu; [|exact Hpool].
  destruct (keyDup (type t)).
  - apply (pool_ok_same_tails t); auto.
  - unfold set_tail.
    replace (Z.to_nat (i - TAIL_START_BLOCKNO))
      with (Z.to_nat (Z.max 0 (i - TAIL_START_BLOCKNO))) by lia.
    replace (tail_at t (i - TAIL_START_BLOCKNO))
      with (tail_at t (Z.max 0 (i - TAIL_START_BLOCKNO)))
      by (unfold tail_at; f_equal; lia).
    apply (pool_ok_set_tail t (Z.max 0 (i - TAIL_START_BLOCKNO)));
      [exact Hpool|lia| |right; reflexivity].
    apply (sfx_nonzero_tail_at t _ (proj2 (proj2 (proj2 Hpool)))).
Qed.

Lemma trieSetTailVal_pool (t : trie) (i : Z) (v : valptr) :
  pool_ok t -> pool_ok (trieSetTailVal t i v).
Proof.
  intros Hpool. unfold trieSetTailVal.
  destruct (ult (i - TAIL_START_BLOCKNO) (tailsize t)) eqn:Eu; [|exact Hpool].
  destruct (valDup (type t)).
  - apply (pool_ok_same_tails t); auto.
  - unfold set_tail.
    replace (Z.to_nat (i - TAIL_START_BLOCKNO))
      with (Z.to_nat (Z.max 0 (i - TAIL_START_BLOCKNO))) by lia.
    replace (tail_at t (i - TAIL_START_BLOCKNO))
      with (tail_at t (Z.max 0 (i - TAIL_START_BLOCKNO)))
      by (unfold tail_at; f_equal; lia).
    apply (pool_ok_set_tail t (Z.max 0 (i - TAIL_START_BLOCKNO)));
      [exact Hpool|lia| |right; reflexivity].
    apply (sfx_nonzero_tail_at t _ (proj2 (proj2 (proj2 Hpool)))).
Qed.

Lemma trieAdd_pool (fuel : nat) (t t' : trie) (k : list Z) (v : valptr)
  (r : Z) :
  da_inv t -> pool_ok t -> trieAdd fuel t k v = Some (r, t') -> pool_ok t'.
Proof.
  intros H Hpool Hadd. unfold trieAdd in Hadd.
  destruct (_trieAddKey fuel t k) as [[index t1]|] eqn:Ekey; [|discriminate].
  assert (Hpool1 : pool_ok t1).
  { unfold _trieAddKey in Ekey.
    pose proof (base_nonempty t H) as Hne.
    destruct (base t) as [|b0 bs] eqn:Eb; [congruence|].
    destruct (walk_branches_spec (internalKey t k) t DA_POOL_ROOT 0 _ H
                (internalKey_bytes t k) (root_node t H) eq_refl eq_refl)
      as (s & q & m & Hexit & Hs & _ & Hq).
    destruct Hexit as [E|E]; rewrite E in Ekey.
    - apply return_int_inv in Ekey as (res & Ekey & _).
      eapply insertInBranch_pool; eauto.
    - destruct (walk_tail t (trieGetTailIndex t s) 0 q).
      + inversion Ekey; subst. exact Hpool.
      + apply return_int_inv in Ekey as (res & Ekey & _).
        eapply insertInTail_pool; eauto. }
  destruct ((index =? TRIE_INDEX_ERROR) || (index =? TDICT_ERR) ||
            (index =? -1)).
  - inversion Hadd; subst. exact Hpool1.
  - inversion Hadd; subst r t'.
    apply trieSetTailVal_pool, trieSetTailKey_pool, Hpool1.
Qed.

Lemma chain_ok_head (L : list Z) (t : trie) (f : Z) :
  chain_ok t f L -> f = hd 0 L.
Proof. destruct L; cbn [chain_ok hd]; [auto|intros (E & _); exact E]. Qed.

Lemma last_cons_default {A : Type} (l : list A) :
  forall x d, last (x :: l) d = last l x.
Proof.
  induction l as [|y l IH]; intros x d; [reflexivity|].
  change (last (x :: y :: l) d) with (last (y :: l) d).
  rewrite (IH y d), (IH y x). reflexivity.
Qed.

(** The scan of [_tailFreeCell] over a well-formed chain stops between
    the free slots below [block] and those above it. *)
Lemma tailFree_scan_chain (block : Z) (L : list Z) :
  forall t f,
    chain_ok t f L -> ~ In block L ->
    exists L1 L2,
      L = L1 ++ L2 /\ Forall (fun x => x < block) L1 /\
      (forall y, In y L2 -> block < y) /\
      (forall fuel j r, tailFree_scan fuel t block j f = Some r ->
                        r = (last L1 j, hd 0 L2)) /\
      (forall fuel j, (length L < fuel)%nat ->
         tailFree_scan fuel t block j f = Some (last L1 j, hd 0 L2)).
Proof.
  induction L as [|x L IH]; intros t f Hch Hnot; cbn [chain_ok] in Hch.
  - subst f. exists [], []. split; [reflexivity|]. split; [constructor|].
    split; [intros y []|]. split.
    + intros [|fuel] j r Hscan; cbn [tailFree_scan] in Hscan; [discriminate|].
      cbn in Hscan. inversion Hscan. reflexivity.
    + intros [|fuel] j Hfuel; [cbn in Hfuel; lia|]. reflexivity.
  - destruct Hch as (-> & Hx & Hxn & Hrest).
    assert (Hx0 : (x =? 0) = false) by (apply Z.eqb_neq; lia).
    destruct (Z.ltb_spec x block) as [Hlt|Hge].
    + destruct (IH t (next_free (tail_at t x)) Hrest
                  ltac:(intros Hin; apply Hnot; right; exact Hin))
        as (L1 & L2 & E & H1 & H2 & Hpart & Htot).
      exists (x :: L1), L2. split; [cbn [app]; rewrite E; reflexivity|].
      split; [constructor; auto|]. split; [exact H2|]. split.
      * intros [|fuel] j r Hscan; cbn [tailFree_scan] in Hscan; [discriminate|].
        rewrite Hx0 in Hscan. cbn [negb andb] in Hscan.
        destruct (Z.ltb_spec x block); [|lia].
        rewrite last_cons_default. apply (Hpart fuel x r Hscan).
      * intros [|fuel] j Hfuel; [cbn in Hfuel; lia|]. cbn [tailFree_scan].
        rewrite Hx0. cbn [negb andb]. destruct (Z.ltb_spec x block); [|lia].
        rewrite last_cons_default. apply Htot. cbn in Hfuel. lia.
    + exists [], (x :: L). split; [reflexivity|]. split; [constructor|].
      split; [|split].
      * intros y Hy.
        assert (Hxb : x <> block) by (intros ->; apply Hnot; left; reflexivity).
        destruct Hy as [<-|Hy]; [lia|].
        destruct (chain_ok_members L t _ Hrest y Hy) as (Hny & _).
        destruct L as [|z L']; [destruct Hy|].
        cbn [chain_ok] in Hrest. destruct Hrest as (Ez & Hz & _). lia.
      * intros [|fuel] j r Hscan; cbn [tailFree_scan] in Hscan; [discriminate|].
        rewrite Hx0 in Hscan. cbn [negb andb] in Hscan.
        destruct (Z.ltb_spec x block); [lia|]. inversion Hscan. reflexivity.
      * intros [|fuel] j Hfuel; [cbn in Hfuel; lia|]. cbn [tailFree_scan].
        rewrite Hx0. cbn [negb andb]. destruct (Z.ltb_spec x block); [lia|].
        reflexivity.
Qed.

(** Linking [block] between the two halves gives a well-formed chain. *)
Lemma chain_ok_insert (block : Z) (L1 : list Z) :
  forall t t' f L2,
    chain_ok t f (L1 ++ L2) -> Forall (fun x => x < block) L1 ->
    (forall y, In y L2 -> block < y) ->
    0 < block < tailsize t -> tailsize t' = tailsize t ->
    next_free (tail_at t' block) = hd 0 L2 ->
    (forall x, In x (L1 ++ L2) -> x <> last L1 0 ->
       next_free (tail_at t' x) = next_free (tail_at t x)) ->
    (L1 <> [] -> next_free (tail_at t' (last L1 0)) = block) ->
    chain_ok t' (hd block L1) (L1 ++ block :: L2).
Proof.
  induction L1 as [|x L1 IH];
    intros t t' f L2 Hch H1 H2 Hb Hsz Hbn Hsame Hlast;
    cbn [app hd] in *.
  - cbn [chain_ok]. split; [reflexivity|]. split; [lia|].
    rewrite Hbn. split.
    + destruct L2 as [|y L2]; [left; reflexivity|right].
      cbn [hd]. apply H2. left. reflexivity.
    + rewrite <- (chain_ok_head L2 t f Hch).
      apply (chain_ok_ext L2 t); [exact Hch|lia|].
      intros y Hy. apply Hsame; [exact Hy|].
      cbn [last]. destruct (chain_ok_members L2 t f Hch y Hy). lia.
  - cbn [chain_ok] in Hch. destruct Hch as (-> & Hx & Hxn & Hrest).
    apply Forall_cons_iff in H1 as (Hxb & H1).
    cbn [chain_ok]. split; [reflexivity|]. split; [lia|].
    pose proof (chain_ok_head _ _ _ Hrest) as Ehd.
    destruct L1 as [|y L1].
    + cbn [app] in *. pose proof (Hlast ltac:(discriminate)) as B.
      cbn [last] in B. rewrite B.
      split; [right; exact Hxb|].
      apply (IH t t' (next_free (tail_at t x)) L2); auto.
      * intros z Hz Hne. apply Hsame; [right; exact Hz|].
        cbn [last]. pose proof (H2 z Hz). lia.
      * intros Hne. contradiction.
    + assert (Hxl : x <> last (x :: y :: L1) 0).
      { change (last (x :: y :: L1) 0) with (last (y :: L1) 0).
        assert (Hin : In (last (y :: L1) 0) (y :: L1)).
        { clear. generalize y. induction L1 as [|z L1 IHl]; intros w.
          - left. reflexivity.
          - right. apply (IHl z). }
        assert (Hin' : In (last (y :: L1) 0) ((y :: L1) ++ L2))
          by (apply in_or_app; left; exact Hin).
        destruct (chain_ok_members _ t _ Hrest _ Hin') as (Hge & _).
        cbn [app chain_ok] in Hrest. destruct Hrest as (Ey & Hy & _). lia. }
      pose proof (Hsame x (or_introl eq_refl) Hxl) as B.
      rewrite B. split; [exact Hxn|].
      rewrite Ehd. change (hd 0 ((y :: L1) ++ L2)) with (hd block (y :: L1)).
      apply (IH t t' (next_free (tail_at t x)) L2); auto.
      * intros z Hz Hne. apply Hsame; [right; exact Hz|exact Hne].
      * intros _. apply Hlast. discriminate.
Qed.

Lemma Forall_lt_nil (block : Z) (t : trie) (f : Z) (L1 L2 : list Z) :
  chain_ok t f (L1 ++ L2) -> Forall (fun x => x < block) L1 ->
  block <= 0 -> L1 = [].
Proof.
  intros Hch H1 Hb. destruct L1 as [|x L1]; [reflexivity|].
  apply Forall_cons_iff in H1 as (Hx & _).
  cbn [app chain_ok] in Hch. lia.
Qed.

Lemma last_in {A : Type} (l : list A) (x d : A) : In (last (x :: l) d) (x :: l).
Proof.
  revert x. induction l as [|y l IH]; intros x; [left; reflexivity|].
  right. apply (IH y).
Qed.

(** [_tailFreeCell] of a slot in use keeps the pool invariant. *)
Lemma tailFreeCell_pool (fuel : nat) (t t' : trie) (block : Z) :
  pool_ok t -> small block ->
  next_free (tail_at t (block - TAIL_START_BLOCKNO)) = -1 ->
  _tailFreeCell fuel t block = Some t' -> pool_ok t'.
Proof.
  intros Hpool Hsm Hused Hfree. unfold _tailFreeCell in Hfree.
  pose proof Hpool as (Hlen & Hsz & (L & Hch) & Hnz).
  pose proof (pool_sizes_bounds _ Hsz) as Hbd.
  set (b := block - TAIL_START_BLOCKNO) in *.
  destruct (Z.geb_spec (ulong b) (ulong (tailsize t))) as [Hout|Hin].
  { inversion Hfree; subst. exact Hpool. }
  assert (Hb : 0 <= b < tailsize t).
  { pose proof (ult_spec b (tailsize t) ltac:(unfold b; zlia) ltac:(zlia)) as E.
    unfold ult in E. destruct (Z.ltb_spec (ulong b) (ulong (tailsize t))); [|lia].
    symmetry in E. apply andb_true_iff in E. lia. }
  assert (HbL : ~ In b L).
  { intros Hin'. destruct (chain_ok_members L t _ Hch b Hin') as (_ & _ & E).
    lia. }
  set (t1 := set_tail t b (entry_set_suffix (tail_at t b) None)) in *.
  set (t2 := call_keyDestructor t1 (key (tail_at t1 b))) in *.
  destruct (call_keyDestructor_pool t1 (key (tail_at t1 b)))
    as (_ & Hl2 & Hs2 & Hf2). fold t2 in Hl2, Hs2, Hf2.
  set (t3 := call_valDestructor t2 (val (tail_at t2 b))) in *.
  destruct (call_valDestructor_pool t2 (val (tail_at t2 b)))
    as (_ & Hl3 & Hs3 & Hf3). fold t3 in Hl3, Hs3, Hf3.
  assert (Hat3 : forall x, 0 <= x ->
            tail_at t3 x = if x =? b then entry_set_suffix (tail_at t b) None
                           else tail_at t x).
  { intros x Hx. unfold tail_at at 1. rewrite Hl3, Hl2.
    fold (tail_at t1 x). unfold t1. rewrite tail_at_set_tail by lia.
    destruct (Z.eqb_spec x b) as [->|_]; cbn [andb]; [|reflexivity].
    destruct (Z.ltb_spec b (Z.of_nat (length (tails t)))); [reflexivity|lia]. }
  assert (Hlen3 : length (tails t3) = Z.to_nat (tailsize t)).
  { rewrite Hl3, Hl2. unfold t1, set_tail. cbn [tails with_tails].
    rewrite upd_length. exact Hlen. }
  assert (Hsz3 : tailsize t3 = tailsize t) by (rewrite Hs3, Hs2; reflexivity).
  assert (Hff3 : first_free t3 = first_free t) by (rewrite Hf3, Hf2; reflexivity).
  assert (Hnz3 : Forall sfx_nonzero (tails t3)).
  { rewrite Hl3, Hl2. unfold t1, set_tail. cbn [tails with_tails].
    apply sfx_nonzero_upd; [exact Hnz|exact I]. }
  assert (Hch3 : chain_ok t3 (first_free t) L).
  { apply (chain_ok_ext L t); [exact Hch|lia|].
    intros x Hx. destruct (chain_ok_members L t _ Hch x Hx) as (_ & Hxb & _).
    rewrite Hat3 by lia.
    destruct (Z.eqb_spec x b) as [->|_]; [contradiction|auto]. }
  destruct (tailFree_scan_chain b L t3 (first_free t) Hch3 HbL)
    as (L1 & L2 & EL & H1 & H2 & Hpart & _).
  rewrite Hff3 in Hfree.
  destruct (tailFree_scan fuel t3 b 0 (first_free t)) as [[j i]|] eqn:Escan;
    [|discriminate].
  apply Hpart in Escan. injection Escan as Ej Ei.
  symmetry in Ej. symmetry in Ei. injection Hfree as Et'.
  set (t4 := set_next_free t3 b i) in *.
  assert (Hat4 : forall x, 0 <= x ->
            tail_at t4 x = if x =? b then entry_set_next_free (tail_at t3 b) i
                           else tail_at t3 x).
  { intros x Hx. unfold t4, set_next_free. rewrite tail_at_set_tail by lia.
    destruct (Z.eqb_spec x b) as [->|_]; cbn [andb]; [|reflexivity].
    destruct (Z.ltb_spec b (Z.of_nat (length (tails t3)))); [reflexivity|lia]. }
  assert (Hlen4 : length (tails t4) = Z.to_nat (tailsize t)).
  { unfold t4, set_next_free, set_tail. cbn [tails with_tails].
    rewrite upd_length. exact Hlen3. }
  assert (Hnz4 : Forall sfx_nonzero (tails t4))
    by (apply set_next_free_nonzero; exact Hnz3).
  assert (Hb4n : next_free (tail_at t4 b) = i).
  { rewrite Hat4 by lia. rewrite Z.eqb_refl. reflexivity. }
  rewrite EL in Hch3.
  destruct (Z.eqb_spec j 0) as [Ej0|Ej0]; cbn [negb] in Et'.
  - (* no free slot below [block] *)
    assert (EL1 : L1 = []).
    { destruct L1 as [|x L1]; [reflexivity|]. exfalso.
      rewrite <- Ej in Ej0. pose proof (last_in L1 x 0) as Hin'.
      rewrite Ej0 in Hin'.
      assert (Hin2 : In 0 ((x :: L1) ++ L2)) by (apply in_or_app; left; exact Hin').
      destruct (chain_ok_members _ t3 _ Hch3 0 Hin2). lia. }
    subst L1. cbn [app] in *. subst t'.
    apply (pool_ok_same_tails (with_first_free t4 b));
      [|reflexivity|reflexivity|reflexivity].
    unfold pool_ok.
    change (tailsize (with_first_free t4 b)) with (tailsize t3). rewrite Hsz3.
    split; [exact Hlen4|]. split; [exact Hsz|]. split; [|exact Hnz4].
    change (first_free (with_first_free t4 b)) with b.
    destruct (Z.eq_dec b 0) as [Eb|Eb].
    + exists []. exact Eb.
    + exists (b :: L2).
      apply (chain_ok_insert b [] t3 (with_first_free t4 b) (first_free t) L2);
        auto.
      * lia.
      * rewrite Ei. exact Hb4n.
      * intros x Hx _.
        destruct (chain_ok_members _ t3 _ Hch3 x Hx) as (_ & Hxb & _).
        change (tail_at (with_first_free t4 b) x) with (tail_at t4 x).
        rewrite Hat4 by lia. pose proof (H2 x Hx).
        destruct (Z.eqb_spec x b); [lia|auto].
      * intros Hne. contradiction.
  - (* [j] is the last free slot below [block] *)
    destruct L1 as [|x L1]; [cbn [last] in Ej; lia|].
    assert (Hjin : In j ((x :: L1) ++ L2)).
    { apply in_or_app. left. rewrite <- Ej. apply last_in. }
    destruct (chain_ok_members _ t3 _ Hch3 j Hjin) as (_ & Hjb & _).
    assert (Hjlt : j < b).
    { rewrite Forall_forall in H1. apply H1. rewrite <- Ej. apply last_in. }
    assert (Hb0 : 0 < b) by lia.
    set (t5 := set_next_free t4 j b) in *.
    assert (Hat5 : forall y, 0 <= y ->
              tail_at t5 y = if y =? j then entry_set_next_free (tail_at t4 j) b
                             else tail_at t4 y).
    { intros y Hy. unfold t5, set_next_free. rewrite tail_at_set_tail by lia.
      destruct (Z.eqb_spec y j) as [->|_]; cbn [andb]; [|reflexivity].
      destruct (Z.ltb_spec j (Z.of_nat (length (tails t4)))); [reflexivity|lia]. }
    subst t'.
    apply (pool_ok_same_tails t5); [|reflexivity|reflexivity|reflexivity].
    unfold pool_ok. change (tailsize t5) with (tailsize t3). rewrite Hsz3.
    split; [unfold t5, set_next_free, set_tail; cbn [tails with_tails];
            rewrite upd_length; exact Hlen4|].
    split; [exact Hsz|]. split; [|apply set_next_free_nonzero; exact Hnz4].
    exists ((x :: L1) ++ b :: L2).
    replace (first_free t5) with (hd b (x :: L1)).
    2:{ change (first_free t5) with (first_free t3). rewrite Hff3.
        cbn [app chain_ok] in Hch3. destruct Hch3 as (E & _). rewrite E.
        reflexivity. }
    apply (chain_ok_insert b (x :: L1) t3 t5 (first_free t) L2); auto.
    + lia.
    + rewrite Hat5 by lia. destruct (Z.eqb_spec b j); [lia|].
      rewrite Hb4n. symmetry. exact Ei.
    + intros y Hy Hne. rewrite Ej in Hne.
      destruct (chain_ok_members _ t3 _ Hch3 y Hy) as (_ & Hyb & _).
      rewrite Hat5 by lia. destruct (Z.eqb_spec y j); [contradiction|].
      rewrite Hat4 by lia.
      destruct (Z.eqb_spec y b) as [->|_]; [|auto].
      exfalso. apply HbL. rewrite EL. exact Hy.
    + intros _. rewrite Ej. rewrite Hat5 by lia. rewrite Z.eqb_refl.
      reflexivity.
Qed.

Lemma walk_tail_suffix_some (t : trie) (index i : Z) (p : cstr) :
  walk_tail t index i p = true ->
  suffix (tail_at t (index - TAIL_START_BLOCKNO)) <> None.
Proof.
  intros H.
  assert (E : forall c, fst (_trieWalkTail t index i c) = TDICT_OK ->
            suffix (tail_at t (index - TAIL_START_BLOCKNO)) <> None).
  { intros c. unfold _trieWalkTail, trieGetTailSuffix.
    destruct (ult (index - TAIL_START_BLOCKNO) (tailsize t));
      [|discriminate].
    destruct (suffix (tail_at t (index - TAIL_START_BLOCKNO)));
      [discriminate|discriminate]. }
  destruct p as [|c p]; cbn [walk_tail] in H;
    destruct (_trieWalkTail t index i _) as [r i'] eqn:Ew;
    (destruct (Z.eqb_spec r 0) as [->|];
     [eapply E; rewrite Ew; reflexivity|discriminate H]).
Qed.

(** [trieDelete] of a key whose slot is marked as in use keeps the pool
    invariant. *)
Lemma trieDelete_pool (fuel : nat) (t t' : trie) (k : list Z) (r : Z) :
  da_inv t -> pool_ok t ->
  (forall e, trieFind t k = Some e -> next_free (tail_at t e) = -1) ->
  trieDelete fuel t k = Some (r, t') -> pool_ok t'.
Proof.
  intros H Hpool Hused Hdel. unfold trieDelete in Hdel.
  unfold trieFind in Hused.
  destruct (walk_branches_spec (internalKey t k) t DA_POOL_ROOT 0 _ H
              (internalKey_bytes t k) (root_node t H) eq_refl eq_refl)
    as (s & q & m & Hexit & Hs & Hpath & Hq).
  destruct Hexit as [E|E]; rewrite E in Hdel, Hused.
  { inversion Hdel; subst. exact Hpool. }
  destruct (walk_tail t (trieGetTailIndex t s) 0 q) eqn:Ewt;
    [|inversion Hdel; subst; exact Hpool].
  apply walk_tail_in_pool in Ewt. unfold trieGetTrieEntry in Hused.
  rewrite Ewt in Hused. specialize (Hused _ eq_refl). clear Ewt.
  rename Hused into Ewt.
  pose proof (inv_wf t H) as Hwf. pose proof Hs as (Hsb & _).
  rewrite trieGetTailIndex_base in *. pose proof (small_getB t s H) as Hsm.
  destruct (_tailFreeCell fuel t (- trieGetBase t s)) as [t1|] eqn:Efree;
    [|discriminate].
  assert (Hlti : lng (- trieGetBase t s)) by zlia.
  destruct (tailFreeCell_step fuel t t1 _ (inv_tail t H) Hlti Efree)
    as (Ht1 & Hd1).
  assert (Hsmb : small (- trieGetBase t s)) by (unfold small in *; lia).
  pose proof (tailFreeCell_pool fuel t t1 _ Hpool Hsmb Ewt Efree) as Hpool1.
  pose proof (same_da_inv t t1 Hd1 Ht1 H) as H1.
  assert (Hs1 : node t1 s) by (apply (same_da_node t t1); auto).
  assert (H2 : da_inv (trieSetBase t1 s TRIE_INDEX_ERROR))
    by (apply setBase_node_inv; auto; [zlia|left; zlia]).
  set (t2 := trieSetBase t1 s TRIE_INDEX_ERROR) in *.
  assert (Hkeep : forall j, node t j ->
             node t2 j /\ trieGetCheck t2 j = trieGetCheck t j).
  { intros j Hj. apply (same_da_node t t1 j Hd1) in Hj as Hj1.
    destruct Hj1 as (A & B). unfold t2. split.
    - split; [rewrite dasize_setB; exact A|]. rewrite getC_setB. exact B.
    - rewrite getC_setB. apply same_da_getC. exact Hd1. }
  pose proof (up_path_keep m t t2 _ s Hpath Hkeep) as Hpath2.
  destruct (_daPrune fuel t2 DA_POOL_ROOT s) as [t3|] eqn:Eprune;
    [|discriminate].
  destruct (daPrune_step fuel m t2 t3 _ s H2 (root_node t2 H2) Hpath2 Eprune)
    as (_ & _ & Hp3 & _).
  inversion Hdel; subst r t'.
  apply (same_pool_ok t2 t3 Hp3).
  apply (same_pool_ok t1); [apply same_pool_setB|exact Hpool1].
Qed.

Lemma trieReplace_pool (t : trie) (te : option Z) (v : valptr) :
  pool_ok t -> pool_ok (snd (trieReplace t te v)).
Proof.
  intros Hpool. unfold trieReplace. destruct te as [i|]; [|exact Hpool].
  cbn [snd].
  set (t1 := set_tail t i (entry_set_val (tail_at t i) v)).
  assert (Hp1 : pool_ok t1).
  { unfold t1, set_tail.
    replace (Z.to_nat i) with (Z.to_nat (Z.max 0 i)) by lia.
    replace (tail_at t i) with (tail_at t (Z.max 0 i))
      by (unfold tail_at; f_equal; lia).
    apply (pool_ok_set_tail t (Z.max 0 i));
      [exact Hpool|lia| |right; reflexivity].
    apply (sfx_nonzero_tail_at t _ (proj2 (proj2 (proj2 Hpool)))). }
  destruct (call_valDestructor_pool t1 (val (tail_at t i))) as (_ & A & B & C).
  apply (pool_ok_same_tails t1); auto.
Qed.

Lemma trieExpand_pool (t : trie) (size : Z) :
  da_inv t -> pool_ok t -> pool_ok (snd (trieExpand t size)).
Proof.
  intros H Hpool.
  destruct (Z_lt_le_dec size 0) as [Hneg|Hpos].
  - unfold trieExpand. destruct (Z.leb_spec size 0); [|lia]. exact Hpool.
  - destruct (Z_lt_le_dec size TRIE_INDEX_MAX) as [Hlt|Hge].
    + destruct (expand_step t size H ltac:(zlia)) as ((_ & _ & Hp & _) & _).
      apply (same_pool_ok t _ Hp Hpool).
    + unfold trieExpand. destruct (Z.leb_spec TRIE_INDEX_MAX size); [|lia].
      rewrite orb_true_r. exact Hpool.
Qed.

(** The tail pool keeps its invariant: [trieCreate] establishes it, and
    [trieAdd], [trieExpand] and [trieReplace] preserve it on a trie that
    satisfies the ring invariant, whatever they return; [trieDelete]
    preserves it when the slot of the key, if [trieFind] finds one, is
    marked as in use ([next_free] is [-1], as [_tailAllocCell] leaves
    it).  The invariant says that [tails] has [tailsize] slots, that
    [tailsize] is [0], [DA_POOL_BEGIN] doubled some times or
    [TRIE_INDEX_MAX], that the slots linked from [first_free] through
    [next_free] are slots of the pool, in ascending order and closed by
    [0], and that no suffix contains the terminator, which holds of
    every string as the embedding reads it.  It does not say that a
    free slot holds no suffix: [zrealloc] leaves the suffix, key and
    value of the new slots unwritten. *)
Theorem pool_invariant_preserved :
  (forall ty m, pool_ok (trieCreate ty m)) /\
  (forall fuel t k v r t',
      da_inv t -> pool_ok t -> trieAdd fuel t k v = Some (r, t') ->
      pool_ok t') /\
  (forall fuel t k r t',
      da_inv t -> pool_ok t ->
      (forall e, trieFind t k = Some e -> next_free (tail_at t e) = -1) ->
      trieDelete fuel t k = Some (r, t') ->
      pool_ok t') /\
  (forall t size, da_inv t -> pool_ok t -> pool_ok (snd (trieExpand t size))) /\
  (forall t te v, pool_ok t -> pool_ok (snd (trieReplace t te v))).
Proof.
  split; [exact trieCreate_pool|].
  split; [intros; eapply trieAdd_pool; eauto|].
  split; [intros; eapply trieDelete_pool; eauto|].
  split; [intros; apply trieExpand_pool; auto|].
  intros. apply trieReplace_pool. assumption.
Qed.

(** A key that [trieAdd] has accepted can be looked up: on a trie that
    satisfies the ring invariant and the pool invariant and whose
    terminator leaves store the empty suffix, after [trieAdd] has
    returned [TDICT_OK] for a key, the two invariants hold again and
    [trieFind] returns a slot of the pool for that key; without a key
    duplicator the slot holds the key, and without a value duplicator
    it holds the value.  The bounds keep the slot number within the
    [int] that [_trieAddKey] returns and the suffix index within its
    [short]. *)
Theorem trieAdd_then_trieFind (fuel : nat) (t t' : trie) (k : list Z)
  (v : valptr) :
  da_inv t -> pool_ok t -> term_ok t ->
  tailsize t < TRIE_INDEX_HALFMAX ->
  Z.of_nat (length (internalKey t k)) <= 32767 ->
  trieAdd fuel t k v = Some (TDICT_OK, t') ->
  da_inv t' /\ pool_ok t' /\
  exists e,
    trieFind t' k = Some e /\ 0 <= e < tailsize t' /\
    (keyDup (type t) = None -> key (tail_at t' e) = Some k) /\
    (valDup (type t) = None -> val (tail_at t' e) = v).
Proof.
  intros H Hpool Hterm Hsize Hklen Hadd.
  assert (Hcap : tailsize t < TRIE_INDEX_MAX)
    by (unfold TRIE_INDEX_HALFMAX, TRIE_INDEX_MAX in *; lia).
  split; [|split].
  - apply (trieAdd_step fuel t t' k v TDICT_OK H Hcap Hadd).
  - apply (trieAdd_pool fuel t t' k v TDICT_OK H Hpool Hadd).
  - apply (trieAdd_finds fuel t t' k v H Hpool Hterm Hcap Hklen Hadd).
Qed.

Lemma trie_cat_pool : pool_ok trie_cat.
Proof.
  apply (trieAdd_pool 100 (trieCreate plainType zeroed) trie_cat key_cat 1 TDICT_OK).
  - apply trieCreate_inv.
  - apply trieCreate_pool.
  - vm_compute. reflexivity.
Qed.

Lemma term_ok_by_cells (t : trie) :
  forallb (term_cell_ok t) (zrange 2 (Z.to_nat (dasize t - 2))) = true ->
  term_ok t.
Proof.
  intros Hall j Hj. rewrite forallb_forall in Hall. apply Hall.
  apply zrange_In. lia.
Qed.

Lemma trie_cat_term : term_ok trie_cat.
Proof. apply term_ok_by_cells. vm_compute. reflexivity. Qed.

Lemma trieAdd_then_trieFind_witness :
  exists t',
    trieAdd 100 trie_cat key_car 5 = Some (TDICT_OK, t') /\
    da_inv t' /\ pool_ok t' /\
    exists e,
      trieFind t' key_car = Some e /\ 0 <= e < tailsize t' /\
      (keyDup (type trie_cat) = None ->
       key (tail_at t' e) = Some key_car) /\
      (valDup (type trie_cat) = None -> val (tail_at t' e) = 5).
Proof.
  assert (E : exists t', trieAdd 100 trie_cat key_car 5
                         = Some (TDICT_OK, t'))
    by (eexists; vm_compute; reflexivity).
  destruct E as (t' & E).
  exists t'. split; [exact E|].
  apply (trieAdd_then_trieFind 100 trie_cat t' key_car 5
           trie_cat_inv trie_cat_pool trie_cat_term).
  - vm_compute. reflexivity.
  - vm_compute. discriminate.
  - exact E.
Defined.

(** * The number of keys *)

Lemma insertInBranch_used (fuel : nat) (t t' : trie) (sep r : Z) (sfx : cstr) :
  da_inv t -> node t sep -> Forall byte sfx -> pool_ok t ->
  _trieInsertInBranch fuel t sep sfx = Some (r, t') ->
  ((r = TDICT_ERR \/ r = -1) /\ used t' = used t) \/
  (2 <= r <= TRIE_INDEX_MAX + 1 /\ used t' = ulong (used t + 1)).
Proof.
  intros H Hsep Hsfx Hpool Hins. unfold _trieInsertInBranch in Hins.
  destruct (_daInsert fuel t sep (deref sfx)) as [[new_da t1]|] eqn:Eins;
    [|discriminate].
  destruct (daInsert_step fuel t t1 sep (deref sfx) new_da H Hsep
              (deref_byte sfx Hsfx) Eins) as (H1 & _ & Hp1 & _).
  pose proof (same_pool_ok t t1 Hp1 Hpool) as Hpool1.
  destruct Hp1 as (_ & _ & _ & Eu1 & _).
  destruct (TRIE_INDEX_ERROR =? new_da).
  { inversion Hins; subst. left. auto. }
  set (q := if negb (0 =? deref sfx) then advance sfx else sfx) in *.
  pose proof (addTailSuffix_pool t1 q (inv_tail t1 H1) Hpool1) as Hadd.
  cbv zeta in Hadd.
  destruct (_trieAddTailSuffix t1 q) as [new_tail t2]. cbn [fst snd] in Hadd.
  inversion Hins; subst r t'. rewrite trieSetTailIndex_setBase.
  destruct (same_pool_setB t2 new_da (- new_tail)) as (_ & _ & _ & Eu & _).
  rewrite Eu.
  destruct Hadd as [(-> & -> & _)|(Hr & Hp2 & _ & _ & Hu & _)].
  - left. auto.
  - right. pose proof (pool_sizes_bounds _ (proj1 (proj2 Hp2))).
    split; [unfold TAIL_START_BLOCKNO in Hr; lia|congruence].
Qed.

Lemma insertInTail_fail_used (fuel : nat) (t t' : trie) (sep s old_tail r : Z)
  (n : nat) :
  da_inv t -> node t sep -> up_path n t sep s ->
  insertInTail_fail fuel t sep s old_tail = Some (r, t') ->
  r = TDICT_ERR /\ used t' = used t.
Proof.
  intros H Hsep Hpath Hfail. unfold insertInTail_fail in Hfail.
  destruct (_daPrune fuel t sep s) as [t1|] eqn:Eprune; [|discriminate].
  destruct (daPrune_step fuel n t t1 sep s H Hsep Hpath Eprune)
    as (_ & _ & (_ & _ & _ & Eu1 & _) & _).
  inversion Hfail; subst r t'. rewrite trieSetTailIndex_setBase.
  destruct (same_pool_setB t1 sep (- old_tail)) as (_ & _ & _ & Eu & _).
  split; [reflexivity|congruence].
Qed.

Lemma insertInTail_used (fuel : nat) (t t' : trie) (sep r : Z) (sfx : cstr) :
  da_inv t -> node t sep -> Forall byte sfx -> pool_ok t ->
  _trieInsertInTail fuel t sep sfx = Some (r, t') ->
  ((r = TDICT_ERR \/ r = -1) /\ used t' = used t) \/
  (2 <= r <= TRIE_INDEX_MAX + 1 /\ used t' = ulong (used t + 1)).
Proof.
  intros H Hsep Hsfx Hpool Hins. unfold _trieInsertInTail in Hins.
  pose proof (inv_wf t H) as Hwf. pose proof Hsep as (Hsepb & _).
  rewrite trieGetTailIndex_base in Hins.
  pose proof (small_getB t sep H) as Hsb.
  set (old_tail := - trieGetBase t sep) in *.
  destruct (trieGetTailSuffix t old_tail) as [old_suffix|] eqn:Esfx;
    [|inversion Hins; subst; left; auto].
  destruct (getTailSuffix_pool t old_tail old_suffix Hpool
              ltac:(unfold old_tail; zlia) Esfx) as (Hot & Hots & _).
  pose proof (getTailSuffix_bytes t old_tail old_suffix (inv_tail t H) Esfx)
    as Hob.
  destruct (insertInTail_loop fuel t sep old_suffix sfx) as [[res t1]|] eqn:Eloop;
    [|discriminate].
  destruct (insertInTail_loop_step fuel sep t sep old_suffix sfx 0 res t1
              H Hsep Hsep eq_refl ltac:(unfold old_tail in Hot; zlia) Hob Hsfx
              Eloop) as (H1 & Hd1 & Hp1 & Hsep1 & Hres).
  pose proof (same_pool_ok t t1 Hp1 Hpool) as Hpool1.
  assert (Eu1 : used t1 = used t) by apply Hp1.
  destruct res as [s1|[[s1 p1] sfx1]].
  - destruct Hres as (m & Hpath).
    destruct (insertInTail_fail_used fuel t1 t' sep s1 old_tail r m H1 Hsep1
                Hpath Hins) as (A & B).
    left. split; [auto|congruence].
  - destruct Hres as (m & Hpath & Hs1 & Hb1 & Hp1b & Hsfx1).
    destruct (_daInsert fuel t1 s1 (deref p1)) as [[old_da t2]|] eqn:Eins;
      [|discriminate].
    destruct (daInsert_leaf_step fuel t1 t2 s1 (deref p1) old_da H1 Hs1
                (deref_byte p1 Hp1b) Hb1 Eins)
      as (H2 & Hd2 & Hp2 & Hkeep & _ & Hres2).
    pose proof (same_pool_ok t1 t2 Hp2 Hpool1) as Hpool2.
    assert (Eu2 : used t2 = used t1) by apply Hp2.
    assert (Hkeep' : forall j, node t1 j ->
               node t2 j /\ trieGetCheck t2 j = trieGetCheck t1 j).
    { intros j Hj. destruct (Hkeep j Hj) as (A & B & _). auto. }
    unfold TRIE_INDEX_ERROR in *.
    destruct (Z.eqb_spec 0 old_da) as [E|E].
    + pose proof (up_path_keep m t1 t2 sep s1 Hpath Hkeep') as Hpath2.
      destruct (insertInTail_fail_used fuel t2 t' sep s1 old_tail r m H2
                  ltac:(apply Hkeep'; exact Hsep1) Hpath2 Hins) as (A & B).
      left. split; [auto|congruence].
    + destruct Hres2 as [(E0 & _)|(Hda3 & _ & Hnda & _ & _ & _)]; [lia|].
      set (p2 := if negb (0 =? deref p1) then advance p1 else p1) in *.
      assert (Hp2b : Forall byte p2).
      { unfold p2. destruct (negb (0 =? deref p1)); auto.
        apply advance_byte. exact Hp1b. }
      pose proof (same_pool_trans _ _ _ Hp1 Hp2) as Hp02.
      assert (Hat2 : tail_at t2 (old_tail - TAIL_START_BLOCKNO) =
                     tail_at t (old_tail - TAIL_START_BLOCKNO)).
      { unfold tail_at. destruct Hp02 as (-> & _). reflexivity. }
      assert (Htz2 : tailsize t2 = tailsize t) by apply Hp02.
      destruct (trieSetTailSuffix_pool t2 old_tail p2 Hpool2
                  ltac:(rewrite Htz2; exact Hot))
        as (Hpool3 & _ & _ & _ & _ & _ & Eu3 & _).
      destruct (trieSetTailSuffix_step t2 old_tail p2 (inv_tail t2 H2) Hp2b)
        as (Ht3 & Hd3).
      destruct (_trieSetTailSuffix t2 old_tail _) as [x t3].
      cbn [snd] in *.
      pose proof (same_da_inv t2 t3 Hd3 Ht3 H2) as H3.
      rewrite trieSetTailIndex_setBase in Hins.
      assert (Hnda3 : node t3 old_da) by (apply (same_da_node t2 t3); auto).
      assert (H4 : da_inv (trieSetBase t3 old_da (- old_tail)))
        by (apply setBase_node_inv; auto;
            [unfold old_tail; zlia|left; unfold old_tail in *; zlia]).
      destruct (same_pool_setB t3 old_da (- old_tail)) as (_ & _ & _ & Eu4 & _).
      assert (Hs14 : node (trieSetBase t3 old_da (- old_tail)) s1).
      { assert (Hs13 : node t3 s1)
          by (apply (same_da_node t2 t3); auto; apply Hkeep'; exact Hs1).
        destruct Hs13. split; [rewrite dasize_setB; auto|].
        rewrite getC_setB. auto. }
      assert (Hpool4 : pool_ok (trieSetBase t3 old_da (- old_tail)))
        by (apply (same_pool_ok t3); [apply same_pool_setB|exact Hpool3]).
      destruct (insertInBranch_used fuel _ t' s1 r sfx1 H4 Hs14 Hsfx1 Hpool4
                  Hins) as [(A & B)|(A & B)].
      * left. split; [exact A|congruence].
      * right. split; [exact A|congruence].
Qed.

Lemma trieSetTailKey_used (t : trie) (i : Z) (k : keyptr) :
  used (trieSetTailKey t i k) = used t.
Proof.
  unfold trieSetTailKey. destruct (ult _ _); [|reflexivity].
  destruct (keyDup (type t)); reflexivity.
Qed.

Lemma trieSetTailVal_used (t : trie) (i : Z) (v : valptr) :
  used (trieSetTailVal t i v) = used t.
Proof.
  unfold trieSetTailVal. destruct (ult _ _); [|reflexivity].
  destruct (valDup (type t)); reflexivity.
Qed.

(** A slot index of a pool of at most [TRIE_INDEX_MAX] slots, cut to
    [int], is none of the error results. *)
Lemma int_slot_ok (r : Z) :
  2 <= r <= TRIE_INDEX_MAX + 1 ->
  int_of_long r <> TRIE_INDEX_ERROR /\ int_of_long r <> TDICT_ERR /\
  int_of_long r <> -1.
Proof.
  intros Hr. unfold TRIE_INDEX_MAX in Hr.
  destruct (Z.eq_dec r 2147483648) as [->|Hne];
    [vm_compute; repeat split; discriminate|].
  rewrite int_of_long_id by (change (2 ^ 31) with 2147483648; lia).
  unfold TRIE_INDEX_ERROR, TDICT_ERR. lia.
Qed.

Lemma trieAdd_used (fuel : nat) (t t' : trie) (k : list Z) (v : valptr)
  (r : Z) :
  da_inv t -> pool_ok t -> trieAdd fuel t k v = Some (r, t') ->
  used t' =
    if (r =? TDICT_OK) && match trieFind t k with None => true | _ => false end
    then ulong (used t + 1) else used t.
Proof.
  intros H Hpool Hadd. unfold trieAdd in Hadd.
  destruct (_trieAddKey fuel t k) as [[index t1]|] eqn:Ekey; [|discriminate].
  assert (Hkey :
    (exists e, trieFind t k = Some e /\ used t1 = used t) \/
    (trieFind t k = None /\
     (((index = TDICT_ERR \/ index = -1) /\ used t1 = used t) \/
      ((index <> TRIE_INDEX_ERROR /\ index <> TDICT_ERR /\ index <> -1) /\
       used t1 = ulong (used t + 1))))).
  { unfold _trieAddKey in Ekey. unfold trieFind.
    pose proof (base_nonempty t H) as Hne.
    destruct (base t) as [|b0 bs] eqn:Eb; [congruence|].
    destruct (walk_branches_spec (internalKey t k) t DA_POOL_ROOT 0 _ H
                (internalKey_bytes t k) (root_node t H) eq_refl eq_refl)
      as (s & q & m & Hexit & Hs & _ & Hq).
    assert (Hres : forall res,
              ((res = TDICT_ERR \/ res = -1) /\ used t1 = used t) \/
              (2 <= res <= TRIE_INDEX_MAX + 1 /\
               used t1 = ulong (used t + 1)) ->
              index = int_of_long res ->
              ((index = TDICT_ERR \/ index = -1) /\ used t1 = used t) \/
              ((index <> TRIE_INDEX_ERROR /\ index <> TDICT_ERR /\
                index <> -1) /\ used t1 = ulong (used t + 1))).
    { intros res [([->| ->] & Eu)|(Hr & Eu)] ->.
      - left. split; [left; reflexivity|exact Eu].
      - left. split; [right; reflexivity|exact Eu].
      - right. split; [apply int_slot_ok; exact Hr|exact Eu]. }
    destruct Hexit as [E|E]; rewrite E in Ekey; rewrite E.
    - right. split; [reflexivity|].
      apply return_int_inv in Ekey as (res & Ekey & Ei).
      apply (Hres res); [|exact Ei].
      eapply insertInBranch_used; eauto.
    - destruct (walk_tail t (trieGetTailIndex t s) 0 q) eqn:Ewt.
      + left. inversion Ekey; subst.
        apply walk_tail_in_pool in Ewt. unfold trieGetTrieEntry.
        rewrite Ewt. eexists. split; reflexivity.
      + right. split; [reflexivity|].
        apply return_int_inv in Ekey as (res & Ekey & Ei).
        apply (Hres res); [|exact Ei].
        eapply insertInTail_used; eauto. }
  assert (Hfin : forall b, used t1 = b ->
            used t' = b /\
            (r = TDICT_OK <->
             index <> TRIE_INDEX_ERROR /\ index <> TDICT_ERR /\ index <> -1)).
  { intros b Eb.
    destruct (Z.eqb_spec index TRIE_INDEX_ERROR) as [E0|E0];
      [cbn [orb] in Hadd; inversion Hadd; subst; split;
       [reflexivity|split; [discriminate|intros (A & _); contradiction]]|].
    destruct (Z.eqb_spec index TDICT_ERR) as [E1|E1];
      [cbn [orb] in Hadd; inversion Hadd; subst; split;
       [reflexivity|split; [discriminate|intros (_ & A & _); contradiction]]|].
    destruct (Z.eqb_spec index (-1)) as [E2|E2];
      [cbn [orb] in Hadd; inversion Hadd; subst; split;
       [reflexivity|split; [discriminate|intros (_ & _ & A); contradiction]]|].
    cbn [orb] in Hadd. inversion Hadd; subst r t'.
    rewrite trieSetTailVal_used, trieSetTailKey_used.
    split; [exact Eb|]. split; auto. }
  destruct Hkey as [(e & Ef & Eu)|(Ef & [(Hi & Eu)|(Hi & Eu)])]; rewrite Ef.
  - destruct (Hfin _ Eu) as (-> & _). rewrite andb_false_r. reflexivity.
  - destruct (Hfin _ Eu) as (-> & Hr).
    destruct (Z.eqb_spec r TDICT_OK) as [Er|Er]; [|reflexivity].
    apply Hr in Er. destruct Er as (_ & A & B). destruct Hi; contradiction.
  - destruct (Hfin _ Eu) as (-> & Hr).
    destruct (Z.eqb_spec r TDICT_OK) as [Er|Er]; [reflexivity|].
    exfalso. apply Er, Hr. exact Hi.
Qed.

Lemma tailFreeCell_used (fuel : nat) (t t' : trie) (block : Z) :
  ult (block - TAIL_START_BLOCKNO) (tailsize t) = true ->
  _tailFreeCell fuel t block = Some t' -> used t' = ulong (used t - 1).
Proof.
  intros Hu Hfree. unfold _tailFreeCell in Hfree. unfold ult in Hu.
  destruct (Z.geb_spec (ulong (block - TAIL_START_BLOCKNO))
              (ulong (tailsize t))) as [Hout|_];
    [apply Z.ltb_lt in Hu; lia|].
  destruct (tailFree_scan _ _ _ _ _) as [[j i]|]; [|discriminate].
  inversion Hfree; subst t'. cbn [used with_used].
  destruct (negb (j =? 0)); unfold set_next_free, set_tail;
    cbn [used with_tails with_first_free];
    unfold call_valDestructor, call_keyDestructor;
    destruct (valDestructor _); destruct (keyDestructor _); reflexivity.
Qed.

Lemma trieDelete_used (fuel : nat) (t t' : trie) (k : list Z) (r : Z) :
  da_inv t -> trieDelete fuel t k = Some (r, t') ->
  used t' = if r =? TDICT_OK then ulong (used t - 1) else used t.
Proof.
  intros H Hdel. unfold trieDelete in Hdel.
  destruct (walk_branches_spec (internalKey t k) t DA_POOL_ROOT 0 _ H
              (internalKey_bytes t k) (root_node t H) eq_refl eq_refl)
    as (s & q & m & Hexit & Hs & Hpath & Hq).
  destruct Hexit as [E|E]; rewrite E in Hdel.
  { inversion Hdel; subst. reflexivity. }
  destruct (walk_tail t (trieGetTailIndex t s) 0 q) eqn:Ewt;
    [|inversion Hdel; subst; reflexivity].
  apply walk_tail_in_pool in Ewt.
  pose proof (inv_wf t H) as Hwf. pose proof Hs as (Hsb & _).
  rewrite trieGetTailIndex_base in *. pose proof (small_getB t s H) as Hsm.
  destruct (_tailFreeCell fuel t (- trieGetBase t s)) as [t1|] eqn:Efree;
    [|discriminate].
  pose proof (tailFreeCell_used fuel t t1 _ Ewt Efree) as Eu1.
  assert (Hlti : lng (- trieGetBase t s)) by zlia.
  destruct (tailFreeCell_step fuel t t1 _ (inv_tail t H) Hlti Efree)
    as (Ht1 & Hd1).
  pose proof (same_da_inv t t1 Hd1 Ht1 H) as H1.
  assert (Hs1 : node t1 s) by (apply (same_da_node t t1); auto).
  assert (H2 : da_inv (trieSetBase t1 s TRIE_INDEX_ERROR))
    by (apply setBase_node_inv; auto; [zlia|left; zlia]).
  set (t2 := trieSetBase t1 s TRIE_INDEX_ERROR) in *.
  assert (Hkeep : forall j, node t j ->
             node t2 j /\ trieGetCheck t2 j = trieGetCheck t j).
  { intros j Hj. apply (same_da_node t t1 j Hd1) in Hj as Hj1.
    destruct Hj1 as (A & B). unfold t2. split.
    - split; [rewrite dasize_setB; exact A|]. rewrite getC_setB. exact B.
    - rewrite getC_setB. apply same_da_getC. exact Hd1. }
  pose proof (up_path_keep m t t2 _ s Hpath Hkeep) as Hpath2.
  destruct (_daPrune fuel t2 DA_POOL_ROOT s) as [t3|] eqn:Eprune;
    [|discriminate].
  destruct (daPrune_step fuel m t2 t3 _ s H2 (root_node t2 H2) Hpath2 Eprune)
    as (_ & _ & (_ & _ & _ & Eu3 & _) & _).
  inversion Hdel; subst r t'. cbn [Z.eqb TDICT_OK].
  rewrite Eu3. unfold t2.
  destruct (same_pool_setB t1 s TRIE_INDEX_ERROR) as (_ & _ & _ & Eu2 & _).
  congruence.
Qed.

(** [used], the value of [trieSize], counts the keys: [trieAdd]
    increments it (modulo 2^64) exactly when it returns [TDICT_OK] for
    a key that [trieFind] did not find, and [trieDelete] decrements it
    exactly when it returns [TDICT_OK]. *)
Theorem trieSize_counts_keys :
  (forall fuel t k v r t',
      da_inv t -> pool_ok t -> trieAdd fuel t k v = Some (r, t') ->
      used t' =
        if (r =? TDICT_OK) &&
           match trieFind t k with None => true | _ => false end
        then ulong (used t + 1) else used t) /\
  (forall fuel t k r t',
      da_inv t -> trieDelete fuel t k = Some (r, t') ->
      used t' = if r =? TDICT_OK then ulong (used t - 1) else used t).
Proof.
  split.
  - intros. eapply trieAdd_used; eauto.
  - intros. eapply trieDelete_used; eauto.
Qed.

(** * Adding a key that is present *)

(** Re-adding a present key changes nothing but the slot of that key:
    on a trie that satisfies the ring invariant and whose pool has not
    reached [TRIE_INDEX_MAX] slots, [trieAdd] of a key of at most 32767
    characters that [trieFind] finds returns [TDICT_OK]; afterwards both
    arrays, the pool size, the free chain and the key count are as
    before, and [trieFind] returns for every key what it returned
    before.  The two bounds keep the suffix index within its [short]
    and the slot index within the [int] that [_trieAddKey] returns. *)
Theorem trieAdd_present_keeps_lookups (fuel : nat) (t : trie) (k : list Z)
  (v : valptr) (e : Z) :
  da_inv t -> tailsize t < TRIE_INDEX_MAX ->
  Z.of_nat (length (internalKey t k)) <= 32767 ->
  trieFind t k = Some e ->
  exists t',
    trieAdd fuel t k v = Some (TDICT_OK, t') /\
    same_da t t' /\ tailsize t' = tailsize t /\
    first_free t' = first_free t /\ used t' = used t /\
    forall k', trieFind t' k' = trieFind t k'.
Proof.
  intros H Hcap _ Hfind.
  assert (He : 0 <= e < tailsize t).
  { pose proof Hfind as Hf. unfold trieFind in Hf.
    destruct (walk_branches t DA_POOL_ROOT (internalKey t k)) as [s p|s p];
      [discriminate|].
    destruct (walk_tail t (trieGetTailIndex t s) 0 p); [|discriminate].
    apply trieGetTrieEntry_inv in Hf. destruct Hf as (Hidx & Hu).
    rewrite trieGetTailIndex_base in Hidx. pose proof (small_getB t s H).
    destruct (inv_tail t H) as (Hts & _).
    rewrite ult_spec in Hu by zlia.
    apply andb_prop in Hu as (A & B). apply Z.leb_le in A.
    apply Z.ltb_lt in B. lia. }
  rewrite (trieAdd_present fuel t k v e (base_nonempty t H) Hcap Hfind He).
  eexists. split; [reflexivity|].
  set (i := e + TAIL_START_BLOCKNO).
  destruct (trieSetTailKey_lookup t i (Some k))
    as (Hdak & Hszk & Htyk & Hsfk & _).
  destruct (trieSetTailVal_lookup (trieSetTailKey t i (Some k)) i v)
    as (Hdav & Hszv & Htyv & Hsfv & _).
  split; [eapply same_da_trans; eauto|].
  split; [congruence|]. split.
  { unfold trieSetTailVal, trieSetTailKey.
    repeat match goal with
           | |- context [if ?c then _ else _] => destruct c
           | |- context [match ?c with Some _ => _ | None => _ end] =>
               destruct c
           end; reflexivity. }
  split; [rewrite trieSetTailVal_used, trieSetTailKey_used; reflexivity|].
  intros k'.
  rewrite (trieFind_ext _ _ k' Hdav Hszv Htyv Hsfv).
  apply (trieFind_ext _ _ k' Hdak Hszk Htyk Hsfk).
Qed.

Lemma trieAdd_present_keeps_lookups_witness :
  exists t',
    trieAdd 100 trie_cat key_cat 7 = Some (TDICT_OK, t') /\
    same_da trie_cat t' /\ tailsize t' = tailsize trie_cat /\
    first_free t' = first_free trie_cat /\ used t' = used trie_cat /\
    forall k', trieFind t' k' = trieFind trie_cat k'.
Proof.
  apply (trieAdd_present_keeps_lookups 100 trie_cat key_cat 7 0).
  - exact trie_cat_inv.
  - vm_compute. reflexivity.
  - vm_compute. discriminate.
  - vm_compute. reflexivity.
Defined.

(** * Iterating over a result list *)

Lemma firstn_pad {A : Type} (x : A) (n : nat) :
  forall l k, (n <= k)%nat ->
    firstn n (l ++ repeat x k) = firstn n (l ++ repeat x n).
Proof.
  induction n as [|n IH]; intros l k Hk; [reflexivity|].
  destruct l as [|y l].
  - destruct k as [|k]; [lia|]. cbn [app repeat firstn]. f_equal.
    apply (IH [] k). lia.
  - cbn [app firstn]. f_equal.
    rewrite (IH l k) by lia. rewrite (IH l (S n)) by lia. reflexivity.
Qed.

Lemma trieNext_calls_from (t : trie) (cells : list Z) (safe : Z) :
  Forall (fun s => - 2 ^ 31 < zget (base t) s < 0) cells ->
  forall n m index,
    0 <= index -> (m < length cells)%nat ->
    exists it',
      trieNext_calls n t (mkIter index safe (Some m) (Some cells)) =
        Some (firstn n (map (fun s => trieGetTrieEntry t (- zget (base t) s))
                            (skipn (S m) cells) ++ repeat None n), it').
Proof.
  intros Hcells. induction n as [|n IH]; intros m index Hi Hm.
  - eexists. reflexivity.
  - cbn [trieNext_calls]. unfold trieNext. cbn [iter_result iter_index iter_cur].
    destruct (Z.ltb_spec index 0); [lia|].
    destruct (nth_error cells (S m)) as [s|] eqn:Enth.
    + assert (Hs : - 2 ^ 31 < zget (base t) s < 0).
      { rewrite Forall_forall in Hcells. apply Hcells.
        eapply nth_error_In; eauto. }
      assert (Hlen : (S m < length cells)%nat)
        by (apply nth_error_Some; congruence).
      rewrite int_of_long_id by lia.
      destruct (IH (S m) (- zget (base t) s) ltac:(lia) Hlen) as (it' & E).
      cbn [iter_safe]. rewrite E. exists it'.
      assert (Esk : skipn (S m) cells = s :: skipn (S (S m)) cells).
      { clear - Enth. revert cells Enth. generalize (S m). intros k.
        induction k as [|k IHk]; intros [|c cells] Enth; cbn in *;
          try discriminate.
        - inversion Enth. reflexivity.
        - apply IHk. exact Enth. }
      rewrite Esk. cbn [map app firstn].
      rewrite (firstn_pad None n _ (S n)) by lia. reflexivity.
    + assert (Hlen : (length cells <= S m)%nat)
        by (apply nth_error_None; exact Enth).
      destruct (IH m index Hi Hm) as (it' & E). rewrite E. exists it'.
      rewrite skipn_all2 by exact Hlen. cbn [map app repeat firstn].
      reflexivity.
Qed.

(** Successive calls of [trieNext] on a fresh iterator whose result list
    is not empty and holds tail cells (their base is negative and fits an
    [int]) return the entries of the listed cells in order, each looked
    up under the negated base of its cell, and [NULL] from then on. *)
Theorem trieNext_enumerates (t : trie) (it : trieIterator) (cells : list Z)
  (n : nat) :
  iter_result it = Some cells -> iter_index it < 0 -> cells <> [] ->
  Forall (fun s => - 2 ^ 31 < zget (base t) s < 0) cells ->
  exists it',
    trieNext_calls n t it =
      Some (firstn n (iterator_entries t it ++ repeat None n), it').
Proof.
  intros Hres Hidx Hne Hcells. unfold iterator_entries. rewrite Hres.
  destruct n as [|n]; [eexists; reflexivity|].
  cbn [trieNext_calls]. unfold trieNext. rewrite Hres.
  destruct (Z.ltb_spec (iter_index it) 0); [|lia].
  destruct cells as [|s cells]; [contradiction|].
  assert (Hs : - 2 ^ 31 < zget (base t) s < 0)
    by (apply Forall_cons_iff in Hcells; apply Hcells).
  rewrite int_of_long_id by lia.
  destruct (trieNext_calls_from t (s :: cells) (iter_safe it) Hcells n O
              (- zget (base t) s) ltac:(lia) ltac:(cbn; lia)) as (it' & E).
  rewrite E. exists it'. cbn [skipn map app firstn].
  rewrite (firstn_pad None n _ (S n)) by lia. reflexivity.
Qed.

Lemma trieNext_enumerates_witness :
  exists it it',
    getTrieIterator 100 trie_cat_car DA_POOL_ROOT = Some it /\
    trieNext_calls 4 trie_cat_car it = Some ([Some 1; Some 0; None; None], it').
Proof.
  exists (mkIter (-1) 0 None (Some [21; 23])).
  destruct (trieNext_enumerates trie_cat_car
              (mkIter (-1) 0 None (Some [21; 23])) [21; 23] 4)
    as (it' & E).
  - reflexivity.
  - cbn. lia.
  - discriminate.
  - repeat constructor.
  - exists it'. split; [vm_compute; reflexivity|]. rewrite E. reflexivity.
Defined.

(** * Emptying a trie *)

Lemma trieEmpty_loop (callback : bool) (l : list Z) :
  forall cbs t,
    let r := fold_left (trieEmpty_step callback) l (cbs, t) in
    fst r = cbs ++ filter (fun i => callback && (Z.land i 65535 =? 0)) l /\
    tails (snd r) = tails t /\ type (snd r) = type t /\
    calls (snd r) =
      calls t ++ flat_map (fun i => slot_destructors (type t) (tail_at t i)) l.
Proof.
  induction l as [|i l IH]; intros cbs t; cbn [fold_left filter flat_map].
  - cbv zeta. cbn [fst snd]. rewrite !app_nil_r. auto.
  - set (acc := trieEmpty_step callback (cbs, t) i).
    destruct (IH (fst acc) (snd acc)) as (A & B & C & D).
    cbv zeta in *. rewrite <- surjective_pairing in A, B, C, D.
    assert (Hacc :
      fst acc = cbs ++ (if callback && (Z.land i 65535 =? 0) then [i] else [])
      /\ tails (snd acc) = tails t /\ type (snd acc) = type t /\
      calls (snd acc) = calls t ++ slot_destructors (type t) (tail_at t i)).
    { unfold acc, trieEmpty_step, slot_destructors.
      destruct (suffix (tail_at t i)); cbn [fst snd].
      - split; [destruct (callback && _); [reflexivity|
                                          rewrite app_nil_r; reflexivity]|].
        unfold call_valDestructor, call_keyDestructor.
        destruct (keyDestructor (type t)) eqn:Ek;
          cbn [type with_call]; rewrite ?Ek;
          destruct (valDestructor (type t)) eqn:Ev;
          cbn [tails type calls with_call]; rewrite ?app_nil_r, <- ?app_assoc;
          auto.
      - split; [destruct (callback && _); [reflexivity|
                                          rewrite app_nil_r; reflexivity]|].
        rewrite app_nil_r. auto. }
    destruct Hacc as (A' & B' & C' & D').
    rewrite A, B, C, D, A', B', C', D'.
    split; [|split; [reflexivity|split; [reflexivity|]]].
    + destruct (callback && (Z.land i 65535 =? 0));
        rewrite <- app_assoc; reflexivity.
    + rewrite <- app_assoc. f_equal. f_equal.
      apply flat_map_ext. intros j. unfold tail_at. rewrite B'. reflexivity.
Qed.

Lemma trieEmpty_arrays (t : trie) (callback : bool) :
  base (snd (trieEmpty t callback)) = [] /\
  type (snd (trieEmpty t callback)) = type t.
Proof.
  unfold trieEmpty.
  destruct (trieEmpty_loop callback (zrange 0 (Z.to_nat (tailsize t))) [] t)
    as (_ & _ & C & _).
  cbv zeta in C. destruct (fold_left _ _ _) as [cbs t1]. cbn [fst snd] in *.
  split; [reflexivity|exact C].
Qed.

(** [trieEmpty] calls the callback, when there is one, for the slots
    whose number is a multiple of 65536, and the destructors the type
    has for every slot that holds a suffix, in slot order and the key
    before the value.  Afterwards the trie has no arrays, no pool and no
    key, and [trieFind] returns [NULL] for every key. *)
Theorem trieEmpty_resets (t : trie) (callback : bool) :
  let cbs := fst (trieEmpty t callback) in
  let t' := snd (trieEmpty t callback) in
  cbs = filter (fun i => callback && (Z.land i 65535 =? 0))
               (zrange 0 (Z.to_nat (tailsize t))) /\
  calls t' =
    calls t ++ flat_map (fun i => slot_destructors (type t) (tail_at t i))
                        (zrange 0 (Z.to_nat (tailsize t))) /\
  base t' = [] /\ check t' = [] /\ dasize t' = 0 /\ tails t' = [] /\
  tailsize t' = 0 /\ first_free t' = 0 /\ used t' = 0 /\
  type t' = type t /\
  forall k, trieFind t' k = None.
Proof.
  cbv zeta. unfold trieEmpty.
  destruct (trieEmpty_loop callback (zrange 0 (Z.to_nat (tailsize t))) [] t)
    as (A & B & C & D).
  cbv zeta in *.
  destruct (fold_left _ _ _) as [cbs t1]. cbn [fst snd] in *.
  split; [exact A|]. split; [exact D|].
  repeat (split; [reflexivity|]). split; [exact C|].
  intros k. unfold trieFind.
  set (t' := _trieReset t1).
  assert (Hu : forall x, ult x (dasize t') = false).
  { intros x. unfold ult, ulong. change (dasize t') with 0.
    apply Z.ltb_ge. rewrite Z.mod_0_l by lia.
    apply Z.mod_pos_bound. lia. }
  assert (Hw : forall p, walk_branches t' DA_POOL_ROOT p
                         = NoArc DA_POOL_ROOT p).
  { intros p.
    destruct p; cbn [walk_branches]; unfold trieBranchEnd, _trieWalk,
      trieGetCheck, trieGetBase; rewrite !Hu; reflexivity. }
  rewrite Hw. reflexivity.
Qed.

Lemma trieSetup_reset_inv (t : trie) : da_inv (_trieSetup (_trieReset t)).
Proof.
  apply (same_da_inv (trieCreate (type t) (raw t))).
  - repeat split.
  - split; [|split]; cbn; [zlia|zlia|constructor].
  - apply trieCreate_inv.
Qed.

Lemma trieSetup_reset_pool (t : trie) : pool_ok (_trieSetup (_trieReset t)).
Proof.
  split; [reflexivity|]. split; [left; reflexivity|].
  split; [exists []; reflexivity|constructor].
Qed.

Lemma trieSetup_reset_term (t : trie) : term_ok (_trieSetup (_trieReset t)).
Proof. apply term_ok_by_cells. reflexivity. Qed.

Lemma trieAdd_without_arrays (fuel : nat) (t : trie) (k : list Z) (v : valptr) :
  base t = [] -> trieAdd fuel t k v = trieAdd fuel (_trieSetup t) k v.
Proof.
  intros Hb. unfold trieAdd, _trieAddKey. rewrite Hb. reflexivity.
Qed.

(** A trie that has been emptied can be filled again: the first
    [trieAdd] after [trieEmpty] sets the arrays up anew, so that, if it
    returns, the ring invariant and the pool invariant hold, and a key
    it has accepted is found by [trieFind] (for an encoded key of at
    most 32767 characters, the range of the [short] suffix index). *)
Theorem trieEmpty_then_trieAdd (fuel : nat) (t t' : trie) (callback : bool)
  (k : list Z) (v : valptr) (r : Z) :
  trieAdd fuel (snd (trieEmpty t callback)) k v = Some (r, t') ->
  da_inv t' /\ pool_ok t' /\
  (r = TDICT_OK -> Z.of_nat (length (internalKey t k)) <= 32767 ->
   exists e,
     trieFind t' k = Some e /\
     (keyDup (type t) = None -> key (tail_at t' e) = Some k) /\
     (valDup (type t) = None -> val (tail_at t' e) = v)).
Proof.
  destruct (trieEmpty_arrays t callback) as (Hb & Hty).
  unfold trieEmpty in *.
  destruct (fold_left _ _ _) as [cbs t1]. cbn [snd] in *.
  intros Hadd. rewrite trieAdd_without_arrays in Hadd by reflexivity.
  set (t0 := _trieSetup (_trieReset t1)) in *.
  pose proof (trieSetup_reset_inv t1) as H0.
  pose proof (trieSetup_reset_pool t1) as Hp0.
  pose proof (trieSetup_reset_term t1) as Ht0. fold t0 in H0, Hp0, Ht0.
  assert (Hty0 : type t0 = type t) by exact Hty.
  split; [|split].
  - apply (trieAdd_step fuel t0 t' k v r H0); [vm_compute; reflexivity|exact Hadd].
  - apply (trieAdd_pool fuel t0 t' k v r H0 Hp0 Hadd).
  - intros -> Hlen.
    assert (Hcap : tailsize t0 < TRIE_INDEX_MAX) by (vm_compute; reflexivity).
    assert (Hlen0 : Z.of_nat (length (internalKey t0 k)) <= 32767)
      by (unfold internalKey; rewrite Hty0; exact Hlen).
    destruct (trieAdd_finds fuel t0 t' k v H0 Hp0 Ht0 Hcap Hlen0 Hadd)
      as (e & He).
    exists e. rewrite <- Hty0. destruct He as (A & _ & B & C). auto.
Qed.

Lemma trieEmpty_then_trieAdd_witness :
  exists t',
    trieAdd 100 (snd (trieEmpty trie_cat_car true)) key_cat 3
      = Some (TDICT_OK, t') /\
    da_inv t' /\ pool_ok t' /\ trieFind t' key_cat = Some 0 /\
    key (tail_at t' 0) = Some key_cat /\ val (tail_at t' 0) = 3.
Proof.
  assert (E : exists t', trieAdd 100 (snd (trieEmpty trie_cat_car true))
                           key_cat 3 = Some (TDICT_OK, t'))
    by (eexists; vm_compute; reflexivity).
  destruct E as (t' & E). exists t'. split; [exact E|].
  destruct (trieEmpty_then_trieAdd 100 trie_cat_car t' true key_cat 3
              TDICT_OK E) as (A & B & C).
  split; [exact A|]. split; [exact B|].
  destruct (C eq_refl) as (e & He & Hk & Hv); [vm_compute; discriminate|].
  assert (E0 : trieFind t' key_cat = Some 0).
  { vm_compute in E. injection E as <-. vm_compute. reflexivity. }
  rewrite E0 in He. injection He as <-.
  split; [exact E0|]. split; [apply Hk|apply Hv]; reflexivity.
Defined.

(** * Resizing *)

Lemma int_of_long_range (x : Z) : - 2 ^ 31 <= int_of_long x < 2 ^ 31.
Proof.
  unfold int_of_long. cbv zeta.
  pose proof (Z.mod_pos_bound x (2 ^ 32) ltac:(lia)) as Hm.
  change (2 ^ 32) with 4294967296 in *. change (2 ^ 31) with 2147483648 in *.
  destruct (Z.ltb_spec (x mod 4294967296) 2147483648); lia.
Qed.

(** [trieResize] grows the double array to hold at least as many cells
    as there are keys (the count read as an [int], and at least
    [DA_POOL_BEGIN]); it never shrinks the array.  It fails only when
    that count is [TRIE_INDEX_MAX], and then changes nothing.  The ring
    invariant, the pool, the key count and every lookup are kept. *)
Theorem trieResize_behaviour (t : trie) :
  da_inv t ->
  let m := Z.max DA_POOL_BEGIN (int_of_long (used t)) in
  let r := fst (trieResize t) in
  let t' := snd (trieResize t) in
  (r = TDICT_OK \/ r = TDICT_ERR) /\
  (r = TDICT_ERR <-> int_of_long (used t) = TRIE_INDEX_MAX) /\
  (r = TDICT_ERR -> t' = t) /\
  (r = TDICT_OK -> m <= dasize t') /\
  dasize t <= dasize t' /\ da_inv t' /\
  tails t' = tails t /\ tailsize t' = tailsize t /\
  first_free t' = first_free t /\ used t' = used t /\
  forall k, trieFind t' k = trieFind t k.
Proof.
  intros H m r t'. pose proof (int_of_long_range (used t)) as Hrange.
  change (2 ^ 31) with 2147483648 in Hrange.
  assert (Em : trieResize t = trieExpand t m).
  { unfold trieResize, m. cbv zeta. unfold DA_POOL_BEGIN.
    destruct (Z.ltb_spec (int_of_long (used t)) 3); f_equal; lia. }
  unfold r, t'. rewrite Em. clear r t' Em.
  assert (Hm : 3 <= m < 2147483648) by (unfold m, DA_POOL_BEGIN; lia).
  destruct (Z_le_gt_dec TRIE_INDEX_MAX m) as [Hmax|Hlt].
  - rewrite (expand_refused t m) by (right; exact Hmax). cbn [fst snd].
    split; [right; reflexivity|]. split.
    { split; [intros _|reflexivity]. unfold m, DA_POOL_BEGIN, TRIE_INDEX_MAX in *.
      lia. }
    split; [reflexivity|]. split; [discriminate|]. split; [lia|].
    split; [exact H|]. repeat (split; [reflexivity|]). reflexivity.
  - destruct (expand_step t m H ltac:(zlia)) as (Hg & Hr & Hok & Herr).
    assert (Hrok : fst (trieExpand t m) = TDICT_OK).
    { destruct Hr as [|E]; [assumption|]. apply Herr in E. lia. }
    split; [exact Hr|]. split.
    { split; [intros E; rewrite Hrok in E; discriminate|].
      intros E. unfold m, DA_POOL_BEGIN, TRIE_INDEX_MAX in *. lia. }
    split; [intros E; rewrite Hrok in E; discriminate|].
    split; [intros _; apply Hok; exact Hrok|].
    pose proof Hg as (H' & Hd & (A & B & C & D & _) & _).
    split; [exact Hd|]. split; [exact H'|].
    split; [exact A|]. split; [exact B|]. split; [exact C|].
    split; [exact D|]. intros k. apply grown_trieFind; assumption.
Qed.

Lemma trieResize_behaviour_witness :
  fst (trieResize trie_cat_car) = TDICT_OK /\
  snd (trieResize trie_cat_car) = trie_cat_car /\
  forall k, trieFind (snd (trieResize trie_cat_car)) k = trieFind trie_cat_car k.
Proof.
  assert (Hinv : da_inv trie_cat_car).
  { apply (trieAdd_step 100 trie_cat trie_cat_car key_car 5 TDICT_OK).
    - exact trie_cat_inv.
    - vm_compute. reflexivity.
    - vm_compute. reflexivity. }
  destruct (trieResize_behaviour trie_cat_car Hinv)
    as (_ & _ & _ & _ & _ & _ & _ & _ & _ & _ & Hfind).
  split; [vm_compute; reflexivity|]. split; [vm_compute; reflexivity|].
  exact Hfind.
Defined.

Lemma ascending_app (l1 l2 : list Z) :
  ascending (l1 ++ l2) <->
  ascending l1 /\ ascending l2 /\ forall a b, In a l1 -> In b l2 -> a < b.
Proof.
  induction l1 as [|x l1 IH]; cbn [app ascending].
  - split; [intros H; repeat split; auto; intros a b []|tauto].
  - rewrite IH, Forall_app, !Forall_forall. split.
    + intros ((H1 & H2) & H3 & H4 & H5). repeat split; auto.
      intros a b [<-|Ha] Hb; auto.
    + intros ((H1 & H2) & H3 & H4). repeat split; auto.
      * intros b Hb. apply H4; [left; reflexivity|exact Hb].
      * intros a b Ha Hb. apply H4; [right; exact Ha|exact Hb].
Qed.

Lemma ascending_zget (l : list Z) :
  ascending l ->
  forall i j, 0 <= i -> i < j -> j < Z.of_nat (length l) -> zget l i < zget l j.
Proof.
  induction l as [|x l IH]; intros Hl i j Hi Hij Hj; cbn [length] in Hj; [lia|].
  destruct Hl as (Hx & Hl). unfold zget in *.
  destruct (Z.to_nat i) as [|i'] eqn:Ei, (Z.to_nat j) as [|j'] eqn:Ej;
    try lia; cbn [nth].
  - rewrite Forall_forall in Hx. apply Hx, nth_In. lia.
  - specialize (IH Hl (Z.of_nat i') (Z.of_nat j')).
    rewrite !Nat2Z.id in IH. apply IH; lia.
Qed.

Lemma ascending_filter (p : Z -> bool) (l : list Z) :
  ascending l -> ascending (filter p l).
Proof.
  induction l as [|x l IH]; cbn [filter ascending]; [auto|].
  intros (Hx & Hl). destruct (p x); cbn [ascending]; auto.
  split; auto. rewrite Forall_forall in *. intros b Hb.
  apply filter_In in Hb. apply Hx, Hb.
Qed.

Lemma ascending_zrange (k : nat) : forall lo, ascending (zrange lo k).
Proof.
  induction k as [|k IH]; intros lo; cbn [zrange ascending]; auto.
  split; auto. apply Forall_forall. intros b Hb. apply zrange_In in Hb. lia.
Qed.

(** The binary search of [symbols_add] on an ascending array: it stops
    with [None] only at an occurrence of [c], and otherwise at the
    position that splits the array into the symbols below [c] and the
    symbols above. *)
Lemma symbols_search_sorted (syms : Symbols) (c : Z) :
  ascending syms ->
  forall fuel lower upper,
    0 <= lower <= upper -> upper <= Z.of_nat (length syms) ->
    (upper - lower < Z.of_nat fuel) ->
    (forall i, 0 <= i < lower -> zget syms i < c) ->
    (forall i, upper <= i < Z.of_nat (length syms) -> c < zget syms i) ->
    match symbols_search fuel syms c lower upper with
    | None => In c syms
    | Some pos =>
      0 <= pos <= Z.of_nat (length syms) /\
      (forall i, 0 <= i < pos -> zget syms i < c) /\
      (forall i, pos <= i < Z.of_nat (length syms) -> c < zget syms i)
    end.
Proof.
  intros Hasc. unfold Symbols, TrieChar in *.
  induction fuel as [|f IH]; intros lower upper Hlo Hup Hf Hbelow Habove;
    [lia|].
  cbn [symbols_search].
  destruct (Z.ltb_spec lower upper).
  - set (m := (lower + upper) / 2) in *.
    assert (Hm : lower <= m < upper).
    { pose proof (Z.div_mod (lower + upper) 2 ltac:(lia)) as Hdm.
      pose proof (Z.mod_pos_bound (lower + upper) 2 ltac:(lia)) as Hmb.
      fold m in Hdm. lia. }
    clearbody m.
    destruct (Z.gtb_spec c (zget syms m)).
    + apply IH; try lia.
      * intros i Hi. destruct (Z.eq_dec i m) as [->|Hne]; [lia|].
        destruct (Z_lt_ge_dec i lower); [apply Hbelow; lia|].
        pose proof (ascending_zget syms Hasc i m ltac:(lia) ltac:(lia) ltac:(lia)).
        lia.
      * exact Habove.
    + destruct (Z.ltb_spec c (zget syms m)).
      * apply IH; try lia.
        -- exact Hbelow.
        -- intros i Hi. destruct (Z.eq_dec i m) as [->|Hne]; [lia|].
           destruct (Z_lt_ge_dec i upper); [|apply Habove; lia].
           pose proof (ascending_zget syms Hasc m i ltac:(lia) ltac:(lia) ltac:(lia)).
           lia.
      * assert (c = zget syms m) by lia. subst c. unfold zget.
        apply nth_In. unfold TrieChar in *. lia.
  - assert (lower = upper) by lia. subst upper.
    split; [lia|]. split; [exact Hbelow|exact Habove].
Qed.

Lemma In_firstn_zget (l : list Z) (n : nat) (x : Z) :
  In x (firstn n l) -> exists i, 0 <= i < Z.of_nat n /\ i < Z.of_nat (length l) /\ x = zget l i.
Proof.
  revert n. induction l as [|a l IH]; intros n Hx; destruct n as [|n];
    cbn [firstn In] in Hx; try contradiction.
  destruct Hx as [<-|Hx].
  - exists 0. cbn [length]. split; [lia|]. split; [lia|]. reflexivity.
  - destruct (IH n Hx) as (i & Hi & Hl & E). exists (i + 1). cbn [length].
    split; [lia|]. split; [lia|]. rewrite E. unfold zget.
    replace (Z.to_nat (i + 1)) with (S (Z.to_nat i)) by lia. reflexivity.
Qed.

Lemma In_skipn_zget (l : list Z) (n : nat) (x : Z) :
  In x (skipn n l) -> exists i, Z.of_nat n <= i < Z.of_nat (length l) /\ x = zget l i.
Proof.
  revert n. induction l as [|a l IH]; intros n Hx; destruct n as [|n];
    cbn [skipn In] in Hx; try contradiction.
  - destruct Hx as [<-|Hx].
    + exists 0. cbn [length]. split; [lia|]. reflexivity.
    + destruct (IH 0%nat) as (i & Hi & E).
      { destruct l; exact Hx. }
      exists (i + 1). cbn [length]. split; [lia|]. rewrite E. unfold zget.
      replace (Z.to_nat (i + 1)) with (S (Z.to_nat i)) by lia. reflexivity.
  - destruct (IH n Hx) as (i & Hi & E). exists (i + 1). cbn [length].
    split; [lia|]. rewrite E. unfold zget.
    replace (Z.to_nat (i + 1)) with (S (Z.to_nat i)) by lia. reflexivity.
Qed.

Lemma ascending_firstn (l : list Z) (n : nat) : ascending l -> ascending (firstn n l).
Proof.
  intros H. rewrite <- (firstn_skipn n l) in H. apply ascending_app in H. tauto.
Qed.

Lemma ascending_skipn (l : list Z) (n : nat) : ascending l -> ascending (skipn n l).
Proof.
  intros H. rewrite <- (firstn_skipn n l) in H. apply ascending_app in H. tauto.
Qed.

(** The symbol set is kept in strictly ascending order.  For a cell in
    use [_daFillSymbols] returns, in ascending order and each once, the
    labels below [TRIE_CHAR_MAX] of the cells whose [check] names [s];
    [symbols_add] keeps an ascending set ascending and makes it hold [c]
    besides what it held, adding nothing when [c] is there already. *)
Theorem symbols_stay_sorted :
  (forall t s,
     da_inv t -> node t s ->
     ascending (_daFillSymbols t s) /\
     forall c, In c (_daFillSymbols t s) <->
               0 <= c < TRIE_CHAR_MAX /\ c < TRIE_INDEX_MAX - trieGetBase t s /\
               c < dasize t /\ trieGetCheck t (trieGetBase t s + c) = s) /\
  (forall syms c,
     ascending syms ->
     ascending (symbols_add syms c) /\
     (forall x, In x (symbols_add syms c) <-> x = c \/ In x syms) /\
     (In c syms -> symbols_add syms c = syms) /\
     (~ In c syms -> symbols_num (symbols_add syms c) = symbols_num syms + 1)).
Proof.
  split.
  - intros t s H Hs. pose proof (inv_wf t H) as (Hd & _).
    unfold _daFillSymbols. rewrite fold_filter. cbn [app symbols_new].
    split; [apply ascending_filter, ascending_zrange|].
    intros c. rewrite filter_In, zrange_In, Z.eqb_eq.
    assert (Hb : - 4294967296 <= trieGetBase t s <= TRIE_INDEX_MAX).
    { pose proof (inv_base t H s Hs) as Hb.
      pose proof (small_getB t s H) as Hsm. unfold small in Hsm.
      unfold TRIE_INDEX_MAX in *. lia. }
    assert (Hk : Z.of_nat (Z.to_nat (MIN_VAL_u
                 (MIN_VAL TRIE_CHAR_MAX (TRIE_INDEX_MAX - trieGetBase t s))
                 (dasize t)))
               = Z.min (Z.min 255 (TRIE_INDEX_MAX - trieGetBase t s)) (dasize t)).
    { unfold MIN_VAL_u, MIN_VAL, TRIE_CHAR_MAX.
      destruct (Z.ltb_spec 255 (TRIE_INDEX_MAX - trieGetBase t s));
        rewrite !ulong_small by zlia;
        match goal with |- context [?a <? ?b] => destruct (Z.ltb_spec a b) end;
        lia. }
    rewrite Hk. unfold TRIE_CHAR_MAX. lia.
  - intros syms c Hasc.
    assert (Hs := symbols_search_sorted syms c Hasc (S (length syms)) 0
                    (symbols_num syms)).
    unfold symbols_add, symbols_num in *. unfold Symbols, TrieChar in *.
    specialize (Hs ltac:(lia) ltac:(lia) ltac:(lia) ltac:(intros; lia) ltac:(intros; lia)).
    destruct (symbols_search _ _ _ _ _) as [pos|] eqn:E.
    + destruct Hs as (Hpos & Hb & Ha).
      assert (Hnot : ~ In c syms).
      { intros Hin. apply (In_nth _ _ 0) in Hin as (n & Hn & En).
        destruct (Z_lt_ge_dec (Z.of_nat n) pos).
        - specialize (Hb (Z.of_nat n) ltac:(lia)). unfold zget in Hb.
          rewrite Nat2Z.id in Hb. unfold TrieChar in *. lia.
        - specialize (Ha (Z.of_nat n) ltac:(unfold TrieChar in *; lia)). unfold zget in Ha.
          rewrite Nat2Z.id in Ha. unfold TrieChar in *. lia. }
      split; [|split; [|split]].
      * apply ascending_app. split; [apply ascending_firstn, Hasc|].
        cbn [ascending]. split; [split; [|apply ascending_skipn, Hasc]|].
        -- apply Forall_forall. intros b Hb'. apply In_skipn_zget in Hb' as (i & Hi & ->).
           apply Ha. lia.
        -- intros a b Ha' [<-|Hb'].
           ++ apply In_firstn_zget in Ha' as (i & Hi & Hl & ->). apply Hb. lia.
           ++ apply In_firstn_zget in Ha' as (i & Hi & Hl & ->).
              apply In_skipn_zget in Hb' as (j & Hj & ->).
              apply ascending_zget; [exact Hasc|lia|lia|lia].
      * intros x. rewrite in_app_iff. cbn [In].
        rewrite <- (firstn_skipn (Z.to_nat pos) syms) at 3. rewrite in_app_iff.
        split; [intros [?|[?|?]]|intros [?|[?|?]]]; auto.
      * intros Hin. contradiction.
      * intros _. unfold symbols_num. rewrite length_app. cbn [length].
        rewrite <- (firstn_skipn (Z.to_nat pos) syms) at 3. rewrite length_app. lia.
    + split; [exact Hasc|]. 
      assert (Hin : In c syms) by exact Hs.
      split; [|split].
      * intros x. split; [auto|]. intros [->|?]; auto.
      * reflexivity.
      * intros Hn. contradiction.
Qed.

Lemma prefix_branches_arcs (pre : cstr) :
  forall t hw s s' q, arcs t s pre s' ->
    prefix_branches t hw s (pre ++ q) = prefix_branches t hw s' q.
Proof.
  induction pre as [|c pre IH]; intros t hw s s' q Harcs; cbn [arcs] in Harcs.
  - subst s'. reflexivity.
  - destruct Harcs as (Hc & Hb & Hch & Hrest).
    cbn [app]. destruct q as [|d q]; cbn [prefix_branches];
      rewrite trieBranchEnd_base;
      (destruct (Z.ltb_spec (trieGetBase t s) 0); [lia|]);
      cbn [deref hd]; (destruct (Z.eqb_spec c 0); [contradiction|]);
      cbn [andb]; unfold _trieWalk; rewrite Hch, Z.eqb_refl;
      (destruct (Z.eqb_spec 0 c); [congruence|]);
      apply (IH t hw _ s'); exact Hrest.
Qed.

(** A wildcard search whose prefix stays in the branches: when the
    encoded pattern leads from the root along arcs to the branch cell
    [s] and ends there, [triePrefixSearch] is [getTrieIterator] started
    at [s]; when the pattern goes on with a character for which [s] has
    no arc, the search returns an iterator without a result list, for
    which [trieNext] returns [NULL] at once. *)
Theorem triePrefixSearch_in_branches (fuel : nat) (t : trie) (k : list Z)
  (pre rest : cstr) (s : Z) :
  has_wildcard k = true ->
  internalKey t k = pre ++ rest ->
  arcs t DA_POOL_ROOT pre s -> trieBranchEnd t s = false ->
  (rest = [] -> triePrefixSearch fuel t k = getTrieIterator fuel t s) /\
  (rest <> [] -> _trieWalk t s (deref rest) = None ->
   triePrefixSearch fuel t k = Some emptyIterator /\
   forall t', option_map fst (trieNext t' emptyIterator) = Some None).
Proof.
  intros Hw Ek Harcs Hb. unfold triePrefixSearch. rewrite Hw, Ek.
  rewrite (prefix_branches_arcs pre t true DA_POOL_ROOT s rest Harcs).
  split.
  - intros ->. cbn [prefix_branches]. rewrite Hb. cbn [deref hd].
    reflexivity.
  - intros Hne Hno. destruct rest as [|c rest]; [congruence|].
    assert (Hc : c <> 0).
    { pose proof (internalKey_nonzero t k) as Hnz. rewrite Ek in Hnz.
      apply Forall_app in Hnz as (_ & Hnz).
      apply Forall_cons_iff in Hnz as (Hc & _). exact Hc. }
    cbn [prefix_branches]. rewrite Hb. cbn [deref hd] in *.
    destruct (Z.eqb_spec c 0); [contradiction|]. cbn [andb].
    rewrite Hno. split; [reflexivity|]. intros t'. reflexivity.
Qed.

Lemma triePrefixSearch_in_branches_witness :
  triePrefixSearch 100 trie_cat_car pattern_c = getTrieIterator 100 trie_cat_car 6 /\
  option_map iter_result (triePrefixSearch 100 trie_cat_car pattern_c)
  = Some (Some [21; 23]).
Proof.
  assert (E : triePrefixSearch 100 trie_cat_car pattern_c
              = getTrieIterator 100 trie_cat_car 6).
  { apply (triePrefixSearch_in_branches 100 trie_cat_car pattern_c [3] [] 6).
    - vm_compute. reflexivity.
    - vm_compute. reflexivity.
    - vm_compute. repeat split; discriminate.
    - vm_compute. reflexivity.
    - reflexivity. }
  split; [exact E|]. rewrite E. vm_compute. reflexivity.
Defined.
